(** * ureadahead: the trace-and-pack builder of [src/trace.c]

    A shallow embedding of the device/inode/range index, the trace event
    consumer, the path handler, the pack assembler, the range intersector,
    the post-processing sorts, the session controller and [main], followed
    by the properties the specification states about them and by further
    properties of the code. *)

From Stdlib Require Import Ascii String.
From Stdlib Require Import ZArith List Bool Lia Arith Permutation Sorted.
Import ListNotations.
Open Scope Z_scope.

(** ** Machine integers

    [off_t], [loff_t] and [long] are 64-bit two's-complement integers,
    [size_t], [dev_t] and [unsigned long] are 64-bit unsigned integers.
    Values are held in [Z]; the wrap-around of each arithmetic result is
    written out. *)

Definition OFF_MAX : Z := 2 ^ 63 - 1.
Definition SIZE_MAX : Z := 2 ^ 64 - 1.

(** The value a 64-bit signed object holds after [z] is stored in it. *)
Definition off_t (z : Z) : Z := (z + 2 ^ 63) mod 2 ^ 64 - 2 ^ 63.

(** The value a 64-bit unsigned object holds after [z] is stored in it. *)
Definition size_t (z : Z) : Z := z mod 2 ^ 64.

(** The value a [__u64] object holds after [z] is stored in it. *)
Definition __u64 (z : Z) : Z := z mod 2 ^ 64.

Definition nih_max (a b : Z) : Z := if a >? b then a else b.
Definition nih_min (a b : Z) : Z := if a <? b then a else b.

(** ** libc: [bsearch]

    [bsearch (key, base, nmemb, size, compar)] is the C library's binary
    search.  An element is named by its index from [base]; [compar] already
    holds the key and is handed the index of the element it is compared
    with, so a comparator that looks at the element stored before its
    argument (as [cmp_file_map_range] does) can be written as in the source.
    The loop is the usual one: halve [[l, u)] until the comparator answers
    zero.  [fuel] bounds the number of halvings; [nmemb] of them are enough. *)

Fixpoint bsearch_loop (fuel : nat) (compar : nat -> Z) (l u : nat) : option nat :=
  match fuel with
  | O => None
  | S fuel' =>
      if (l <? u)%nat then
        let idx := ((l + u) / 2)%nat in
        let comparison := compar idx in
        if comparison <? 0 then bsearch_loop fuel' compar l idx
        else if comparison >? 0 then bsearch_loop fuel' compar (idx + 1)%nat u
        else Some idx
      else None
  end.

Definition bsearch (compar : nat -> Z) (nmemb : nat) : option nat :=
  bsearch_loop (S nmemb) compar 0%nat nmemb.

(** ** The range index: [struct file_map], [struct inode_data] *)

(** A half-open range of page indices: [fm_start] inclusive, [fm_end]
    exclusive. *)
Record file_map : Type := mk_file_map { fm_start : Z; fm_end : Z }.

(** [FILEMAP_START_MARK] is [(unsigned long)-1]; stored in the [off_t]
    field [start] it reads back as [-1], and the comparison
    [b1->start == FILEMAP_START_MARK] converts both sides to
    [unsigned long]. *)
Definition FILEMAP_START_MARK : Z := SIZE_MAX.

Definition PAGE_SHIFT : Z := 12.

(** The element allocated in front of every range array.  Its [end] field
    is never written by the source and never read ([||] short-circuits). *)
Definition start_mark : file_map := mk_file_map (off_t FILEMAP_START_MARK) 0.

(** [base[i]] for a range array; [base[-1]] is the start mark. *)
Definition map_at (maps : list file_map) (i : nat) : file_map :=
  nth i maps start_mark.

(** [*(b - 1)] for [b = &base[i]]. *)
Definition map_before (maps : list file_map) (i : nat) : file_map :=
  match i with
  | O => start_mark
  | S j => map_at maps j
  end.

(** [cmp_file_map]: a match when [a] is within or touches [b]. *)
Definition cmp_file_map (a b : file_map) : Z :=
  if fm_end a <? fm_start b then -1
  else if fm_end b <? fm_start a then 1 else 0.

(** [cmp_file_map_range (a, b2)] with [b2 = &maps[i]] and [b1 = b2 - 1]. *)
Definition cmp_file_map_range (a : file_map) (maps : list file_map) (i : nat) : Z :=
  let b2 := map_at maps i in
  let b1 := map_before maps i in
  if fm_end a <? fm_start b2 then
    if (size_t (fm_start b1) =? FILEMAP_START_MARK) || (fm_start a >? fm_end b1)
    then 0 else -1
  else 1.

(** [memmove (&a[dst], &a[src], n * sizeof *a)] inside one array. *)
Definition memmove {A : Type} (a : list A) (dst src n : nat) : list A :=
  firstn dst a ++ firstn n (skipn src a) ++ skipn (dst + n) a.

(** [a[i] = v]; the array keeps its length. *)
Fixpoint store {A : Type} (a : list A) (i : nat) (v : A) : list A :=
  match a, i with
  | [], _ => []
  | _ :: rest, O => v :: rest
  | x :: rest, S j => x :: store rest j v
  end.

(** [add_map]: insert the range of a request that touches no stored range.
    The three cases of the [switch] on [nr_maps] are kept.  [realloc] grows
    the array by one slot at its end; the slot is filled by the [memmove]
    or by the final stores. *)
Definition add_map (maps : list file_map) (index last_index : Z) : list file_map :=
  let new := mk_file_map index (off_t (last_index + 1)) in
  match maps with
  | [] => [new]
  | [m0] =>
      if fm_start m0 >? index then [new; m0] else [m0; new]
  | _ =>
      let key := mk_file_map index (off_t (last_index + 1)) in
      let nr_maps := length maps in
      let idx :=
        match bsearch (cmp_file_map_range key maps) nr_maps with
        | Some i => i
        | None => nr_maps
        end in
      let grown := maps ++ [start_mark] in
      let moved :=
        if (idx <? nr_maps)%nat
        then memmove grown (idx + 1) idx (nr_maps - idx)
        else grown in
      store moved idx new
  end.

(** The walk to the lowest entry of the run that matches [key]:
    [while (lower_bound - 1 >= inode->map &&
            cmp_file_map (lower_bound - 1, &key) == 0) lower_bound--;] *)
Fixpoint lower_bound_walk (maps : list file_map) (key : file_map) (lower : nat) : nat :=
  match lower with
  | O => O
  | S below =>
      if cmp_file_map (map_at maps below) key =? 0
      then lower_bound_walk maps key below
      else lower
  end.

(** The walk to the highest entry of the run:
    [while (upper_bound + 1 < inode->map + inode->nr_maps &&
            cmp_file_map (upper_bound + 1, &key) == 0) upper_bound++;] *)
Fixpoint upper_bound_walk (fuel : nat) (maps : list file_map) (key : file_map)
         (upper : nat) : nat :=
  match fuel with
  | O => upper
  | S fuel' =>
      if ((upper + 1 <? length maps)%nat
          && (cmp_file_map (map_at maps (upper + 1)) key =? 0))%bool
      then upper_bound_walk fuel' maps key (upper + 1)
      else upper
  end.

(** The part of [trace_add_file_map] that works on the range array of the
    inode found or created for the request: pages [index .. last_index]
    (both inclusive) were touched. *)
Definition inode_add_file_map (maps : list file_map) (index last_index : Z)
  : list file_map :=
  let key := mk_file_map index (off_t (last_index + 1)) in
  match bsearch (fun i => cmp_file_map key (map_at maps i)) (length maps) with
  | None => add_map maps index last_index
  | Some m =>
      let map := map_at maps m in
      if ((fm_start map <=? fm_start key) && (fm_end map >=? fm_end key))%bool
      then maps
      else
        let lower_bound := lower_bound_walk maps key m in
        let upper_bound := upper_bound_walk (length maps) maps key m in
        let merged :=
          mk_file_map (nih_min (fm_start (map_at maps lower_bound)) (fm_start key))
                      (nih_max (fm_end (map_at maps upper_bound)) (fm_end key)) in
        let maps1 := store maps lower_bound merged in
        if (lower_bound =? upper_bound)%nat then maps1
        else
          let idx := upper_bound in
          let nr_maps := length maps in
          let maps2 :=
            if (idx <? nr_maps - 1)%nat
            then memmove maps1 (lower_bound + 1) (upper_bound + 1) (nr_maps - idx - 1)
            else maps1 in
          firstn (nr_maps - (upper_bound - lower_bound)) maps2
  end.

(** A request as [record_access] receives it. *)
Definition record_accesses (calls : list (Z * Z)) : list file_map :=
  fold_left (fun maps c => inode_add_file_map maps (fst c) (snd c)) calls [].

(** ** The device hash: [struct inode_data], [struct device_data] *)

Definition HASH_BITS : Z := 16.
Definition HASH_SIZE : Z := Z.shiftl 1 HASH_BITS.
Definition HASH_MASK : Z := HASH_SIZE - 1.

(** The file maps of one file: [inode] is the inode number, [inode_map] the
    sorted array [map] of [nr_maps] ranges (the field is renamed so that it
    does not hide the list function of that name). *)
Record inode_data : Type := mk_inode_data {
  inode : Z;
  inode_map : list file_map
}.

(** The inodes of one device: [dev_id] is the field [id], [dev_inodes] the
    sorted array [inodes] of [nr_inodes] entries. *)
Record device_data : Type := mk_device_data {
  dev_id : Z;
  dev_inodes : list inode_data
}.

(** [device_hash[key]] for [key] in [0 .. HASH_SIZE - 1]: the chain of
    devices hanging off that bucket, first device first. *)
Definition device_hash : Type := Z -> list device_data.

(** [memset (device_hash, 0, ...)] *)
Definition empty_device_hash : device_hash := fun _ => [].

(** The element allocated in front of every inode array. *)
Definition inode_mark : inode_data := mk_inode_data FILEMAP_START_MARK [].

Definition inode_at (inodes : list inode_data) (i : nat) : inode_data :=
  nth i inodes inode_mark.

Definition inode_before (inodes : list inode_data) (i : nat) : inode_data :=
  match i with
  | O => inode_mark
  | S j => inode_at inodes j
  end.

Definition cmp_inodes (a b : inode_data) : Z :=
  if inode a <? inode b then -1
  else if inode a >? inode b then 1 else 0.

(** [cmp_inodes_range (a, b2)] with [b2 = &inodes[i]] and [b1 = b2 - 1]. *)
Definition cmp_inodes_range (a : inode_data) (inodes : list inode_data) (i : nat) : Z :=
  let b2 := inode_at inodes i in
  let b1 := inode_before inodes i in
  if inode a <? inode b2 then
    if (inode b1 =? FILEMAP_START_MARK) || (inode a >? inode b1) then 0 else -1
  else 1.

(** [find_inode]: the index of the entry of [dev->inodes] found, if any. *)
Definition find_inode (dev : device_data) (ino : Z) : option nat :=
  let key := mk_inode_data ino [] in
  bsearch (fun i => cmp_inodes key (inode_at (dev_inodes dev) i))
          (length (dev_inodes dev)).

(** [add_inode]: the device with the new inode in its array, and the index
    of the new entry. *)
Definition add_inode (dev : device_data) (ino : Z) : device_data * nat :=
  let fresh := mk_inode_data ino [] in
  let inodes := dev_inodes dev in
  match inodes with
  | [] => (mk_device_data (dev_id dev) [fresh], O)
  | [i0] =>
      if inode i0 >? ino
      then (mk_device_data (dev_id dev) [fresh; i0], O)
      else (mk_device_data (dev_id dev) [i0; fresh], 1%nat)
  | _ =>
      let key := mk_inode_data ino [] in
      let nr_inodes := length inodes in
      let index :=
        match bsearch (cmp_inodes_range key inodes) nr_inodes with
        | Some i => i
        | None => nr_inodes
        end in
      let grown := inodes ++ [inode_mark] in
      let moved :=
        if (index <? nr_inodes)%nat
        then memmove grown (index + 1) index (nr_inodes - index)
        else grown in
      (mk_device_data (dev_id dev) (store moved index fresh), index)
  end.

(** The walk of one bucket's chain in [find_device]: the position of the
    first device whose [id] is the one looked for. *)
Fixpoint find_in_chain (chain : list device_data) (id : Z) : option nat :=
  match chain with
  | [] => None
  | dev :: next =>
      if dev_id dev =? id then Some O
      else option_map S (find_in_chain next id)
  end.

Definition find_device (hash : device_hash) (id : Z) : option nat :=
  let key := Z.land id HASH_MASK in
  find_in_chain (hash key) id.

(** [add_device]: a zeroed device is linked in front of its bucket. *)
Definition add_device (hash : device_hash) (id : Z) : device_hash * nat :=
  let key := Z.land id HASH_MASK in
  let dev := mk_device_data id [] in
  ((fun k => if k =? key then dev :: hash key else hash k), O).

Definition no_device : device_data := mk_device_data 0 [].

(** [trace_add_file_map]: pages [index .. last_index] of inode [ino] on
    device [dev_id] were touched.  The device and the inode are found or
    created, then the range is merged into the inode's array. *)
Definition trace_add_file_map (hash : device_hash) (id ino index last_index : Z)
  : device_hash :=
  let key := Z.land id HASH_MASK in
  let '(hash1, dpos) :=
    match find_device hash id with
    | Some pos => (hash, pos)
    | None => add_device hash id
    end in
  let dev := nth dpos (hash1 key) no_device in
  let '(dev1, ipos) :=
    match find_inode dev ino with
    | Some pos => (dev, pos)
    | None => add_inode dev ino
    end in
  let inode0 := inode_at (dev_inodes dev1) ipos in
  let inode1 :=
    mk_inode_data (inode inode0)
                  (inode_add_file_map (inode_map inode0) index last_index) in
  let dev2 := mk_device_data (dev_id dev1) (store (dev_inodes dev1) ipos inode1) in
  fun k => if k =? key then store (hash1 key) dpos dev2 else hash1 k.

(** What a lookup of [(id, ino)] in the hash ends in: the inode's range
    array, or nothing when the device or the inode is absent. *)
Definition lookup_file_maps (hash : device_hash) (id ino : Z) : option (list file_map) :=
  match find_device hash id with
  | None => None
  | Some dpos =>
      let dev := nth dpos (hash (Z.land id HASH_MASK)) no_device in
      match find_inode dev ino with
      | None => None
      | Some ipos => Some (inode_map (inode_at (dev_inodes dev) ipos))
      end
  end.

(** [makedev (major, minor)] of glibc. *)
Definition makedev (major minor : Z) : Z :=
  Z.lor (Z.lor (Z.shiftl (Z.land major 0xfff) 8)
               (Z.shiftl (Z.land major 0xfffff000) 32))
        (Z.lor (Z.land minor 0xff)
               (Z.shiftl (Z.land minor 0xffffff00) 12)).

(** The device number [read_filemap_trace] rebuilds from the [s_dev] field
    of a record: [major = device >> 20], [minor = device & 0xff]. *)
Definition filemap_dev (device : Z) : Z :=
  makedev (Z.shiftr device 20) (Z.land device 0xff).

(** ** The trace event consumer: [read_trace], [read_trace_cb] *)

(** A [struct tep_event] as far as the consumer reads it. *)
Record tep_event : Type := mk_tep_event { event_id : Z; event_name : string }.

(** [struct filemap_tep]: the event, [None] for [NULL], and whether the
    event has a [last_index] field ([fault] has none). *)
Record filemap_tep : Type := mk_filemap_tep {
  ft_event : option tep_event;
  ft_last_index : bool
}.

(** The event pointers of [struct read_trace_context]. *)
Record read_trace_context : Type := mk_read_trace_context {
  do_sys_open : option tep_event;
  open_exec : option tep_event;
  uselib : option tep_event;
  filemap_fault : filemap_tep;
  filemap_get_pages : filemap_tep;
  filemap_map_pages : filemap_tep
}.

(** The events the local tracefs knows, by name: what
    [tep_find_event_by_name] answers. *)
Definition tep_handle : Type := string -> option tep_event.

(** A computation that either returns or reads through a null pointer. *)
Inductive run (A : Type) : Type :=
| Returns (a : A)
| NullDereference.
Arguments Returns {A} a.
Arguments NullDereference {A}.

Definition run_bind {A B : Type} (c : run A) (k : A -> run B) : run B :=
  match c with
  | Returns a => k a
  | NullDereference => NullDereference
  end.

Notation "x <- c ;; k" := (run_bind c (fun x => k))
  (at level 61, c at next level, right associativity).

(** [p->...] for a pointer that may be [NULL]. *)
Definition deref {A : Type} (p : option A) : run A :=
  match p with
  | Some a => Returns a
  | None => NullDereference
  end.

Definition init_filemap_tep (tep : tep_handle) (name : string) (has_last_index : bool)
  : filemap_tep :=
  match tep name with
  | None => mk_filemap_tep None false
  | Some ev => mk_filemap_tep (Some ev) has_last_index
  end.

(** The context [read_trace] builds before it iterates the records.  The
    three lookups of the open events are commented out in the source and
    the pointers are set to [NULL]. *)
Definition read_trace_context_init (tep : tep_handle) : read_trace_context :=
  mk_read_trace_context None None None
    (init_filemap_tep tep "mm_filemap_fault" false)
    (init_filemap_tep tep "mm_filemap_get_pages" true)
    (init_filemap_tep tep "mm_filemap_map_pages" true).

(** Where [read_trace_cb] sends a record. *)
Inductive dispatch : Type :=
| To_read_path_trace (event : tep_event)
| To_read_filemap_trace (event : tep_event)
| Ignored.

(** [context->f.event && event->id == context->f.event->id] *)
Definition filemap_event_matches (f : filemap_tep) (event : tep_event) : bool :=
  match ft_event f with
  | Some e => event_id event =? event_id e
  | None => false
  end.

(** [read_trace_cb]; [||] and [&&] evaluate left to right and stop early. *)
Definition read_trace_cb (context : read_trace_context) (event : tep_event)
  : run dispatch :=
  e1 <- deref (do_sys_open context) ;;
  if event_id event =? event_id e1 then Returns (To_read_path_trace event)
  else
    e2 <- deref (open_exec context) ;;
    if event_id event =? event_id e2 then Returns (To_read_path_trace event)
    else if match uselib context with
            | Some e3 => event_id event =? event_id e3
            | None => false
            end
    then Returns (To_read_path_trace event)
    else if filemap_event_matches (filemap_fault context) event
            || filemap_event_matches (filemap_get_pages context) event
            || filemap_event_matches (filemap_map_pages context) event
    then Returns (To_read_filemap_trace event)
    else Returns Ignored.

(** [tracefs_iterate_raw_events] calling [read_trace_cb] on each record in
    turn, as [read_trace] does. *)
Fixpoint iterate_raw_events (context : read_trace_context) (events : list tep_event)
  : run (list dispatch) :=
  match events with
  | [] => Returns []
  | event :: rest =>
      d <- read_trace_cb context event ;;
      ds <- iterate_raw_events context rest ;;
      Returns (d :: ds)
  end.

Definition read_trace_dispatch (tep : tep_handle) (events : list tep_event)
  : run (list dispatch) :=
  iterate_raw_events (read_trace_context_init tep) events.

(** ** The pack records

    Modelled from the spec: the records [PackPath], [PackBlock] and
    [PackFile] and the constant [PACK_PATH_MAX] are declared in [pack.h],
    which is not among the sources; the fields are those of section 3 of
    the specification and those [trace.c] reads and writes.  Field names
    carry a prefix so that [length] and [path] stay free. *)

Definition PACK_PATH_MAX : Z := 255.

Record PackPath : Type := mk_PackPath {
  pp_group : Z;
  pp_ino : Z;
  pp_path : string
}.

Record PackBlock : Type := mk_PackBlock {
  pb_pathidx : Z;
  pb_offset : Z;
  pb_length : Z;
  pb_physical : Z
}.

Record PackFile : Type := mk_PackFile {
  pf_dev : Z;
  pf_rotational : bool;
  pf_groups : list Z;
  pf_paths : list PackPath;
  pf_blocks : list PackBlock
}.

Definition no_path : PackPath := mk_PackPath 0 0 EmptyString.
Definition no_block : PackBlock := mk_PackBlock 0 0 0 0.

(** [file->paths[i]] *)
Definition path_at (file : PackFile) (i : Z) : PackPath :=
  nth (Z.to_nat i) (pf_paths file) no_path.

(** ** The range intersector: [remove_untouched_blocks] *)

(** The locals the loop over the blocks carries from one block to the
    next. *)
Record intersect_state : Type := mk_intersect_state {
  reduced_blocks : list PackBlock;
  maps : list file_map;
  nr_maps : nat;
  filemapidx : nat;
  pathidx : Z
}.

(** The "open-only" block: the file was opened but not read. *)
Definition marker_block (idx : Z) : PackBlock := mk_PackBlock idx 0 0 0.

(** [{ block->offset >> PAGE_SHIFT, (block->offset + block->length) >> PAGE_SHIFT }] *)
Definition block_page_range (block : PackBlock) : file_map :=
  mk_file_map (Z.shiftr (pb_offset block) PAGE_SHIFT)
              (Z.shiftr (off_t (pb_offset block + pb_length block)) PAGE_SHIFT).

(** [while (filemapidx < nr_maps &&
            cmp_file_map (&maps[filemapidx], &block_range) < 0) filemapidx++;] *)
Fixpoint skip_filemaps (fuel : nat) (maps : list file_map) (nr_maps : nat)
         (block_range : file_map) (filemapidx : nat) : nat :=
  match fuel with
  | O => filemapidx
  | S fuel' =>
      if ((filemapidx <? nr_maps)%nat
          && (cmp_file_map (map_at maps filemapidx) block_range <? 0))%bool
      then skip_filemaps fuel' maps nr_maps block_range (S filemapidx)
      else filemapidx
  end.

(** The part of the block [range] lets through. *)
Definition reduced_block (block : PackBlock) (range : file_map) : PackBlock :=
  let new_offset :=
    nih_max (off_t (Z.shiftl (fm_start range) PAGE_SHIFT)) (pb_offset block) in
  let new_end :=
    nih_min (off_t (Z.shiftl (fm_end range) PAGE_SHIFT))
            (off_t (pb_offset block + pb_length block)) in
  let new_length := off_t (new_end - new_offset) in
  let new_physical :=
    off_t (off_t (pb_physical block + new_offset) - pb_offset block) in
  mk_PackBlock (pb_pathidx block) new_offset new_length new_physical.

(** The [for (;;)] loop that adds blocks while they overlap the accessed
    ranges; it ends by one of its three [break]s. *)
Fixpoint add_overlaps (fuel : nat) (maps : list file_map) (nr_maps : nat)
         (block : PackBlock) (block_range : file_map)
         (filemapidx : nat) (reduced : list PackBlock) : nat * list PackBlock :=
  match fuel with
  | O => (filemapidx, reduced)
  | S fuel' =>
      if (nr_maps <=? filemapidx)%nat then (filemapidx, reduced)
      else
        let range := map_at maps filemapidx in
        if cmp_file_map range block_range >? 0 then (filemapidx, reduced)
        else
          let new := reduced_block block range in
          let reduced' :=
            if pb_length new >? 0 then reduced ++ [new] else reduced in
          if fm_end range >? fm_end block_range then (filemapidx, reduced')
          else add_overlaps fuel' maps nr_maps block block_range
                            (S filemapidx) reduced'
  end.

(** The two loops run for one block. *)
Definition intersect_block (st : intersect_state) (block : PackBlock)
  : intersect_state :=
  let block_range := block_page_range block in
  let skipped :=
    skip_filemaps (S (nr_maps st)) (maps st) (nr_maps st) block_range (filemapidx st) in
  let '(idx, reduced) :=
    add_overlaps (S (nr_maps st)) (maps st) (nr_maps st) block block_range
                 skipped (reduced_blocks st) in
  mk_intersect_state reduced (maps st) (nr_maps st) idx (pathidx st).

(** One turn of the loop over [file->blocks]. *)
Definition remove_untouched_step (hash : device_hash) (file : PackFile)
           (st : intersect_state) (block : PackBlock) : intersect_state :=
  if negb (pb_pathidx block =? pathidx st) then
    (* Prepare the sorted filemap ranges for the next file *)
    match lookup_file_maps hash (pf_dev file)
                           (pp_ino (path_at file (pb_pathidx block))) with
    | None =>
        (* A file was opened but not read. We only want dentry. *)
        mk_intersect_state (reduced_blocks st ++ [marker_block (pb_pathidx block)])
                           (maps st) O O (pb_pathidx block)
    | Some inode_maps =>
        intersect_block
          (mk_intersect_state (reduced_blocks st) inode_maps (length inode_maps) O
                              (pb_pathidx block))
          block
    end
  else intersect_block st block.

(** [size_t pathidx = -1] and the other initial values of the locals. *)
Definition intersect_init : intersect_state :=
  mk_intersect_state [] [] O O SIZE_MAX.

Definition remove_untouched_blocks (hash : device_hash) (file : PackFile) : PackFile :=
  let final := fold_left (remove_untouched_step hash file) (pf_blocks file)
                         intersect_init in
  mk_PackFile (pf_dev file) (pf_rotational file) (pf_groups file) (pf_paths file)
              (reduced_blocks final).

(** A block of whole pages, as [test_remove_untouched_blocks] builds
    them: [pages] pages from page [page] of path [idx]. *)
Definition page_block (idx page pages : Z) : PackBlock :=
  mk_PackBlock idx (Z.shiftl page PAGE_SHIFT) (Z.shiftl pages PAGE_SHIFT) 0.

(** ** The pack assembler: [trace_file], [trace_add_path],
       [trace_add_chunks], [trace_add_extents] *)

(** What [lstat] and [fstat] report of a file. *)
Inductive file_kind : Type := Regular | Symlink | Other_kind.

Record stat : Type := mk_stat {
  st_dev : Z;
  st_ino : Z;
  st_size : Z;
  st_kind : file_kind
}.

(** One [struct fiemap_extent]. *)
Record fiemap_extent : Type := mk_fiemap_extent {
  fe_logical : Z;
  fe_length : Z;
  fe_physical : Z;
  fe_flags : Z
}.

Definition FIEMAP_EXTENT_UNKNOWN : Z := 2.

(** The answers of the system the assembler runs on.  [None] is a failed
    call.  [sys_mincore] stands for [mmap], [mincore] and [munmap] of the
    whole file: the residency vector when all three succeed.  [sys_fiemap]
    is [get_fiemap]: the extents the kernel reports for a chunk.
    [sys_rotational] is [get_value] on the device's [queue/rotational]. *)
Record system : Type := mk_system {
  sys_lstat : string -> option stat;
  sys_open : string -> option Z;
  sys_fstat : Z -> option stat;
  sys_mincore : Z -> Z -> option (list bool);
  sys_fiemap : Z -> Z -> Z -> option (list fiemap_extent);
  sys_rotational : Z -> option Z;
  sys_page_size : Z
}.

(** The result array [files] with the two static tables of
    [trace_add_path]: the paths seen and the [dev:ino] keys seen. *)
Record trace_state : Type := mk_trace_state {
  files : list PackFile;
  path_hash : list string;
  inode_hash : list (Z * Z)
}.

Definition trace_state_init : trace_state := mk_trace_state [] [] [].

Definition no_file : PackFile := mk_PackFile 0 false [] [] [].

(** The index of the first file of the array whose [dev] is [dev]. *)
Fixpoint find_file (files : list PackFile) (dev : Z) : option nat :=
  match files with
  | [] => None
  | file :: rest =>
      if pf_dev file =? dev then Some O
      else option_map S (find_file rest dev)
  end.

(** [trace_file]: the array and the index in it of the file for [dev];
    a new file is appended only when no file has that device. *)
Definition trace_file (sys : system) (dev : Z) (files : list PackFile)
           (force_ssd_mode : bool) : list PackFile * nat :=
  match find_file files dev with
  | Some i => (files, i)
  | None =>
      let rotational :=
        if force_ssd_mode then false
        else match sys_rotational sys dev with
             | Some v => negb (v =? 0)
             | None => true
             end in
      (files ++ [mk_PackFile dev rotational [] [] []], length files)
  end.

(** Appending one block to [file->blocks]. *)
Definition add_block (file : PackFile) (block : PackBlock) : PackFile :=
  mk_PackFile (pf_dev file) (pf_rotational file) (pf_groups file) (pf_paths file)
              (pf_blocks file ++ [block]).

(** [file->num_paths - 1], the index every new block is given. *)
Definition last_pathidx (file : PackFile) : Z :=
  Z.of_nat (length (pf_paths file)) - 1.

(** The loop of [trace_add_extents] over the extents of one chunk.  The
    fields of [struct fiemap] and of [struct fiemap_extent] are [__u64]:
    the two sums and the place on the disk are computed in [__u64], the
    comparisons of [nih_max] and [nih_min] are between [__u64] values, and
    [start], [end] and the fields of the block are [off_t]. *)
Definition add_extent (fm_start fm_length : Z) (file : PackFile) (extent : fiemap_extent)
  : PackFile :=
  if negb (Z.land (fe_flags extent) FIEMAP_EXTENT_UNKNOWN =? 0) then file
  else
    let start := off_t (nih_max fm_start (fe_logical extent)) in
    let end_ := off_t (nih_min (__u64 (fm_start + fm_length))
                               (__u64 (fe_logical extent + fe_length extent))) in
    add_block file
      (mk_PackBlock (last_pathidx file) start (off_t (end_ - start))
                    (off_t (__u64 (fe_physical extent
                                   + __u64 (start - fe_logical extent))))).

(** [get_fiemap] stores [offset] and [length] in the [__u64] fields
    [fm_start] and [fm_length]. *)
Definition trace_add_extents (sys : system) (file : PackFile) (fd offset length : Z)
  : PackFile :=
  match sys_fiemap sys fd offset length with
  | None => file
  | Some extents => fold_left (add_extent (__u64 offset) (__u64 length)) extents file
  end.

(** [vec[i]] *)
Definition vec_at (vec : list bool) (i : nat) : bool := nth i vec false.

(** [while (((i + 1) < num_pages) && vec[i + 1]) { length += page_size; i++; }] *)
Fixpoint extend_chunk (fuel : nat) (vec : list bool) (num_pages : nat) (page_size : Z)
         (i : nat) (length : Z) : nat * Z :=
  match fuel with
  | O => (i, length)
  | S fuel' =>
      if ((i + 1 <? num_pages)%nat && vec_at vec (i + 1))%bool
      then extend_chunk fuel' vec num_pages page_size (i + 1) (length + page_size)
      else (i, length)
  end.

(** What [trace_add_chunks] does with one chunk. *)
Definition add_chunk (sys : system) (file : PackFile) (fd offset length : Z) : PackFile :=
  if pf_rotational file then trace_add_extents sys file fd offset length
  else add_block file (mk_PackBlock (last_pathidx file) offset length (-1)).

(** The [for] loop of [trace_add_chunks] over the pages of the file. *)
Fixpoint chunk_loop (fuel : nat) (sys : system) (vec : list bool) (num_pages : nat)
         (fd : Z) (i : nat) (file : PackFile) : PackFile :=
  match fuel with
  | O => file
  | S fuel' =>
      if (i <? num_pages)%nat then
        if negb (vec_at vec i) then chunk_loop fuel' sys vec num_pages fd (i + 1) file
        else
          let page_size := sys_page_size sys in
          let offset := Z.of_nat i * page_size in
          let '(i', length) :=
            extend_chunk num_pages vec num_pages page_size i page_size in
          chunk_loop fuel' sys vec num_pages fd (i' + 1)
                     (add_chunk sys file fd offset length)
      else file
  end.

Definition trace_add_chunks (sys : system) (file : PackFile) (fd size : Z) : PackFile :=
  match sys_mincore sys fd size with
  | None => file
  | Some vec =>
      let num_pages := Z.to_nat ((size - 1) / sys_page_size sys + 1) in
      chunk_loop num_pages sys vec num_pages fd O file
  end.

(** [ignore_path] *)
Definition ignore_path (pathname : string) : bool :=
  existsb (fun p => String.prefix p pathname)
          ["/proc/"; "/sys/"; "/dev/"; "/tmp/"; "/run/"; "/var/run/"; "/var/log/";
           "/var/lock/"]%string.

Definition starts_with_slash (pathname : string) : bool :=
  match pathname with
  | String c _ => Ascii.eqb c "/"%char
  | EmptyString => false
  end.

(** [file->paths[file->num_paths++] = { group = -1, ino, path }] *)
Definition add_path (file : PackFile) (ino : Z) (pathname : string) : PackFile :=
  mk_PackFile (pf_dev file) (pf_rotational file) (pf_groups file)
              (pf_paths file ++ [mk_PackPath (-1) ino pathname])
              (pf_blocks file).

(** [trace_add_path]: the return value and the state it leaves. *)
Definition trace_add_path (sys : system) (force_ssd_mode : bool)
           (st : trace_state) (pathname : string) : Z * trace_state :=
  if negb (starts_with_slash pathname) then (0, st)
  else if ignore_path pathname then (0, st)
  else if Z.of_nat (String.length pathname) >? PACK_PATH_MAX then (0, st)
  else if existsb (String.eqb pathname) (path_hash st) then (0, st)
  else
    let st1 := mk_trace_state (files st) (pathname :: path_hash st) (inode_hash st) in
    match sys_lstat sys pathname with
    | None => (0, st1)
    | Some statbuf0 =>
        match st_kind statbuf0 with
        | Symlink | Other_kind => (0, st1)
        | Regular =>
            match sys_open sys pathname with
            | None => (-1, st1)
            | Some fd =>
                match sys_fstat sys fd with
                | None => (-1, st1)
                | Some statbuf =>
                    match st_kind statbuf with
                    | Symlink | Other_kind => (0, st1)
                    | Regular =>
                        let '(files1, fi) :=
                          trace_file sys (st_dev statbuf) (files st1) force_ssd_mode in
                        let file1 :=
                          add_path (nth fi files1 no_file) (st_ino statbuf) pathname in
                        let key := (st_dev statbuf, st_ino statbuf) in
                        if existsb (fun k => (fst k =? fst key) && (snd k =? snd key))
                                   (inode_hash st1)
                        then (0, mk_trace_state (store files1 fi file1)
                                                (path_hash st1) (inode_hash st1))
                        else
                          let inodes1 := key :: inode_hash st1 in
                          if st_size statbuf =? 0
                          then (0, mk_trace_state (store files1 fi file1)
                                                  (path_hash st1) inodes1)
                          else
                            let file2 :=
                              trace_add_chunks sys file1 fd (st_size statbuf) in
                            (0, mk_trace_state (store files1 fi file2)
                                               (path_hash st1) inodes1)
                    end
                end
            end
        end
    end.

(** The paths of the open events of a trace, handed to [trace_add_path] in
    the order of the records. *)
Definition trace_add_paths (sys : system) (force_ssd_mode : bool)
           (pathnames : list string) : trace_state :=
  fold_left (fun st p => snd (trace_add_path sys force_ssd_mode st p))
            pathnames trace_state_init.

(** ** libc: [qsort] and [strcmp]

    [qsort] is modelled as the merge sort glibc runs ([msort_with_tmp]):
    the array is halved, the halves are sorted, and the merge takes the
    element of the first half while [compar (b1, b2) <= 0]. *)

Fixpoint merge_runs {A : Type} (compar : A -> A -> Z) (b1 b2 : list A) : list A :=
  let fix merge_second (b2 : list A) : list A :=
    match b1, b2 with
    | [], _ => b2
    | _, [] => b1
    | x1 :: rest1, x2 :: rest2 =>
        if compar x1 x2 <=? 0 then x1 :: merge_runs compar rest1 b2
        else x2 :: merge_second rest2
    end in
  merge_second b2.

Fixpoint msort_with_tmp {A : Type} (fuel : nat) (compar : A -> A -> Z) (b : list A)
  : list A :=
  match fuel with
  | O => b
  | S fuel' =>
      let n := length b in
      if (n <=? 1)%nat then b
      else
        let n1 := (n / 2)%nat in
        merge_runs compar (msort_with_tmp fuel' compar (firstn n1 b))
                          (msort_with_tmp fuel' compar (skipn n1 b))
  end.

Definition qsort {A : Type} (compar : A -> A -> Z) (base : list A) : list A :=
  msort_with_tmp (length base) compar base.

(** The sign of [strcmp (a, b)]: bytes compare as unsigned characters. *)
Definition strcmp (a b : string) : Z :=
  match String.compare a b with
  | Lt => -1
  | Eq => 0
  | Gt => 1
  end.

(** ** Post-processing: [trace_add_groups], [trace_sort_blocks],
       [trace_sort_paths] *)

Definition block_compar (block_a block_b : PackBlock) : Z :=
  if pb_physical block_a <? pb_physical block_b then -1
  else if pb_physical block_a >? pb_physical block_b then 1
  else 0.

Definition trace_sort_blocks (file : PackFile) : PackFile :=
  mk_PackFile (pf_dev file) (pf_rotational file) (pf_groups file) (pf_paths file)
              (qsort block_compar (pf_blocks file)).

(** [path_compar].  The fourth test reads [path_b->ino > path_b->ino] in
    the source: it compares the second path's inode with itself. *)
Definition path_compar (path_a path_b : PackPath) : Z :=
  if pp_group path_a <? pp_group path_b then -1
  else if pp_group path_a >? pp_group path_b then 1
  else if pp_ino path_a <? pp_ino path_b then -1
  else if pp_ino path_b >? pp_ino path_b then 1
  else strcmp (pp_path path_a) (pp_path path_b).

(** [for (i = 0; i < n; i++) a[idx (i)] = val (i);] on an array that
    [nih_alloc] returned (its cells hold [filler] until written). *)
Definition scatter {A : Type} (n : nat) (idx : nat -> nat) (val : nat -> A)
           (a : list A) : list A :=
  fold_left (fun a i => store a (idx i) (val i)) (seq 0 n) a.

(** [trace_sort_paths].  A pointer [&file->paths[i]] is its index [i]. *)
Definition trace_sort_paths (file : PackFile) : PackFile :=
  let num_paths := length (pf_paths file) in
  let paths := seq 0 num_paths in
  let sorted :=
    qsort (fun a b => path_compar (nth a (pf_paths file) no_path)
                                  (nth b (pf_paths file) no_path))
          paths in
  let new_idx :=
    scatter num_paths (fun i => nth i sorted O) (fun i => i) (repeat O num_paths) in
  let blocks :=
    map (fun block =>
           mk_PackBlock (Z.of_nat (nth (Z.to_nat (pb_pathidx block)) new_idx O))
                        (pb_offset block) (pb_length block) (pb_physical block))
        (pf_blocks file) in
  let new_paths :=
    scatter num_paths (fun i => nth i new_idx O)
            (fun i => nth i (pf_paths file) no_path) (repeat no_path num_paths) in
  mk_PackFile (pf_dev file) (pf_rotational file) (pf_groups file) new_paths blocks.

Definition INODE_GROUP_PRELOAD_THRESHOLD : Z := 8.

(** What [ext2fs_open] gives for the device of a pack: nothing when the
    device holds no ext filesystem, else the number of block groups and the
    group of each inode ([ext2fs_group_of_ino]). *)
Record ext2_filsys : Type := mk_ext2_filsys {
  num_groups : nat;
  group_of_ino : Z -> Z
}.

(** [trace_add_groups]: every path gets its group, and the groups holding
    more than [INODE_GROUP_PRELOAD_THRESHOLD] of the paths are listed. *)
Definition trace_add_groups (fs : option ext2_filsys) (file : PackFile) : PackFile :=
  match fs with
  | None => file
  | Some fs =>
      let paths :=
        map (fun p => mk_PackPath (group_of_ino fs (pp_ino p)) (pp_ino p) (pp_path p))
            (pf_paths file) in
      let num_inodes :=
        fold_left (fun counts p =>
                     let g := Z.to_nat (pp_group p) in
                     store counts g (nth g counts 0 + 1))
                  paths (repeat 0 (num_groups fs)) in
      let hits :=
        filter (fun i => nth i num_inodes 0 >? INODE_GROUP_PRELOAD_THRESHOLD)
               (seq 0 (num_groups fs)) in
      mk_PackFile (pf_dev file) (pf_rotational file)
                  (pf_groups file ++ map Z.of_nat hits) paths (pf_blocks file)
  end.

(** What [trace] does with each file before it is written:
    [if (files[i].rotational) { trace_add_groups; trace_sort_blocks;
    trace_sort_paths; }] *)
Definition post_process (fs : option ext2_filsys) (file : PackFile) : PackFile :=
  if pf_rotational file
  then trace_sort_paths (trace_sort_blocks (trace_add_groups fs file))
  else file.

(** ** The path handler: [fix_path]

    The buffer is the list of the characters before the terminating NUL;
    reading the cell at the length of the list reads the terminator.
    A [char *] into the buffer is an index. *)

Definition NUL : ascii := Ascii.zero.

(** [ptr[i]] with [ptr = pathname + p]. *)
Definition char_at (pathname : list ascii) (p : nat) : ascii := nth p pathname NUL.

(** [strcspn (s, "/")] *)
Fixpoint strcspn_slash (s : list ascii) : nat :=
  match s with
  | [] => O
  | c :: rest => if Ascii.eqb c "/" then O else S (strcspn_slash rest)
  end.

(** [for (root = ptr - 1; (root >= pathname) && (root[0] != '/'); root--) ;
     if (root < pathname) root = pathname;] *)
Fixpoint find_root (pathname : list ascii) (ptr : nat) : nat :=
  match ptr with
  | O => O
  | S below =>
      if Ascii.eqb (char_at pathname below) "/" then below
      else find_root pathname below
  end.

(** One turn of the [for] loop, with the [ptr++] that ends it: the buffer
    and the pointer the next turn starts from.  [memmove (dst, ptr + len + 1,
    strlen (ptr) - len)] moves the rest of the string, with its terminator,
    down to [dst].  After a [memmove] the source steps [ptr] back by one
    (to [dst - 1], which for [dst = pathname] is not a cell of the buffer),
    and the [ptr++] brings it to [dst]. *)
Definition fix_path_turn (pathname : list ascii) (ptr : nat) : list ascii * nat :=
  if negb (Ascii.eqb (char_at pathname ptr) "/") then (pathname, S ptr)
  else
    let len := strcspn_slash (skipn (S ptr) pathname) in
    if ((len =? 0)%nat
        || ((len =? 1)%nat && Ascii.eqb (char_at pathname (ptr + 1)) "."))%bool
    then (firstn ptr pathname ++ skipn (ptr + len + 1) pathname, ptr)
    else if ((len =? 2)%nat && Ascii.eqb (char_at pathname (ptr + 1)) "."
             && Ascii.eqb (char_at pathname (ptr + 2)) ".")%bool
    then
      let root := find_root pathname ptr in
      (firstn root pathname ++ skipn (ptr + len + 1) pathname, root)
    else (pathname, S ptr).

(** [for (ptr = pathname; *ptr; ptr++) ...]: the buffer and the pointer the
    loop ends with, or [None] when [fuel] turns were not enough. *)
Fixpoint fix_path_loop (fuel : nat) (pathname : list ascii) (ptr : nat)
  : option (list ascii * nat) :=
  match fuel with
  | O => None
  | S fuel' =>
      if Ascii.eqb (char_at pathname ptr) NUL then Some (pathname, ptr)
      else
        let '(pathname', ptr') := fix_path_turn pathname ptr in
        fix_path_loop fuel' pathname' ptr'
  end.

(** [while (ptr != pathname && *--ptr == '/') *ptr = 0;] *)
Fixpoint strip_trailing (pathname : list ascii) (ptr : nat) : list ascii :=
  match ptr with
  | O => pathname
  | S below =>
      if Ascii.eqb (char_at pathname below) "/"
      then strip_trailing (firstn below pathname) below
      else pathname
  end.

(** [fix_path]: the string the buffer holds on return. *)
Definition fix_path (pathname : list ascii) : option (list ascii) :=
  match fix_path_loop (S (length pathname)) pathname O with
  | Some (pathname', ptr) => Some (strip_trailing pathname' ptr)
  | None => None
  end.

Definition fix_path_string (pathname : string) : option string :=
  option_map string_of_list_ascii (fix_path (list_ascii_of_string pathname)).

(** *** Normalization as the specification words it

    The path is cut at every ['/'].  The pieces after the first are taken
    in turn: an empty piece (from [//] or a trailing [/]) and [.] are
    dropped, [..] pops the last piece kept, or, with none left, cuts the
    path back to its start, any other piece is kept.  The pieces kept are
    joined, each behind a ['/']. *)

Fixpoint split_slash (s : list ascii) : list ascii * list (list ascii) :=
  match s with
  | [] => ([], [])
  | c :: rest =>
      let '(first, others) := split_slash rest in
      if Ascii.eqb c "/" then ([], first :: others) else (c :: first, others)
  end.

Definition is_dot (c : list ascii) : bool :=
  match c with
  | [d] => Ascii.eqb d "."
  | _ => false
  end.

Definition is_dotdot (c : list ascii) : bool :=
  match c with
  | [d1; d2] => Ascii.eqb d1 "." && Ascii.eqb d2 "."
  | _ => false
  end.

(** The text before the first ['/'] and the pieces kept, last kept first. *)
Definition normal_state : Type := (list ascii * list (list ascii))%type.

Definition component_step (st : normal_state) (c : list ascii) : normal_state :=
  match c with
  | [] => st
  | _ =>
      if is_dot c then st
      else if is_dotdot c then
        match snd st with
        | [] => ([], [])
        | _ :: below => (fst st, below)
        end
      else (fst st, c :: snd st)
  end.

Definition render (st : normal_state) : list ascii :=
  fst st ++ concat (map (fun c => "/"%char :: c) (rev (snd st))).

Definition normalize (s : list ascii) : list ascii :=
  let '(first, others) := split_slash s in
  render (fold_left component_step others (first, [])).

Definition normalize_string (s : string) : string :=
  string_of_list_ascii (normalize (list_ascii_of_string s)).

(** ** The session controller: [trace]

    The environment [trace] touches is held in a record; the calls of
    libtracefs and libc are functions on it.  A tracefs call the source
    checks can fail as the record [outcomes] says, and fails without
    changing anything.  The calls whose result the source does not look at
    ([tracefs_event_disable], [sigaction], [nice]) do what they are
    documented to do. *)

Definition NR_EVENTS : nat := 6.
Definition NR_REQUIRED_EVENTS : nat := 2.

Inductive tracefs_enable_state : Type :=
| TRACEFS_ERROR
| TRACEFS_ALL_DISABLED
| TRACEFS_SOME_ENABLED
| TRACEFS_ALL_ENABLED.

Inductive sighandler : Type :=
| SIG_DFL
| SIG_IGN
| SIG_handler (name : string).

(** [event_enable i] is the enable flag of [EVENTS[i]], [None] when the
    kernel does not have the event.  [buffer_size_kb] is the size of the
    ring buffer of each CPU (the source reads it from CPU 0 "assuming all
    cpus have the same size"). *)
Record environment : Type := mk_environment {
  buffer_size_kb : Z;
  event_enable : nat -> option bool;
  tracing_on : bool;
  niceness : Z;
  sigterm : sighandler;
  sigint : sighandler
}.

(** Which of the checked calls fail, and what [fork] returns. *)
Record outcomes : Type := mk_outcomes {
  event_enable_fails : nat -> bool;
  get_buffer_size_fails : bool;
  set_buffer_size_fails : bool;
  trace_is_on_fails : bool;
  trace_on_fails : bool;
  fork_pid : Z;
  trace_off_fails : bool;
  read_trace_fails : bool;
  restore_buffer_size_fails : bool
}.

Definition set_event (env : environment) (i : nat) (v : option bool) : environment :=
  mk_environment (buffer_size_kb env)
                 (fun j => if (j =? i)%nat then v else event_enable env j)
                 (tracing_on env) (niceness env) (sigterm env) (sigint env).

Definition set_buffer_size (env : environment) (kb : Z) : environment :=
  mk_environment kb (event_enable env) (tracing_on env) (niceness env)
                 (sigterm env) (sigint env).

Definition set_tracing_on (env : environment) (on : bool) : environment :=
  mk_environment (buffer_size_kb env) (event_enable env) on (niceness env)
                 (sigterm env) (sigint env).

Definition set_signals (env : environment) (term int : sighandler) : environment :=
  mk_environment (buffer_size_kb env) (event_enable env) (tracing_on env)
                 (niceness env) term int.

(** [nice (inc)]: the niceness goes up by [inc], to 19 at most. *)
Definition nice (env : environment) (inc : Z) : environment :=
  mk_environment (buffer_size_kb env) (event_enable env) (tracing_on env)
                 (Z.min 19 (niceness env + inc)) (sigterm env) (sigint env).

Definition tracefs_event_is_enabled (env : environment) (i : nat) : tracefs_enable_state :=
  match event_enable env i with
  | None => TRACEFS_ERROR
  | Some true => TRACEFS_ALL_ENABLED
  | Some false => TRACEFS_ALL_DISABLED
  end.

Definition tracefs_event_enable (o : outcomes) (env : environment) (i : nat)
  : Z * environment :=
  if event_enable_fails o i then (-1, env)
  else match event_enable env i with
       | None => (-1, env)
       | Some _ => (0, set_event env i (Some true))
       end.

Definition tracefs_event_disable (env : environment) (i : nat) : environment :=
  match event_enable env i with
  | None => env
  | Some _ => set_event env i (Some false)
  end.

(** The first loop of [trace] over [EVENTS]: the environment it leaves and
    [old_events_enabled], or [None] in its place when a required event
    cannot be enabled. *)
Fixpoint enable_events (o : outcomes) (indices : list nat) (env : environment)
         (old_events_enabled : nat -> bool) : environment * option (nat -> bool) :=
  match indices with
  | [] => (env, Some old_events_enabled)
  | i :: rest =>
      let old_state := tracefs_event_is_enabled env i in
      let was_enabled :=
        match old_state with
        | TRACEFS_ALL_ENABLED | TRACEFS_SOME_ENABLED => true
        | _ => false
        end in
      let old' := fun j => if (j =? i)%nat then was_enabled else old_events_enabled j in
      let '(ret, env') := tracefs_event_enable o env i in
      if (ret <? 0) && (i <? NR_REQUIRED_EVENTS)%nat then (env', None)
      else enable_events o rest env' old'
  end.

(** The loop that restores the events: an event that was enabled before is
    left alone, any other is disabled. *)
Fixpoint disable_events (indices : list nat) (env : environment)
         (old_events_enabled : nat -> bool) : environment :=
  match indices with
  | [] => env
  | i :: rest =>
      if old_events_enabled i then disable_events rest env old_events_enabled
      else disable_events rest (tracefs_event_disable env i) old_events_enabled
  end.

(** How [trace] ends: it returns, or the parent of the [fork] exits. *)
Inductive trace_exit : Type :=
| Trace_returns (code : Z)
| Parent_exits.

(** [trace], as far as the environment goes. *)
Definition trace (o : outcomes) (daemonise use_existing_trace_events : bool)
           (env : environment) : trace_exit * environment :=
  match (if use_existing_trace_events then (env, Some (fun _ => false))
         else enable_events o (seq 0 NR_EVENTS) env (fun _ => false)) with
  | (env1, None) => (Trace_returns (-1), env1)
  | (env1, Some old_events_enabled) =>
      if get_buffer_size_fails o then (Trace_returns (-1), env1)
      else
        let old_buffer_size_kb := buffer_size_kb env1 in
        if set_buffer_size_fails o then (Trace_returns (-1), env1)
        else
          let env2 := set_buffer_size env1 8192 in
          if trace_is_on_fails o then (Trace_returns (-1), env2)
          else
            let old_tracing_enabled := tracing_on env2 in
            if trace_on_fails o then (Trace_returns (-1), env2)
            else
              let env3 := set_tracing_on env2 true in
              if daemonise && (fork_pid o <? 0) then (Trace_returns (-1), env3)
              else if daemonise && (fork_pid o >? 0) then (Parent_exits, env3)
              else
                (* sigaction (SIGTERM, &act, &old_sigterm); sigaction (SIGINT, ...) *)
                let old_sigterm := sigterm env3 in
                let old_sigint := sigint env3 in
                let env4 := set_signals env3 (SIG_handler "sig_interrupt")
                                        (SIG_handler "sig_interrupt") in
                (* select or pause *)
                let env5 := set_signals env4 old_sigterm old_sigint in
                if negb old_tracing_enabled && trace_off_fails o
                then (Trace_returns (-1), env5)
                else
                  let env6 :=
                    if negb old_tracing_enabled then set_tracing_on env5 false
                    else env5 in
                  let env7 :=
                    if use_existing_trace_events then env6
                    else disable_events (seq 0 NR_EVENTS) env6 old_events_enabled in
                  let env8 := nice env7 15 in
                  if read_trace_fails o then (Trace_returns (-1), env8)
                  else if restore_buffer_size_fails o then (Trace_returns (-1), env8)
                  else (Trace_returns 0, set_buffer_size env8 old_buffer_size_kb)
  end.

(** ** The trace event consumer: [read_filemap_trace] *)

(** The number fields of a record by name: what [tep_read_number_field]
    stores for the field, [None] when it fails. *)
Definition tep_record : Type := string -> option Z.

(** The choice of [tep] at the head of [read_filemap_trace]:
    [fault->event->id], [get_pages->event->id], [map_pages->event->id] are
    read in this order, each through the [event] pointer of its
    [filemap_tep] without a test for [NULL]. *)
Definition select_filemap_tep (event : tep_event)
           (fault get_pages map_pages : filemap_tep) : run (option filemap_tep) :=
  e1 <- deref (ft_event fault) ;;
  if event_id event =? event_id e1 then Returns (Some fault)
  else
    e2 <- deref (ft_event get_pages) ;;
    if event_id event =? event_id e2 then Returns (Some get_pages)
    else
      e3 <- deref (ft_event map_pages) ;;
      if event_id event =? event_id e3 then Returns (Some map_pages)
      else Returns None.

(** [read_filemap_trace]: the return value and the device hash.  The
    fields come as [unsigned long long]; [index] and [last_index] are
    passed on as [off_t]. *)
Definition read_filemap_trace (event : tep_event) (record : tep_record)
           (fault get_pages map_pages : filemap_tep) (hash : device_hash)
  : run (Z * device_hash) :=
  selected <- select_filemap_tep event fault get_pages map_pages ;;
  match selected with
  | None => Returns (1, hash)
  | Some tep =>
      match record "i_ino"%string with
      | None => Returns (1, hash)
      | Some ino =>
          match record "s_dev"%string with
          | None => Returns (1, hash)
          | Some device =>
              match record "index"%string with
              | None => Returns (1, hash)
              | Some index =>
                  match (if ft_last_index tep then record "last_index"%string
                         else Some index) with
                  | None => Returns (1, hash)
                  | Some last_index =>
                      Returns (0, trace_add_file_map hash (filemap_dev device) ino
                                                     (off_t index) (off_t last_index))
                  end
              end
          end
      end
  end.

(** ** Writing the packs: the last loop of [trace]

    [pack_file_name_for_device] and [write_pack] are the collaborators of
    the specification ([pack.h]); the name a device gets is [None] where
    [pack_file_name_for_device] returns [NULL].  What [write_pack] is
    called with, in the order of the calls, is the result. *)

(** [blkid_devno_to_devname] and [ext2fs_open] for the device of a file:
    the filesystem [trace_add_groups] works on, if there is one. *)
Definition filesystems : Type := Z -> option ext2_filsys.

Fixpoint write_packs (pack_file filename_to_replace : option string)
         (pack_file_name_for_device : Z -> option string) (fs : filesystems)
         (files : list PackFile) : list (string * PackFile) :=
  match files with
  | [] => []
  | file :: rest =>
      let later :=
        write_packs pack_file filename_to_replace pack_file_name_for_device fs rest in
      let written (filename : string) :=
        (filename, post_process (fs (pf_dev file)) file) :: later in
      match pack_file with
      | Some name => written name
      | None =>
          match pack_file_name_for_device (pf_dev file) with
          | None => later
          | Some filename =>
              match filename_to_replace with
              | Some wanted =>
                  if negb (strcmp wanted filename =? 0) then later
                  else written filename
              | None => written filename
              end
          end
      end
  end.

(** ** The trace event consumer: [read_path_trace]

    Modelled from the spec: [PathPrefixOption] is declared in [trace.h],
    which is not among the sources; it is the pair [(prefix,
    expected_st_dev)] of section 4.3, step 4, with [st_dev = NODEV] when no
    prefix was given. *)

Record PathPrefixOption : Type := mk_PathPrefixOption {
  ppo_st_dev : Z;
  ppo_prefix : string
}.

(** [NODEV] is [(dev_t) -1]. *)
Definition NODEV : Z := 2 ^ 64 - 1.

(** [strndup (tep_path, len)] on the [len] bytes of the field: the bytes
    in front of the first NUL. *)
Fixpoint strndup (tep_path : list ascii) : list ascii :=
  match tep_path with
  | [] => []
  | c :: rest => if Ascii.eqb c NUL then [] else c :: strndup rest
  end.

(** [read_path_trace]: the return value and the state of the assembler.
    [filename] is what [tep_get_field_raw] finds of the field ["filename"].
    The second [None] branch is for a [fix_path] that does not return; it
    is never taken. *)
Definition read_path_trace (sys : system) (filename : option (list ascii))
           (path_prefix_filter : option string) (path_prefix : PathPrefixOption)
           (force_ssd_mode : bool) (st : trace_state) : Z * trace_state :=
  match filename with
  | None => (0, st)
  | Some tep_path =>
      match fix_path (strndup tep_path) with
      | None => (0, st)
      | Some fixed =>
          let path := string_of_list_ascii fixed in
          if match path_prefix_filter with
             | Some filter => negb (String.prefix filter path)
             | None => false
             end
          then (0, st)
          else
            let path' :=
              if negb (ppo_st_dev path_prefix =? NODEV) && starts_with_slash path
              then
                let rewritten := (ppo_prefix path_prefix ++ path)%string in
                match sys_lstat sys rewritten with
                | Some stbuf =>
                    if st_dev stbuf =? ppo_st_dev path_prefix then rewritten else path
                | None => path
                end
              else path in
            (0, snd (trace_add_path sys force_ssd_mode st path'))
      end
  end.

(** The records of the open events of a trace, handed to
    [read_path_trace] in their order. *)
Definition read_path_traces (sys : system) (path_prefix_filter : option string)
           (path_prefix : PathPrefixOption) (force_ssd_mode : bool)
           (filenames : list (option (list ascii))) : trace_state :=
  fold_left (fun st filename =>
               snd (read_path_trace sys filename path_prefix_filter path_prefix
                                    force_ssd_mode st))
            filenames trace_state_init.

(** ** [main] of [ureadahead.c]

    What [main] calls of the program's own functions, in order, and the
    status the process ends with.  [exit] ends the process: nothing after
    it is run. *)

Inductive main_call : Type :=
| Call_test_trace_add_file_map
| Call_test_remove_untouched_blocks
| Call_pack_file_name
| Call_read_pack
| Call_pack_dump
| Call_do_readahead
| Call_trace.

(** The calls made so far and, once the process has ended, its status. *)
Record process (A : Type) : Type := mk_process {
  calls_made : list main_call;
  outcome : A + Z
}.
Arguments mk_process {A} calls_made outcome.
Arguments calls_made {A} p.
Arguments outcome {A} p.

Definition proceed {A : Type} (a : A) : process A := mk_process [] (inl a).
Definition exit {A : Type} (status : Z) : process A := mk_process [] (inr status).
Definition call {A : Type} (c : main_call) (result : A) : process A :=
  mk_process [c] (inl result).

Definition process_bind {A B : Type} (p : process A) (k : A -> process B) : process B :=
  match outcome p with
  | inr status => mk_process (calls_made p) (inr status)
  | inl a => mk_process (calls_made p ++ calls_made (k a)) (outcome (k a))
  end.

Notation "x <~ p ;; k" := (process_bind p (fun x => k))
  (at level 61, p at next level, right associativity).
Notation "p ;;; k" := (process_bind p (fun _ => k))
  (at level 61, right associativity).

(** The command line as [nih_option_parser] leaves it, and the answers of
    the functions [main] calls. *)
Record main_inputs : Type := mk_main_inputs {
  options_parse : bool;
  path_argument : option string;
  opt_pack_file : option string;
  opt_force_trace : bool;
  opt_dump_pack : bool;
  pack_file_name_answer : option string;
  read_pack_answer : bool;
  do_readahead_answer : Z;
  trace_answer : Z
}.

Definition when (b : bool) (p : process unit) : process unit :=
  if b then p else proceed tt.

Definition main (i : main_inputs) : process Z :=
  when (negb (options_parse i)) (exit 1) ;;;
  call Call_test_trace_add_file_map tt ;;;
  call Call_test_remove_untouched_blocks tt ;;;
  (exit 0 : process unit) ;;;
  filename <~ match opt_pack_file i with
              | Some name => proceed (Some name)
              | None => call Call_pack_file_name (pack_file_name_answer i)
              end ;;
  when (negb (opt_force_trace i))
       (when (match filename with None => true | Some _ => false end) (exit 2) ;;;
        file <~ call Call_read_pack (read_pack_answer i) ;;
        when file
             (when (opt_dump_pack i) (call Call_pack_dump tt ;;; exit 0) ;;;
              ret <~ call Call_do_readahead (do_readahead_answer i) ;;
              when (ret <? 0) (exit 3) ;;;
              exit 0) ;;;
        when (match path_argument i with Some _ => true | None => false end
              || opt_dump_pack i)
             (exit 4)) ;;;
  ret <~ call Call_trace (trace_answer i) ;;
  when (ret <? 0) (exit 5) ;;;
  proceed 0.

(** * Properties *)

(** ** The scenarios of the specification and the tests of the source *)

(** Scenarios S1 and S2: one inode's calls. *)
Example scenario_S1 :
  record_accesses [(0,0); (2,3); (1,1); (4,5); (8,10); (7,7); (1,3); (7,10); (2,8)]
  = [mk_file_map 0 11].
Proof. vm_compute. reflexivity. Qed.

Example scenario_S2 :
  record_accesses [(0,0); (2,3); (1,1); (4,5); (8,10); (7,7); (1,3); (7,10); (2,8);
                   (20,30); (50,60); (70,80); (90,100); (25,69)]
  = [mk_file_map 0 11; mk_file_map 20 81; mk_file_map 90 101].
Proof. vm_compute. reflexivity. Qed.

(** The source's [test_trace_add_file_map]. *)
Example test_trace_add_file_map :
  let run :=
    fold_left (fun h c => match c with
                          | (d, i, a, b) => trace_add_file_map h d i a b
                          end)
      [(makedev 8 0, 12345, 0, 0); (makedev 8 0, 12345, 2, 3);
       (makedev 8 1, 67890, 0, 0); (makedev 8 0, 12345, 1, 1);
       (makedev 8 0, 12345, 4, 5); (makedev 8 0, 12345, 8, 10);
       (makedev 8 0, 12345, 7, 7); (makedev 8 0, 12345, 1, 3);
       (makedev 8 0, 12345, 7, 10); (makedev 8 0, 12345, 2, 8)]
      empty_device_hash in
  lookup_file_maps run (makedev 8 0) 12345 = Some [mk_file_map 0 11]
  /\ lookup_file_maps run (makedev 8 1) 67890 = Some [mk_file_map 0 1]
  /\ lookup_file_maps run (makedev 8 1) 12345 = None.
Proof. vm_compute. repeat split. Qed.

(** The source's [test_remove_untouched_blocks] (scenario S3); like the
    test, the comparison leaves [physical] out. *)
Example test_remove_untouched_blocks :
  let hash :=
    fold_left (fun h c => trace_add_file_map h (makedev 8 0) 1 (fst c) (snd c))
              [(13, 18); (22, 23); (32, 45); (52, 53); (56, 57); (62, 62); (69, 69)]
              empty_device_hash in
  let file :=
    mk_PackFile (makedev 8 0) false []
      [mk_PackPath 0 1 EmptyString; mk_PackPath 0 2 EmptyString]
      [page_block 0 13 5; page_block 0 20 5; page_block 0 33 5;
       page_block 0 43 5; page_block 0 53 5; page_block 0 63 5] in
  map (fun b => (pb_pathidx b, pb_offset b, pb_length b))
      (pf_blocks (remove_untouched_blocks hash file))
  = map (fun b => (pb_pathidx b, pb_offset b, pb_length b))
      [page_block 0 13 5; page_block 0 22 2; page_block 0 33 5;
       page_block 0 43 3; page_block 0 53 1; page_block 0 56 2].
Proof. vm_compute. reflexivity. Qed.

(** Scenario S4, by the code and by the description. *)
Example scenario_S4 : fix_path_string "/a//b/./c/../d/" = Some "/a/b/d"%string.
Proof. vm_compute. reflexivity. Qed.

Example normalize_S4 : normalize_string "/a//b/./c/../d/" = "/a/b/d"%string.
Proof. vm_compute. reflexivity. Qed.

(** ** Machine integers *)

Lemma off_t_small (z : Z) : - 2 ^ 63 <= z <= OFF_MAX -> off_t z = z.
Proof.
  unfold off_t, OFF_MAX. intros H.
  rewrite Z.mod_small; lia.
Qed.

Lemma size_t_small (z : Z) : 0 <= z <= SIZE_MAX -> size_t z = z.
Proof.
  unfold size_t, SIZE_MAX. intros H. apply Z.mod_small. lia.
Qed.

Lemma nih_min_spec (a b : Z) : nih_min a b = Z.min a b.
Proof. unfold nih_min. destruct (Z.ltb_spec a b); lia. Qed.

Lemma nih_max_spec (a b : Z) : nih_max a b = Z.max a b.
Proof. unfold nih_max. rewrite Z.gtb_ltb. destruct (Z.ltb_spec b a); lia. Qed.

(** ** Arrays as lists *)

Section ArrayFacts.
Context {A : Type}.
Implicit Types (a b c : list A) (x v : A).

Lemma firstn_prefix a b n : n = length a -> firstn n (a ++ b) = a.
Proof.
  intros ->. rewrite firstn_app, Nat.sub_diag, firstn_all. simpl.
  apply app_nil_r.
Qed.

Lemma skipn_prefix a b n : n = length a -> skipn n (a ++ b) = b.
Proof.
  intros ->. rewrite skipn_app, Nat.sub_diag, skipn_all. reflexivity.
Qed.

Lemma store_length a i v : length (store a i v) = length a.
Proof.
  revert i. induction a as [|x a IH]; intros [|i]; simpl; auto.
Qed.

Lemma store_middle a x c i v :
  i = length a -> store (a ++ x :: c) i v = a ++ v :: c.
Proof.
  intros ->. induction a as [|y a IH]; simpl; [reflexivity|].
  now rewrite IH.
Qed.

Lemma nth_middle_eq a x c i d : i = length a -> nth i (a ++ x :: c) d = x.
Proof. intros ->. apply nth_middle. Qed.
End ArrayFacts.

(** ** [bsearch] *)

(** When the comparator splits [[l, u)] into a zone where the key is
    greater ([> 0]), a zone of matches and a zone where the key is smaller
    ([< 0]), the search ends in the zone of matches, and fails exactly when
    that zone is empty. *)
Lemma bsearch_loop_zones (compar : nat -> Z) (a r : nat) :
  forall fuel l u,
    (u - l < fuel)%nat -> (l <= a)%nat -> (a + r <= u)%nat ->
    (forall i, (l <= i < a)%nat -> compar i > 0) ->
    (forall i, (a <= i < a + r)%nat -> compar i = 0) ->
    (forall i, (a + r <= i < u)%nat -> compar i < 0) ->
    match bsearch_loop fuel compar l u with
    | Some m => (a <= m < a + r)%nat
    | None => r = O
    end.
Proof.
  induction fuel as [|fuel IH]; intros l u Hfuel Hl Hu Hgt Heq Hlt; [lia|].
  cbn [bsearch_loop]. destruct (Nat.ltb_spec l u) as [Hlu|Hlu]; [|lia].
  assert (Hmid : (l <= (l + u) / 2 < u)%nat).
  { split; [apply Nat.div_le_lower_bound | apply Nat.Div0.div_lt_upper_bound]; lia. }
  set (idx := ((l + u) / 2)%nat) in *.
  destruct (Z.ltb_spec (compar idx) 0) as [Hneg|Hnneg].
  - assert ((a + r <= idx)%nat).
    { destruct (Nat.lt_ge_cases idx a) as [H1|H1].
      - specialize (Hgt idx). lia.
      - destruct (Nat.lt_ge_cases idx (a + r)) as [H2|H2]; [|exact H2].
        specialize (Heq idx). lia. }
    apply IH; auto; try lia. intros i Hi. apply Hlt. lia.
  - rewrite Z.gtb_ltb. destruct (Z.ltb_spec 0 (compar idx)) as [Hpos|Hnpos].
    + assert ((idx < a)%nat).
      { destruct (Nat.lt_ge_cases idx a) as [H1|H1]; [exact H1|].
        destruct (Nat.lt_ge_cases idx (a + r)) as [H2|H2].
        - specialize (Heq idx). lia.
        - specialize (Hlt idx). lia. }
      apply IH; auto; try lia. intros i Hi. apply Hgt. lia.
    + destruct (Nat.lt_ge_cases idx a) as [H1|H1].
      { specialize (Hgt idx). lia. }
      destruct (Nat.lt_ge_cases idx (a + r)) as [H2|H2]; [lia|].
      specialize (Hlt idx). lia.
Qed.

Lemma bsearch_zones (compar : nat -> Z) (a r nmemb : nat) :
  (a + r <= nmemb)%nat ->
  (forall i, (i < a)%nat -> compar i > 0) ->
  (forall i, (a <= i < a + r)%nat -> compar i = 0) ->
  (forall i, (a + r <= i < nmemb)%nat -> compar i < 0) ->
  match bsearch compar nmemb with
  | Some m => (a <= m < a + r)%nat
  | None => r = O
  end.
Proof.
  intros Hn Hgt Heq Hlt. unfold bsearch.
  apply bsearch_loop_zones; auto; try lia.
  intros i Hi. apply Hgt. lia.
Qed.

(** ** The range array of one inode *)

(** Page [p] lies in the half-open range [m]. *)
Definition in_range (m : file_map) (p : Z) : Prop := fm_start m <= p < fm_end m.

(** Page [p] lies in the union of the stored ranges. *)
Definition covered (maps : list file_map) (p : Z) : Prop :=
  exists m, In m maps /\ in_range m p.

(** The representation invariant of a range array, relative to a bound
    [lo] below its first entry: every entry is non-empty and fits an
    [off_t], and every entry starts strictly after the end of the one
    before it, so neighbours neither overlap nor touch. *)
Fixpoint separated_from (lo : Z) (maps : list file_map) : Prop :=
  match maps with
  | [] => True
  | m :: rest =>
      lo < fm_start m /\ fm_start m < fm_end m /\ fm_end m <= OFF_MAX
      /\ separated_from (fm_end m) rest
  end.

(** Page indices are not negative. *)
Definition range_array_ok (maps : list file_map) : Prop := separated_from (-1) maps.

Fixpoint last_end (lo : Z) (maps : list file_map) : Z :=
  match maps with
  | [] => lo
  | m :: rest => last_end (fm_end m) rest
  end.

Lemma separated_app lo X Y :
  separated_from lo (X ++ Y) <->
  separated_from lo X /\ separated_from (last_end lo X) Y.
Proof.
  revert lo. induction X as [|m X IH]; intros lo; simpl.
  - tauto.
  - rewrite IH. tauto.
Qed.

Lemma separated_bounds lo maps :
  separated_from lo maps ->
  Forall (fun m => lo < fm_start m /\ fm_start m < fm_end m /\ fm_end m <= OFF_MAX) maps.
Proof.
  revert lo. induction maps as [|m rest IH]; intros lo H; constructor.
  - simpl in H. tauto.
  - destruct H as (H1 & H2 & H3 & H4). specialize (IH _ H4).
    eapply Forall_impl; [|exact IH]. simpl. intros x Hx. lia.
Qed.

Lemma last_end_ge lo maps :
  separated_from lo maps ->
  lo <= last_end lo maps /\ Forall (fun m => fm_end m <= last_end lo maps) maps.
Proof.
  revert lo. induction maps as [|m rest IH]; intros lo H; simpl.
  - split; [lia|constructor].
  - destruct H as (H1 & H2 & H3 & H4). destruct (IH _ H4) as [IH1 IH2].
    split; [lia|]. constructor; [lia|exact IH2].
Qed.

Lemma separated_lower lo lo' maps :
  separated_from lo maps -> Forall (fun m => lo' < fm_start m) maps ->
  separated_from lo' maps.
Proof.
  destruct maps as [|m rest]; simpl; [tauto|].
  intros (H1 & H2 & H3 & H4) HF. inversion HF; subst. tauto.
Qed.

Lemma separated_across lo X Y x y :
  separated_from lo (X ++ Y) -> In x X -> In y Y -> fm_end x < fm_start y.
Proof.
  rewrite separated_app. intros [HX HY] Hx Hy.
  pose proof (proj2 (last_end_ge _ _ HX)) as HE.
  pose proof (separated_bounds _ _ HY) as HB.
  rewrite Forall_forall in HE, HB.
  specialize (HE _ Hx). specialize (HB _ Hy). lia.
Qed.

Lemma separated_join lo X m Y :
  separated_from lo X -> Forall (fun x => fm_end x < fm_start m) X ->
  lo < fm_start m -> fm_start m < fm_end m -> fm_end m <= OFF_MAX ->
  separated_from (fm_end m) Y ->
  separated_from lo (X ++ m :: Y).
Proof.
  intros HX HF Hlo Hne Hmax HY. rewrite separated_app. split; [exact HX|].
  simpl. repeat split; auto.
  destruct X as [|x X]; simpl; [exact Hlo|].
  pose proof (proj2 (last_end_ge _ _ HX)) as HE. simpl in HE.
  simpl in HX. destruct HX as (_ & _ & _ & HX).
  destruct (last_end_ge _ _ HX) as [H1 H2].
  clear HE.
  assert (Hin : exists z, In z (x :: X) /\ last_end (fm_end x) X = fm_end z).
  { clear -X. revert x. induction X as [|y X IH]; intros x; simpl.
    - exists x. auto.
    - destruct (IH y) as (z & Hz & Heq). exists z. simpl in Hz. split; [tauto|exact Heq]. }
  destruct Hin as (z & Hz & Heq). rewrite Heq.
  rewrite Forall_forall in HF. apply HF. exact Hz.
Qed.

(** Splitting a range array at a threshold on the ends, then on the starts. *)
Lemma split_by_end lo maps t :
  separated_from lo maps ->
  exists A B, maps = A ++ B
    /\ Forall (fun m => fm_end m < t) A /\ Forall (fun m => t <= fm_end m) B.
Proof.
  revert lo. induction maps as [|m rest IH]; intros lo H.
  - exists [], []. repeat split; constructor.
  - destruct (Z_lt_le_dec (fm_end m) t) as [Hlt|Hge].
    + destruct H as (H1 & H2 & H3 & H4).
      destruct (IH _ H4) as (A & B & -> & HA & HB).
      exists (m :: A), B. repeat split; auto.
    + exists [], (m :: rest). repeat split; [constructor|].
      destruct H as (H1 & H2 & H3 & H4). constructor; [exact Hge|].
      pose proof (separated_bounds _ _ H4) as HB.
      eapply Forall_impl; [|exact HB]. simpl. intros x Hx. lia.
Qed.

Lemma split_by_start lo maps t :
  separated_from lo maps ->
  exists R B, maps = R ++ B
    /\ Forall (fun m => fm_start m <= t) R /\ Forall (fun m => t < fm_start m) B.
Proof.
  revert lo. induction maps as [|m rest IH]; intros lo H.
  - exists [], []. repeat split; constructor.
  - destruct (Z_le_gt_dec (fm_start m) t) as [Hle|Hgt].
    + destruct H as (H1 & H2 & H3 & H4).
      destruct (IH _ H4) as (R & B & -> & HR & HB).
      exists (m :: R), B. repeat split; auto.
    + exists [], (m :: rest). repeat split; [constructor|].
      destruct H as (H1 & H2 & H3 & H4). constructor; [lia|].
      pose proof (separated_bounds _ _ H4) as HB.
      eapply Forall_impl; [|exact HB]. simpl. intros x Hx. lia.
Qed.

(** Every range array splits, for a key [[ks, ke)], into the entries that
    end before the key without touching it, the run of entries that overlap
    or touch it, and the entries that start after it without touching it. *)
Lemma split_by_key lo maps ks ke :
  separated_from lo maps ->
  exists A R B, maps = A ++ R ++ B
    /\ Forall (fun m => fm_end m < ks) A
    /\ Forall (fun m => ks <= fm_end m /\ fm_start m <= ke) R
    /\ Forall (fun m => ke < fm_start m) B.
Proof.
  intros H. destruct (split_by_end _ _ ks H) as (A & RB & -> & HA & HRB).
  apply separated_app in H. destruct H as [_ H].
  destruct (split_by_start _ _ ke H) as (R & B & -> & HR & HB).
  exists A, R, B. repeat split; auto.
  apply Forall_app in HRB. destruct HRB as [HR' _].
  rewrite Forall_forall in *. intros x Hx. split; auto.
Qed.

Lemma map_at_zone A R B i :
  (i < length (A ++ R ++ B))%nat ->
  let m := map_at (A ++ R ++ B) i in
  ((i < length A)%nat /\ In m A)
  \/ ((length A <= i < length A + length R)%nat /\ In m R)
  \/ ((length A + length R <= i)%nat /\ In m B).
Proof.
  intros Hi m. subst m. unfold map_at. rewrite !length_app in Hi.
  destruct (Nat.lt_ge_cases i (length A)) as [H1|H1].
  - left. split; [exact H1|]. rewrite app_nth1 by exact H1. now apply nth_In.
  - right. rewrite app_nth2 by exact H1.
    destruct (Nat.lt_ge_cases (i - length A) (length R)) as [H2|H2].
    + left. split; [lia|]. rewrite app_nth1 by exact H2. now apply nth_In.
    + right. split; [lia|]. rewrite app_nth2 by exact H2. apply nth_In. lia.
Qed.

(** The shape the key and the three zones have in the lemmas below. *)
Record zones (lo ks ke : Z) (A R B : list file_map) : Prop := mk_zones {
  zones_lo : -1 <= lo;
  zones_key : 0 <= ks /\ ks < ke /\ ke <= OFF_MAX;
  zones_sep : separated_from lo (A ++ R ++ B);
  zones_A : Forall (fun m => fm_end m < ks) A;
  zones_R : Forall (fun m => ks <= fm_end m /\ fm_start m <= ke) R;
  zones_B : Forall (fun m => ke < fm_start m) B
}.

Lemma zones_entry lo ks ke A R B m :
  zones lo ks ke A R B -> In m (A ++ R ++ B) ->
  0 <= fm_start m /\ fm_start m < fm_end m /\ fm_end m <= OFF_MAX.
Proof.
  intros HZ Hm. pose proof (separated_bounds _ _ (zones_sep _ _ _ _ _ _ HZ)) as HB.
  rewrite Forall_forall in HB. specialize (HB _ Hm).
  pose proof (zones_lo _ _ _ _ _ _ HZ). lia.
Qed.

Lemma cmp_file_map_key_zones lo ks ke A R B :
  zones lo ks ke A R B ->
  let compar := fun i => cmp_file_map (mk_file_map ks ke) (map_at (A ++ R ++ B) i) in
  (forall i, (i < length A)%nat -> compar i > 0)
  /\ (forall i, (length A <= i < length A + length R)%nat -> compar i = 0)
  /\ (forall i, (length A + length R <= i < length (A ++ R ++ B))%nat -> compar i < 0).
Proof.
  intros HZ compar. subst compar.
  pose proof (zones_A _ _ _ _ _ _ HZ) as HA. pose proof (zones_R _ _ _ _ _ _ HZ) as HR.
  pose proof (zones_B _ _ _ _ _ _ HZ) as HB. rewrite Forall_forall in HA, HR, HB.
  pose proof (zones_key _ _ _ _ _ _ HZ) as HK.
  pose proof (fun m => zones_entry _ _ _ _ _ _ m HZ) as Hent.
  repeat split; intros i Hi;
    (assert (Hlen : (i < length (A ++ R ++ B))%nat)
      by (rewrite !length_app in *; lia));
    destruct (map_at_zone A R B i Hlen) as [[Hz Hin]|[[Hz Hin]|[Hz Hin]]]; try lia;
    unfold cmp_file_map; simpl.
  - specialize (HA _ Hin).
    assert (In (map_at (A ++ R ++ B) i) (A ++ R ++ B)) by (apply in_or_app; auto).
    specialize (Hent _ H).
    destruct (Z.ltb_spec ke (fm_start (map_at (A ++ R ++ B) i))); [lia|].
    destruct (Z.ltb_spec (fm_end (map_at (A ++ R ++ B) i)) ks); lia.
  - specialize (HR _ Hin).
    destruct (Z.ltb_spec ke (fm_start (map_at (A ++ R ++ B) i))); [lia|].
    destruct (Z.ltb_spec (fm_end (map_at (A ++ R ++ B) i)) ks); lia.
  - specialize (HB _ Hin).
    destruct (Z.ltb_spec ke (fm_start (map_at (A ++ R ++ B) i))); lia.
Qed.

(** The same zones seen from an entry: [cmp_file_map (entry, key)]. *)
Lemma cmp_file_map_entry_zones lo ks ke A R B :
  zones lo ks ke A R B ->
  let compar := fun i => cmp_file_map (map_at (A ++ R ++ B) i) (mk_file_map ks ke) in
  (forall i, (i < length A)%nat -> compar i <> 0)
  /\ (forall i, (length A <= i < length A + length R)%nat -> compar i = 0)
  /\ (forall i, (length A + length R <= i < length (A ++ R ++ B))%nat -> compar i <> 0).
Proof.
  intros HZ compar. subst compar.
  pose proof (zones_A _ _ _ _ _ _ HZ) as HA. pose proof (zones_R _ _ _ _ _ _ HZ) as HR.
  pose proof (zones_B _ _ _ _ _ _ HZ) as HB. rewrite Forall_forall in HA, HR, HB.
  pose proof (zones_key _ _ _ _ _ _ HZ) as HK.
  repeat split; intros i Hi;
    (assert (Hlen : (i < length (A ++ R ++ B))%nat)
      by (rewrite !length_app in *; lia));
    destruct (map_at_zone A R B i Hlen) as [[Hz Hin]|[[Hz Hin]|[Hz Hin]]]; try lia;
    unfold cmp_file_map; simpl.
  - specialize (HA _ Hin).
    destruct (Z.ltb_spec (fm_end (map_at (A ++ R ++ B) i)) ks); lia.
  - specialize (HR _ Hin).
    destruct (Z.ltb_spec (fm_end (map_at (A ++ R ++ B) i)) ks); [lia|].
    destruct (Z.ltb_spec ke (fm_start (map_at (A ++ R ++ B) i))); lia.
  - specialize (HB _ Hin).
    destruct (Z.ltb_spec (fm_end (map_at (A ++ R ++ B) i)) ks); [lia|].
    destruct (Z.ltb_spec ke (fm_start (map_at (A ++ R ++ B) i))); lia.
Qed.

Lemma lower_bound_walk_zone maps key a :
  forall m, (a <= m)%nat ->
    (forall i, (a <= i < m)%nat -> cmp_file_map (map_at maps i) key = 0) ->
    (forall i, (i < a)%nat -> cmp_file_map (map_at maps i) key <> 0) ->
    lower_bound_walk maps key m = a.
Proof.
  induction m as [|m IH]; intros Ham Hrun Hout; [simpl; lia|].
  simpl. destruct (Z.eqb_spec (cmp_file_map (map_at maps m) key) 0) as [Heq|Hne].
  - assert (a <= m)%nat.
    { destruct (Nat.eq_dec a (S m)) as [->|]; [|lia]. exfalso. apply (Hout m); [lia | exact Heq]. }
    apply IH; auto. intros i Hi. apply Hrun. lia.
  - destruct (Nat.eq_dec a (S m)) as [->|]; [reflexivity|].
    exfalso. apply Hne. apply Hrun. lia.
Qed.

Lemma upper_bound_walk_zone maps key top :
  forall fuel m, (m <= top)%nat -> (top - m <= fuel)%nat -> (top < length maps)%nat ->
    (forall i, (m < i <= top)%nat -> cmp_file_map (map_at maps i) key = 0) ->
    (forall i, (top < i < length maps)%nat -> cmp_file_map (map_at maps i) key <> 0) ->
    upper_bound_walk fuel maps key m = top.
Proof.
  induction fuel as [|fuel IH]; intros m Hm Hfuel Htop Hrun Hout.
  - simpl. lia.
  - simpl. destruct (Nat.ltb_spec (m + 1) (length maps)) as [Hlt|Hge]; simpl.
    + destruct (Z.eqb_spec (cmp_file_map (map_at maps (m + 1)) key) 0) as [Heq|Hne].
      * assert (m + 1 <= top)%nat.
        { destruct (Nat.le_gt_cases (m + 1) top); [assumption|].
          exfalso. apply (Hout (m + 1)%nat); [lia | exact Heq]. }
        apply IH; auto; try lia. intros i Hi. apply Hrun. lia.
      * destruct (Nat.eq_dec m top) as [->|]; [reflexivity|].
        exfalso. apply Hne. apply Hrun. lia.
    + lia.
Qed.

(** The two array updates of the range index, as list equations. *)
Section ArrayUpdates.
Context {T : Type}.

(** Opening a slot at [idx] by [memmove] and storing into it. *)
Lemma insert_by_memmove (A B : list T) (d v : T) :
  let nr := length (A ++ B) in
  let idx := length A in
  let grown := (A ++ B) ++ [d] in
  store (if (idx <? nr)%nat then memmove grown (idx + 1) idx (nr - idx) else grown)
        idx v
  = A ++ v :: B.
Proof.
  cbv zeta. rewrite length_app.
  destruct B as [|b B'].
  - simpl length. rewrite Nat.add_0_r, Nat.ltb_irrefl, app_nil_r.
    now apply store_middle.
  - destruct (Nat.ltb_spec (length A) (length A + length (b :: B'))) as [_|H];
      [|simpl in H; lia].
    unfold memmove.
    replace ((A ++ b :: B') ++ [d]) with ((A ++ [b]) ++ (B' ++ [d]))
      by (rewrite <- !app_assoc; reflexivity).
    rewrite (firstn_prefix (A ++ [b])) by (rewrite length_app; simpl; lia).
    replace ((A ++ [b]) ++ (B' ++ [d])) with (A ++ ((b :: B') ++ [d]))
      by (rewrite <- !app_assoc; reflexivity).
    rewrite (skipn_prefix A) by reflexivity.
    rewrite (firstn_prefix (b :: B')) by lia.
    rewrite skipn_all2 by (rewrite !length_app; simpl; lia).
    rewrite app_nil_r, <- app_assoc. simpl.
    now apply store_middle.
Qed.

(** Overwriting the first entry of a run and closing the gap the rest of
    the run leaves. *)
Lemma collapse_by_memmove (A R' B : list T) (x v : T) :
  let maps := A ++ (x :: R') ++ B in
  let lower := length A in
  let upper := (length A + length R')%nat in
  let nr := length maps in
  let maps1 := store maps lower v in
  (if (lower =? upper)%nat then maps1
   else firstn (nr - (upper - lower))
          (if (upper <? nr - 1)%nat
           then memmove maps1 (lower + 1) (upper + 1) (nr - upper - 1)
           else maps1))
  = A ++ v :: B.
Proof.
  cbv zeta. rewrite (store_middle A x (R' ++ B)) by reflexivity.
  rewrite !length_app. simpl length.
  remember (length A) as a eqn:Ha. remember (length R') as r eqn:Hr.
  remember (length B) as b eqn:Hb.
  replace (a + (S r + b) - (a + r - a))%nat with (a + 1 + b)%nat by lia.
  replace (a + (S r + b) - (a + r) - 1)%nat with b by lia.
  destruct (Nat.eqb_spec a (a + r)) as [He|Hne].
  - destruct R'; [reflexivity|simpl in Hr; lia].
  - destruct (Nat.ltb_spec (a + r) (a + (S r + b) - 1)) as [Hlt|Hge].
    + unfold memmove.
      replace (A ++ v :: R' ++ B) with ((A ++ [v]) ++ R' ++ B)
        by (rewrite <- app_assoc; reflexivity).
      rewrite (firstn_prefix (A ++ [v])) by (rewrite length_app; simpl; lia).
      replace ((A ++ [v]) ++ R' ++ B) with (((A ++ [v]) ++ R') ++ B)
        by (rewrite <- !app_assoc; reflexivity).
      rewrite (skipn_prefix ((A ++ [v]) ++ R')) by (rewrite !length_app; simpl; lia).
      rewrite (firstn_all2 B) by lia.
      rewrite app_assoc.
      rewrite (firstn_prefix ((A ++ [v]) ++ B)) by (rewrite !length_app; simpl; lia).
      rewrite <- app_assoc. reflexivity.
    + assert (B = []) by (destruct B; [reflexivity|simpl in Hb; lia]). subst B.
      simpl in Hb. subst b. rewrite Nat.add_0_r.
      replace (A ++ v :: R' ++ []) with ((A ++ [v]) ++ R' ++ [])
        by (rewrite <- app_assoc; reflexivity).
      rewrite firstn_prefix by (rewrite length_app; simpl; lia).
      reflexivity.
Qed.
End ArrayUpdates.

Lemma start_mark_is_mark : (size_t (fm_start start_mark) =? FILEMAP_START_MARK) = true.
Proof. vm_compute. reflexivity. Qed.

Lemma entry_is_not_mark m :
  0 <= fm_start m -> fm_start m <= OFF_MAX ->
  (size_t (fm_start m) =? FILEMAP_START_MARK) = false.
Proof.
  intros H0 H1. rewrite size_t_small by (unfold OFF_MAX, SIZE_MAX in *; lia).
  apply Z.eqb_neq. unfold FILEMAP_START_MARK, SIZE_MAX, OFF_MAX in *. lia.
Qed.

(** With no entry touching the key, [cmp_file_map_range] matches exactly the
    first entry after the key. *)
Lemma cmp_file_map_range_zones lo ks ke A B :
  zones lo ks ke A [] B ->
  let compar := cmp_file_map_range (mk_file_map ks ke) (A ++ B) in
  (forall i, (i < length A)%nat -> compar i > 0)
  /\ (B <> [] -> compar (length A) = 0)
  /\ (forall i, (length A < i < length (A ++ B))%nat -> compar i < 0).
Proof.
  intros HZ compar. subst compar.
  pose proof (zones_A _ _ _ _ _ _ HZ) as HA.
  pose proof (zones_B _ _ _ _ _ _ HZ) as HB. rewrite Forall_forall in HA, HB.
  pose proof (zones_key _ _ _ _ _ _ HZ) as HK.
  pose proof (fun m => zones_entry _ _ _ _ _ _ m HZ) as Hent. simpl in Hent.
  assert (HinA : forall i, (i < length A)%nat -> In (map_at (A ++ B) i) A).
  { intros i Hi. unfold map_at. rewrite app_nth1 by exact Hi. now apply nth_In. }
  assert (HinB : forall i, (length A <= i < length (A ++ B))%nat ->
                           In (map_at (A ++ B) i) B).
  { intros i Hi. unfold map_at. rewrite app_nth2 by lia. apply nth_In.
    rewrite length_app in Hi. lia. }
  assert (Hcase : forall i m, (i < length (A ++ B))%nat -> m = map_at (A ++ B) i ->
            (In m A \/ In m B) /\ 0 <= fm_start m < fm_end m /\ fm_end m <= OFF_MAX).
  { intros i m Hi ->. assert (In (map_at (A ++ B) i) A \/ In (map_at (A ++ B) i) B) as Hor.
    { destruct (Nat.lt_ge_cases i (length A)); [left|right]; auto. }
    split; [exact Hor|]. specialize (Hent (map_at (A ++ B) i)).
    rewrite in_app_iff in Hent. specialize (Hent Hor). lia. }
  unfold cmp_file_map_range. cbn [fm_start fm_end]. repeat split.
  - intros i Hi. specialize (HA _ (HinA i Hi)).
    destruct (Hcase i _ ltac:(rewrite length_app; lia) eq_refl) as [_ Hb].
    destruct (Z.ltb_spec ke (fm_start (map_at (A ++ B) i))); lia.
  - intros HBne.
    assert (Hlen : (length A < length (A ++ B))%nat).
    { rewrite length_app. destruct B; [congruence|simpl; lia]. }
    specialize (HB _ (HinB (length A) ltac:(lia))).
    destruct (Z.ltb_spec ke (fm_start (map_at (A ++ B) (length A)))); [|lia].
    unfold map_before. destruct (length A) as [|j] eqn:Hj.
    + rewrite start_mark_is_mark. reflexivity.
    + specialize (HA _ (HinA j ltac:(lia))).
      destruct (Hcase j _ ltac:(lia) eq_refl) as [_ Hb].
      rewrite entry_is_not_mark by lia. simpl.
      rewrite Z.gtb_ltb. destruct (Z.ltb_spec (fm_end (map_at (A ++ B) j)) ks); lia.
  - intros i Hi. specialize (HB _ (HinB i ltac:(lia))) as HBi.
    destruct (Z.ltb_spec ke (fm_start (map_at (A ++ B) i))); [|lia].
    unfold map_before. destruct i as [|j]; [lia|].
    specialize (HB _ (HinB j ltac:(lia))).
    destruct (Hcase j _ ltac:(lia) eq_refl) as [_ Hb].
    rewrite entry_is_not_mark by lia. simpl.
    rewrite Z.gtb_ltb. destruct (Z.ltb_spec (fm_end (map_at (A ++ B) j)) ks); lia.
Qed.

(** [add_map] puts the key between the entries before it and the entries
    after it. *)
Lemma add_map_split lo first last_index A B :
  zones lo first (last_index + 1) A [] B ->
  add_map (A ++ B) first last_index = A ++ mk_file_map first (last_index + 1) :: B.
Proof.
  intros HZ. pose proof (zones_key _ _ _ _ _ _ HZ) as HK.
  pose proof (zones_A _ _ _ _ _ _ HZ) as HA.
  pose proof (zones_B _ _ _ _ _ _ HZ) as HB.
  pose proof (fun m => zones_entry _ _ _ _ _ _ m HZ) as Hent. simpl in Hent.
  unfold add_map. rewrite off_t_small by (unfold OFF_MAX in *; lia).
  remember (A ++ B) as maps eqn:Hmaps.
  destruct maps as [|x [|y rest]].
  - destruct A; [|discriminate]. destruct B; [|discriminate]. reflexivity.
  - destruct A as [|a A'].
    + simpl in Hmaps. subst B. inversion HB; subst. simpl.
      rewrite Z.gtb_ltb. destruct (Z.ltb_spec first (fm_start x)); [reflexivity|lia].
    + destruct A'; [|destruct A'; discriminate].
      destruct B; [|discriminate]. inversion Hmaps; subst. inversion HA; subst.
      specialize (Hent a (or_introl eq_refl)). simpl.
      rewrite Z.gtb_ltb. destruct (Z.ltb_spec first (fm_start a)); [lia|reflexivity].
  - rewrite Hmaps.
    destruct (cmp_file_map_range_zones _ _ _ _ _ HZ) as (Hgt & Heq & Hlt).
    set (r := match B with [] => O | _ => 1%nat end).
    assert (Hr : (r = O /\ B = []) \/ (r = 1%nat /\ B <> [] /\ (0 < length B)%nat)).
    { subst r. destruct B; [left; auto|right]. repeat split; [discriminate|simpl; lia]. }
    clearbody r.
    pose proof (length_app A B) as Hlen.
    pose proof (bsearch_zones (cmp_file_map_range (mk_file_map first (last_index + 1)) (A ++ B))
                  (length A) r (length (A ++ B))) as Hsearch.
    assert (Hpre1 : (length A + r <= length (A ++ B))%nat) by lia.
    assert (Hpre2 : forall i, (length A <= i < length A + r)%nat ->
              cmp_file_map_range (mk_file_map first (last_index + 1)) (A ++ B) i = 0).
    { intros i Hi. destruct Hr as [[-> _]|(-> & HBne & _)]; [lia|].
      replace i with (length A) by lia. apply Heq. exact HBne. }
    assert (Hpre3 : forall i, (length A + r <= i < length (A ++ B))%nat ->
              cmp_file_map_range (mk_file_map first (last_index + 1)) (A ++ B) i < 0).
    { intros i Hi. apply Hlt. destruct Hr as [[-> ->]|(-> & _ & _)]; simpl in *; lia. }
    specialize (Hsearch Hpre1 Hgt Hpre2 Hpre3).
    assert (Hidx : match bsearch (cmp_file_map_range (mk_file_map first (last_index + 1)) (A ++ B))
                           (length (A ++ B)) with
                   | Some i => i
                   | None => length (A ++ B)
                   end = length A).
    { destruct (bsearch _ _) as [m|].
      - destruct Hr as [[-> _]|(-> & _ & _)]; lia.
      - subst r. destruct Hr as [[_ ->]|(Hr & _ & _)]; [|discriminate].
        rewrite app_nil_r. reflexivity. }
    rewrite Hidx. apply insert_by_memmove.
Qed.

Lemma separated_index lo maps i j :
  separated_from lo maps -> (i < j < length maps)%nat ->
  fm_end (map_at maps i) < fm_start (map_at maps j).
Proof.
  intros H Hij. rewrite <- (firstn_skipn j maps) in H.
  apply (separated_across _ _ _ _ _ H).
  - unfold map_at. replace (nth i maps start_mark) with (nth i (firstn j maps) start_mark).
    + apply nth_In. rewrite length_firstn. lia.
    + rewrite nth_firstn. destruct (Nat.ltb_spec i j); [reflexivity|lia].
  - unfold map_at. replace (nth j maps start_mark) with (nth O (skipn j maps) start_mark).
    + apply nth_In. rewrite length_skipn. lia.
    + rewrite nth_skipn. f_equal. lia.
Qed.

(** The single range that replaces the key and the run [R] it touches. *)
Definition hull (ks ke : Z) (R : list file_map) : file_map :=
  match R with
  | [] => mk_file_map ks ke
  | rf :: _ => mk_file_map (Z.min (fm_start rf) ks) (Z.max (fm_end (last R rf)) ke)
  end.

Lemma map_at_run_first A rf R' B : map_at (A ++ (rf :: R') ++ B) (length A) = rf.
Proof. unfold map_at. simpl. apply nth_middle. Qed.

Lemma nth_length_last {T : Type} (R' : list T) :
  forall rf d d', nth (length R') (rf :: R') d = last (rf :: R') d'.
Proof.
  induction R' as [|y R' IH]; intros rf d d'; [reflexivity|].
  change (nth (length (y :: R')) (rf :: y :: R') d) with (nth (length R') (y :: R') d).
  rewrite (IH y d d'). reflexivity.
Qed.

Lemma map_at_run_last A rf R' B :
  map_at (A ++ (rf :: R') ++ B) (length A + length R') = last (rf :: R') rf.
Proof.
  unfold map_at. rewrite app_nth2 by lia.
  replace (length A + length R' - length A)%nat with (length R') by lia.
  rewrite app_nth1 by (simpl; lia).
  apply nth_length_last.
Qed.

(** What [inode_add_file_map] does: the entries the key neither overlaps
    nor touches stay, the run it touches is replaced, with the key, by
    their hull. *)
Lemma inode_add_file_map_split lo first last_index A R B :
  zones lo first (last_index + 1) A R B ->
  inode_add_file_map (A ++ R ++ B) first last_index
  = A ++ hull first (last_index + 1) R :: B.
Proof.
  intros HZ. pose proof (zones_key _ _ _ _ _ _ HZ) as HK.
  pose proof (zones_R _ _ _ _ _ _ HZ) as HR.
  pose proof (zones_sep _ _ _ _ _ _ HZ) as Hsep.
  unfold inode_add_file_map. rewrite off_t_small by (unfold OFF_MAX in *; lia).
  cbn [fm_start fm_end].
  destruct (cmp_file_map_key_zones _ _ _ _ _ _ HZ) as (Hgt & Heq & Hlt).
  pose proof (bsearch_zones _ (length A) (length R) (length (A ++ R ++ B))
                ltac:(rewrite !length_app; lia) Hgt Heq Hlt) as Hsearch.
  cbv beta in Hsearch.
  destruct (bsearch _ _) as [m|].
  2:{ destruct R; [|discriminate]. simpl. eapply add_map_split. exact HZ. }
  destruct R as [|rf R']; [simpl in Hsearch; lia|].
  destruct (cmp_file_map_entry_zones _ _ _ _ _ _ HZ) as (Hbefore & Hrun & Hafter).
  assert (Hlen : length (A ++ (rf :: R') ++ B) = (length A + S (length R') + length B)%nat).
  { rewrite !length_app. simpl. lia. }
  change (length (rf :: R')) with (S (length R')) in *.
  destruct (andb _ _) eqn:Hcontained.
  - (* the entry found holds the whole key: it is the only entry of the run *)
    apply andb_true_iff in Hcontained. destruct Hcontained as [Hc1 Hc2].
    apply Z.leb_le in Hc1. rewrite Z.geb_leb in Hc2. apply Z.leb_le in Hc2.
    rewrite Forall_forall in HR.
    assert (Hm : m = length A).
    { destruct (Nat.eq_dec m (length A)) as [|Hne]; [assumption|exfalso].
      pose proof (separated_index _ _ (m - 1) m Hsep ltac:(lia)) as Hs.
      destruct (map_at_zone A (rf :: R') B (m - 1) ltac:(lia))
        as [[Hz _]|[[_ Hin]|[Hz _]]]; simpl in *; try lia.
      specialize (HR _ Hin). lia. }
    assert (HR' : R' = []).
    { destruct R' as [|y R'']; [reflexivity|exfalso].
      pose proof (separated_index _ _ m (m + 1) Hsep ltac:(simpl in *; lia)) as Hs.
      destruct (map_at_zone A (rf :: y :: R'') B (m + 1) ltac:(simpl in *; lia))
        as [[Hz _]|[[_ Hin]|[Hz _]]]; simpl in *; try lia.
      specialize (HR _ Hin). lia. }
    subst m R'. rewrite map_at_run_first in Hc1, Hc2.
    simpl. do 2 f_equal. destruct rf as [s e]. simpl in *. f_equal; lia.
  - assert (Hlow : lower_bound_walk (A ++ (rf :: R') ++ B)
                     (mk_file_map first (last_index + 1)) m = length A).
    { apply lower_bound_walk_zone; [lia| |].
      - intros i Hi. apply Hrun. lia.
      - intros i Hi. apply Hbefore. exact Hi. }
    assert (Hup : upper_bound_walk (length (A ++ (rf :: R') ++ B)) (A ++ (rf :: R') ++ B)
                     (mk_file_map first (last_index + 1)) m = (length A + length R')%nat).
    { apply upper_bound_walk_zone; try lia.
      - intros i Hi. apply Hrun. lia.
      - intros i Hi. apply Hafter. lia. }
    rewrite Hlow, Hup. rewrite map_at_run_first, map_at_run_last.
    rewrite nih_min_spec, nih_max_spec.
    apply (collapse_by_memmove A R' B rf).
Qed.

Lemma covered_app X Y p : covered (X ++ Y) p <-> covered X p \/ covered Y p.
Proof.
  unfold covered. split.
  - intros (m & Hm & Hp). apply in_app_or in Hm. destruct Hm; [left|right]; eauto.
  - intros [(m & Hm & Hp)|(m & Hm & Hp)]; exists m; split; auto; apply in_or_app; auto.
Qed.

Lemma covered_cons m Y p : covered (m :: Y) p <-> in_range m p \/ covered Y p.
Proof.
  unfold covered. split.
  - intros (x & [->|Hx] & Hp); [left; exact Hp|right; eauto].
  - intros [Hp|(x & Hx & Hp)]; [exists m|exists x]; simpl; auto.
Qed.

Lemma covered_nil p : covered [] p <-> False.
Proof. unfold covered. split; [intros (m & [] & _)|tauto]. Qed.

Lemma last_end_last lo rf R' d : last_end lo (rf :: R') = fm_end (last (rf :: R') d).
Proof.
  revert lo rf. induction R' as [|y R' IH]; intros lo rf; [reflexivity|].
  change (last_end lo (rf :: y :: R')) with (last_end (fm_end rf) (y :: R')).
  rewrite (IH (fm_end rf) y). reflexivity.
Qed.

Lemma last_in {T : Type} (rf : T) R' d : In (last (rf :: R') d) (rf :: R').
Proof.
  revert rf. induction R' as [|y R' IH]; intros rf; [left; reflexivity|].
  right. apply (IH y).
Qed.

(** The hull covers the key and the run, and nothing else. *)
Lemma hull_covers lo ks ke R p :
  ks < ke -> separated_from lo R ->
  Forall (fun m => ks <= fm_end m /\ fm_start m <= ke) R ->
  in_range (hull ks ke R) p <-> covered R p \/ ks <= p < ke.
Proof.
  intros Hk Hsep HR. destruct R as [|rf R'].
  - simpl. unfold in_range. simpl. rewrite covered_nil. tauto.
  - assert (Hl := last_in rf R' rf).
    rewrite Forall_forall in HR.
    pose proof (HR _ (or_introl eq_refl)) as Hrf. pose proof (HR _ Hl) as Hrl.
    pose proof (proj2 (last_end_ge _ _ Hsep)) as Hends.
    rewrite (last_end_last lo rf R' rf) in Hends. rewrite Forall_forall in Hends.
    assert (Hstarts : forall r, In r (rf :: R') -> fm_start rf <= fm_start r).
    { intros r [->|Hr]; [lia|]. simpl in Hsep. destruct Hsep as (_ & ? & _ & Hsep).
      pose proof (separated_bounds _ _ Hsep) as Hb. rewrite Forall_forall in Hb.
      specialize (Hb _ Hr). lia. }
    unfold hull, in_range. cbn [fm_start fm_end]. split.
    + intros Hp.
      destruct (Z_lt_le_dec p ks) as [Hlow|Hlow].
      * left. exists rf. split; [left; reflexivity|]. unfold in_range. lia.
      * destruct (Z_lt_le_dec p ke) as [Hhigh|Hhigh]; [right; lia|].
        left. exists (last (rf :: R') rf). split; [exact Hl|]. unfold in_range. lia.
    + intros [(r & Hr & Hp)|Hp]; [|lia].
      specialize (Hstarts _ Hr). specialize (Hends _ Hr). unfold in_range in Hp. lia.
Qed.

(** One request keeps the invariant and adds exactly its pages. *)
Lemma inode_add_file_map_ok maps first last_index :
  range_array_ok maps -> 0 <= first -> first <= last_index -> last_index < OFF_MAX ->
  range_array_ok (inode_add_file_map maps first last_index)
  /\ forall p, covered (inode_add_file_map maps first last_index) p
               <-> covered maps p \/ first <= p <= last_index.
Proof.
  intros Hok H0 Hfl Hmax. unfold range_array_ok in *.
  destruct (split_by_key _ _ first (last_index + 1) Hok) as (A & R & B & -> & HA & HR & HB).
  assert (HZ : zones (-1) first (last_index + 1) A R B).
  { constructor; auto; lia. }
  rewrite (inode_add_file_map_split _ _ _ _ _ _ HZ).
  pose proof Hok as Hsep. apply separated_app in Hsep. destruct Hsep as [HsA HsRB].
  pose proof HsRB as HsR. apply separated_app in HsR. destruct HsR as [HsR HsB].
  pose proof (separated_bounds _ _ Hok) as Hbounds. rewrite Forall_forall in Hbounds.
  assert (Hhull : forall x, In x A -> fm_end x < fm_start (hull first (last_index + 1) R)).
  { rewrite Forall_forall in HA. intros x Hx. specialize (HA _ Hx).
    destruct R as [|rf R']; cbn [hull fm_start fm_end]; [exact HA|].
    pose proof (separated_across _ _ _ x rf Hok Hx ltac:(simpl; auto)). lia. }
  assert (Hhull2 : forall y, In y B -> fm_end (hull first (last_index + 1) R) < fm_start y).
  { rewrite Forall_forall in HB. intros y Hy. specialize (HB _ Hy).
    destruct R as [|rf R']; cbn [hull fm_start fm_end]; [exact HB|].
    pose proof (separated_across _ _ _ (last (rf :: R') rf) y HsRB
                  (last_in rf R' rf) Hy). lia. }
  assert (Hhull3 : -1 < fm_start (hull first (last_index + 1) R)
                   /\ fm_start (hull first (last_index + 1) R) < fm_end (hull first (last_index + 1) R)
                   /\ fm_end (hull first (last_index + 1) R) <= OFF_MAX).
  { destruct R as [|rf R']; cbn [hull fm_start fm_end]; [lia|].
    pose proof (Hbounds rf ltac:(apply in_or_app; right; simpl; auto)).
    pose proof (Hbounds (last (rf :: R') rf)
                  ltac:(apply in_or_app; right; apply in_or_app; left; apply last_in)).
    lia. }
  split.
  - apply separated_join; try tauto.
    + rewrite Forall_forall. exact Hhull.
    + eapply separated_lower; [exact HsB|]. rewrite Forall_forall. exact Hhull2.
  - intros p. rewrite !covered_app, covered_cons.
    rewrite (hull_covers _ first (last_index + 1) R p ltac:(lia) HsR HR). intuition lia.
Qed.

(** A request whose indices are page indices: not negative, first before
    last, and [last_index + 1] still an [off_t]. *)
Definition valid_access (c : Z * Z) : Prop :=
  0 <= fst c /\ fst c <= snd c /\ snd c < OFF_MAX.

Lemma record_accesses_from_ok calls :
  forall maps, range_array_ok maps -> Forall valid_access calls ->
    let maps' := fold_left (fun maps c => inode_add_file_map maps (fst c) (snd c))
                           calls maps in
    range_array_ok maps'
    /\ forall p, covered maps' p
                 <-> covered maps p \/ exists c, In c calls /\ fst c <= p <= snd c.
Proof.
  induction calls as [|c calls IH]; intros maps Hok Hvalid; cbv zeta; simpl.
  - split; [exact Hok|]. intros p. split; [tauto|].
    intros [H|(c & [] & _)]; exact H.
  - inversion Hvalid as [|? ? (H0 & H1 & H2) Hrest]; subst.
    destruct (inode_add_file_map_ok maps (fst c) (snd c) Hok H0 H1 H2) as [Hok' Hcov].
    destruct (IH _ Hok' Hrest) as [Hok'' Hcov'']. split; [exact Hok''|].
    intros p. rewrite Hcov'', Hcov. split.
    + intros [[H|H]|(c' & Hc' & Hp)]; [tauto| |]; right.
      * exists c. auto.
      * exists c'. auto.
    + intros [H|(c' & [->|Hc'] & Hp)]; [tauto|tauto|]. right. exists c'. auto.
Qed.

Lemma record_accesses_ok calls :
  Forall valid_access calls ->
  range_array_ok (record_accesses calls)
  /\ forall p, covered (record_accesses calls) p
               <-> exists c, In c calls /\ fst c <= p <= snd c.
Proof.
  intros Hvalid.
  destruct (record_accesses_from_ok calls [] I Hvalid) as [Hok Hcov].
  split; [exact Hok|]. intros p. rewrite (Hcov p), covered_nil. tauto.
Qed.

(** A range array is determined by the pages it covers. *)
Lemma range_array_unique l1 :
  forall l2 lo1 lo2,
    separated_from lo1 l1 -> separated_from lo2 l2 ->
    (forall p, covered l1 p <-> covered l2 p) -> l1 = l2.
Proof.
  assert (Hhead : forall lo m rest p,
            separated_from lo (m :: rest) -> covered (m :: rest) p -> fm_start m <= p).
  { intros lo m rest p (_ & Hne & _ & Hs) Hc. apply covered_cons in Hc.
    destruct Hc as [Hc|(r & Hr & Hc)]; [unfold in_range in Hc; lia|].
    pose proof (separated_bounds _ _ Hs) as Hb. rewrite Forall_forall in Hb.
    specialize (Hb _ Hr). unfold in_range in Hc. lia. }
  assert (Htail : forall lo m rest p,
            separated_from lo (m :: rest) -> covered rest p -> fm_end m < p).
  { intros lo m rest p (_ & Hne & _ & Hs) (r & Hr & Hc).
    pose proof (separated_bounds _ _ Hs) as Hb. rewrite Forall_forall in Hb.
    specialize (Hb _ Hr). unfold in_range in Hc. lia. }
  assert (Hself : forall lo m rest, separated_from lo (m :: rest) ->
            covered (m :: rest) (fm_start m)).
  { intros lo m rest (_ & Hne & _). apply covered_cons. left. unfold in_range. lia. }
  induction l1 as [|m1 r1 IH]; intros [|m2 r2] lo1 lo2 H1 H2 Hcov.
  - reflexivity.
  - exfalso. apply (covered_nil (fm_start m2)). apply Hcov. eapply Hself; eauto.
  - exfalso. apply (covered_nil (fm_start m1)). apply Hcov. eapply Hself; eauto.
  - pose proof H1 as (_ & Hne1 & _ & Hs1). pose proof H2 as (_ & Hne2 & _ & Hs2).
    assert (Hstart : fm_start m1 = fm_start m2).
    { pose proof (Hhead _ _ _ (fm_start m1) H2
                    (proj1 (Hcov _) (Hself _ _ _ H1))).
      pose proof (Hhead _ _ _ (fm_start m2) H1
                    (proj2 (Hcov _) (Hself _ _ _ H2))). lia. }
    assert (Hend : fm_end m1 = fm_end m2).
    { destruct (Z.lt_trichotomy (fm_end m1) (fm_end m2)) as [Hlt|[Heq|Hgt]];
        [exfalso|exact Heq|exfalso].
      - assert (Hc : covered (m1 :: r1) (fm_end m1)).
        { apply Hcov, covered_cons. left. unfold in_range. lia. }
        apply covered_cons in Hc. destruct Hc as [Hc|Hc].
        + unfold in_range in Hc. lia.
        + pose proof (Htail _ _ _ _ H1 Hc). lia.
      - assert (Hc : covered (m2 :: r2) (fm_end m2)).
        { apply Hcov, covered_cons. left. unfold in_range. lia. }
        apply covered_cons in Hc. destruct Hc as [Hc|Hc].
        + unfold in_range in Hc. lia.
        + pose proof (Htail _ _ _ _ H2 Hc). lia. }
    assert (m1 = m2) by (destruct m1, m2; simpl in *; congruence). subst m2.
    f_equal. apply (IH r2 _ _ Hs1 Hs2). intros p. split; intros Hc.
    + pose proof (Htail _ _ _ _ H1 Hc).
      assert (Hc' : covered (m1 :: r2) p) by (apply Hcov, covered_cons; auto).
      apply covered_cons in Hc'. destruct Hc' as [Hc'|Hc']; [|exact Hc'].
      unfold in_range in Hc'. lia.
    + pose proof (Htail _ _ _ _ H2 Hc).
      assert (Hc' : covered (m1 :: r1) p) by (apply Hcov, covered_cons; auto).
      apply covered_cons in Hc'. destruct Hc' as [Hc'|Hc']; [|exact Hc'].
      unfold in_range in Hc'. lia.
Qed.

(** The array one inode's calls build: sorted ascending by start, every
    entry with [start < end], neighbours apart, and covering the pages of
    the calls and no other. *)
Lemma record_accesses_sorted (calls : list (Z * Z)) :
  Forall valid_access calls ->
  let maps := record_accesses calls in
  (forall i j, (i < j < length maps)%nat ->
               fm_start (map_at maps i) < fm_start (map_at maps j))
  /\ (forall m, In m maps -> fm_start m < fm_end m)
  /\ (forall i, (S i < length maps)%nat ->
                fm_end (map_at maps i) < fm_start (map_at maps (S i)))
  /\ (forall p, covered maps p <-> exists c, In c calls /\ fst c <= p <= snd c).
Proof.
  intros Hvalid maps. destruct (record_accesses_ok calls Hvalid) as [Hok Hcov].
  fold maps in Hok, Hcov. unfold range_array_ok in Hok.
  pose proof (separated_bounds _ _ Hok) as Hb. rewrite Forall_forall in Hb.
  repeat split.
  - intros i j Hij. pose proof (separated_index _ _ i j Hok Hij).
    assert (In (map_at maps i) maps) by (apply nth_In; lia).
    specialize (Hb _ H0). lia.
  - intros m Hm. specialize (Hb _ Hm). lia.
  - intros i Hi. apply (separated_index _ _ i (S i) Hok). lia.
  - apply Hcov.
  - apply Hcov.
Qed.

(** The array does not depend on the order of one inode's calls. *)
Lemma record_accesses_permutation (calls1 calls2 : list (Z * Z)) :
  Forall valid_access calls1 -> Permutation calls1 calls2 ->
  record_accesses calls1 = record_accesses calls2.
Proof.
  intros Hvalid Hperm.
  assert (Hvalid2 : Forall valid_access calls2).
  { rewrite Forall_forall in *. intros c Hc. apply Hvalid.
    eapply Permutation_in; [apply Permutation_sym; exact Hperm|exact Hc]. }
  destruct (record_accesses_ok calls1 Hvalid) as [Hok1 Hcov1].
  destruct (record_accesses_ok calls2 Hvalid2) as [Hok2 Hcov2].
  apply (range_array_unique _ _ _ _ Hok1 Hok2). intros p.
  rewrite Hcov1, Hcov2. split; intros (c & Hc & Hp); exists c; split; auto.
  - eapply Permutation_in; eauto.
  - eapply Permutation_in; [apply Permutation_sym; exact Hperm|exact Hc].
Qed.

(** Stores into a list. *)
Lemma map_store {A B : Type} (f : A -> B) (a : list A) i v :
  map f (store a i v) = store (map f a) i (f v).
Proof.
  revert i. induction a as [|x a IH]; intros [|i]; simpl; auto. now rewrite IH.
Qed.

Lemma store_same {A : Type} (a : list A) i d : store a i (nth i a d) = a.
Proof.
  revert i. induction a as [|x a IH]; intros [|i]; simpl; auto. now rewrite IH.
Qed.

Lemma nth_store {A : Type} (a : list A) i j v d :
  nth j (store a i v) d = if (j =? i)%nat && (i <? length a)%nat then v else nth j a d.
Proof.
  revert i j. induction a as [|x a IH]; intros i j.
  - destruct i, j; simpl; try rewrite andb_false_r; reflexivity.
  - destruct i, j; simpl; auto.
Qed.

Lemma Forall_store {A : Type} (P : A -> Prop) (a : list A) i v :
  Forall P a -> P v -> Forall P (store a i v).
Proof.
  intros Ha Hv. revert i. induction Ha as [|x a Hx Ha IH]; intros [|i]; simpl;
    constructor; auto.
Qed.

Lemma In_store {A : Type} (l : list A) i v x :
  In x (store l i v) -> x = v \/ In x l.
Proof.
  revert i. induction l as [|y l IH]; intros [|i]; simpl; try tauto.
  - intros [H|H]; auto.
  - intros [H|H]; [auto|]. destruct (IH i H); auto.
Qed.

Lemma store_In {A : Type} (l : list A) i v :
  (i < length l)%nat -> In v (store l i v).
Proof.
  revert i. induction l as [|y l IH]; intros [|i] Hi; simpl in *; try lia; auto.
  right. apply IH. lia.
Qed.

Lemma store_app_last {A : Type} (l : list A) x v :
  store (l ++ [x]) (length l) v = l ++ [v].
Proof. induction l as [|y l IH]; simpl; [reflexivity|]. now rewrite IH. Qed.

Lemma In_store_or {A : Type} (l : list A) i v x d :
  In x l -> In x (store l i v) \/ x = nth i l d.
Proof.
  revert i. induction l as [|y l IH]; intros [|i]; simpl; try tauto.
  - intros [H|H]; auto.
  - intros [H|H]; [auto|]. destruct (IH i H); auto.
Qed.

Lemma NoDup_map_same {A B : Type} (f : A -> B) (l : list A) x y :
  NoDup (map f l) -> In x l -> In y l -> f x = f y -> x = y.
Proof.
  induction l as [|z l IH]; simpl; [tauto|].
  intros Hnd Hx Hy Heq. inversion Hnd as [|? ? Hz Hnd']; subst.
  destruct Hx as [->|Hx], Hy as [->|Hy]; auto.
  - exfalso. apply Hz. rewrite Heq. now apply in_map.
  - exfalso. apply Hz. rewrite <- Heq. now apply in_map.
Qed.

(** ** The device hash *)

(** The representation invariant of an inode array: inode numbers ascend
    strictly and none is the start mark. *)
Fixpoint inodes_from (lo : Z) (inodes : list inode_data) : Prop :=
  match inodes with
  | [] => True
  | x :: rest => lo < inode x /\ inode x < SIZE_MAX /\ inodes_from (inode x) rest
  end.

Definition device_ok (dev : device_data) : Prop := inodes_from (-1) (dev_inodes dev).

Definition hash_ok (hash : device_hash) : Prop := forall k, Forall device_ok (hash k).

Lemma inodes_from_bounds lo inodes :
  inodes_from lo inodes -> Forall (fun x => lo < inode x < SIZE_MAX) inodes.
Proof.
  revert lo. induction inodes as [|x rest IH]; intros lo H; constructor.
  - simpl in H. lia.
  - destruct H as (H1 & H2 & H3). eapply Forall_impl; [|exact (IH _ H3)].
    simpl. intros. lia.
Qed.

Lemma inodes_from_app lo X Y :
  inodes_from lo (X ++ Y) <->
  inodes_from lo X /\ inodes_from (last (map inode X) lo) Y.
Proof.
  revert lo. induction X as [|x X IH]; intros lo.
  - simpl. tauto.
  - change ((x :: X) ++ Y) with (x :: X ++ Y). cbn [inodes_from]. rewrite IH.
    replace (last (map inode (x :: X)) lo) with (last (map inode X) (inode x)).
    + tauto.
    + simpl. destruct (map inode X) eqn:E; [reflexivity|].
      clear. revert z. induction l as [|y l IH]; intros z; [reflexivity|].
      simpl. destruct l; [reflexivity|]. apply (IH y).
Qed.

Lemma inodes_from_lower lo lo' inodes :
  inodes_from lo inodes -> Forall (fun x => lo' < inode x) inodes ->
  inodes_from lo' inodes.
Proof.
  destruct inodes as [|x rest]; simpl; [tauto|].
  intros (H1 & H2 & H3) HF. inversion HF; subst. tauto.
Qed.

Lemma inodes_last_le lo X :
  inodes_from lo X ->
  lo <= last (map inode X) lo /\ Forall (fun x => inode x <= last (map inode X) lo) X.
Proof.
  revert lo. induction X as [|x X IH]; intros lo H.
  - simpl. split; [lia|constructor].
  - destruct H as (H1 & H2 & H3). destruct (IH _ H3) as [I1 I2].
    assert (Hl : last (map inode (x :: X)) lo = last (map inode X) (inode x)).
    { simpl. destruct (map inode X) eqn:E; [reflexivity|].
      clear. revert z. induction l as [|y l IH]; intros z; [reflexivity|].
      simpl. destruct l; [reflexivity|]. apply (IH y). }
    rewrite Hl. split; [lia|]. constructor; [lia|exact I2].
Qed.

(** The inode array cut at an inode number: the entries below it, the
    entry with it (if any), the entries above it. *)
Record inode_zones (ino : Z) (A R B : list inode_data) : Prop := mk_inode_zones {
  iz_ok : inodes_from (-1) (A ++ R ++ B);
  iz_ino : 0 <= ino < SIZE_MAX;
  iz_A : Forall (fun x => inode x < ino) A;
  iz_R : R = [] \/ exists x, R = [x] /\ inode x = ino;
  iz_B : Forall (fun x => ino < inode x) B
}.

Lemma inode_split ino inodes :
  0 <= ino < SIZE_MAX -> inodes_from (-1) inodes ->
  exists A R B, inodes = A ++ R ++ B /\ inode_zones ino A R B.
Proof.
  intros Hino Hok.
  assert (Hgen : forall lo l, inodes_from lo l ->
            exists A R B, l = A ++ R ++ B
              /\ Forall (fun x => inode x < ino) A
              /\ (R = [] \/ exists x, R = [x] /\ inode x = ino)
              /\ Forall (fun x => ino < inode x) B).
  { intros lo l. revert lo. induction l as [|x l IH]; intros lo H.
    - exists [], [], []. repeat split; auto; constructor.
    - destruct H as (H1 & H2 & H3).
      pose proof (inodes_from_bounds _ _ H3) as Hb.
      destruct (Z.lt_trichotomy (inode x) ino) as [Hlt|[Heq|Hgt]].
      + destruct (IH _ H3) as (A & R & B & -> & HA & HR & HB).
        exists (x :: A), R, B. repeat split; auto.
      + exists [], [x], l. repeat split; auto; [right; eauto|].
        eapply Forall_impl; [|exact Hb]. simpl. intros. lia.
      + exists [], [], (x :: l). repeat split; auto. constructor; [exact Hgt|].
        eapply Forall_impl; [|exact Hb]. simpl. intros. lia. }
  destruct (Hgen _ _ Hok) as (A & R & B & -> & HA & HR & HB).
  exists A, R, B. split; [reflexivity|]. constructor; auto.
Qed.

Lemma inode_at_zone A R B i :
  (i < length (A ++ R ++ B))%nat ->
  let x := inode_at (A ++ R ++ B) i in
  ((i < length A)%nat /\ In x A)
  \/ ((length A <= i < length A + length R)%nat /\ In x R)
  \/ ((length A + length R <= i)%nat /\ In x B).
Proof.
  intros Hi x. subst x. unfold inode_at. rewrite !length_app in Hi.
  destruct (Nat.lt_ge_cases i (length A)) as [H1|H1].
  - left. split; [exact H1|]. rewrite app_nth1 by exact H1. now apply nth_In.
  - right. rewrite app_nth2 by exact H1.
    destruct (Nat.lt_ge_cases (i - length A) (length R)) as [H2|H2].
    + left. split; [lia|]. rewrite app_nth1 by exact H2. now apply nth_In.
    + right. split; [lia|]. rewrite app_nth2 by exact H2. apply nth_In. lia.
Qed.

(** [find_inode] finds the entry with the inode number, if there is one. *)
Lemma find_inode_split id ino A R B :
  inode_zones ino A R B ->
  find_inode (mk_device_data id (A ++ R ++ B)) ino
  = match R with [] => None | _ => Some (length A) end.
Proof.
  intros HZ. unfold find_inode. cbn [dev_inodes].
  pose proof (iz_A _ _ _ _ HZ) as HA. pose proof (iz_B _ _ _ _ HZ) as HB.
  pose proof (iz_R _ _ _ _ HZ) as HR. rewrite Forall_forall in HA, HB.
  set (compar := fun i => cmp_inodes (mk_inode_data ino []) (inode_at (A ++ R ++ B) i)).
  assert (Hz : (forall i, (i < length A)%nat -> compar i > 0)
               /\ (forall i, (length A <= i < length A + length R)%nat -> compar i = 0)
               /\ (forall i, (length A + length R <= i < length (A ++ R ++ B))%nat ->
                             compar i < 0)).
  { repeat split; intros i Hi;
      (assert (Hlen : (i < length (A ++ R ++ B))%nat)
        by (rewrite !length_app in *; lia));
      destruct (inode_at_zone A R B i Hlen) as [[Hz Hin]|[[Hz Hin]|[Hz Hin]]]; try lia;
      subst compar; cbv beta; unfold cmp_inodes; cbn [inode].
    - specialize (HA _ Hin). rewrite Z.gtb_ltb.
      destruct (Z.ltb_spec ino (inode (inode_at (A ++ R ++ B) i))); [lia|].
      destruct (Z.ltb_spec (inode (inode_at (A ++ R ++ B) i)) ino); lia.
    - destruct HR as [->|(x & -> & Hx)]; [destruct Hin|].
      destruct Hin as [<-|[]]. rewrite Hx, Z.gtb_ltb, Z.ltb_irrefl. reflexivity.
    - specialize (HB _ Hin).
      destruct (Z.ltb_spec ino (inode (inode_at (A ++ R ++ B) i))); lia. }
  destruct Hz as (Hgt & Heq & Hlt).
  pose proof (bsearch_zones compar (length A) (length R) (length (A ++ R ++ B))
                ltac:(rewrite !length_app; lia) Hgt Heq Hlt) as Hsearch.
  fold compar. destruct (bsearch compar _) as [m|].
  - destruct HR as [->|(x & -> & _)]; simpl in Hsearch; [lia|]. f_equal. lia.
  - destruct R; [reflexivity|discriminate].
Qed.

Lemma cmp_inodes_range_zones ino A B :
  inode_zones ino A [] B ->
  let compar := cmp_inodes_range (mk_inode_data ino []) (A ++ B) in
  (forall i, (i < length A)%nat -> compar i > 0)
  /\ (B <> [] -> compar (length A) = 0)
  /\ (forall i, (length A < i < length (A ++ B))%nat -> compar i < 0).
Proof.
  intros HZ compar. subst compar.
  pose proof (iz_A _ _ _ _ HZ) as HA. pose proof (iz_B _ _ _ _ HZ) as HB.
  rewrite Forall_forall in HA, HB.
  pose proof (inodes_from_bounds _ _ (iz_ok _ _ _ _ HZ)) as Hb. simpl in Hb.
  rewrite Forall_forall in Hb.
  assert (HinA : forall i, (i < length A)%nat -> In (inode_at (A ++ B) i) A).
  { intros i Hi. unfold inode_at. rewrite app_nth1 by exact Hi. now apply nth_In. }
  assert (HinB : forall i, (length A <= i < length (A ++ B))%nat ->
                           In (inode_at (A ++ B) i) B).
  { intros i Hi. unfold inode_at. rewrite app_nth2 by lia. apply nth_In.
    rewrite length_app in Hi. lia. }
  assert (Hnot : forall i, (i < length (A ++ B))%nat ->
            (inode (inode_at (A ++ B) i) =? FILEMAP_START_MARK) = false).
  { intros i Hi. apply Z.eqb_neq. unfold FILEMAP_START_MARK.
    assert (In (inode_at (A ++ B) i) (A ++ B)) by (now apply nth_In).
    specialize (Hb _ H). lia. }
  unfold cmp_inodes_range. cbn [inode]. repeat split.
  - intros i Hi. specialize (HA _ (HinA i Hi)).
    destruct (Z.ltb_spec ino (inode (inode_at (A ++ B) i))); lia.
  - intros HBne.
    assert (Hlen : (length A < length (A ++ B))%nat).
    { rewrite length_app. destruct B; [congruence|simpl; lia]. }
    specialize (HB _ (HinB (length A) ltac:(lia))).
    destruct (Z.ltb_spec ino (inode (inode_at (A ++ B) (length A)))); [|lia].
    unfold inode_before. destruct (length A) as [|j] eqn:Hj.
    + reflexivity.
    + specialize (HA _ (HinA j ltac:(lia))).
      rewrite Hnot by lia. simpl.
      rewrite Z.gtb_ltb. destruct (Z.ltb_spec (inode (inode_at (A ++ B) j)) ino); lia.
  - intros i Hi. specialize (HB _ (HinB i ltac:(lia))) as HBi.
    destruct (Z.ltb_spec ino (inode (inode_at (A ++ B) i))); [|lia].
    unfold inode_before. destruct i as [|j]; [lia|].
    specialize (HB _ (HinB j ltac:(lia))).
    rewrite Hnot by lia. simpl.
    rewrite Z.gtb_ltb. destruct (Z.ltb_spec (inode (inode_at (A ++ B) j)) ino); lia.
Qed.

(** [add_inode] puts the new entry at its place in the order and answers
    its index. *)
Lemma add_inode_split id ino A B :
  inode_zones ino A [] B ->
  add_inode (mk_device_data id (A ++ B)) ino
  = (mk_device_data id (A ++ mk_inode_data ino [] :: B), length A).
Proof.
  intros HZ. pose proof (iz_A _ _ _ _ HZ) as HA. pose proof (iz_B _ _ _ _ HZ) as HB.
  unfold add_inode. cbn [dev_inodes dev_id].
  remember (A ++ B) as inodes eqn:Hinodes.
  destruct inodes as [|x [|y rest]].
  - destruct A; [|discriminate]. destruct B; [|discriminate]. reflexivity.
  - destruct A as [|a A'].
    + simpl in Hinodes. subst B. inversion HB; subst. simpl.
      rewrite Z.gtb_ltb. destruct (Z.ltb_spec ino (inode x)); [reflexivity|lia].
    + destruct A'; [|destruct A'; discriminate].
      destruct B; [|discriminate]. inversion Hinodes; subst. inversion HA; subst.
      simpl. rewrite Z.gtb_ltb. destruct (Z.ltb_spec ino (inode a)); [lia|reflexivity].
  - rewrite Hinodes.
    destruct (cmp_inodes_range_zones _ _ _ HZ) as (Hgt & Heq & Hlt).
    set (r := match B with [] => O | _ => 1%nat end).
    assert (Hr : (r = O /\ B = []) \/ (r = 1%nat /\ B <> [] /\ (0 < length B)%nat)).
    { subst r. destruct B; [left; auto|right]. repeat split; [discriminate|simpl; lia]. }
    clearbody r.
    pose proof (length_app A B) as Hlen.
    pose proof (bsearch_zones (cmp_inodes_range (mk_inode_data ino []) (A ++ B))
                  (length A) r (length (A ++ B))) as Hsearch.
    assert (Hpre1 : (length A + r <= length (A ++ B))%nat) by lia.
    assert (Hpre2 : forall i, (length A <= i < length A + r)%nat ->
              cmp_inodes_range (mk_inode_data ino []) (A ++ B) i = 0).
    { intros i Hi. destruct Hr as [[-> _]|(-> & HBne & _)]; [lia|].
      replace i with (length A) by lia. apply Heq. exact HBne. }
    assert (Hpre3 : forall i, (length A + r <= i < length (A ++ B))%nat ->
              cmp_inodes_range (mk_inode_data ino []) (A ++ B) i < 0).
    { intros i Hi. apply Hlt. destruct Hr as [[-> ->]|(-> & _ & _)]; simpl in *; lia. }
    specialize (Hsearch Hpre1 Hgt Hpre2 Hpre3).
    assert (Hidx : match bsearch (cmp_inodes_range (mk_inode_data ino []) (A ++ B))
                           (length (A ++ B)) with
                   | Some i => i
                   | None => length (A ++ B)
                   end = length A).
    { destruct (bsearch _ _) as [m|].
      - destruct Hr as [[-> _]|(-> & _ & _)]; lia.
      - destruct Hr as [[_ ->]|(-> & _ & _)]; [|discriminate].
        rewrite app_nil_r. reflexivity. }
    rewrite Hidx. f_equal. f_equal. apply insert_by_memmove.
Qed.

(** What a device answers for an inode number: the range array of the
    entry [find_inode] finds. *)
Definition inode_maps (dev : device_data) (ino : Z) : option (list file_map) :=
  match find_inode dev ino with
  | None => None
  | Some ipos => Some (inode_map (inode_at (dev_inodes dev) ipos))
  end.

(** The part of [trace_add_file_map] that works on the device found. *)
Definition device_add_file_map (dev : device_data) (ino index last_index : Z)
  : device_data :=
  let '(dev1, ipos) :=
    match find_inode dev ino with
    | Some pos => (dev, pos)
    | None => add_inode dev ino
    end in
  let inode0 := inode_at (dev_inodes dev1) ipos in
  let inode1 :=
    mk_inode_data (inode inode0)
                  (inode_add_file_map (inode_map inode0) index last_index) in
  mk_device_data (dev_id dev1) (store (dev_inodes dev1) ipos inode1).

(** What a bucket's chain answers for a device and an inode number. *)
Definition chain_maps (chain : list device_data) (id ino : Z) : option (list file_map) :=
  match find_in_chain chain id with
  | None => None
  | Some dpos => inode_maps (nth dpos chain no_device) ino
  end.

(** The range array a call starts from: the inode's, or an empty one for
    an inode met for the first time. *)
Definition maps_so_far (found : option (list file_map)) : list file_map :=
  match found with
  | Some maps => maps
  | None => []
  end.

Lemma inode_zones_unique ino A R B e :
  inode_zones ino A R B -> In e (A ++ R ++ B) -> inode e = ino -> R = [e].
Proof.
  intros HZ Hin He.
  pose proof (iz_A _ _ _ _ HZ) as HA. pose proof (iz_B _ _ _ _ HZ) as HB.
  rewrite Forall_forall in HA, HB.
  rewrite !in_app_iff in Hin. destruct Hin as [Hin|[Hin|Hin]].
  - specialize (HA _ Hin). lia.
  - destruct (iz_R _ _ _ _ HZ) as [->|(x & -> & _)]; [destruct Hin|].
    destruct Hin as [->|[]]. reflexivity.
  - specialize (HB _ Hin). lia.
Qed.

(** A sorted inode array answers with the one entry that has the number. *)
Lemma inode_maps_iff dev ino m :
  device_ok dev -> 0 <= ino < SIZE_MAX ->
  inode_maps dev ino = Some m
  <-> exists e, In e (dev_inodes dev) /\ inode e = ino /\ inode_map e = m.
Proof.
  intros Hok Hino. destruct dev as [id inodes]. unfold device_ok in Hok.
  cbn [dev_inodes] in *.
  destruct (inode_split ino inodes Hino Hok) as (A & R & B & -> & HZ).
  unfold inode_maps. rewrite (find_inode_split id ino A R B HZ). cbn [dev_inodes].
  destruct (iz_R _ _ _ _ HZ) as [->|(x & -> & Hx)].
  - split; [discriminate|]. intros (e & Hin & He & _).
    pose proof (inode_zones_unique _ _ _ _ _ HZ Hin He). discriminate.
  - unfold inode_at. simpl app. rewrite nth_middle. split.
    + intros [= <-]. exists x. split; [|auto]. apply in_or_app. right. now left.
    + intros (e & Hin & He & <-).
      pose proof (inode_zones_unique _ _ _ _ _ HZ Hin He) as [= ->]. reflexivity.
Qed.

Lemma last_inode_below ino A lo :
  Forall (fun x => inode x < ino) A -> lo < ino -> last (map inode A) lo < ino.
Proof.
  intros HA. revert lo. induction HA as [|x A Hx HA IH]; intros lo Hlo; [exact Hlo|].
  replace (last (map inode (x :: A)) lo) with (last (map inode A) (inode x)).
  - apply IH. exact Hx.
  - simpl. destruct (map inode A) eqn:E; [reflexivity|].
    clear. revert z. induction l as [|y l IH]; intros z; [reflexivity|].
    simpl. destruct l; [reflexivity|]. apply (IH y).
Qed.

(** Replacing the entry with the number, or putting one in where there was
    none, keeps the array sorted. *)
Lemma inodes_from_insert ino A R B e :
  inode_zones ino A R B -> inode e = ino -> inodes_from (-1) (A ++ e :: B).
Proof.
  intros HZ He. pose proof (iz_ok _ _ _ _ HZ) as Hok.
  pose proof (iz_ino _ _ _ _ HZ) as Hino.
  apply inodes_from_app in Hok. destruct Hok as [HokA HokRB].
  apply inodes_from_app. split; [exact HokA|].
  cbn [inodes_from]. rewrite He. split; [|split]; [|lia|].
  - apply last_inode_below; [exact (iz_A _ _ _ _ HZ)|lia].
  - apply inodes_from_app in HokRB. destruct HokRB as [_ HokB].
    eapply inodes_from_lower; [exact HokB|exact (iz_B _ _ _ _ HZ)].
Qed.

(** One call on a device: the inode's array takes the new range, every
    other inode keeps its array. *)
Lemma device_add_file_map_maps dev ino index last_index :
  device_ok dev -> 0 <= ino < SIZE_MAX ->
  let dev' := device_add_file_map dev ino index last_index in
  device_ok dev' /\ dev_id dev' = dev_id dev
  /\ forall ino', 0 <= ino' < SIZE_MAX ->
       inode_maps dev' ino'
       = if ino' =? ino
         then Some (inode_add_file_map (maps_so_far (inode_maps dev ino)) index last_index)
         else inode_maps dev ino'.
Proof.
  intros Hok Hino dev'. destruct dev as [id inodes]. pose proof Hok as Hok0.
  unfold device_ok in Hok. cbn [dev_inodes] in Hok.
  destruct (inode_split ino inodes Hino Hok) as (A & R & B & -> & HZ).
  assert (Hshape : exists e,
            dev' = mk_device_data id (A ++ e :: B) /\ inode e = ino
            /\ inode_map e
               = inode_add_file_map
                   (maps_so_far (inode_maps (mk_device_data id (A ++ R ++ B)) ino))
                   index last_index).
  { subst dev'. unfold device_add_file_map, inode_maps.
    rewrite (find_inode_split id ino A R B HZ).
    destruct (iz_R _ _ _ _ HZ) as [->|(x & -> & Hx)].
    - simpl app. rewrite (add_inode_split id ino A B HZ). cbn [dev_inodes dev_id].
      unfold inode_at. rewrite nth_middle. cbn [inode inode_map maps_so_far].
      rewrite store_middle by reflexivity. eexists. split; [reflexivity|]. auto.
    - cbn [dev_inodes dev_id]. unfold inode_at. simpl app. rewrite nth_middle.
      rewrite store_middle by reflexivity. cbn [maps_so_far].
      eexists. split; [reflexivity|]. auto. }
  destruct Hshape as (e & Hdev & He & Hmap). clearbody dev'. subst dev'.
  assert (Hok' : device_ok (mk_device_data id (A ++ e :: B))).
  { unfold device_ok. cbn [dev_inodes]. exact (inodes_from_insert _ _ _ _ _ HZ He). }
  split; [exact Hok'|]. split; [reflexivity|].
  intros ino' Hino'. destruct (Z.eqb_spec ino' ino) as [->|Hne].
  - apply inode_maps_iff; [exact Hok'|exact Hino|].
    exists e. cbn [dev_inodes]. split; [|auto]. apply in_or_app. right. now left.
  - assert (Hsame : forall e', inode e' = ino' ->
              In e' (A ++ e :: B) <-> In e' (A ++ R ++ B)).
    { intros e' He'. rewrite !in_app_iff. simpl. split.
      - intros [H|[H|H]]; [tauto| |tauto]. subst e'. lia.
      - intros [H|[H|H]]; [tauto| |tauto]. exfalso.
        destruct (iz_R _ _ _ _ HZ) as [->|(x & -> & Hx)]; [destruct H|].
        destruct H as [->|[]]. lia. }
    destruct (inode_maps (mk_device_data id (A ++ R ++ B)) ino') as [m|] eqn:Hold.
    + apply inode_maps_iff; [exact Hok'|exact Hino'|].
      apply inode_maps_iff in Hold; [|exact Hok0|exact Hino'].
      destruct Hold as (e' & Hin & He' & Hm). exists e'. cbn [dev_inodes] in *.
      split; [|auto]. now apply Hsame.
    + destruct (inode_maps (mk_device_data id (A ++ e :: B)) ino') as [m|] eqn:Hnew;
        [|reflexivity].
      apply inode_maps_iff in Hnew; [|exact Hok'|exact Hino'].
      destruct Hnew as (e' & Hin & He' & Hm). cbn [dev_inodes] in *.
      assert (Hsome : inode_maps (mk_device_data id (A ++ R ++ B)) ino' = Some m).
      { apply inode_maps_iff; [exact Hok0|exact Hino'|].
        exists e'. cbn [dev_inodes]. split; [|auto]. now apply Hsame. }
      congruence.
Qed.

Lemma find_in_chain_found chain id dpos :
  find_in_chain chain id = Some dpos ->
  (dpos < length chain)%nat /\ dev_id (nth dpos chain no_device) = id.
Proof.
  revert dpos. induction chain as [|dev next IH]; intros dpos; [discriminate|].
  simpl. destruct (Z.eqb_spec (dev_id dev) id) as [He|Hne].
  - intros [= <-]. split; [lia|exact He].
  - destruct (find_in_chain next id) as [p|]; [|discriminate].
    intros [= <-]. destruct (IH p eq_refl). split; [lia|assumption].
Qed.

(** The walk of a chain reads the device numbers only. *)
Lemma find_in_chain_ids chain chain' id :
  map dev_id chain = map dev_id chain' ->
  find_in_chain chain id = find_in_chain chain' id.
Proof.
  revert chain'. induction chain as [|dev next IH]; intros [|dev' next'] H;
    try discriminate; [reflexivity|].
  simpl in H. injection H as Hd Hn. simpl. rewrite Hd, (IH _ Hn). reflexivity.
Qed.

(** The part of [trace_add_file_map] that works on the bucket's chain. *)
Definition chain_add_file_map (chain : list device_data) (id ino index last_index : Z)
  : list device_data :=
  match find_in_chain chain id with
  | Some dpos =>
      store chain dpos
            (device_add_file_map (nth dpos chain no_device) ino index last_index)
  | None => device_add_file_map (mk_device_data id []) ino index last_index :: chain
  end.

Lemma trace_add_file_map_bucket hash id ino index last_index k :
  trace_add_file_map hash id ino index last_index k
  = if k =? Z.land id HASH_MASK
    then chain_add_file_map (hash (Z.land id HASH_MASK)) id ino index last_index
    else hash k.
Proof.
  unfold trace_add_file_map, chain_add_file_map, find_device, add_device,
    device_add_file_map.
  destruct (find_in_chain (hash (Z.land id HASH_MASK)) id) as [dpos|].
  - destruct (match find_inode _ ino with Some pos => _ | None => _ end) as [dev1 ipos].
    reflexivity.
  - rewrite Z.eqb_refl. cbn [nth].
    destruct (match find_inode _ ino with Some pos => _ | None => _ end) as [dev1 ipos].
    destruct (Z.eqb_spec k (Z.land id HASH_MASK)); reflexivity.
Qed.

Lemma lookup_file_maps_chain hash id ino :
  lookup_file_maps hash id ino = chain_maps (hash (Z.land id HASH_MASK)) id ino.
Proof. reflexivity. Qed.

(** One call on a chain. *)
Lemma chain_add_file_map_maps chain id ino index last_index :
  Forall device_ok chain -> 0 <= ino < SIZE_MAX ->
  let chain' := chain_add_file_map chain id ino index last_index in
  Forall device_ok chain'
  /\ forall id' ino', 0 <= ino' < SIZE_MAX ->
       chain_maps chain' id' ino'
       = if (id' =? id) && (ino' =? ino)
         then Some (inode_add_file_map (maps_so_far (chain_maps chain id ino))
                                       index last_index)
         else chain_maps chain id' ino'.
Proof.
  intros Hok Hino chain'. subst chain'. unfold chain_add_file_map.
  destruct (find_in_chain chain id) as [dpos|] eqn:Hfind.
  - destruct (find_in_chain_found _ _ _ Hfind) as [Hlen Hid].
    assert (Hdev : device_ok (nth dpos chain no_device)).
    { rewrite Forall_forall in Hok. apply Hok. now apply nth_In. }
    destruct (device_add_file_map_maps _ ino index last_index Hdev Hino)
      as (Hok' & Hid' & Hmaps).
    set (dev' := device_add_file_map (nth dpos chain no_device) ino index last_index) in *.
    split; [now apply Forall_store|].
    intros id' ino' Hino'. unfold chain_maps.
    rewrite (find_in_chain_ids (store chain dpos dev') chain).
    2:{ rewrite map_store, Hid', <- (map_nth dev_id chain no_device dpos).
        apply store_same. }
    rewrite Hfind. destruct (Z.eqb_spec id' id) as [->|Hne].
    + rewrite Hfind, nth_store, Nat.eqb_refl.
      destruct (Nat.ltb_spec dpos (length chain)); [|lia]. simpl.
      apply Hmaps. exact Hino'.
    + simpl. destruct (find_in_chain chain id') as [q|] eqn:Hq; [|reflexivity].
      destruct (find_in_chain_found _ _ _ Hq) as [_ Hidq].
      rewrite nth_store. destruct (Nat.eqb_spec q dpos) as [->|]; [congruence|].
      reflexivity.
  - assert (Hdev : device_ok (mk_device_data id [])) by exact I.
    destruct (device_add_file_map_maps _ ino index last_index Hdev Hino)
      as (Hok' & Hid' & Hmaps).
    set (dev' := device_add_file_map (mk_device_data id []) ino index last_index) in *.
    split; [constructor; assumption|].
    intros id' ino' Hino'. unfold chain_maps. rewrite Hfind. cbn [find_in_chain].
    rewrite Hid'. cbn [dev_id]. rewrite (Z.eqb_sym id' id).
    destruct (Z.eqb_spec id id') as [<-|Hne].
    + cbn [nth]. rewrite (Hmaps ino' Hino'), Hfind. reflexivity.
    + simpl. destruct (find_in_chain chain id') as [q|]; reflexivity.
Qed.

(** One call on the hash: the array of the inode named takes the range,
    every other lookup answers as before. *)
Lemma trace_add_file_map_maps hash id ino index last_index :
  hash_ok hash -> 0 <= ino < SIZE_MAX ->
  let hash' := trace_add_file_map hash id ino index last_index in
  hash_ok hash'
  /\ forall id' ino', 0 <= ino' < SIZE_MAX ->
       lookup_file_maps hash' id' ino'
       = if (id' =? id) && (ino' =? ino)
         then Some (inode_add_file_map (maps_so_far (lookup_file_maps hash id ino))
                                       index last_index)
         else lookup_file_maps hash id' ino'.
Proof.
  intros Hok Hino hash'. subst hash'.
  destruct (chain_add_file_map_maps (hash (Z.land id HASH_MASK)) id ino index last_index
              (Hok _) Hino) as [Hchain Hmaps].
  split.
  - intros k. rewrite trace_add_file_map_bucket.
    destruct (k =? Z.land id HASH_MASK); [exact Hchain|apply Hok].
  - intros id' ino' Hino'. rewrite !lookup_file_maps_chain, trace_add_file_map_bucket.
    destruct (Z.eqb_spec (Z.land id' HASH_MASK) (Z.land id HASH_MASK)) as [He|Hne].
    + rewrite He. apply Hmaps. exact Hino'.
    + destruct (Z.eqb_spec id' id) as [->|_]; [congruence|]. reflexivity.
Qed.

(** *** Runs of calls on the hash *)

(** One call of [trace_add_file_map]: the device, the inode number and the
    two page indices [read_filemap_trace] read from a record. *)
Record file_map_call : Type := mk_file_map_call {
  call_dev : Z;
  call_ino : Z;
  call_index : Z;
  call_last_index : Z
}.

Definition trace_add_file_maps (hash : device_hash) (calls : list file_map_call)
  : device_hash :=
  fold_left (fun h c => trace_add_file_map h (call_dev c) (call_ino c)
                                           (call_index c) (call_last_index c))
            calls hash.

(** The call is for inode [ino] of device [id]. *)
Definition names (id ino : Z) (c : file_map_call) : bool :=
  (id =? call_dev c) && (ino =? call_ino c).

(** The page indices of the calls for one inode, in the order of the calls. *)
Definition calls_for (id ino : Z) (calls : list file_map_call) : list (Z * Z) :=
  map (fun c => (call_index c, call_last_index c)) (filter (names id ino) calls).

(** A call whose inode number is not the start mark and whose indices are
    page indices. *)
Definition valid_call (c : file_map_call) : Prop :=
  0 <= call_ino c < SIZE_MAX /\ valid_access (call_index c, call_last_index c).

Lemma empty_device_hash_ok : hash_ok empty_device_hash.
Proof. intros k. constructor. Qed.

(** After a run of calls the hash answers, for every inode, with the
    array the calls for that inode alone build. *)
Lemma trace_add_file_maps_lookup calls :
  forall hash, hash_ok hash -> Forall valid_call calls ->
  forall id ino, 0 <= ino < SIZE_MAX ->
    lookup_file_maps (trace_add_file_maps hash calls) id ino
    = match calls_for id ino calls with
      | [] => lookup_file_maps hash id ino
      | accesses =>
          Some (fold_left (fun maps c => inode_add_file_map maps (fst c) (snd c))
                          accesses (maps_so_far (lookup_file_maps hash id ino)))
      end.
Proof.
  induction calls as [|c calls IH]; intros hash Hok Hvalid id ino Hino; [reflexivity|].
  inversion Hvalid as [|? ? [Hc _] Hrest]; subst.
  destruct (trace_add_file_map_maps hash (call_dev c) (call_ino c) (call_index c)
              (call_last_index c) Hok Hc) as [Hok1 Hlook].
  change (trace_add_file_maps hash (c :: calls))
    with (trace_add_file_maps
            (trace_add_file_map hash (call_dev c) (call_ino c) (call_index c)
                                (call_last_index c)) calls).
  rewrite (IH _ Hok1 Hrest id ino Hino), (Hlook id ino Hino).
  change ((id =? call_dev c) && (ino =? call_ino c)) with (names id ino c).
  unfold calls_for. cbn [filter].
  destruct (names id ino c) eqn:Hnames.
  - unfold names in Hnames. apply andb_prop in Hnames. destruct Hnames as [Hd Hi].
    apply Z.eqb_eq in Hd, Hi. subst id ino. cbn [map fold_left fst snd maps_so_far].
    destruct (map _ (filter _ calls)); reflexivity.
  - reflexivity.
Qed.

Lemma trace_add_file_maps_from_empty calls id ino :
  Forall valid_call calls -> 0 <= ino < SIZE_MAX ->
  lookup_file_maps (trace_add_file_maps empty_device_hash calls) id ino
  = match calls_for id ino calls with
    | [] => None
    | accesses => Some (record_accesses accesses)
    end.
Proof.
  intros Hvalid Hino.
  rewrite (trace_add_file_maps_lookup calls _ empty_device_hash_ok Hvalid id ino Hino).
  reflexivity.
Qed.

Lemma calls_for_valid id ino calls :
  Forall valid_call calls -> Forall valid_access (calls_for id ino calls).
Proof.
  intros H. unfold calls_for. induction H as [|c calls [_ Hc] _ IH]; [constructor|].
  cbn [filter]. destruct (names id ino c); [constructor; assumption|exact IH].
Qed.

Lemma calls_for_in id ino calls a :
  In a (calls_for id ino calls)
  <-> exists c, In c calls /\ call_dev c = id /\ call_ino c = ino
                /\ a = (call_index c, call_last_index c).
Proof.
  unfold calls_for. rewrite in_map_iff. split.
  - intros (c & <- & Hc). apply filter_In in Hc. destruct Hc as [Hc Hn].
    unfold names in Hn. apply andb_prop in Hn. destruct Hn as [Hd Hi].
    apply Z.eqb_eq in Hd, Hi. exists c. auto.
  - intros (c & Hc & Hd & Hi & ->). exists c. split; [reflexivity|].
    apply filter_In. split; [exact Hc|]. unfold names.
    rewrite <- Hd, <- Hi, !Z.eqb_refl. reflexivity.
Qed.

Lemma calls_for_permutation id ino calls1 calls2 :
  Permutation calls1 calls2 ->
  Permutation (calls_for id ino calls1) (calls_for id ino calls2).
Proof.
  intros H. unfold calls_for. apply Permutation_map.
  induction H as [|x l l' _ IH|x y l|l l' l'' _ IH1 _ IH2].
  - constructor.
  - cbn [filter]. destruct (names id ino x); [now constructor|exact IH].
  - cbn [filter]. destruct (names id ino x), (names id ino y);
      try apply Permutation_refl. apply perm_swap.
  - eapply Permutation_trans; eassumption.
Qed.

(** C2. For every inode, after any run of [trace_add_file_map] calls
    (each with page indices [index <= last_index]), the hash holds an
    array for the inode exactly when some call named it, and that array is
    sorted ascending by start, every entry has [start < end], neighbouring
    entries [a], [b] satisfy [a.end < b.start], and a page is covered by
    the stored ranges iff some call for the inode included it. *)
Theorem trace_add_file_map_invariant (calls : list file_map_call) (id ino : Z) :
  Forall valid_call calls -> 0 <= ino < SIZE_MAX ->
  match lookup_file_maps (trace_add_file_maps empty_device_hash calls) id ino with
  | None => forall c, In c calls -> call_dev c = id -> call_ino c <> ino
  | Some maps =>
      (exists c, In c calls /\ call_dev c = id /\ call_ino c = ino)
      /\ (forall i j, (i < j < length maps)%nat ->
                      fm_start (map_at maps i) < fm_start (map_at maps j))
      /\ (forall m, In m maps -> fm_start m < fm_end m)
      /\ (forall i, (S i < length maps)%nat ->
                    fm_end (map_at maps i) < fm_start (map_at maps (S i)))
      /\ (forall p, covered maps p
                    <-> exists c, In c calls /\ call_dev c = id /\ call_ino c = ino
                                  /\ call_index c <= p <= call_last_index c)
  end.
Proof.
  intros Hvalid Hino. rewrite (trace_add_file_maps_from_empty calls id ino Hvalid Hino).
  pose proof (calls_for_valid id ino calls Hvalid) as Hacc.
  pose proof (calls_for_in id ino calls) as Hin.
  destruct (calls_for id ino calls) as [|a accesses] eqn:Hfor.
  - intros c Hc Hd Hi. apply (proj2 (Hin (call_index c, call_last_index c))).
    exists c. auto.
  - destruct (record_accesses_sorted (a :: accesses) Hacc) as (Hs & Hne & Hgap & Hcov).
    split; [|split; [exact Hs|split; [exact Hne|split; [exact Hgap|]]]].
    + destruct (proj1 (Hin a) (or_introl eq_refl)) as (c & Hc & Hd & Hi & _).
      exists c. auto.
    + intros p. rewrite (Hcov p). split.
      * intros (x & Hx & Hp). destruct (proj1 (Hin x) Hx) as (c & Hc & Hd & Hi & ->).
        exists c. auto.
      * intros (c & Hc & Hd & Hi & Hp). exists (call_index c, call_last_index c).
        split; [|exact Hp]. apply Hin. exists c. auto.
Qed.

(** The calls of the source's [test_trace_add_file_map]. *)
Definition test_calls : list file_map_call :=
  [mk_file_map_call (makedev 8 0) 12345 0 0; mk_file_map_call (makedev 8 0) 12345 2 3;
   mk_file_map_call (makedev 8 1) 67890 0 0; mk_file_map_call (makedev 8 0) 12345 1 1;
   mk_file_map_call (makedev 8 0) 12345 4 5; mk_file_map_call (makedev 8 0) 12345 8 10;
   mk_file_map_call (makedev 8 0) 12345 7 7].

Lemma test_calls_valid : Forall valid_call test_calls.
Proof.
  repeat constructor; cbn [call_ino call_index call_last_index fst snd];
    unfold SIZE_MAX, OFF_MAX; lia.
Qed.

Lemma trace_add_file_map_invariant_witness :
  lookup_file_maps (trace_add_file_maps empty_device_hash test_calls) (makedev 8 0) 12345
  = Some [mk_file_map 0 6; mk_file_map 7 11]
  /\ match lookup_file_maps (trace_add_file_maps empty_device_hash test_calls)
                            (makedev 8 0) 12345 with
     | None => forall c, In c test_calls -> call_dev c = makedev 8 0 -> call_ino c <> 12345
     | Some maps =>
         (exists c, In c test_calls /\ call_dev c = makedev 8 0 /\ call_ino c = 12345)
         /\ (forall i j, (i < j < length maps)%nat ->
                         fm_start (map_at maps i) < fm_start (map_at maps j))
         /\ (forall m, In m maps -> fm_start m < fm_end m)
         /\ (forall i, (S i < length maps)%nat ->
                       fm_end (map_at maps i) < fm_start (map_at maps (S i)))
         /\ (forall p, covered maps p
                       <-> exists c, In c test_calls /\ call_dev c = makedev 8 0
                                     /\ call_ino c = 12345
                                     /\ call_index c <= p <= call_last_index c)
     end.
Proof.
  split; [vm_compute; reflexivity|].
  apply (trace_add_file_map_invariant test_calls (makedev 8 0) 12345 test_calls_valid).
  unfold SIZE_MAX. lia.
Defined.

(** C5. The hash does not depend on the order of the calls: after two
    permutations of the same calls every inode has the same range array. *)
Theorem trace_add_file_map_order_independent (calls1 calls2 : list file_map_call) :
  Forall valid_call calls1 -> Permutation calls1 calls2 ->
  forall id ino, 0 <= ino < SIZE_MAX ->
    lookup_file_maps (trace_add_file_maps empty_device_hash calls1) id ino
    = lookup_file_maps (trace_add_file_maps empty_device_hash calls2) id ino.
Proof.
  intros Hvalid Hperm id ino Hino.
  assert (Hvalid2 : Forall valid_call calls2).
  { rewrite Forall_forall in *. intros c Hc. apply Hvalid.
    eapply Permutation_in; [apply Permutation_sym; exact Hperm|exact Hc]. }
  rewrite (trace_add_file_maps_from_empty calls1 id ino Hvalid Hino).
  rewrite (trace_add_file_maps_from_empty calls2 id ino Hvalid2 Hino).
  pose proof (calls_for_permutation id ino _ _ Hperm) as Hp.
  pose proof (calls_for_valid id ino calls1 Hvalid) as Hacc.
  pose proof (record_accesses_permutation _ _ Hacc Hp) as Heq.
  destruct (calls_for id ino calls1) as [|a1 l1];
    destruct (calls_for id ino calls2) as [|a2 l2].
  - reflexivity.
  - apply Permutation_nil in Hp. discriminate.
  - apply Permutation_sym, Permutation_nil in Hp. discriminate.
  - rewrite Heq. reflexivity.
Qed.

Lemma trace_add_file_map_order_independent_witness :
  lookup_file_maps (trace_add_file_maps empty_device_hash (rev test_calls))
                   (makedev 8 0) 12345
  = Some [mk_file_map 0 6; mk_file_map 7 11].
Proof.
  rewrite <- (trace_add_file_map_order_independent test_calls (rev test_calls)
                test_calls_valid (Permutation_rev test_calls) (makedev 8 0) 12345).
  - vm_compute. reflexivity.
  - unfold SIZE_MAX. lia.
Defined.

(** ** The trace event consumer *)

(** A kernel that knows all six events. *)
Definition full_tep : tep_handle :=
  fun name =>
    if String.eqb name "do_sys_open" then Some (mk_tep_event 1 name)
    else if String.eqb name "open_exec" then Some (mk_tep_event 2 name)
    else if String.eqb name "uselib" then Some (mk_tep_event 3 name)
    else if String.eqb name "mm_filemap_fault" then Some (mk_tep_event 4 name)
    else if String.eqb name "mm_filemap_get_pages" then Some (mk_tep_event 5 name)
    else if String.eqb name "mm_filemap_map_pages" then Some (mk_tep_event 6 name)
    else None.

(** C1 (the code departs from it). [read_trace] leaves [do_sys_open],
    [open_exec] and [uselib] null, and [read_trace_cb] reads
    [context->do_sys_open->id] first for every record: whatever events the
    kernel has and whatever the record is, the callback dereferences a null
    pointer; no record reaches the path handler and nothing reports the
    missing open events as a configuration error. *)
Theorem read_trace_cb_null_dereference (tep : tep_handle) (event : tep_event) :
  read_trace_cb (read_trace_context_init tep) event = NullDereference.
Proof. reflexivity. Qed.

Lemma read_trace_first_record_faults (tep : tep_handle) event rest :
  read_trace_dispatch tep (event :: rest) = NullDereference.
Proof. reflexivity. Qed.

Example read_trace_open_record_faults :
  read_trace_dispatch full_tep [mk_tep_event 1 "do_sys_open"] = NullDereference.
Proof. reflexivity. Qed.

(** With the two open events resolved, the callback dispatches as the
    specification describes. *)
Lemma read_trace_cb_dispatch e1 e2 u f g m event :
  let context := mk_read_trace_context (Some e1) (Some e2) u f g m in
  (event_id event = event_id e1 \/ event_id event = event_id e2
   \/ (exists e3, u = Some e3 /\ event_id event = event_id e3)) ->
  read_trace_cb context event = Returns (To_read_path_trace event).
Proof.
  intros context H. unfold read_trace_cb, context. simpl.
  destruct (Z.eqb_spec (event_id event) (event_id e1)); [reflexivity|].
  destruct (Z.eqb_spec (event_id event) (event_id e2)); [reflexivity|].
  destruct H as [H|[H|(e3 & -> & H)]]; try contradiction.
  rewrite H, Z.eqb_refl. reflexivity.
Qed.

(** ** The pack assembler *)

(** [file'] is [file] with blocks appended, each for the last path. *)
Definition appends (file file' : PackFile) : Prop :=
  pf_dev file' = pf_dev file
  /\ pf_rotational file' = pf_rotational file
  /\ pf_paths file' = pf_paths file
  /\ exists new, pf_blocks file' = pf_blocks file ++ new
                 /\ Forall (fun b => pb_pathidx b = last_pathidx file) new.

Lemma appends_refl file : appends file file.
Proof.
  repeat split. exists []. split; [symmetry; apply app_nil_r|constructor].
Qed.

Lemma appends_trans f1 f2 f3 : appends f1 f2 -> appends f2 f3 -> appends f1 f3.
Proof.
  intros (Hd1 & Hr1 & Hp1 & n1 & Hb1 & Hn1) (Hd2 & Hr2 & Hp2 & n2 & Hb2 & Hn2).
  repeat split; try congruence. exists (n1 ++ n2). split.
  - rewrite Hb2, Hb1, app_assoc. reflexivity.
  - apply Forall_app. split; [exact Hn1|].
    unfold last_pathidx in *. rewrite Hp1 in Hn2. exact Hn2.
Qed.

Lemma appends_add_block file offset length physical :
  appends file (add_block file (mk_PackBlock (last_pathidx file) offset length physical)).
Proof.
  repeat split. eexists. split; [reflexivity|]. repeat constructor.
Qed.

Lemma appends_add_extent fm_start fm_length file extent :
  appends file (add_extent fm_start fm_length file extent).
Proof.
  unfold add_extent. destruct (negb _); [apply appends_refl|apply appends_add_block].
Qed.

Lemma appends_fold {X : Type} (f : PackFile -> X -> PackFile) :
  (forall file x, appends file (f file x)) ->
  forall xs file, appends file (fold_left f xs file).
Proof.
  intros Hf xs. induction xs as [|x xs IH]; intros file; simpl.
  - apply appends_refl.
  - eapply appends_trans; [apply Hf|apply IH].
Qed.

Lemma appends_trace_add_extents sys file fd offset length :
  appends file (trace_add_extents sys file fd offset length).
Proof.
  unfold trace_add_extents. destruct (sys_fiemap _ _ _ _); [|apply appends_refl].
  apply appends_fold. intros. apply appends_add_extent.
Qed.

Lemma appends_add_chunk sys file fd offset length :
  appends file (add_chunk sys file fd offset length).
Proof.
  unfold add_chunk. destruct (pf_rotational file).
  - apply appends_trace_add_extents.
  - apply appends_add_block.
Qed.

Lemma appends_chunk_loop sys vec num_pages fd :
  forall fuel i file, appends file (chunk_loop fuel sys vec num_pages fd i file).
Proof.
  induction fuel as [|fuel IH]; intros i file; simpl; [apply appends_refl|].
  destruct (i <? num_pages)%nat; [|apply appends_refl].
  destruct (negb (vec_at vec i)); [apply IH|].
  destruct (extend_chunk _ _ _ _ _ _) as [i' length].
  eapply appends_trans; [apply appends_add_chunk|apply IH].
Qed.

Lemma appends_trace_add_chunks sys file fd size :
  appends file (trace_add_chunks sys file fd size).
Proof.
  unfold trace_add_chunks. destruct (sys_mincore _ _ _); [|apply appends_refl].
  apply appends_chunk_loop.
Qed.

(** *** [trace_file] *)

Lemma find_file_Some files dev i :
  find_file files dev = Some i ->
  (i < length files)%nat /\ pf_dev (nth i files no_file) = dev.
Proof.
  revert i. induction files as [|f files IH]; intros i; simpl; [discriminate|].
  destruct (Z.eqb_spec (pf_dev f) dev) as [He|Hne].
  - intros [= <-]. split; [lia|exact He].
  - destruct (find_file files dev) as [j|]; simpl; [|discriminate].
    intros [= <-]. destruct (IH j eq_refl). split; [lia|assumption].
Qed.

Lemma find_file_None files dev :
  find_file files dev = None <-> ~ In dev (map pf_dev files).
Proof.
  induction files as [|f files IH]; simpl; [tauto|].
  destruct (Z.eqb_spec (pf_dev f) dev) as [He|Hne].
  - split; [discriminate|]. intros H. exfalso. apply H. auto.
  - destruct (find_file files dev) as [j|]; simpl.
    + split; [discriminate|]. intros H. exfalso.
      assert (~ In dev (map pf_dev files)) by tauto.
      apply IH in H0. discriminate.
    + split; [|reflexivity]. intros _ [H|H]; [contradiction|].
      apply (proj1 IH eq_refl H).
Qed.

(** What [trace_file] returns, case by case. *)
Lemma trace_file_spec sys dev files force_ssd_mode :
  let '(files', i) := trace_file sys dev files force_ssd_mode in
  (i < length files')%nat
  /\ pf_dev (nth i files' no_file) = dev
  /\ ((In dev (map pf_dev files) /\ files' = files)
      \/ (~ In dev (map pf_dev files)
          /\ exists fresh, files' = files ++ [fresh] /\ i = length files
                           /\ pf_dev fresh = dev
                           /\ pf_paths fresh = [] /\ pf_blocks fresh = [])).
Proof.
  unfold trace_file. destruct (find_file files dev) as [i|] eqn:Hfind.
  - destruct (find_file_Some _ _ _ Hfind) as [Hi Hdev]. repeat split; auto.
    left. split; [|reflexivity]. rewrite <- Hdev. apply in_map. now apply nth_In.
  - apply find_file_None in Hfind. rewrite length_app. simpl.
    split; [lia|]. rewrite nth_middle. split; [reflexivity|].
    right. split; [exact Hfind|]. eexists. repeat split.
Qed.

(** *** The invariants of a file under assembly *)

(** Every block names a path of the file. *)
Definition pathidx_valid (file : PackFile) : Prop :=
  Forall (fun b => 0 <= pb_pathidx b < Z.of_nat (length (pf_paths file)))
         (pf_blocks file).

(** The values of a list never decrease, and start at [lo] or above. *)
Fixpoint ascending_from (lo : Z) (l : list Z) : Prop :=
  match l with
  | [] => True
  | x :: rest => lo <= x /\ ascending_from x rest
  end.

(** The blocks stand in the order of their paths: the blocks of one path
    are contiguous. *)
Definition grouped_by_path (file : PackFile) : Prop :=
  ascending_from 0 (map pb_pathidx (pf_blocks file)).

Definition assembled (file : PackFile) : Prop :=
  pathidx_valid file /\ grouped_by_path file.

Lemma ascending_app lo l v new :
  ascending_from lo l -> Forall (fun x => x <= v) l -> lo <= v ->
  Forall (fun x => x = v) new ->
  ascending_from lo (l ++ new).
Proof.
  revert lo. induction l as [|x l IH]; intros lo Hl Hle Hlo Hnew; simpl.
  - clear Hl Hle. revert lo Hlo.
    induction Hnew as [|y new -> _ IH]; intros lo Hlo; simpl; [exact I|].
    split; [exact Hlo|]. apply IH. lia.
  - destruct Hl as [H1 H2]. inversion Hle; subst. split; [exact H1|].
    apply IH; auto.
Qed.

Lemma assembled_appends file file' :
  appends file file' -> pf_paths file <> [] -> assembled file -> assembled file'.
Proof.
  intros (_ & _ & Hp & new & Hb & Hnew) Hne [Hvalid Hgrouped].
  assert (Hlen : (0 < length (pf_paths file))%nat).
  { destruct (pf_paths file); [congruence|simpl; lia]. }
  unfold assembled, pathidx_valid, grouped_by_path in *. rewrite Hp, Hb. split.
  - apply Forall_app. split; [exact Hvalid|].
    eapply Forall_impl; [|exact Hnew]. simpl. unfold last_pathidx. intros b ->. lia.
  - rewrite map_app. apply ascending_app with (v := last_pathidx file).
    + exact Hgrouped.
    + rewrite Forall_map. eapply Forall_impl; [|exact Hvalid].
      simpl. unfold last_pathidx. intros b Hb'. lia.
    + unfold last_pathidx. lia.
    + rewrite Forall_map. exact Hnew.
Qed.

Lemma assembled_add_path file ino pathname :
  assembled file ->
  assembled (add_path file ino pathname) /\ pf_paths (add_path file ino pathname) <> [].
Proof.
  intros [Hvalid Hgrouped]. split; [split|].
  - unfold pathidx_valid, add_path in *. simpl. rewrite length_app. simpl.
    eapply Forall_impl; [|exact Hvalid]. simpl. intros b Hb. lia.
  - exact Hgrouped.
  - simpl. destruct (pf_paths file); discriminate.
Qed.

Lemma assembled_no_file : assembled no_file.
Proof. split; [constructor|exact I]. Qed.

(** The shape of every return of [trace_add_path]: the array is untouched,
    or the file [trace_file] names gets one more path and, after it, blocks
    for that path. *)
Lemma trace_add_path_files sys force_ssd_mode st pathname :
  let st' := snd (trace_add_path sys force_ssd_mode st pathname) in
  files st' = files st
  \/ exists dev ino file2,
       let '(files1, fi) := trace_file sys dev (files st) force_ssd_mode in
       appends (add_path (nth fi files1 no_file) ino pathname) file2
       /\ files st' = store files1 fi file2.
Proof.
  unfold trace_add_path.
  destruct (negb (starts_with_slash pathname)); [left; reflexivity|].
  destruct (ignore_path pathname); [left; reflexivity|].
  destruct (_ >? PACK_PATH_MAX); [left; reflexivity|].
  destruct (existsb _ (path_hash st)); [left; reflexivity|].
  destruct (sys_lstat sys pathname) as [statbuf0|]; [|left; reflexivity].
  destruct (st_kind statbuf0); try (left; reflexivity).
  destruct (sys_open sys pathname) as [fd|]; [|left; reflexivity].
  destruct (sys_fstat sys fd) as [statbuf|]; [|left; reflexivity].
  destruct (st_kind statbuf); try (left; reflexivity).
  cbn [files path_hash inode_hash]. right.
  exists (st_dev statbuf), (st_ino statbuf).
  destruct (trace_file sys (st_dev statbuf) (files st) force_ssd_mode) as [files1 fi].
  destruct (existsb _ (inode_hash st)).
  - eexists. split; [apply appends_refl|reflexivity].
  - destruct (st_size statbuf =? 0).
    + eexists. split; [apply appends_refl|reflexivity].
    + eexists. split; [apply appends_trace_add_chunks|reflexivity].
Qed.

Lemma trace_add_path_assembled sys force_ssd_mode st pathname :
  Forall assembled (files st) ->
  Forall assembled (files (snd (trace_add_path sys force_ssd_mode st pathname))).
Proof.
  intros Hall.
  destruct (trace_add_path_files sys force_ssd_mode st pathname)
    as [->|(dev & ino & file2 & H)]; [exact Hall|].
  pose proof (trace_file_spec sys dev (files st) force_ssd_mode) as Hspec.
  destruct (trace_file sys dev (files st) force_ssd_mode) as [files1 fi].
  destruct H as [Happ ->]. destruct Hspec as (Hi & _ & Hcase).
  assert (Hall1 : Forall assembled files1).
  { destruct Hcase as [[_ ->]|(_ & fresh & -> & _ & _ & Hp & Hb)]; [exact Hall|].
    apply Forall_app. split; [exact Hall|]. constructor; [|constructor].
    split; [unfold pathidx_valid; rewrite Hb; constructor|].
    unfold grouped_by_path. rewrite Hb. exact I. }
  apply Forall_store; [exact Hall1|].
  assert (Hold : assembled (nth fi files1 no_file)).
  { rewrite Forall_forall in Hall1. apply Hall1. now apply nth_In. }
  destruct (assembled_add_path _ ino pathname Hold) as [H1 H2].
  exact (assembled_appends _ _ Happ H2 H1).
Qed.

Lemma trace_add_path_devices sys force_ssd_mode st pathname :
  NoDup (map pf_dev (files st)) ->
  NoDup (map pf_dev (files (snd (trace_add_path sys force_ssd_mode st pathname)))).
Proof.
  intros Hnd.
  destruct (trace_add_path_files sys force_ssd_mode st pathname)
    as [->|(dev & ino & file2 & H)]; [exact Hnd|].
  pose proof (trace_file_spec sys dev (files st) force_ssd_mode) as Hspec.
  destruct (trace_file sys dev (files st) force_ssd_mode) as [files1 fi].
  destruct H as [(Hdev & _) ->]. destruct Hspec as (Hi & Hfi & Hcase).
  rewrite map_store. simpl in Hdev. rewrite Hdev.
  rewrite <- (map_nth pf_dev files1 no_file fi), store_same.
  destruct Hcase as [[_ ->]|(Hnew & fresh & -> & _ & Hfd & _)]; [exact Hnd|].
  rewrite map_app. simpl. rewrite Hfd.
  apply NoDup_app; [exact Hnd| |].
  - repeat constructor. simpl. tauto.
  - intros x Hx [<-|[]]. exact (Hnew Hx).
Qed.

Lemma trace_add_paths_from sys force_ssd_mode pathnames :
  forall st, Forall assembled (files st) -> NoDup (map pf_dev (files st)) ->
    let st' := fold_left (fun st p => snd (trace_add_path sys force_ssd_mode st p))
                         pathnames st in
    Forall assembled (files st') /\ NoDup (map pf_dev (files st')).
Proof.
  induction pathnames as [|p pathnames IH]; intros st Ha Hn; simpl; [auto|].
  apply IH.
  - now apply trace_add_path_assembled.
  - now apply trace_add_path_devices.
Qed.

Lemma trace_add_paths_ok sys force_ssd_mode pathnames :
  let st := trace_add_paths sys force_ssd_mode pathnames in
  Forall assembled (files st) /\ NoDup (map pf_dev (files st)).
Proof.
  apply trace_add_paths_from; constructor.
Qed.

(** The key of the table of the inodes seen is there. *)
Definition inode_seen (st : trace_state) (dev ino : Z) : bool :=
  existsb (fun k => (fst k =? dev) && (snd k =? ino)) (inode_hash st).

(** *** What [trace_add_path] accepts, and where it puts it *)

(** [pathname] gets through every test of [trace_add_path] but the two
    tables: it starts with ['/'], is under no ignored directory, fits in a
    pack, [lstat] reports a regular file, [open] succeeds, and [statbuf] is
    what [fstat] reports of the open file, a regular file again. *)
Definition accepted (sys : system) (pathname : string) (statbuf : stat) : Prop :=
  starts_with_slash pathname = true
  /\ ignore_path pathname = false
  /\ Z.of_nat (String.length pathname) <= PACK_PATH_MAX
  /\ (exists statbuf0, sys_lstat sys pathname = Some statbuf0
                       /\ st_kind statbuf0 = Regular)
  /\ (exists fd, sys_open sys pathname = Some fd /\ sys_fstat sys fd = Some statbuf)
  /\ st_kind statbuf = Regular.

(** [file'] is [file] with [path] as one more path and, after the blocks
    of [file], blocks of that path. *)
Definition grows (file : PackFile) (path : PackPath) (file' : PackFile) : Prop :=
  pf_paths file' = pf_paths file ++ [path]
  /\ exists new, pf_blocks file' = pf_blocks file ++ new
                 /\ Forall (fun b => pb_pathidx b = Z.of_nat (length (pf_paths file))) new.

(** The name is in the table of the paths seen. *)
Definition path_seen (st : trace_state) (pathname : string) : bool :=
  existsb (String.eqb pathname) (path_hash st).

(** Every path of every file is a name [trace_add_path] accepts, in the
    file of the device [fstat] reports for it and with the inode number
    [fstat] reports; and every accepted name of the table of paths is a
    path of the file of its device. *)
Definition paths_by_device (sys : system) (st : trace_state) : Prop :=
  (forall file path, In file (files st) -> In path (pf_paths file) ->
      exists statbuf, accepted sys (pp_path path) statbuf
                      /\ st_dev statbuf = pf_dev file /\ st_ino statbuf = pp_ino path)
  /\ (forall name statbuf, path_seen st name = true -> accepted sys name statbuf ->
        exists file, In file (files st) /\ pf_dev file = st_dev statbuf
                     /\ In (mk_PackPath (-1) (st_ino statbuf) name) (pf_paths file)).

Lemma accepted_unique sys pathname statbuf1 statbuf2 :
  accepted sys pathname statbuf1 -> accepted sys pathname statbuf2 ->
  statbuf1 = statbuf2.
Proof.
  intros (_ & _ & _ & _ & (fd1 & Ho1 & Hf1) & _) (_ & _ & _ & _ & (fd2 & Ho2 & Hf2) & _).
  congruence.
Qed.

(** A call with an accepted name that is not in the table of paths: the
    file [trace_file] names gets the name as a path, with the inode number
    of [fstat], and after it blocks for that path; none when the inode is
    in the table of inodes. *)
Lemma trace_add_path_accepted sys force_ssd_mode st pathname statbuf :
  accepted sys pathname statbuf ->
  path_seen st pathname = false ->
  let st' := snd (trace_add_path sys force_ssd_mode st pathname) in
  let files1 := fst (trace_file sys (st_dev statbuf) (files st) force_ssd_mode) in
  let fi := snd (trace_file sys (st_dev statbuf) (files st) force_ssd_mode) in
  let file1 := add_path (nth fi files1 no_file) (st_ino statbuf) pathname in
  exists file2,
    files st' = store files1 fi file2
    /\ appends file1 file2
    /\ path_hash st' = pathname :: path_hash st
    /\ (inode_seen st (st_dev statbuf) (st_ino statbuf) = true -> file2 = file1).
Proof.
  intros (H1 & H2 & H3 & (statbuf0 & Hl & Hk0) & (fd & Ho & Hf) & Hk) H4. cbv zeta.
  unfold path_seen in H4. unfold trace_add_path. rewrite H1, H2. cbn [negb].
  destruct (Z.gtb_spec (Z.of_nat (String.length pathname)) PACK_PATH_MAX) as [H3'|_];
    [lia|].
  rewrite H4, Hl, Hk0, Ho, Hf, Hk. cbn [files path_hash inode_hash].
  unfold inode_seen. cbn [fst snd].
  destruct (trace_file sys (st_dev statbuf) (files st) force_ssd_mode) as [files1 fi].
  cbn [fst snd].
  destruct (existsb _ (inode_hash st)).
  - eexists. split; [reflexivity|]. split; [apply appends_refl|].
    split; reflexivity.
  - destruct (st_size statbuf =? 0).
    + eexists. split; [reflexivity|]. split; [apply appends_refl|].
      split; [reflexivity|discriminate].
    + eexists. split; [reflexivity|]. split; [apply appends_trace_add_chunks|].
      split; [reflexivity|discriminate].
Qed.

(** Every call: the name is accepted and new to the table of paths, or the
    array is left as it was. *)
Lemma trace_add_path_step sys force_ssd_mode st pathname :
  let st' := snd (trace_add_path sys force_ssd_mode st pathname) in
  (files st' = files st
   /\ (path_hash st' = path_hash st \/ path_hash st' = pathname :: path_hash st)
   /\ (path_seen st pathname = true \/ forall statbuf, ~ accepted sys pathname statbuf))
  \/ (path_seen st pathname = false /\ exists statbuf, accepted sys pathname statbuf).
Proof.
  cbv zeta. unfold path_seen, trace_add_path.
  destruct (starts_with_slash pathname) eqn:H1; cbn [negb].
  2:{ left. repeat split; auto. right. intros s (H & _). congruence. }
  destruct (ignore_path pathname) eqn:H2.
  { left. repeat split; auto. right. intros s (_ & H & _). congruence. }
  destruct (Z.gtb_spec (Z.of_nat (String.length pathname)) PACK_PATH_MAX) as [H3|H3].
  { left. repeat split; auto. right. intros s (_ & _ & H & _). lia. }
  destruct (existsb _ (path_hash st)) eqn:H4; [left; repeat split; auto|].
  destruct (sys_lstat sys pathname) as [statbuf0|] eqn:Hl.
  2:{ left. repeat split; auto. right.
      intros s (_ & _ & _ & (s0 & H & _) & _). congruence. }
  destruct (st_kind statbuf0) eqn:Hk0;
    try (left; repeat split; auto; right;
         intros s (_ & _ & _ & (s0 & H & Hk) & _); congruence).
  destruct (sys_open sys pathname) as [fd|] eqn:Ho.
  2:{ left. repeat split; auto. right.
      intros s (_ & _ & _ & _ & (fd & H & _) & _). congruence. }
  destruct (sys_fstat sys fd) as [statbuf|] eqn:Hf.
  2:{ left. repeat split; auto. right.
      intros s (_ & _ & _ & _ & (fd' & H & H') & _). congruence. }
  destruct (st_kind statbuf) eqn:Hk;
    try (left; repeat split; auto; right;
         intros s (_ & _ & _ & _ & (fd' & H & H') & Hk'); congruence).
  right. split; [reflexivity|]. exists statbuf. repeat split; eauto.
Qed.

(** The table of paths only grows. *)
Lemma trace_add_path_seen sys force_ssd_mode st pathname name :
  path_seen st name = true ->
  path_seen (snd (trace_add_path sys force_ssd_mode st pathname)) name = true.
Proof.
  intros Hn.
  assert (Hn' : forall st', path_hash st' = path_hash st
                            \/ path_hash st' = pathname :: path_hash st ->
                            path_seen st' name = true).
  { intros st' [Hh|Hh]; unfold path_seen in *; rewrite Hh; [exact Hn|].
    cbn [existsb]. rewrite Hn. apply orb_true_r. }
  destruct (trace_add_path_step sys force_ssd_mode st pathname)
    as [(_ & Hh & _)|(Hnew & statbuf & Hacc)]; [exact (Hn' _ Hh)|].
  destruct (trace_add_path_accepted sys force_ssd_mode st pathname statbuf Hacc Hnew)
    as (file2 & _ & _ & Hh & _).
  apply Hn'. right. exact Hh.
Qed.

(** What an accepted new name does to the array: the file that has its
    device gets it as one more path, with blocks for it after the blocks
    the file has, and stays where it is in the array; when no file has the
    device, a file with only that path and its blocks is appended.  No
    block is added for an inode that is in the table of inodes. *)
Lemma trace_add_path_lands sys force_ssd_mode st pathname statbuf :
  accepted sys pathname statbuf ->
  path_seen st pathname = false ->
  let st' := snd (trace_add_path sys force_ssd_mode st pathname) in
  let path := mk_PackPath (-1) (st_ino statbuf) pathname in
  let seen := inode_seen st (st_dev statbuf) (st_ino statbuf) in
  exists file',
    pf_dev file' = st_dev statbuf
    /\ ((exists i,
           (i < length (files st))%nat
           /\ pf_dev (nth i (files st) no_file) = st_dev statbuf
           /\ grows (nth i (files st) no_file) path file'
           /\ (seen = true -> pf_blocks file' = pf_blocks (nth i (files st) no_file))
           /\ files st' = store (files st) i file')
        \/ (~ In (st_dev statbuf) (map pf_dev (files st))
            /\ pf_paths file' = [path]
            /\ Forall (fun b => pb_pathidx b = 0) (pf_blocks file')
            /\ (seen = true -> pf_blocks file' = [])
            /\ files st' = files st ++ [file'])).
Proof.
  intros Hacc Hnew. cbv zeta.
  destruct (trace_add_path_accepted sys force_ssd_mode st pathname statbuf Hacc Hnew)
    as (file2 & Hfiles & Happ & _ & Hseen).
  pose proof (trace_file_spec sys (st_dev statbuf) (files st) force_ssd_mode) as Hspec.
  destruct (trace_file sys (st_dev statbuf) (files st) force_ssd_mode) as [files1 fi].
  cbn [fst snd] in *. destruct Hspec as (Hfi & Hdev & Hcase).
  destruct Happ as (Hd2 & _ & Hp2 & new & Hb2 & Hnew2).
  cbn [add_path pf_dev pf_paths pf_blocks] in Hd2, Hp2, Hb2.
  unfold last_pathidx in Hnew2. cbn [add_path pf_paths] in Hnew2.
  rewrite length_app in Hnew2. cbn [length] in Hnew2.
  assert (Hidx : Forall (fun b => pb_pathidx b
                                  = Z.of_nat (length (pf_paths (nth fi files1 no_file))))
                        new).
  { eapply Forall_impl; [|exact Hnew2]. cbv beta. intros b Hb. lia. }
  assert (Hkeep : inode_seen st (st_dev statbuf) (st_ino statbuf) = true ->
                  pf_blocks file2 = pf_blocks (nth fi files1 no_file)).
  { intros Hs. rewrite (Hseen Hs). reflexivity. }
  exists file2. split; [congruence|].
  destruct Hcase as [[_ ->]|(Hnone & fresh & -> & -> & _ & Hp & Hb)].
  - left. exists fi. split; [exact Hfi|]. split; [exact Hdev|].
    split; [|split; [exact Hkeep|exact Hfiles]].
    split; [exact Hp2|]. exists new. split; [exact Hb2|exact Hidx].
  - right. rewrite nth_middle in *. rewrite Hp in *. rewrite Hb in *.
    cbn [app length] in *. split; [exact Hnone|]. split; [exact Hp2|].
    split; [rewrite Hb2; exact Hidx|]. split; [exact Hkeep|].
    rewrite Hfiles. apply store_app_last.
Qed.

Lemma grows_dev_paths file path file' :
  grows file path file' ->
  forall q, In q (pf_paths file') <-> In q (pf_paths file) \/ q = path.
Proof.
  intros [Hp _] q. rewrite Hp, in_app_iff. simpl. intuition congruence.
Qed.

(** One call keeps every path in the file of its device. *)
Lemma trace_add_path_by_device sys force_ssd_mode st pathname :
  paths_by_device sys st ->
  paths_by_device sys (snd (trace_add_path sys force_ssd_mode st pathname)).
Proof.
  intros [Hsound Hcomplete].
  destruct (trace_add_path_step sys force_ssd_mode st pathname)
    as [(Hf & Hh & Hrej)|(Hnew & statbuf & Hacc)].
  { split; rewrite Hf; [exact Hsound|].
    intros name s Hn Hs. apply Hcomplete; [|exact Hs].
    destruct Hh as [Hh|Hh]; unfold path_seen in *; rewrite Hh in Hn; [exact Hn|].
    cbn [existsb] in Hn. apply orb_true_iff in Hn. destruct Hn as [Hn|Hn]; [|exact Hn].
    apply String.eqb_eq in Hn. subst name.
    destruct Hrej as [Hrej|Hrej]; [exact Hrej|]. destruct (Hrej s Hs). }
  destruct (trace_add_path_accepted sys force_ssd_mode st pathname statbuf Hacc Hnew)
    as (_ & _ & _ & Hh & _).
  destruct (trace_add_path_lands sys force_ssd_mode st pathname statbuf Hacc Hnew)
    as (file' & Hd & Hcase).
  set (st' := snd (trace_add_path sys force_ssd_mode st pathname)) in *.
  set (path := mk_PackPath (-1) (st_ino statbuf) pathname) in *.
  assert (Hpath : exists s, accepted sys (pp_path path) s
                            /\ st_dev s = pf_dev file' /\ st_ino s = pp_ino path).
  { exists statbuf. split; [exact Hacc|]. split; [congruence|reflexivity]. }
  assert (Hname : forall name s, path_seen st' name = true -> accepted sys name s ->
            (name = pathname /\ s = statbuf) \/ path_seen st name = true).
  { intros name s Hn Hs. unfold path_seen in *. rewrite Hh in Hn.
    cbn [existsb] in Hn. apply orb_true_iff in Hn. destruct Hn as [Hn|Hn]; [|auto].
    apply String.eqb_eq in Hn. subst name. left. split; [reflexivity|].
    exact (accepted_unique _ _ _ _ Hs Hacc). }
  destruct Hcase as [(i & Hi & Hdi & Hgrows & _ & Hfiles)
                    |(Hnone & Hp & _ & _ & Hfiles)]; split; rewrite Hfiles.
  - intros file q Hin Hq. apply In_store in Hin. destruct Hin as [->|Hin].
    + apply (grows_dev_paths _ _ _ Hgrows) in Hq. destruct Hq as [Hq| ->]; [|exact Hpath].
      destruct (Hsound (nth i (files st) no_file) q (nth_In _ _ Hi) Hq)
        as (s & Hs & Hsd & Hsi).
      exists s. split; [exact Hs|]. split; [congruence|exact Hsi].
    + exact (Hsound file q Hin Hq).
  - intros name s Hn Hs. destruct (Hname name s Hn Hs) as [[-> ->]|Hold].
    + exists file'. split; [now apply store_In|]. split; [exact Hd|].
      apply (grows_dev_paths _ _ _ Hgrows). right. reflexivity.
    + destruct (Hcomplete name s Hold Hs) as (file & Hin & Hfd & Hq).
      destruct (In_store_or (files st) i file' file no_file Hin) as [Hin'| ->].
      * exists file. auto.
      * exists file'. split; [now apply store_In|]. split; [congruence|].
        apply (grows_dev_paths _ _ _ Hgrows). left. exact Hq.
  - intros file q Hin Hq. apply in_app_iff in Hin. destruct Hin as [Hin|[<-|[]]].
    + exact (Hsound file q Hin Hq).
    + rewrite Hp in Hq. destruct Hq as [<-|[]]. exact Hpath.
  - intros name s Hn Hs. destruct (Hname name s Hn Hs) as [[-> ->]|Hold].
    + exists file'. split; [apply in_app_iff; right; left; reflexivity|].
      split; [exact Hd|]. rewrite Hp. left. reflexivity.
    + destruct (Hcomplete name s Hold Hs) as (file & Hin & Hfd & Hq).
      exists file. split; [apply in_app_iff; left; exact Hin|]. auto.
Qed.

(** After a call, an accepted name is in the table of paths. *)
Lemma trace_add_path_sees sys force_ssd_mode st pathname statbuf :
  accepted sys pathname statbuf ->
  path_seen (snd (trace_add_path sys force_ssd_mode st pathname)) pathname = true.
Proof.
  intros Hacc. destruct (path_seen st pathname) eqn:Hseen.
  - now apply trace_add_path_seen.
  - destruct (trace_add_path_accepted sys force_ssd_mode st pathname statbuf Hacc Hseen)
      as (_ & _ & _ & Hh & _).
    unfold path_seen. rewrite Hh. cbn [existsb]. rewrite String.eqb_refl. reflexivity.
Qed.

Lemma trace_add_paths_by_device sys force_ssd_mode pathnames :
  forall st,
    paths_by_device sys st ->
    let st' := fold_left (fun st p => snd (trace_add_path sys force_ssd_mode st p))
                         pathnames st in
    paths_by_device sys st'
    /\ (forall name, path_seen st name = true -> path_seen st' name = true)
    /\ (forall name statbuf, In name pathnames -> accepted sys name statbuf ->
                             path_seen st' name = true).
Proof.
  induction pathnames as [|p pathnames IH]; intros st Hinv; cbn [fold_left].
  - split; [exact Hinv|]. split; [auto|]. intros name s [].
  - destruct (IH (snd (trace_add_path sys force_ssd_mode st p))
                 (trace_add_path_by_device sys force_ssd_mode st p Hinv))
      as (Hinv' & Hmono & Hall).
    split; [exact Hinv'|]. split.
    + intros name Hn. apply Hmono. now apply trace_add_path_seen.
    + intros name s [<-|Hin] Hs.
      * apply Hmono. exact (trace_add_path_sees sys force_ssd_mode st p s Hs).
      * exact (Hall name s Hin Hs).
Qed.

(** Every accepted name of a trace is a path of the file of its device,
    and every path of a file is an accepted name of that device. *)
Lemma trace_add_paths_device sys force_ssd_mode pathnames :
  let packs := files (trace_add_paths sys force_ssd_mode pathnames) in
  (forall pathname statbuf, In pathname pathnames -> accepted sys pathname statbuf ->
      exists file, In file packs /\ pf_dev file = st_dev statbuf
                   /\ In (mk_PackPath (-1) (st_ino statbuf) pathname) (pf_paths file))
  /\ (forall file path, In file packs -> In path (pf_paths file) ->
        exists statbuf, accepted sys (pp_path path) statbuf
                        /\ st_dev statbuf = pf_dev file /\ st_ino statbuf = pp_ino path).
Proof.
  cbv zeta. unfold trace_add_paths.
  destruct (trace_add_paths_by_device sys force_ssd_mode pathnames trace_state_init)
    as ([Hsound Hcomplete] & _ & Hall).
  { split; [intros file path []|intros name s Hn; discriminate]. }
  split; [|exact Hsound].
  intros pathname s Hin Hs. exact (Hcomplete pathname s (Hall pathname s Hin Hs) Hs).
Qed.

(** C10. The result array never holds two files with the same device, and
    all the paths and blocks of a device are in its one file.  After any
    sequence of [trace_add_path] calls the devices of the array are
    pairwise distinct.  [trace_file] returns the index of the file that
    already has the device when there is one (the array unchanged) and
    appends a new, empty file for it only when there is none.  A call of
    [trace_add_path] with a name it accepts and has not seen puts the name
    in the file of the device [fstat] reports: that file, where it was in
    the array, with the name as one more path and the blocks of that path
    after its blocks, every other file as it was; or, when no file had the
    device, a new last file with only that path and its blocks.  So after
    the paths of a trace every accepted name is a path of the file of its
    device, every path of a file is a name of that device, and every block
    of a file names a path of the same file. *)
Theorem pack_files_one_per_device (sys : system) (force_ssd_mode : bool) :
  (forall pathnames,
      NoDup (map pf_dev (files (trace_add_paths sys force_ssd_mode pathnames))))
  /\ (forall dev files0,
        let files' := fst (trace_file sys dev files0 force_ssd_mode) in
        let i := snd (trace_file sys dev files0 force_ssd_mode) in
        (i < length files')%nat
        /\ pf_dev (nth i files' no_file) = dev
        /\ (In dev (map pf_dev files0) -> files' = files0)
        /\ (~ In dev (map pf_dev files0) ->
            exists fresh, files' = files0 ++ [fresh] /\ i = length files0
                          /\ pf_paths fresh = [] /\ pf_blocks fresh = []))
  /\ (forall st pathname statbuf,
        accepted sys pathname statbuf ->
        path_seen st pathname = false ->
        let st' := snd (trace_add_path sys force_ssd_mode st pathname) in
        let path := mk_PackPath (-1) (st_ino statbuf) pathname in
        exists file',
          pf_dev file' = st_dev statbuf
          /\ ((exists i,
                 (i < length (files st))%nat
                 /\ pf_dev (nth i (files st) no_file) = st_dev statbuf
                 /\ grows (nth i (files st) no_file) path file'
                 /\ files st' = store (files st) i file')
              \/ (~ In (st_dev statbuf) (map pf_dev (files st))
                  /\ pf_paths file' = [path]
                  /\ Forall (fun b => pb_pathidx b = 0) (pf_blocks file')
                  /\ files st' = files st ++ [file'])))
  /\ (forall pathnames,
        let packs := files (trace_add_paths sys force_ssd_mode pathnames) in
        (forall pathname statbuf,
            In pathname pathnames -> accepted sys pathname statbuf ->
            exists file, In file packs /\ pf_dev file = st_dev statbuf
                         /\ In (mk_PackPath (-1) (st_ino statbuf) pathname)
                               (pf_paths file))
        /\ (forall file path,
              In file packs -> In path (pf_paths file) ->
              exists statbuf, accepted sys (pp_path path) statbuf
                              /\ st_dev statbuf = pf_dev file
                              /\ st_ino statbuf = pp_ino path)
        /\ (forall file b,
              In file packs -> In b (pf_blocks file) ->
              In (path_at file (pb_pathidx b)) (pf_paths file))).
Proof.
  split; [|split; [|split]].
  - intros pathnames. apply trace_add_paths_ok.
  - intros dev files0. pose proof (trace_file_spec sys dev files0 force_ssd_mode) as H.
    destruct (trace_file sys dev files0 force_ssd_mode) as [files' i]. simpl.
    destruct H as (Hi & Hdev & Hcase). repeat split; auto.
    + intros Hin. destruct Hcase as [[_ ->]|[Hn _]]; [reflexivity|contradiction].
    + intros Hn. destruct Hcase as [[Hin _]|(_ & fresh & -> & -> & _ & Hp & Hb)];
        [contradiction|]. exists fresh. auto.
  - intros st pathname statbuf Hacc Hnew. cbv zeta.
    destruct (trace_add_path_lands sys force_ssd_mode st pathname statbuf Hacc Hnew)
      as (file' & Hd & [(i & Hi & Hdi & Hgrows & _ & Hfiles)
                       |(Hnone & Hp & Hb & _ & Hfiles)]);
      exists file'; (split; [exact Hd|]); [left|right].
    + exists i. auto.
    + auto.
  - intros pathnames. cbv zeta.
    destruct (trace_add_paths_device sys force_ssd_mode pathnames) as [H1 H2].
    split; [exact H1|]. split; [exact H2|].
    intros file b Hfile Hb.
    destruct (trace_add_paths_ok sys force_ssd_mode pathnames) as [Hasm _].
    rewrite Forall_forall in Hasm. destruct (Hasm file Hfile) as [Hvalid _].
    unfold pathidx_valid in Hvalid. rewrite Forall_forall in Hvalid.
    specialize (Hvalid b Hb). unfold path_at. apply nth_In. lia.
Qed.

(** Two devices: the files under [/home/] are on device 2065, the others
    on device 2049; all are resident, of two pages and solid-state. *)
Definition two_device_system : system :=
  mk_system (fun _ => Some (mk_stat 0 0 0 Regular))
            (fun pathname => if String.prefix "/home/" pathname then Some 4 else Some 3)
            (fun fd => if fd =? 4 then Some (mk_stat 2065 9 8192 Regular)
                       else Some (mk_stat 2049 7 8192 Regular))
            (fun _ _ => Some [true; true])
            (fun _ _ _ => None)
            (fun _ => Some 0)
            4096.

Lemma pack_files_one_per_device_witness :
  files (trace_add_paths two_device_system false
           ["/bin/sh"; "/home/u/notes"; "/bin/dash"; "/home/u/notes"]%string)
  = [mk_PackFile 2049 false []
                 [mk_PackPath (-1) 7 "/bin/sh"; mk_PackPath (-1) 7 "/bin/dash"]
                 [mk_PackBlock 0 0 8192 (-1)];
     mk_PackFile 2065 false [] [mk_PackPath (-1) 9 "/home/u/notes"]
                 [mk_PackBlock 0 0 8192 (-1)]]
  /\ NoDup (map pf_dev (files (trace_add_paths two_device_system false
                                 ["/bin/sh"; "/home/u/notes"; "/bin/dash";
                                  "/home/u/notes"]%string)))
  /\ exists file,
       In file (files (trace_add_paths two_device_system false
                         ["/bin/sh"; "/home/u/notes"; "/bin/dash";
                          "/home/u/notes"]%string))
       /\ pf_dev file = 2049
       /\ In (mk_PackPath (-1) 7 "/bin/dash") (pf_paths file).
Proof.
  split; [vm_compute; reflexivity|].
  destruct (pack_files_one_per_device two_device_system false)
    as (Hnodup & _ & _ & Hpaths).
  split; [apply Hnodup|].
  destruct (Hpaths ["/bin/sh"; "/home/u/notes"; "/bin/dash"; "/home/u/notes"]%string)
    as (Hin & _ & _).
  apply (Hin "/bin/dash"%string (mk_stat 2049 7 8192 Regular)).
  - right. right. left. reflexivity.
  - unfold accepted. split; [reflexivity|]. split; [reflexivity|].
    split; [vm_compute; discriminate|].
    split; [exists (mk_stat 0 0 0 Regular); split; reflexivity|].
    split; [exists 3; split; reflexivity|reflexivity].
Defined.

(** ** The range intersector: what it emits *)

Lemma add_overlaps_emits maps0 nr block block_range :
  forall fuel idx reduced,
    exists new,
      snd (add_overlaps fuel maps0 nr block block_range idx reduced) = reduced ++ new
      /\ Forall (fun e => exists k, (idx <= k < nr)%nat
                                    /\ e = reduced_block block (map_at maps0 k)
                                    /\ pb_length e > 0) new.
Proof.
  induction fuel as [|fuel IH]; intros idx reduced; cbn [add_overlaps snd].
  - exists []. split; [symmetry; apply app_nil_r|constructor].
  - destruct (Nat.leb_spec nr idx) as [Hge|Hlt].
    { exists []. split; [symmetry; apply app_nil_r|constructor]. }
    destruct (cmp_file_map _ _ >? 0) eqn:Hcmp.
    { exists []. split; [symmetry; apply app_nil_r|constructor]. }
    set (range := map_at maps0 idx).
    assert (Hlater : forall new,
              Forall (fun e => exists k, (S idx <= k < nr)%nat
                                 /\ e = reduced_block block (map_at maps0 k)
                                 /\ pb_length e > 0) new ->
              Forall (fun e => exists k, (idx <= k < nr)%nat
                                 /\ e = reduced_block block (map_at maps0 k)
                                 /\ pb_length e > 0) new).
    { intros new HF. eapply Forall_impl; [|exact HF]. simpl.
      intros e (k & Hk & He). exists k. split; [lia|exact He]. }
    destruct (pb_length (reduced_block block range) >? 0) eqn:Hlen.
    + assert (Hhere : exists k, (idx <= k < nr)%nat
                        /\ reduced_block block range = reduced_block block (map_at maps0 k)
                        /\ pb_length (reduced_block block range) > 0).
      { exists idx. apply Z.gtb_lt in Hlen. repeat split; auto; lia. }
      destruct (fm_end range >? fm_end block_range).
      * exists [reduced_block block range]. split; [reflexivity|].
        constructor; [exact Hhere|constructor].
      * destruct (IH (S idx) (reduced ++ [reduced_block block range])) as (new & Hnew & HF).
        exists (reduced_block block range :: new). split.
        -- rewrite Hnew, <- app_assoc. reflexivity.
        -- constructor; [exact Hhere|apply Hlater; exact HF].
    + destruct (fm_end range >? fm_end block_range).
      * exists []. split; [symmetry; apply app_nil_r|constructor].
      * destruct (IH (S idx) reduced) as (new & Hnew & HF).
        exists new. split; [exact Hnew|apply Hlater; exact HF].
Qed.

(** *** Pages and bytes *)

Definition PAGE_SIZE : Z := 4096.

(** Byte [x] lies in the pages of [range]. *)
Definition in_pages (range : file_map) (x : Z) : Prop :=
  fm_start range * PAGE_SIZE <= x < fm_end range * PAGE_SIZE.

(** Byte [x] lies in [block]. *)
Definition in_block (block : PackBlock) (x : Z) : Prop :=
  pb_offset block <= x < pb_offset block + pb_length block.

(** A block of a file: offset and length are not negative and the end of
    the block is an [off_t]. *)
Definition block_ok (block : PackBlock) : Prop :=
  0 <= pb_offset block /\ 0 <= pb_length block
  /\ pb_offset block + pb_length block <= OFF_MAX.

(** A range array whose page ranges are byte ranges of an [off_t]. *)
Definition pages_ok (M : list file_map) : Prop :=
  range_array_ok M /\ Forall (fun m => fm_end m * PAGE_SIZE <= OFF_MAX) M.

Lemma shiftr_page x : Z.shiftr x PAGE_SHIFT = x / PAGE_SIZE.
Proof. unfold PAGE_SHIFT, PAGE_SIZE. rewrite Z.shiftr_div_pow2 by lia. reflexivity. Qed.

Lemma shiftl_page x : Z.shiftl x PAGE_SHIFT = x * PAGE_SIZE.
Proof. unfold PAGE_SHIFT, PAGE_SIZE. rewrite Z.shiftl_mul_pow2 by lia. reflexivity. Qed.

Lemma block_page_range_spec block :
  block_ok block ->
  fm_start (block_page_range block) = pb_offset block / PAGE_SIZE
  /\ fm_end (block_page_range block) = (pb_offset block + pb_length block) / PAGE_SIZE.
Proof.
  intros (H0 & H1 & H2). unfold block_page_range. cbn [fm_start fm_end].
  rewrite !shiftr_page, off_t_small by (unfold OFF_MAX in *; lia). auto.
Qed.

Lemma reduced_block_spec block range :
  block_ok block -> 0 <= fm_start range -> fm_start range < fm_end range ->
  fm_end range * PAGE_SIZE <= OFF_MAX ->
  let e := reduced_block block range in
  pb_pathidx e = pb_pathidx block
  /\ pb_offset e = Z.max (fm_start range * PAGE_SIZE) (pb_offset block)
  /\ pb_length e = Z.min (fm_end range * PAGE_SIZE) (pb_offset block + pb_length block)
                   - Z.max (fm_start range * PAGE_SIZE) (pb_offset block).
Proof.
  intros (H0 & H1 & H2) Hs Hne He. unfold reduced_block.
  cbn [pb_pathidx pb_offset pb_length].
  rewrite !shiftl_page, nih_max_spec, nih_min_spec.
  unfold PAGE_SIZE, OFF_MAX in *.
  rewrite (off_t_small (pb_offset block + pb_length block)) by (unfold OFF_MAX; lia).
  rewrite (off_t_small (fm_start range * 4096)) by (unfold OFF_MAX; lia).
  rewrite (off_t_small (fm_end range * 4096)) by (unfold OFF_MAX; lia).
  rewrite off_t_small by (unfold OFF_MAX; lia). auto.
Qed.

(** A byte of the block that lies in the pages of the range lies in the
    reduced block, and the reduced block lies in both. *)
Lemma reduced_block_bytes block range x :
  block_ok block -> 0 <= fm_start range -> fm_start range < fm_end range ->
  fm_end range * PAGE_SIZE <= OFF_MAX ->
  in_block (reduced_block block range) x <-> in_block block x /\ in_pages range x.
Proof.
  intros Hb Hs Hne He.
  destruct (reduced_block_spec block range Hb Hs Hne He) as (_ & Ho & Hl).
  unfold in_block, in_pages. rewrite Ho, Hl. lia.
Qed.

Lemma cmp_file_map_neg a b : (cmp_file_map a b <? 0) = (fm_end a <? fm_start b).
Proof.
  unfold cmp_file_map. destruct (fm_end a <? fm_start b); [reflexivity|].
  destruct (fm_end b <? fm_start a); reflexivity.
Qed.

Lemma cmp_file_map_pos a b :
  (cmp_file_map a b >? 0) = true -> fm_end b < fm_start a.
Proof.
  unfold cmp_file_map. destruct (fm_end a <? fm_start b); [discriminate|].
  destruct (Z.ltb_spec (fm_end b) (fm_start a)); [auto|discriminate].
Qed.

(** The first loop stops at the first range that does not end before the
    first page of the block. *)
Lemma skip_filemaps_spec M nr br :
  forall fuel idx, (nr - idx < fuel)%nat -> (idx <= nr)%nat ->
    let idx' := skip_filemaps fuel M nr br idx in
    (idx <= idx' <= nr)%nat
    /\ (forall k, (idx <= k < idx')%nat -> fm_end (map_at M k) < fm_start br)
    /\ ((idx' < nr)%nat -> fm_start br <= fm_end (map_at M idx')).
Proof.
  induction fuel as [|fuel IH]; intros idx Hfuel Hidx; [lia|].
  cbn [skip_filemaps]. rewrite cmp_file_map_neg.
  destruct (Nat.ltb_spec idx nr) as [Hlt|Hge]; cbn [andb].
  - destruct (Z.ltb_spec (fm_end (map_at M idx)) (fm_start br)) as [Hend|Hend].
    + destruct (IH (S idx) ltac:(lia) ltac:(lia)) as (H1 & H2 & H3).
      cbv zeta in *. split; [lia|split].
      * intros k Hk. destruct (Nat.eq_dec k idx) as [->|]; [exact Hend|].
        apply H2. lia.
      * exact H3.
    + cbv zeta. split; [lia|split]; [intros k Hk; lia|]. intros _. exact Hend.
  - cbv zeta. split; [lia|split]; intros; lia.
Qed.

(** The second loop reduces the block by every range up to the index it
    stops at, and stops at the first range that starts after the last page
    of the block or reaches beyond it. *)
Lemma add_overlaps_spec M nr block br :
  forall fuel idx red, (nr - idx < fuel)%nat -> (idx <= nr)%nat ->
    let idx' := fst (add_overlaps fuel M nr block br idx red) in
    let red' := snd (add_overlaps fuel M nr block br idx red) in
    (idx <= idx' <= nr)%nat
    /\ incl red red'
    /\ (forall k, (idx <= k < idx')%nat ->
          fm_end (map_at M k) <= fm_end br
          /\ (pb_length (reduced_block block (map_at M k)) > 0 ->
              In (reduced_block block (map_at M k)) red'))
    /\ ((idx' < nr)%nat ->
        fm_end br < fm_start (map_at M idx')
        \/ (fm_end (map_at M idx') > fm_end br
            /\ (pb_length (reduced_block block (map_at M idx')) > 0 ->
                In (reduced_block block (map_at M idx')) red'))).
Proof.
  induction fuel as [|fuel IH]; intros idx red Hfuel Hidx; [lia|].
  cbn [add_overlaps].
  destruct (Nat.leb_spec nr idx) as [Hge|Hlt].
  { cbn [fst snd]. split; [lia|split; [apply incl_refl|split]]; intros; lia. }
  destruct (cmp_file_map (map_at M idx) br >? 0) eqn:Hcmp.
  { cbn [fst snd]. split; [lia|split; [apply incl_refl|split]]; [intros; lia|].
    intros _. left. now apply cmp_file_map_pos. }
  set (new := reduced_block block (map_at M idx)).
  set (red1 := if pb_length new >? 0 then red ++ [new] else red).
  assert (Hred1 : incl red red1).
  { subst red1. destruct (pb_length new >? 0); [apply incl_appl|]; apply incl_refl. }
  assert (Hnew : pb_length new > 0 -> In new red1).
  { subst red1. intros Hpos. destruct (Z.gtb_spec (pb_length new) 0); [|lia].
    apply in_or_app. right. left. reflexivity. }
  destruct (Z.gtb_spec (fm_end (map_at M idx)) (fm_end br)) as [Hend|Hend].
  - cbn [fst snd]. split; [lia|split; [exact Hred1|split]]; [intros; lia|].
    intros _. right. split; [lia|exact Hnew].
  - destruct (IH (S idx) red1 ltac:(lia) ltac:(lia)) as (H1 & H2 & H3 & H4).
    cbv zeta in *. split; [lia|split; [|split]].
    + eapply incl_tran; [exact Hred1|exact H2].
    + intros k Hk. destruct (Nat.eq_dec k idx) as [->|]; [|apply H3; lia].
      split; [lia|]. intros Hpos. apply H2. apply Hnew. exact Hpos.
    + exact H4.
Qed.

Lemma page_floor o :
  (o / PAGE_SIZE) * PAGE_SIZE <= o < (o / PAGE_SIZE) * PAGE_SIZE + PAGE_SIZE.
Proof.
  unfold PAGE_SIZE. pose proof (Z.div_mod o 4096 ltac:(lia)).
  pose proof (Z.mod_pos_bound o 4096 ltac:(lia)). lia.
Qed.

(** Byte [x] of path [p] lies in one of the reduced blocks. *)
Definition emitted_covers (red : list PackBlock) (p x : Z) : Prop :=
  exists e, In e red /\ pb_pathidx e = p /\ in_block e x.

(** The ranges the cursor has passed owe nothing to a block that starts at
    [lo] or after it: their bytes from [lo] on are emitted. *)
Definition cursor_done (M : list file_map) (idx : nat) (lo : Z)
           (red : list PackBlock) (p : Z) : Prop :=
  forall k x, (k < idx)%nat -> lo <= x -> in_pages (map_at M k) x ->
              emitted_covers red p x.

Lemma emitted_covers_incl red red' p x :
  incl red red' -> emitted_covers red p x -> emitted_covers red' p x.
Proof. intros Hi (e & He & Hp). exists e. split; [apply Hi; exact He|exact Hp]. Qed.

Lemma pages_ok_entry M k :
  pages_ok M -> (k < length M)%nat ->
  0 <= fm_start (map_at M k) /\ fm_start (map_at M k) < fm_end (map_at M k)
  /\ fm_end (map_at M k) * PAGE_SIZE <= OFF_MAX.
Proof.
  intros [Hok Hpages] Hk. assert (Hin : In (map_at M k) M) by (now apply nth_In).
  pose proof (separated_bounds _ _ Hok) as Hb. rewrite Forall_forall in Hb, Hpages.
  specialize (Hb _ Hin). specialize (Hpages _ Hin). lia.
Qed.

(** One block against the range array of its inode. *)
Lemma intersect_block_spec M st block lo :
  pages_ok M -> block_ok block ->
  maps st = M -> nr_maps st = length M -> (filemapidx st <= length M)%nat ->
  pathidx st = pb_pathidx block -> lo <= pb_offset block ->
  cursor_done M (filemapidx st) lo (reduced_blocks st) (pb_pathidx block) ->
  let st' := intersect_block st block in
  maps st' = M /\ nr_maps st' = length M /\ (filemapidx st' <= length M)%nat
  /\ pathidx st' = pb_pathidx block
  /\ (exists new, reduced_blocks st' = reduced_blocks st ++ new
        /\ Forall (fun e => exists k, (k < length M)%nat
                              /\ e = reduced_block block (map_at M k)
                              /\ pb_length e > 0) new)
  /\ cursor_done M (filemapidx st') (pb_offset block) (reduced_blocks st')
                 (pb_pathidx block)
  /\ (forall k x, (k < length M)%nat -> in_block block x -> in_pages (map_at M k) x ->
                  emitted_covers (reduced_blocks st') (pb_pathidx block) x).
Proof.
  intros HM Hb Hmaps Hnr Hidx Hpath Hlo Hdone. unfold intersect_block.
  rewrite Hmaps, Hnr.
  set (br := block_page_range block).
  destruct (block_page_range_spec block Hb) as [Hbs Hbe]. fold br in Hbs, Hbe.
  pose proof (skip_filemaps_spec M (length M) br (S (length M)) (filemapidx st)
                ltac:(lia) Hidx) as (Hs1 & Hs2 & Hs3).
  set (idx1 := skip_filemaps (S (length M)) M (length M) br (filemapidx st)) in *.
  pose proof (add_overlaps_spec M (length M) block br (S (length M)) idx1
                (reduced_blocks st) ltac:(lia) ltac:(lia)) as (Ha1 & Ha2 & Ha3 & Ha4).
  destruct (add_overlaps_emits M (length M) block br (S (length M)) idx1
              (reduced_blocks st)) as (new & Hnew & HFnew).
  destruct (add_overlaps (S (length M)) M (length M) block br idx1 (reduced_blocks st))
    as [idx2 red2].
  cbn [fst snd] in *. cbn [maps nr_maps filemapidx pathidx reduced_blocks].
  pose proof (page_floor (pb_offset block)) as Hfo.
  pose proof (page_floor (pb_offset block + pb_length block)) as Hfe.
  destruct Hb as (Hb0 & Hb1 & Hb2).
  assert (Hwhole : forall k x, (k < length M)%nat -> pb_offset block <= x ->
             in_pages (map_at M k) x ->
             (k < idx2)%nat \/ in_block block x ->
             emitted_covers red2 (pb_pathidx block) x).
  { intros k x Hk Hx Hin Hcase.
    destruct (pages_ok_entry M k HM Hk) as (He0 & He1 & He2).
    destruct (Nat.lt_ge_cases k (filemapidx st)) as [Hk0|Hk0].
    { eapply emitted_covers_incl; [exact Ha2|]. apply (Hdone k x); auto. lia. }
    destruct (Nat.lt_ge_cases k idx1) as [Hk1|Hk1].
    { exfalso. specialize (Hs2 k ltac:(lia)). unfold in_pages in Hin.
      rewrite Hbs in Hs2. unfold PAGE_SIZE in *. lia. }
    assert (Hemit : in_block block x -> (k <= idx2)%nat ->
              ((k < idx2)%nat \/ fm_end (map_at M k) > fm_end br) ->
              (pb_length (reduced_block block (map_at M k)) > 0 ->
               In (reduced_block block (map_at M k)) red2) ->
              emitted_covers red2 (pb_pathidx block) x).
    { intros Hxb _ _ Hred. exists (reduced_block block (map_at M k)).
      assert (Hxe : in_block (reduced_block block (map_at M k)) x).
      { apply reduced_block_bytes; auto. repeat split; auto. }
      split; [|split; [|exact Hxe]].
      - apply Hred. unfold in_block in Hxe. lia.
      - apply reduced_block_spec; auto. repeat split; auto. }
    destruct (Nat.lt_ge_cases k idx2) as [Hk2|Hk2].
    { destruct (Ha3 k ltac:(lia)) as [Hend Hred].
      apply Hemit; auto; try lia.
      unfold in_block, in_pages in *. rewrite Hbe in Hend.
      unfold PAGE_SIZE in *. lia. }
    destruct Hcase as [Hc|Hxb]; [lia|].
    destruct (Ha4 ltac:(lia)) as [Hstop|[Hstop Hred]].
    - exfalso.
      assert (fm_start (map_at M idx2) <= fm_start (map_at M k)).
      { destruct (Nat.eq_dec k idx2) as [->|]; [lia|].
        destruct HM as [Hsep _].
        pose proof (separated_index _ _ idx2 k Hsep ltac:(lia)).
        pose proof (separated_bounds _ _ Hsep) as Hbd. rewrite Forall_forall in Hbd.
        specialize (Hbd (map_at M idx2) ltac:(apply nth_In; lia)). lia. }
      unfold in_block, in_pages in *. rewrite Hbe in Hstop.
      unfold PAGE_SIZE in *. lia.
    - destruct (Nat.eq_dec k idx2) as [->|Hne].
      + apply Hemit; auto.
      + exfalso. destruct HM as [Hsep _].
        pose proof (separated_index _ _ idx2 k Hsep ltac:(lia)).
        unfold in_block, in_pages in *. rewrite Hbe in Hstop.
        unfold PAGE_SIZE in *. lia. }
  repeat split; auto; try lia.
  - exists new. split; [exact Hnew|]. eapply Forall_impl; [|exact HFnew].
    simpl. intros e (k & Hk & He). exists k. split; [lia|exact He].
  - intros k x Hk Hx Hin. apply (Hwhole k x); auto. lia.
  - intros k x Hk Hxb Hin. apply (Hwhole k x); auto. unfold in_block in Hxb. lia.
Qed.

(** *** The loop over the blocks *)

(** The range array the hash holds for path [p] of the file. *)
Definition maps_of (hash : device_hash) (file : PackFile) (p : Z)
  : option (list file_map) :=
  lookup_file_maps hash (pf_dev file) (pp_ino (path_at file p)).

Lemma intersect_block_emits st block :
  exists new,
    reduced_blocks (intersect_block st block) = reduced_blocks st ++ new
    /\ Forall (fun e => pb_pathidx e = pb_pathidx block /\ pb_length e > 0) new
    /\ pathidx (intersect_block st block) = pathidx st
    /\ maps (intersect_block st block) = maps st
    /\ nr_maps (intersect_block st block) = nr_maps st.
Proof.
  unfold intersect_block.
  destruct (add_overlaps_emits (maps st) (nr_maps st) block (block_page_range block)
              (S (nr_maps st))
              (skip_filemaps (S (nr_maps st)) (maps st) (nr_maps st)
                             (block_page_range block) (filemapidx st))
              (reduced_blocks st)) as (new & Hnew & HF).
  destruct (add_overlaps _ _ _ _ _ _ _) as [idx red]. cbn [snd] in Hnew.
  exists new. cbn. repeat split; auto.
  eapply Forall_impl; [|exact HF]. simpl. intros e (k & _ & -> & Hpos).
  split; [reflexivity|exact Hpos].
Qed.

Lemma intersect_block_idle st block :
  nr_maps st = O -> intersect_block st block = st.
Proof.
  destruct st as [red M nr idx p]. simpl. intros ->. unfold intersect_block. simpl.
  reflexivity.
Qed.

(** Every turn of the loop appends blocks of the path of the block it
    looks at, and leaves that path as the current one. *)
Lemma remove_untouched_step_emits hash file st block :
  exists new,
    reduced_blocks (remove_untouched_step hash file st block) = reduced_blocks st ++ new
    /\ Forall (fun e => pb_pathidx e = pb_pathidx block) new
    /\ pathidx (remove_untouched_step hash file st block) = pb_pathidx block.
Proof.
  unfold remove_untouched_step.
  destruct (Z.eqb_spec (pb_pathidx block) (pathidx st)) as [He|Hne]; cbn [negb].
  - destruct (intersect_block_emits st block) as (new & H1 & H2 & H3 & _).
    exists new. repeat split; [exact H1| |congruence].
    eapply Forall_impl; [|exact H2]. simpl. tauto.
  - destruct (lookup_file_maps _ _ _) as [M|].
    + destruct (intersect_block_emits
                  (mk_intersect_state (reduced_blocks st) M (length M) O
                                      (pb_pathidx block)) block)
        as (new & H1 & H2 & H3 & _).
      exists new. repeat split; [exact H1| |exact H3].
      eapply Forall_impl; [|exact H2]. simpl. tauto.
    + exists [marker_block (pb_pathidx block)]. repeat split. repeat constructor.
Qed.

Lemma remove_untouched_fold_emits hash file blocks :
  forall st,
  exists new,
    reduced_blocks (fold_left (remove_untouched_step hash file) blocks st)
    = reduced_blocks st ++ new
    /\ Forall (fun e => exists b, In b blocks /\ pb_pathidx e = pb_pathidx b) new.
Proof.
  induction blocks as [|b blocks IH]; intros st; simpl.
  - exists []. split; [symmetry; apply app_nil_r|constructor].
  - destruct (remove_untouched_step_emits hash file st b) as (new1 & H1 & HF1 & _).
    destruct (IH (remove_untouched_step hash file st b)) as (new2 & H2 & HF2).
    exists (new1 ++ new2). split.
    + rewrite H2, H1, app_assoc. reflexivity.
    + apply Forall_app. split.
      * eapply Forall_impl; [|exact HF1]. simpl. intros e He. exists b. auto.
      * eapply Forall_impl; [|exact HF2]. simpl. intros e (b' & Hb' & He).
        exists b'. auto.
Qed.

Lemma remove_untouched_blocks_valid hash file :
  pathidx_valid file -> pathidx_valid (remove_untouched_blocks hash file).
Proof.
  unfold pathidx_valid, remove_untouched_blocks. cbn [pf_paths pf_blocks].
  intros Hvalid.
  destruct (remove_untouched_fold_emits hash file (pf_blocks file) intersect_init)
    as (new & -> & HF).
  simpl. eapply Forall_impl; [|exact HF]. simpl. intros e (b & Hb & ->).
  rewrite Forall_forall in Hvalid. exact (Hvalid _ Hb).
Qed.

(** *** A path that was opened but never faulted *)

Lemma ascending_lower lo l : ascending_from lo l -> Forall (fun x => lo <= x) l.
Proof.
  revert lo. induction l as [|x l IH]; intros lo; simpl; [constructor|].
  intros [H1 H2]. constructor; [exact H1|].
  eapply Forall_impl; [|exact (IH _ H2)]. simpl. intros. lia.
Qed.

(** Blocks in the order of their paths split, for a path [i], into the
    blocks of earlier paths, the blocks of [i] and the blocks of later
    paths. *)
Lemma grouped_split i blocks :
  forall lo, ascending_from lo (map pb_pathidx blocks) ->
  exists L1 Ri L2, blocks = L1 ++ Ri ++ L2
    /\ Forall (fun b => pb_pathidx b < i) L1
    /\ Forall (fun b => pb_pathidx b = i) Ri
    /\ Forall (fun b => i < pb_pathidx b) L2.
Proof.
  induction blocks as [|b blocks IH]; intros lo Hasc.
  - exists [], [], []. repeat split; constructor.
  - simpl in Hasc. destruct Hasc as [Hlo Hasc].
    pose proof (ascending_lower _ _ Hasc) as Hge. rewrite Forall_map in Hge.
    destruct (Z.lt_trichotomy (pb_pathidx b) i) as [Hlt|[Heq|Hgt]].
    + destruct (IH _ Hasc) as (L1 & Ri & L2 & -> & H1 & H2 & H3).
      exists (b :: L1), Ri, L2. repeat split; auto.
    + destruct (IH _ Hasc) as (L1 & Ri & L2 & -> & H1 & H2 & H3).
      assert (HL1 : L1 = []).
      { destruct L1 as [|x L1]; [reflexivity|exfalso].
        inversion H1; subst. inversion Hge; subst. lia. }
      subst L1. exists [], (b :: Ri), L2. repeat split; auto.
    + exists [], [], (b :: blocks). repeat split; try constructor; [lia|].
      eapply Forall_impl; [|exact Hge]. simpl. intros. lia.
Qed.

Lemma remove_untouched_fold_pathidx hash file i blocks :
  forall st, Forall (fun b => pb_pathidx b <> i) blocks -> pathidx st <> i ->
    pathidx (fold_left (remove_untouched_step hash file) blocks st) <> i.
Proof.
  induction blocks as [|b blocks IH]; intros st HF Hst; simpl; [exact Hst|].
  inversion HF; subst. apply IH; [assumption|].
  destruct (remove_untouched_step_emits hash file st b) as (_ & _ & _ & ->).
  assumption.
Qed.

Definition of_path (i : Z) (e : PackBlock) : bool := pb_pathidx e =? i.

Lemma remove_untouched_fold_others hash file i blocks st :
  Forall (fun b => pb_pathidx b <> i) blocks ->
  filter (of_path i)
         (reduced_blocks (fold_left (remove_untouched_step hash file) blocks st))
  = filter (of_path i) (reduced_blocks st).
Proof.
  intros HF.
  destruct (remove_untouched_fold_emits hash file blocks st) as (new & -> & Hnew).
  rewrite filter_app.
  replace (filter (of_path i) new) with (@nil PackBlock); [apply app_nil_r|].
  symmetry. rewrite Forall_forall in HF.
  induction Hnew as [|e new (b & Hb & He) _ IH]; [reflexivity|].
  simpl. unfold of_path at 1. rewrite He.
  destruct (Z.eqb_spec (pb_pathidx b) i) as [Heq|_]; [|exact IH].
  exfalso. exact (HF _ Hb Heq).
Qed.

(** The blocks of a path the hash does not know: the first one leaves the
    marker, the others leave nothing. *)
Lemma remove_untouched_fold_run hash file i b Ri st :
  Forall (fun b => pb_pathidx b = i) (b :: Ri) ->
  maps_of hash file i = None -> pathidx st <> i ->
  let st' := fold_left (remove_untouched_step hash file) (b :: Ri) st in
  reduced_blocks st' = reduced_blocks st ++ [marker_block i] /\ pathidx st' = i.
Proof.
  intros HF Hnone Hst. inversion HF as [|? ? Hb HRi]; subst. cbn [fold_left].
  assert (Hfirst : remove_untouched_step hash file st b
                   = mk_intersect_state (reduced_blocks st ++ [marker_block (pb_pathidx b)])
                                        (maps st) O O (pb_pathidx b)).
  { unfold remove_untouched_step. destruct (Z.eqb_spec (pb_pathidx b) (pathidx st));
      [congruence|]. cbn [negb]. unfold maps_of in Hnone. rewrite Hnone. reflexivity. }
  rewrite Hfirst. clear Hfirst.
  set (st1 := mk_intersect_state _ _ _ _ _).
  assert (Hidle : forall R, Forall (fun x => pb_pathidx x = pb_pathidx b) R ->
            fold_left (remove_untouched_step hash file) R st1 = st1).
  { induction R as [|x R IH]; intros HR; [reflexivity|]. inversion HR; subst.
    cbn [fold_left]. replace (remove_untouched_step hash file st1 x) with st1; [auto|].
    unfold remove_untouched_step. replace (pb_pathidx x =? pathidx st1) with true.
    - cbn [negb]. symmetry. apply intersect_block_idle. reflexivity.
    - symmetry. apply Z.eqb_eq. subst st1. simpl. assumption. }
  cbv zeta. rewrite (Hidle Ri HRi). subst st1. simpl. auto.
Qed.

Lemma remove_untouched_marker_once hash file i L1 b Ri L2 :
  Forall (fun b => pb_pathidx b <> i) L1 ->
  Forall (fun b => pb_pathidx b = i) (b :: Ri) ->
  Forall (fun b => pb_pathidx b <> i) L2 ->
  maps_of hash file i = None -> i <> SIZE_MAX ->
  filter (of_path i)
         (reduced_blocks (fold_left (remove_untouched_step hash file)
                                    (L1 ++ (b :: Ri) ++ L2) intersect_init))
  = [marker_block i].
Proof.
  intros H1 HR H2 Hnone Hi. rewrite !fold_left_app.
  rewrite remove_untouched_fold_others by exact H2.
  set (st1 := fold_left (remove_untouched_step hash file) L1 intersect_init).
  assert (Hst1 : pathidx st1 <> i).
  { apply remove_untouched_fold_pathidx; [exact H1|]. simpl. congruence. }
  destruct (remove_untouched_fold_run hash file i b Ri st1 HR Hnone Hst1) as [-> _].
  rewrite filter_app. subst st1.
  rewrite remove_untouched_fold_others by exact H1.
  simpl. unfold of_path. simpl. rewrite Z.eqb_refl. reflexivity.
Qed.

(** C6. A path with blocks in a pack file the assembler built, whose
    (device, inode) the device hash does not hold, leaves exactly one block
    after the range intersection: the marker [{pathidx, 0, 0, 0}].  All of
    its original blocks are dropped. *)
Theorem opened_not_faulted_leaves_marker
        (sys : system) (force_ssd_mode : bool) (pathnames : list string)
        (hash : device_hash) (file : PackFile) (i : Z) :
  In file (files (trace_add_paths sys force_ssd_mode pathnames)) ->
  Z.of_nat (length (pf_paths file)) <= SIZE_MAX ->
  (exists b, In b (pf_blocks file) /\ pb_pathidx b = i) ->
  maps_of hash file i = None ->
  filter (of_path i) (pf_blocks (remove_untouched_blocks hash file)) = [marker_block i].
Proof.
  intros Hfile Hsize (b & Hb & Hbi) Hnone.
  destruct (trace_add_paths_ok sys force_ssd_mode pathnames) as [Hall _].
  rewrite Forall_forall in Hall. destruct (Hall _ Hfile) as [Hvalid Hgrouped].
  destruct (grouped_split i _ _ Hgrouped) as (L1 & Ri & L2 & Hsplit & H1 & HR & H2).
  unfold pathidx_valid in Hvalid. rewrite Forall_forall in Hvalid.
  pose proof (Hvalid _ Hb) as Hrange.
  assert (HRi : exists b' Ri', Ri = b' :: Ri').
  { destruct Ri as [|b' Ri']; [exfalso|eauto].
    rewrite Hsplit in Hb. simpl in Hb. apply in_app_or in Hb.
    rewrite Forall_forall in H1, H2. destruct Hb as [Hb|Hb].
    - specialize (H1 _ Hb). lia.
    - specialize (H2 _ Hb). lia. }
  destruct HRi as (b' & Ri' & ->).
  unfold remove_untouched_blocks. cbn [pf_blocks]. rewrite Hsplit.
  apply remove_untouched_marker_once; auto.
  - eapply Forall_impl; [|exact H1]. simpl. intros. lia.
  - eapply Forall_impl; [|exact H2]. simpl. intros. lia.
  - lia.
Qed.

(** A system with one resident two-page file on a solid-state device. *)
Definition sample_system : system :=
  mk_system (fun _ => Some (mk_stat 2049 7 8192 Regular))
            (fun _ => Some 3)
            (fun _ => Some (mk_stat 2049 7 8192 Regular))
            (fun _ _ => Some [true; true])
            (fun _ _ _ => None)
            (fun _ => Some 0)
            4096.

Definition sample_file : PackFile :=
  mk_PackFile 2049 false [] [mk_PackPath (-1) 7 "/bin/sh"]
              [mk_PackBlock 0 0 8192 (-1)].

Example sample_assembly :
  files (trace_add_paths sample_system false ["/bin/sh"%string]) = [sample_file].
Proof. vm_compute. reflexivity. Qed.

Lemma opened_not_faulted_leaves_marker_witness :
  In sample_file (files (trace_add_paths sample_system false ["/bin/sh"%string]))
  /\ maps_of empty_device_hash sample_file 0 = None
  /\ filter (of_path 0) (pf_blocks (remove_untouched_blocks empty_device_hash sample_file))
     = [marker_block 0].
Proof.
  assert (Hin : In sample_file
                   (files (trace_add_paths sample_system false ["/bin/sh"%string]))).
  { left. vm_compute. reflexivity. }
  split; [exact Hin|]. split; [reflexivity|].
  apply (opened_not_faulted_leaves_marker sample_system false ["/bin/sh"%string]
           empty_device_hash sample_file 0 Hin).
  - vm_compute. discriminate.
  - exists (mk_PackBlock 0 0 8192 (-1)). split; [left; reflexivity|reflexivity].
  - reflexivity.
Defined.

(** *** Soundness and completeness of the range intersection *)

(** What the locals of the loop hold after the block [prev]. *)
Definition step_inv (hash : device_hash) (file : PackFile)
           (prev : option PackBlock) (st : intersect_state) : Prop :=
  match prev with
  | None => pathidx st = SIZE_MAX
  | Some a =>
      pathidx st = pb_pathidx a
      /\ match maps_of hash file (pb_pathidx a) with
         | None => nr_maps st = O
         | Some M =>
             maps st = M /\ nr_maps st = length M /\ (filemapidx st <= length M)%nat
             /\ cursor_done M (filemapidx st) (pb_offset a) (reduced_blocks st)
                            (pb_pathidx a)
         end
  end.

(** Within the blocks of one path, offsets do not decrease. *)
Definition follows (prev : option PackBlock) (b : PackBlock) : Prop :=
  match prev with
  | Some a => pb_pathidx a = pb_pathidx b -> pb_offset a <= pb_offset b
  | None => True
  end.

Fixpoint offsets_ascend (prev : option PackBlock) (blocks : list PackBlock) : Prop :=
  match blocks with
  | [] => True
  | b :: rest => follows prev b /\ offsets_ascend (Some b) rest
  end.

(** A reduced block of path [p]: the marker when the hash has no ranges
    for [p], else a part of positive length of a block of [p] that lies in
    the pages of one range of [p]. *)
Definition sound_block (hash : device_hash) (file : PackFile) (e : PackBlock) : Prop :=
  (maps_of hash file (pb_pathidx e) = None /\ e = marker_block (pb_pathidx e))
  \/ exists M range,
       maps_of hash file (pb_pathidx e) = Some M /\ In range M
       /\ pb_length e > 0
       /\ fm_start range * PAGE_SIZE <= pb_offset e
       /\ pb_offset e + pb_length e <= fm_end range * PAGE_SIZE.

(** The bytes of [b] in the recorded pages of its path are emitted. *)
Definition complete_block (hash : device_hash) (file : PackFile)
           (red : list PackBlock) (b : PackBlock) : Prop :=
  forall M range x,
    maps_of hash file (pb_pathidx b) = Some M -> In range M ->
    in_block b x -> in_pages range x ->
    emitted_covers red (pb_pathidx b) x.

Lemma remove_untouched_step_spec hash file prev st block :
  step_inv hash file prev st ->
  block_ok block -> pb_pathidx block <> SIZE_MAX ->
  (forall M, maps_of hash file (pb_pathidx block) = Some M -> pages_ok M) ->
  follows prev block ->
  let st' := remove_untouched_step hash file st block in
  step_inv hash file (Some block) st'
  /\ (exists new, reduced_blocks st' = reduced_blocks st ++ new
                  /\ Forall (sound_block hash file) new)
  /\ complete_block hash file (reduced_blocks st') block.
Proof.
  intros Hinv Hb Hidx Hpages Hfollows.
  assert (Hfresh : forall M, maps_of hash file (pb_pathidx block) = Some M ->
            forall st0, reduced_blocks st0 = reduced_blocks st -> maps st0 = M ->
              nr_maps st0 = length M -> (filemapidx st0 <= length M)%nat ->
              pathidx st0 = pb_pathidx block ->
              cursor_done M (filemapidx st0) (pb_offset block) (reduced_blocks st0)
                          (pb_pathidx block)
              \/ (exists lo, lo <= pb_offset block
                             /\ cursor_done M (filemapidx st0) lo (reduced_blocks st0)
                                            (pb_pathidx block)) ->
              let st' := intersect_block st0 block in
              step_inv hash file (Some block) st'
              /\ (exists new, reduced_blocks st' = reduced_blocks st ++ new
                              /\ Forall (sound_block hash file) new)
              /\ complete_block hash file (reduced_blocks st') block).
  { intros M HM st0 Hred Hmaps Hnr Hfi Hp Hdone.
    assert (Hdone' : exists lo, lo <= pb_offset block
                       /\ cursor_done M (filemapidx st0) lo (reduced_blocks st0)
                                      (pb_pathidx block)).
    { destruct Hdone as [H|H]; [exists (pb_offset block); split; [lia|exact H]|exact H]. }
    destruct Hdone' as (lo & Hlo & Hcur).
    destruct (intersect_block_spec M st0 block lo (Hpages M HM) Hb Hmaps Hnr Hfi Hp
                Hlo Hcur) as (H1 & H2 & H3 & H4 & (new & H5 & H6) & H7 & H8).
    cbv zeta. split; [|split].
    - simpl. split; [exact H4|]. rewrite HM. auto.
    - exists new. split; [rewrite H5, Hred; reflexivity|].
      eapply Forall_impl; [|exact H6]. simpl. intros e (k & Hk & He & Hpos).
      right. destruct (pages_ok_entry M k (Hpages M HM) Hk) as (E0 & E1 & E2).
      destruct (reduced_block_spec block (map_at M k) Hb E0 E1 E2) as (P & O & L).
      rewrite <- He in P, O, L. exists M, (map_at M k).
      rewrite P. split; [exact HM|]. split; [now apply nth_In|].
      split; [exact Hpos|]. rewrite L, O. lia.
    - intros M' range x HM' Hrange Hxb Hxr.
      rewrite HM in HM'. inversion HM'; subst M'.
      destruct (In_nth _ _ start_mark Hrange) as (k & Hk & <-).
      apply (H8 k x Hk Hxb Hxr). }
  unfold remove_untouched_step.
  destruct (Z.eqb_spec (pb_pathidx block) (pathidx st)) as [Hsame|Hdiff]; cbn [negb].
  - (* a further block of the current path *)
    destruct prev as [a|]; [|simpl in Hinv; congruence].
    destruct Hinv as [Hpa Hinv]. rewrite <- Hpa, <- Hsame in Hinv.
    destruct (maps_of hash file (pb_pathidx block)) as [M|] eqn:HM.
    + destruct Hinv as (I1 & I2 & I3 & I4).
      apply (Hfresh M eq_refl st); auto.
      right. exists (pb_offset a). split; [|exact I4].
      apply Hfollows. congruence.
    + rewrite intersect_block_idle by exact Hinv.
      cbv zeta. split; [|split].
      * simpl. split; [congruence|]. rewrite HM. exact Hinv.
      * exists []. split; [symmetry; apply app_nil_r|constructor].
      * intros M range x HM'. congruence.
  - (* the first block of another path *)
    fold (maps_of hash file (pb_pathidx block)).
    destruct (maps_of hash file (pb_pathidx block)) as [M|] eqn:HM.
    + apply (Hfresh M eq_refl); auto; try reflexivity.
      * simpl. lia.
      * left. intros k x Hk. simpl in Hk. lia.
    + cbv zeta. split; [|split].
      * simpl. split; [reflexivity|]. rewrite HM. reflexivity.
      * exists [marker_block (pb_pathidx block)]. split; [reflexivity|].
        constructor; [|constructor]. left. simpl. auto.
      * intros M range x HM'. congruence.
Qed.

Lemma complete_block_incl hash file red red' b :
  incl red red' -> complete_block hash file red b -> complete_block hash file red' b.
Proof.
  intros Hi Hc M range x HM Hr Hb Hp. eapply emitted_covers_incl; [exact Hi|].
  exact (Hc M range x HM Hr Hb Hp).
Qed.

Lemma remove_untouched_fold_spec hash file blocks :
  forall prev st,
    step_inv hash file prev st ->
    Forall block_ok blocks ->
    Forall (fun b => pb_pathidx b <> SIZE_MAX) blocks ->
    (forall b M, In b blocks -> maps_of hash file (pb_pathidx b) = Some M -> pages_ok M) ->
    offsets_ascend prev blocks ->
    let st' := fold_left (remove_untouched_step hash file) blocks st in
    (exists new, reduced_blocks st' = reduced_blocks st ++ new
                 /\ Forall (sound_block hash file) new)
    /\ Forall (complete_block hash file (reduced_blocks st')) blocks.
Proof.
  induction blocks as [|b blocks IH]; intros prev st Hinv Hok Hidx Hpages Hasc.
  - simpl. split; [|constructor].
    exists []. split; [symmetry; apply app_nil_r|constructor].
  - inversion Hok as [|? ? Hb Hok']; subst. inversion Hidx as [|? ? Hi Hidx']; subst.
    destruct Hasc as [Hf Hasc].
    destruct (remove_untouched_step_spec hash file prev st b Hinv Hb Hi
                (fun M => Hpages b M (or_introl eq_refl)) Hf)
      as (Hinv1 & (new1 & Hnew1 & Hs1) & Hc1).
    destruct (IH (Some b) (remove_untouched_step hash file st b) Hinv1 Hok' Hidx'
                (fun b' M Hin => Hpages b' M (or_intror Hin)) Hasc)
      as ((new2 & Hnew2 & Hs2) & Hc2).
    cbn [fold_left]. cbv zeta. split.
    + exists (new1 ++ new2). split.
      * rewrite Hnew2, Hnew1, app_assoc. reflexivity.
      * apply Forall_app. auto.
    + constructor; [|exact Hc2].
      eapply complete_block_incl; [|exact Hc1].
      rewrite Hnew2. apply incl_appl, incl_refl.
Qed.

(** C3.  [remove_untouched_blocks] is handed a pack file as the assembler
    leaves it and the device hash as [trace_add_file_map] leaves it: the
    blocks name paths of the file and are byte ranges of an [off_t], the
    blocks of one path follow each other in ascending offset order, and a
    range array of the hash satisfies the invariant of the range index.
    For such a file whose paths all have their inode in the device hash,
    after the range intersection every block lies, with positive length,
    within the pages of one range recorded for the inode of its path, and
    every byte of an original block that lies in a recorded range of its
    path's inode lies in an emitted block of that path. *)
Theorem remove_untouched_blocks_exact (hash : device_hash) (file : PackFile) :
  pathidx_valid file ->
  Z.of_nat (length (pf_paths file)) <= SIZE_MAX ->
  Forall block_ok (pf_blocks file) ->
  (forall b, In b (pf_blocks file) ->
             exists M, maps_of hash file (pb_pathidx b) = Some M /\ pages_ok M) ->
  offsets_ascend None (pf_blocks file) ->
  let out := pf_blocks (remove_untouched_blocks hash file) in
  (forall e, In e out ->
     exists M range,
       maps_of hash file (pb_pathidx e) = Some M /\ In range M
       /\ pb_length e > 0
       /\ fm_start range * PAGE_SIZE <= pb_offset e
       /\ pb_offset e + pb_length e <= fm_end range * PAGE_SIZE)
  /\ (forall b x M range,
        In b (pf_blocks file) -> in_block b x ->
        maps_of hash file (pb_pathidx b) = Some M -> In range M -> in_pages range x ->
        exists e, In e out /\ pb_pathidx e = pb_pathidx b /\ in_block e x).
Proof.
  intros Hvalid Hsize Hok Hpresent Hasc out.
  unfold pathidx_valid in Hvalid.
  assert (Hidx : Forall (fun b => pb_pathidx b <> SIZE_MAX) (pf_blocks file)).
  { eapply Forall_impl; [|exact Hvalid]. simpl. intros b Hb. lia. }
  assert (Hpages : forall b M, In b (pf_blocks file) ->
             maps_of hash file (pb_pathidx b) = Some M -> pages_ok M).
  { intros b M Hb HM. destruct (Hpresent b Hb) as (M' & HM' & Hp). congruence. }
  destruct (remove_untouched_fold_spec hash file (pf_blocks file) None intersect_init
              eq_refl Hok Hidx Hpages Hasc) as ((new & Hnew & Hsound) & Hcomplete).
  destruct (remove_untouched_fold_emits hash file (pf_blocks file) intersect_init)
    as (new' & Hnew' & Hfrom).
  assert (new' = new) by (rewrite Hnew in Hnew'; simpl in Hnew'; congruence). subst new'.
  assert (Hout : out = new).
  { subst out. unfold remove_untouched_blocks. cbn [pf_blocks]. rewrite Hnew. reflexivity. }
  rewrite Hout. split.
  - intros e He. rewrite Forall_forall in Hsound, Hfrom.
    destruct (Hsound e He) as [[Hnone _]|H]; [exfalso|exact H].
    destruct (Hfrom e He) as (b & Hb & Hp). rewrite Hp in Hnone.
    destruct (Hpresent b Hb) as (M & HM & _). congruence.
  - intros b x M range Hb Hx HM Hr Hp. rewrite Forall_forall in Hcomplete.
    specialize (Hcomplete b Hb M range x HM Hr Hx Hp).
    rewrite Hnew in Hcomplete. exact Hcomplete.
Qed.

(** The hash and the file of [test_remove_untouched_blocks]. *)
Definition test_hash : device_hash :=
  fold_left (fun h c => trace_add_file_map h (makedev 8 0) 1 (fst c) (snd c))
            [(13, 18); (22, 23); (32, 45); (52, 53); (56, 57); (62, 62); (69, 69)]
            empty_device_hash.

Definition test_file : PackFile :=
  mk_PackFile (makedev 8 0) false []
    [mk_PackPath 0 1 EmptyString; mk_PackPath 0 2 EmptyString]
    [page_block 0 13 5; page_block 0 20 5; page_block 0 33 5;
     page_block 0 43 5; page_block 0 53 5; page_block 0 63 5].

Lemma remove_untouched_blocks_exact_witness :
  maps_of test_hash test_file 0
  = Some [mk_file_map 13 19; mk_file_map 22 24; mk_file_map 32 46; mk_file_map 52 54;
          mk_file_map 56 58; mk_file_map 62 63; mk_file_map 69 70]
  /\ offsets_ascend None (pf_blocks test_file)
  /\ let out := pf_blocks (remove_untouched_blocks test_hash test_file) in
     (forall e, In e out ->
        exists M range,
          maps_of test_hash test_file (pb_pathidx e) = Some M /\ In range M
          /\ pb_length e > 0
          /\ fm_start range * PAGE_SIZE <= pb_offset e
          /\ pb_offset e + pb_length e <= fm_end range * PAGE_SIZE)
     /\ (forall b x M range,
           In b (pf_blocks test_file) -> in_block b x ->
           maps_of test_hash test_file (pb_pathidx b) = Some M -> In range M ->
           in_pages range x ->
           exists e, In e out /\ pb_pathidx e = pb_pathidx b /\ in_block e x).
Proof.
  assert (HM : maps_of test_hash test_file 0
               = Some [mk_file_map 13 19; mk_file_map 22 24; mk_file_map 32 46;
                       mk_file_map 52 54; mk_file_map 56 58; mk_file_map 62 63;
                       mk_file_map 69 70]).
  { vm_compute. reflexivity. }
  assert (Hasc : offsets_ascend None (pf_blocks test_file)).
  { simpl. repeat split; intros _; vm_compute; discriminate. }
  split; [exact HM|]. split; [exact Hasc|].
  apply (remove_untouched_blocks_exact test_hash test_file).
  - repeat constructor; simpl; lia.
  - vm_compute. discriminate.
  - repeat constructor; vm_compute; discriminate.
  - intros b Hb. eexists. split.
    + simpl in Hb.
      repeat (destruct Hb as [<-|Hb]; [exact HM|]). destruct Hb.
    + split.
      * unfold range_array_ok. simpl. unfold OFF_MAX. lia.
      * repeat constructor; vm_compute; discriminate.
  - exact Hasc.
Defined.

(** A file built by hand: two blocks of one path in descending offset
    order, both accessed. *)
Definition unordered_hash : device_hash :=
  fold_left (fun h c => trace_add_file_map h (makedev 8 0) 1 (fst c) (snd c))
            [(0, 0); (10, 10)] empty_device_hash.

Definition unordered_file : PackFile :=
  mk_PackFile (makedev 8 0) false [] [mk_PackPath (-1) 1 "/f"]
              [page_block 0 10 1; page_block 0 0 1].

(** The loop relies on the order in which the assembler appends the
    blocks.  In this file, built by hand and not by the assembler, the
    second block of the path lies before the first: byte 0 lies in it and
    in the recorded range [[0, 1)], and no emitted block holds it. *)
Lemma remove_untouched_blocks_unordered :
  maps_of unordered_hash unordered_file 0 = Some [mk_file_map 0 1; mk_file_map 10 11]
  /\ pathidx_valid unordered_file
  /\ ~ (forall b x M range,
          In b (pf_blocks unordered_file) -> in_block b x ->
          maps_of unordered_hash unordered_file (pb_pathidx b) = Some M ->
          In range M -> in_pages range x ->
          exists e, In e (pf_blocks (remove_untouched_blocks unordered_hash unordered_file))
                    /\ pb_pathidx e = pb_pathidx b /\ in_block e x).
Proof.
  assert (HM : maps_of unordered_hash unordered_file 0
               = Some [mk_file_map 0 1; mk_file_map 10 11]).
  { vm_compute. reflexivity. }
  split; [exact HM|]. split.
  - repeat constructor; simpl; lia.
  - intros H.
    destruct (H (page_block 0 0 1) 0 [mk_file_map 0 1; mk_file_map 10 11]
                (mk_file_map 0 1) (or_intror (or_introl eq_refl)))
      as (e & He & _ & Hx).
    + vm_compute. split; [discriminate|reflexivity].
    + exact HM.
    + left. reflexivity.
    + vm_compute. split; [discriminate|reflexivity].
    + assert (Hout : pf_blocks (remove_untouched_blocks unordered_hash unordered_file)
                     = [mk_PackBlock 0 40960 4096 0]).
      { vm_compute. reflexivity. }
      rewrite Hout in He. destruct He as [<-|[]].
      unfold in_block in Hx. simpl in Hx. lia.
Qed.

(** ** The sorts *)

Lemma merge_runs_perm {A : Type} (compar : A -> A -> Z) (b1 : list A) :
  forall b2, Permutation (merge_runs compar b1 b2) (b1 ++ b2).
Proof.
  induction b1 as [|x1 rest1 IH1]; intros b2.
  - destruct b2; simpl; apply Permutation_refl.
  - induction b2 as [|x2 rest2 IH2].
    + simpl. rewrite app_nil_r. apply Permutation_refl.
    + cbn [merge_runs]. destruct (compar x1 x2 <=? 0).
      * simpl. apply perm_skip. apply IH1.
      * apply Permutation_trans with (x2 :: (x1 :: rest1) ++ rest2).
        -- apply perm_skip. exact IH2.
        -- apply (Permutation_middle (x1 :: rest1) rest2 x2).
Qed.

Lemma msort_with_tmp_perm {A : Type} (compar : A -> A -> Z) :
  forall fuel b, Permutation (msort_with_tmp fuel compar b) b.
Proof.
  induction fuel as [|fuel IH]; intros b; cbn [msort_with_tmp];
    [apply Permutation_refl|].
  destruct (length b <=? 1)%nat; [apply Permutation_refl|].
  eapply Permutation_trans; [apply merge_runs_perm|].
  apply Permutation_trans
    with (firstn (length b / 2) b ++ skipn (length b / 2) b).
  - apply Permutation_app; apply IH.
  - rewrite firstn_skipn. apply Permutation_refl.
Qed.

Lemma qsort_perm {A : Type} (compar : A -> A -> Z) (base : list A) :
  Permutation (qsort compar base) base.
Proof. apply msort_with_tmp_perm. Qed.

Lemma trace_sort_blocks_valid file :
  pathidx_valid file -> pathidx_valid (trace_sort_blocks file).
Proof.
  unfold pathidx_valid, trace_sort_blocks. cbn [pf_paths pf_blocks]. intros H.
  eapply Permutation_Forall; [apply Permutation_sym, qsort_perm|exact H].
Qed.

Lemma trace_add_groups_valid fs file :
  pathidx_valid file -> pathidx_valid (trace_add_groups fs file).
Proof.
  unfold pathidx_valid, trace_add_groups. destruct fs as [fs|]; [|auto].
  cbn [pf_paths pf_blocks]. rewrite length_map. auto.
Qed.

(** *** Scattering into an array *)

Section Scatter.
Context {A : Type}.
Variable idx : nat -> nat.
Variable val : nat -> A.

Lemma fold_store_length (L : list nat) :
  forall a, length (fold_left (fun a i => store a (idx i) (val i)) L a) = length a.
Proof.
  induction L as [|i L IH]; intros a; simpl; [reflexivity|].
  rewrite IH. apply store_length.
Qed.

Lemma fold_store_untouched (L : list nat) k d :
  (forall i, In i L -> idx i <> k) ->
  forall a, nth k (fold_left (fun a i => store a (idx i) (val i)) L a) d = nth k a d.
Proof.
  induction L as [|i L IH]; intros Hk a; simpl; [reflexivity|].
  rewrite IH by (intros j Hj; apply Hk; right; exact Hj).
  rewrite nth_store. destruct (Nat.eqb_spec k (idx i)) as [He|_]; [|reflexivity].
  exfalso. apply (Hk i); [left; reflexivity|auto].
Qed.

(** Cells written once keep what was written. *)
Lemma fold_store_written (L : list nat) d :
  NoDup (map idx L) ->
  forall a i, In i L -> (idx i < length a)%nat ->
    nth (idx i) (fold_left (fun a i => store a (idx i) (val i)) L a) d = val i.
Proof.
  induction L as [|j L IH]; intros Hnd a i Hi Hlen; [destruct Hi|].
  simpl in Hnd. inversion Hnd as [|? ? Hnot Hnd']; subst. simpl.
  destruct Hi as [->|Hi].
  - rewrite fold_store_untouched.
    + rewrite nth_store, Nat.eqb_refl.
      destruct (Nat.ltb_spec (idx i) (length a)); [reflexivity|lia].
    + intros k Hk He. apply Hnot. rewrite <- He. apply in_map. exact Hk.
  - apply IH; auto. rewrite store_length. exact Hlen.
Qed.
End Scatter.

Lemma map_nth_seq {A : Type} (l : list A) d :
  map (fun i => nth i l d) (seq 0 (length l)) = l.
Proof.
  induction l as [|x l IH]; [reflexivity|].
  simpl length. rewrite <- cons_seq, <- seq_shift. simpl. rewrite map_map.
  f_equal. exact IH.
Qed.

(** *** [trace_sort_paths] for any order [qsort] may leave

    [sorted] is the array of path pointers after the sort: a permutation
    of the indices. *)
Section SortPaths.
Variable paths : list PackPath.
Variable sorted : list nat.
Hypothesis sorted_perm : Permutation sorted (seq 0 (length paths)).

Let n := length paths.
Let new_idx :=
  scatter n (fun i => nth i sorted O) (fun i => i) (repeat O n).
Let new_paths :=
  scatter n (fun i => nth i new_idx O) (fun i => nth i paths no_path)
          (repeat no_path n).

Lemma sorted_length : length sorted = n.
Proof.
  rewrite (Permutation_length sorted_perm). apply length_seq.
Qed.

Lemma sorted_entries i : (i < n)%nat -> (nth i sorted O < n)%nat.
Proof.
  intros Hi. assert (Hin : In (nth i sorted O) sorted).
  { apply nth_In. rewrite sorted_length. exact Hi. }
  apply (Permutation_in _ sorted_perm) in Hin. apply in_seq in Hin. unfold n. lia.
Qed.

Lemma sorted_NoDup : NoDup sorted.
Proof.
  apply (Permutation_NoDup (Permutation_sym sorted_perm)). apply seq_NoDup.
Qed.

Lemma new_idx_length : length new_idx = n.
Proof.
  unfold new_idx, scatter. rewrite fold_store_length. apply repeat_length.
Qed.

(** [new_idx[paths[i] - file->paths] = i] holds after the loop. *)
Lemma new_idx_of_sorted i : (i < n)%nat -> nth (nth i sorted O) new_idx O = i.
Proof.
  intros Hi. unfold new_idx, scatter.
  apply (fold_store_written (fun i => nth i sorted O) (fun i => i)).
  - replace n with (length sorted) by apply sorted_length.
    rewrite map_nth_seq. apply sorted_NoDup.
  - apply in_seq. lia.
  - rewrite repeat_length. now apply sorted_entries.
Qed.

(** Every cell of [new_idx] is written: [j] is the place of some pointer. *)
Lemma new_idx_inverse j :
  (j < n)%nat -> exists i, (i < n)%nat /\ nth i sorted O = j /\ nth j new_idx O = i.
Proof.
  intros Hj. assert (Hin : In j sorted).
  { apply (Permutation_in _ (Permutation_sym sorted_perm)). apply in_seq. unfold n in Hj. lia. }
  destruct (In_nth _ _ O Hin) as (i & Hi & He). rewrite sorted_length in Hi.
  exists i. repeat split; auto. rewrite <- He. now apply new_idx_of_sorted.
Qed.

Lemma new_idx_entries j : (j < n)%nat -> (nth j new_idx O < n)%nat.
Proof.
  intros Hj. destruct (new_idx_inverse j Hj) as (i & Hi & _ & ->). exact Hi.
Qed.

Lemma new_idx_NoDup : NoDup new_idx.
Proof.
  apply (NoDup_nth new_idx O). rewrite new_idx_length. intros j1 j2 H1 H2 He.
  destruct (new_idx_inverse j1 H1) as (i1 & _ & E1 & F1).
  destruct (new_idx_inverse j2 H2) as (i2 & _ & E2 & F2). congruence.
Qed.

Lemma new_paths_length : length new_paths = n.
Proof.
  unfold new_paths, scatter. rewrite fold_store_length. apply repeat_length.
Qed.

(** The rewritten index of a path names that path in the new array. *)
Lemma new_paths_of_new_idx p :
  (p < n)%nat -> nth (nth p new_idx O) new_paths no_path = nth p paths no_path.
Proof.
  intros Hp. unfold new_paths, scatter.
  apply (fold_store_written (fun i => nth i new_idx O) (fun i => nth i paths no_path)).
  - replace n with (length new_idx) by apply new_idx_length.
    rewrite map_nth_seq. apply new_idx_NoDup.
  - apply in_seq. lia.
  - rewrite repeat_length. now apply new_idx_entries.
Qed.
End SortPaths.

(** The order [trace_sort_paths] gets from [qsort]. *)
Definition sorted_pointers (file : PackFile) : list nat :=
  qsort (fun a b => path_compar (nth a (pf_paths file) no_path)
                                (nth b (pf_paths file) no_path))
        (seq 0 (length (pf_paths file))).

Lemma sorted_pointers_perm file :
  Permutation (sorted_pointers file) (seq 0 (length (pf_paths file))).
Proof. apply qsort_perm. Qed.

Lemma trace_sort_paths_valid file :
  pathidx_valid file -> pathidx_valid (trace_sort_paths file).
Proof.
  unfold pathidx_valid, trace_sort_paths. cbn [pf_paths pf_blocks]. intros H.
  fold (sorted_pointers file).
  rewrite (new_paths_length (pf_paths file) (sorted_pointers file)).
  rewrite Forall_map. eapply Forall_impl; [|exact H]. cbn [pb_pathidx].
  intros b Hb.
  pose proof (new_idx_entries (pf_paths file) (sorted_pointers file)
                (sorted_pointers_perm file) (Z.to_nat (pb_pathidx b)) ltac:(lia)).
  lia.
Qed.

(** After the path sort every block names the path it named before. *)
Lemma trace_sort_paths_same_path file :
  pathidx_valid file ->
  Forall2 (fun b b' =>
             path_at (trace_sort_paths file) (pb_pathidx b') = path_at file (pb_pathidx b)
             /\ pb_offset b' = pb_offset b /\ pb_length b' = pb_length b
             /\ pb_physical b' = pb_physical b)
          (pf_blocks file) (pf_blocks (trace_sort_paths file)).
Proof.
  unfold pathidx_valid, trace_sort_paths, path_at. cbn [pf_paths pf_blocks].
  fold (sorted_pointers file). intros H.
  induction H as [|b blocks Hb _ IH]; simpl; constructor; [|exact IH].
  cbn [pb_pathidx pb_offset pb_length pb_physical]. repeat split.
  rewrite Nat2Z.id.
  apply (new_paths_of_new_idx (pf_paths file) (sorted_pointers file)
           (sorted_pointers_perm file)). lia.
Qed.

(** ** Every stage of a pack file *)

(** The pack files of the pipeline: those [trace_add_path] has built so
    far, and what the range intersection, the group list, the block sort
    and the path sort make of a pack file. *)
Inductive stage : PackFile -> Prop :=
| stage_assembled sys force_ssd_mode pathnames file :
    In file (files (trace_add_paths sys force_ssd_mode pathnames)) -> stage file
| stage_remove_untouched_blocks hash file :
    stage file -> stage (remove_untouched_blocks hash file)
| stage_add_groups fs file :
    stage file -> stage (trace_add_groups fs file)
| stage_sort_blocks file :
    stage file -> stage (trace_sort_blocks file)
| stage_sort_paths file :
    stage file -> stage (trace_sort_paths file).

(** C7. At every stage of assembly and post-processing, before and after
    the block sort and the path sort, every block's [pathidx] is smaller
    than the number of entries of [paths]. *)
Theorem pathidx_valid_at_every_stage (file : PackFile) :
  stage file ->
  forall b, In b (pf_blocks file) ->
            0 <= pb_pathidx b < Z.of_nat (length (pf_paths file)).
Proof.
  intros Hstage. apply Forall_forall. fold (pathidx_valid file).
  induction Hstage as [sys force_ssd_mode pathnames file Hin
                      |hash file _ IH|fs file _ IH|file _ IH|file _ IH].
  - destruct (trace_add_paths_ok sys force_ssd_mode pathnames) as [Hall _].
    rewrite Forall_forall in Hall. exact (proj1 (Hall _ Hin)).
  - now apply remove_untouched_blocks_valid.
  - now apply trace_add_groups_valid.
  - now apply trace_sort_blocks_valid.
  - now apply trace_sort_paths_valid.
Qed.

(** The sample file on a rotational device, through all stages. *)
Definition rotational_system : system :=
  mk_system (fun _ => Some (mk_stat 2049 7 8192 Regular))
            (fun _ => Some 3)
            (fun _ => Some (mk_stat 2049 7 8192 Regular))
            (fun _ _ => Some [true; true])
            (fun _ o l => Some [mk_fiemap_extent 0 4096 1048576 0;
                                mk_fiemap_extent 4096 4096 524288 0])
            (fun _ => Some 1)
            4096.

Lemma pathidx_valid_at_every_stage_witness :
  let file0 :=
    nth 0 (files (trace_add_paths rotational_system false ["/bin/sh"%string])) no_file in
  let file := trace_sort_paths
                (trace_sort_blocks
                   (trace_add_groups None (remove_untouched_blocks test_hash file0))) in
  stage file
  /\ forall b, In b (pf_blocks file) ->
               0 <= pb_pathidx b < Z.of_nat (length (pf_paths file)).
Proof.
  cbv zeta.
  assert (Hstage : stage (trace_sort_paths
                            (trace_sort_blocks
                               (trace_add_groups None
                                  (remove_untouched_blocks test_hash
                                     (nth 0 (files (trace_add_paths rotational_system false
                                                      ["/bin/sh"%string])) no_file)))))).
  { apply stage_sort_paths, stage_sort_blocks, stage_add_groups,
      stage_remove_untouched_blocks.
    apply (stage_assembled rotational_system false ["/bin/sh"%string]).
    left. vm_compute. reflexivity. }
  split; [exact Hstage|].
  apply (pathidx_valid_at_every_stage _ Hstage).
Defined.

(** *** The order of the paths *)

(** [a] stands before [b], or ties with it, in the lexicographic order of
    [(group, ino, path)]. *)
Definition path_key_le (a b : PackPath) : Prop :=
  pp_group a < pp_group b
  \/ (pp_group a = pp_group b
      /\ (pp_ino a < pp_ino b
          \/ (pp_ino a = pp_ino b /\ strcmp (pp_path a) (pp_path b) <= 0))).

Definition paths_ordered (paths : list PackPath) : Prop :=
  forall i j, (i < j < length paths)%nat ->
              path_key_le (nth i paths no_path) (nth j paths no_path).

(** Two paths of one group, opened in the order [/a] (inode 5), [/b]
    (inode 3). *)
Definition two_inodes_file : PackFile :=
  mk_PackFile 2049 true []
              [mk_PackPath (-1) 5 "/a"; mk_PackPath (-1) 3 "/b"]
              [mk_PackBlock 0 0 4096 100; mk_PackBlock 1 0 4096 50].

(** C4 (the code departs from it).  [path_compar] compares the inode of
    its second argument with itself, so for two paths of one group with
    [path_a->ino > path_b->ino] it falls through to [strcmp]: it answers
    "less" for [(/a, /b)] and for [(/b, /a)], and [trace_sort_paths] leaves
    inode 5 before inode 3.  The paths are not ordered by
    [(group, ino, path)]. *)
Theorem trace_sort_paths_not_ordered :
  path_compar (mk_PackPath (-1) 5 "/a") (mk_PackPath (-1) 3 "/b") = -1
  /\ path_compar (mk_PackPath (-1) 3 "/b") (mk_PackPath (-1) 5 "/a") = -1
  /\ pf_paths (trace_sort_paths two_inodes_file)
     = [mk_PackPath (-1) 5 "/a"; mk_PackPath (-1) 3 "/b"]
  /\ ~ paths_ordered (pf_paths (trace_sort_paths two_inodes_file)).
Proof.
  assert (Hout : pf_paths (trace_sort_paths two_inodes_file)
                 = [mk_PackPath (-1) 5 "/a"; mk_PackPath (-1) 3 "/b"]).
  { vm_compute. reflexivity. }
  repeat split; try exact Hout; try (vm_compute; reflexivity).
  intros H. rewrite Hout in H. specialize (H O 1%nat ltac:(simpl; lia)).
  unfold path_key_le in H. simpl in H. lia.
Qed.

(** ** Path normalization *)

(** A character of a path component: neither ['/'] nor the terminator. *)
Definition plain_char (c : ascii) : Prop := c <> "/"%char /\ c <> NUL.
Definition plain (w : list ascii) : Prop := Forall plain_char w.

(** The pieces of a path joined, each behind a ['/']. *)
Definition join_slash (comps : list (list ascii)) : list ascii :=
  concat (map (fun c => "/"%char :: c) comps).

Lemma split_slash_join s :
  s = fst (split_slash s) ++ join_slash (snd (split_slash s)).
Proof.
  induction s as [|c rest IH]; [reflexivity|]. simpl.
  destruct (split_slash rest) as [first others]. simpl in IH.
  destruct (Ascii.eqb_spec c "/") as [->|Hne]; simpl; rewrite IH; reflexivity.
Qed.

Lemma split_slash_plain s :
  Forall (fun c => c <> NUL) s ->
  plain (fst (split_slash s)) /\ Forall plain (snd (split_slash s)).
Proof.
  induction s as [|c rest IH]; intros Hs; [split; constructor|].
  inversion Hs as [|? ? Hc Hrest]; subst. specialize (IH Hrest). simpl.
  destruct (split_slash rest) as [first others]. simpl in IH. destruct IH as [IH1 IH2].
  destruct (Ascii.eqb_spec c "/") as [->|Hne]; simpl.
  - split; [constructor|constructor; assumption].
  - split; [constructor; [split; assumption|assumption]|assumption].
Qed.

Lemma char_at_app_r D X p : char_at (D ++ X) (length D + p) = char_at X p.
Proof.
  unfold char_at. rewrite app_nth2 by lia. f_equal. lia.
Qed.

Lemma char_at_end D x X : char_at (D ++ x :: X) (length D) = x.
Proof. unfold char_at. apply nth_middle. Qed.

Lemma char_at_length s : char_at s (length s) = NUL.
Proof. unfold char_at. apply nth_overflow. lia. Qed.

(** A suffix of the buffer that is empty or starts with ['/']. *)
Definition at_slash (R : list ascii) : Prop :=
  R = [] \/ exists R', R = "/"%char :: R'.

Lemma at_slash_join comps : at_slash (join_slash comps).
Proof. destruct comps; [left|right; eexists]; reflexivity. Qed.

Lemma strcspn_component c R :
  plain c -> at_slash R -> strcspn_slash (c ++ R) = length c.
Proof.
  intros Hc HR. induction Hc as [|x c [Hx _] _ IH]; simpl.
  - destruct HR as [->|(R' & ->)]; reflexivity.
  - destruct (Ascii.eqb_spec x "/"); [contradiction|]. now rewrite IH.
Qed.

(** Walking back over plain characters does not stop. *)
Lemma find_root_skip w :
  plain w -> forall pre X,
    find_root (pre ++ w ++ X) (length pre + length w) = find_root (pre ++ w ++ X) (length pre).
Proof.
  induction w as [|x w IH] using rev_ind; intros Hw pre X.
  - simpl. rewrite Nat.add_0_r. reflexivity.
  - apply Forall_app in Hw. destruct Hw as [Hw Hx]. inversion Hx as [|? ? [Hx1 _] _]; subst.
    rewrite length_app. simpl length.
    replace (length pre + (length w + 1))%nat with (S (length pre + length w)) by lia.
    cbn [find_root].
    replace (pre ++ (w ++ [x]) ++ X) with ((pre ++ w) ++ x :: X)
      by (rewrite <- !app_assoc; reflexivity).
    replace (length pre + length w)%nat with (length (pre ++ w)) by apply length_app.
    rewrite char_at_end. destruct (Ascii.eqb_spec x "/"); [contradiction|].
    replace ((pre ++ w) ++ x :: X) with (pre ++ w ++ x :: X)
      by (rewrite <- !app_assoc; reflexivity).
    rewrite length_app. apply IH. exact Hw.
Qed.

Lemma find_root_plain w X : plain w -> find_root (w ++ X) (length w) = O.
Proof.
  intros Hw. apply (find_root_skip w Hw [] X).
Qed.

Lemma find_root_component D top X :
  plain top ->
  find_root ((D ++ "/"%char :: top) ++ X) (length (D ++ "/"%char :: top)) = length D.
Proof.
  intros Hw.
  replace ((D ++ "/"%char :: top) ++ X) with ((D ++ ["/"%char]) ++ top ++ X)
    by (rewrite <- !app_assoc; reflexivity).
  replace (length (D ++ "/"%char :: top))
    with (length (D ++ ["/"%char]) + length top)%nat
    by (rewrite !length_app; simpl; lia).
  rewrite find_root_skip by exact Hw.
  rewrite length_app. simpl length.
  replace (length D + 1)%nat with (S (length D)) by lia. cbn [find_root].
  replace ((D ++ ["/"%char]) ++ top ++ X) with (D ++ "/"%char :: top ++ X)
    by (rewrite <- !app_assoc; reflexivity).
  rewrite char_at_end. reflexivity.
Qed.

(** The loop steps over the plain characters of a piece. *)
Lemma fix_path_loop_advance w :
  plain w -> forall D X fuel,
    fix_path_loop (length w + fuel) (D ++ w ++ X) (length D)
    = fix_path_loop fuel (D ++ w ++ X) (length D + length w).
Proof.
  induction w as [|x w IH]; intros Hw D X fuel.
  - simpl. rewrite Nat.add_0_r. reflexivity.
  - inversion Hw as [|? ? [Hx1 Hx2] Hw']; subst.
    simpl length. cbn [Nat.add fix_path_loop]. simpl app.
    rewrite char_at_end. destruct (Ascii.eqb_spec x NUL); [contradiction|].
    unfold fix_path_turn. rewrite char_at_end.
    destruct (Ascii.eqb_spec x "/"); [contradiction|]. cbn [negb].
    replace (D ++ x :: w ++ X) with ((D ++ [x]) ++ w ++ X)
      by (rewrite <- !app_assoc; reflexivity).
    replace (S (length D)) with (length (D ++ [x])) by (rewrite length_app; simpl; lia).
    rewrite IH by exact Hw'. f_equal. rewrite length_app. simpl. lia.
Qed.

(** A piece that normalization keeps. *)
Definition kept (c : list ascii) : Prop :=
  plain c /\ c <> [] /\ is_dot c = false /\ is_dotdot c = false.

Definition state_ok (st : normal_state) : Prop :=
  plain (fst st) /\ Forall kept (snd st).

Lemma render_push head stack c :
  render (head, c :: stack) = render (head, stack) ++ "/"%char :: c.
Proof.
  unfold render. simpl. rewrite map_app, concat_app. simpl.
  rewrite app_nil_r, app_assoc. reflexivity.
Qed.

Lemma component_step_ok st c : state_ok st -> plain c -> state_ok (component_step st c).
Proof.
  intros [Hh Hs] Hc. unfold component_step.
  destruct c as [|x c']; [split; assumption|].
  destruct (is_dot (x :: c')) eqn:Hdot; [split; assumption|].
  destruct (is_dotdot (x :: c')) eqn:Hdd.
  - destruct (snd st) as [|top below] eqn:Hst.
    + split; constructor.
    + split; [exact Hh|]. simpl. inversion Hs; assumption.
  - split; [exact Hh|]. simpl. constructor; [|exact Hs].
    repeat split; auto. discriminate.
Qed.

(** The buffer around the pointer when it stands on the ['/'] in front of
    piece [c]. *)
Section AtComponent.
Variables (D c R' : list ascii).
Hypothesis c_plain : plain c.
Hypothesis R'_at_slash : at_slash R'.

Let s := D ++ "/"%char :: c ++ R'.

Lemma at_component_char : char_at s (length D) = "/"%char.
Proof. apply char_at_end. Qed.

Lemma at_component_len : strcspn_slash (skipn (S (length D)) s) = length c.
Proof.
  unfold s. replace (D ++ "/"%char :: c ++ R') with ((D ++ ["/"%char]) ++ c ++ R')
    by (rewrite <- !app_assoc; reflexivity).
  rewrite skipn_prefix by (rewrite length_app; simpl; lia).
  now apply strcspn_component.
Qed.

Lemma at_component_firstn : firstn (length D) s = D.
Proof. now apply firstn_prefix. Qed.

Lemma at_component_skipn : skipn (length D + length c + 1) s = R'.
Proof.
  unfold s. replace (D ++ "/"%char :: c ++ R') with ((D ++ "/"%char :: c) ++ R')
    by (rewrite <- !app_assoc; reflexivity).
  apply skipn_prefix. rewrite length_app. simpl. lia.
Qed.

Lemma at_component_next p : char_at s (length D + S p) = char_at (c ++ R') p.
Proof.
  unfold s. replace (D ++ "/"%char :: c ++ R') with ((D ++ ["/"%char]) ++ c ++ R')
    by (rewrite <- !app_assoc; reflexivity).
  replace (length D + S p)%nat with (length (D ++ ["/"%char]) + p)%nat
    by (rewrite length_app; simpl; lia).
  apply char_at_app_r.
Qed.

(** [//] and [/./]: the piece is cut out and the pointer stays. *)
Lemma fix_path_turn_dropped :
  c = [] \/ is_dot c = true ->
  fix_path_turn s (length D) = (D ++ R', length D).
Proof.
  intros Hc. unfold fix_path_turn.
  rewrite at_component_char, Ascii.eqb_refl. cbn [negb]. rewrite at_component_len.
  rewrite (at_component_next O), at_component_firstn, at_component_skipn.
  destruct Hc as [->|Hdot].
  - reflexivity.
  - destruct c as [|d [|? ?]]; try discriminate. simpl in Hdot.
    unfold char_at. simpl. rewrite Hdot. reflexivity.
Qed.

(** Any other piece but [..]: the pointer moves on. *)
Lemma fix_path_turn_kept :
  kept c -> fix_path_turn s (length D) = (s, S (length D)).
Proof.
  intros (_ & Hne & Hdot & Hdd). unfold fix_path_turn.
  rewrite at_component_char, Ascii.eqb_refl. cbn [negb]. rewrite at_component_len.
  rewrite (at_component_next O), (at_component_next 1).
  destruct c as [|x [|y [|z c']]]; try congruence.
  - simpl in Hdot. unfold char_at. simpl. rewrite Hdot. reflexivity.
  - simpl in Hdd. unfold char_at. simpl. rewrite Hdd. reflexivity.
  - reflexivity.
Qed.
End AtComponent.

Lemma is_dotdot_plain c : is_dotdot c = true -> c = ["."%char; "."%char] /\ plain c.
Proof.
  destruct c as [|d1 [|d2 [|? ?]]]; try discriminate. simpl.
  intros H. apply andb_true_iff in H. destruct H as [H1 H2].
  apply Ascii.eqb_eq in H1, H2. subst. split; [reflexivity|].
  repeat constructor; discriminate.
Qed.

Lemma is_dot_plain c : is_dot c = true -> c = ["."%char] /\ plain c.
Proof.
  destruct c as [|d1 [|? ?]]; try discriminate. simpl.
  intros H. apply Ascii.eqb_eq in H. subst. split; [reflexivity|].
  repeat constructor; discriminate.
Qed.

(** [/../]: the last piece kept is cut out with the [..], or, with no
    piece kept, everything up to the [..]; the pointer goes to the cut. *)
Lemma fix_path_turn_dotdot st c R' :
  state_ok st -> is_dotdot c = true -> at_slash R' ->
  fix_path_turn (render st ++ "/"%char :: c ++ R') (length (render st))
  = (render (component_step st c) ++ R', length (render (component_step st c))).
Proof.
  intros [Hh Hs] Hdd HR. destruct (is_dotdot_plain c Hdd) as [Hc Hplain].
  unfold fix_path_turn.
  rewrite at_component_char, Ascii.eqb_refl. cbn [negb].
  rewrite (at_component_len _ _ _ Hplain HR).
  rewrite (at_component_next _ _ _ O), (at_component_next _ _ _ 1).
  rewrite (at_component_skipn _ c R').
  subst c. cbn [length Nat.eqb orb andb app char_at nth Ascii.eqb Bool.eqb].
  destruct st as [head [|top below]]; cbn [component_step snd fst is_dot is_dotdot
                                            Ascii.eqb Bool.eqb andb].
  - assert (Hr : render (head, []) = head) by (unfold render; simpl; apply app_nil_r).
    rewrite Hr. rewrite (find_root_plain head _ Hh). reflexivity.
  - rewrite render_push. inversion Hs as [|? ? (Htop & _) _]; subst.
    rewrite (find_root_component (render (head, below)) top _ Htop).
    rewrite <- app_assoc. rewrite firstn_prefix by reflexivity. reflexivity.
Qed.

(** From a ['/'] in front of the pieces [comps], with the buffer before
    it normalized, the loop ends with the whole buffer normalized and the
    pointer at its end. *)
Lemma fix_path_loop_components comps :
  Forall plain comps ->
  forall st fuel, state_ok st -> (length (join_slash comps) < fuel)%nat ->
    fix_path_loop fuel (render st ++ join_slash comps) (length (render st))
    = Some (render (fold_left component_step comps st),
            length (render (fold_left component_step comps st))).
Proof.
  induction comps as [|c comps IH]; intros Hcomps st fuel Hst Hfuel.
  - simpl. rewrite app_nil_r. destruct fuel as [|fuel]; [simpl in Hfuel; lia|].
    cbn [fix_path_loop]. rewrite char_at_length, Ascii.eqb_refl. reflexivity.
  - inversion Hcomps as [|? ? Hc Hcomps']; subst.
    pose proof (at_slash_join comps) as HR.
    change (join_slash (c :: comps)) with ("/"%char :: c ++ join_slash comps) in *.
    destruct fuel as [|fuel]; [lia|]. simpl length in Hfuel. rewrite length_app in Hfuel.
    cbn [fix_path_loop fold_left]. rewrite at_component_char.
    change (Ascii.eqb "/"%char NUL) with false. cbv iota.
    destruct c as [|x c'].
    { rewrite (fix_path_turn_dropped _ [] _ Hc HR) by (left; reflexivity).
      apply IH; auto. simpl in Hfuel. lia. }
    destruct (is_dot (x :: c')) eqn:Hdot.
    { rewrite (fix_path_turn_dropped _ _ _ Hc HR) by (right; exact Hdot).
      unfold component_step. rewrite Hdot. apply IH; auto. lia. }
    destruct (is_dotdot (x :: c')) eqn:Hdd.
    { rewrite (fix_path_turn_dotdot st _ _ Hst Hdd HR).
      apply IH; auto; [now apply component_step_ok|lia]. }
    assert (Hkept : kept (x :: c')) by (repeat split; auto; discriminate).
    rewrite (fix_path_turn_kept _ _ _ Hc HR Hkept).
    assert (Hstep : component_step st (x :: c') = (fst st, (x :: c') :: snd st)).
    { unfold component_step. rewrite Hdot, Hdd. reflexivity. }
    rewrite Hstep.
    replace (render st ++ "/"%char :: (x :: c') ++ join_slash comps)
      with ((render st ++ ["/"%char]) ++ (x :: c') ++ join_slash comps)
      by (rewrite <- !app_assoc; reflexivity).
    replace (S (length (render st))) with (length (render st ++ ["/"%char]))
      by (rewrite length_app; simpl; lia).
    replace fuel with (length (x :: c') + (fuel - length (x :: c')))%nat by lia.
    rewrite fix_path_loop_advance by exact Hc.
    assert (Hrender : render (fst st, (x :: c') :: snd st)
                      = (render st ++ ["/"%char]) ++ x :: c').
    { rewrite render_push. destruct st. rewrite <- app_assoc. reflexivity. }
    replace ((render st ++ ["/"%char]) ++ (x :: c') ++ join_slash comps)
      with (render (fst st, (x :: c') :: snd st) ++ join_slash comps)
      by (rewrite Hrender, <- !app_assoc; reflexivity).
    replace (length (render st ++ ["/"%char]) + length (x :: c'))%nat
      with (length (render (fst st, (x :: c') :: snd st)))
      by (rewrite Hrender, !length_app; reflexivity).
    apply IH; auto.
    + rewrite <- Hstep. now apply component_step_ok.
    + lia.
Qed.

Lemma fold_component_step_ok comps :
  Forall plain comps -> forall st, state_ok st ->
    state_ok (fold_left component_step comps st).
Proof.
  induction 1 as [|c comps Hc _ IH]; intros st Hst; simpl; [exact Hst|].
  apply IH. now apply component_step_ok.
Qed.

(** A normalized buffer is empty or ends with a plain character. *)
Lemma render_end st :
  state_ok st -> render st = [] \/ exists X x, render st = X ++ [x] /\ x <> "/"%char.
Proof.
  destruct st as [head [|top below]]; intros [Hh Hs]; simpl in Hh, Hs.
  - unfold render. simpl. rewrite app_nil_r.
    destruct head as [|h head'] using rev_ind; [left; reflexivity|right].
    apply Forall_app in Hh. destruct Hh as [_ Hh]. inversion Hh as [|? ? [Hx _] _]; subst.
    eauto.
  - right. rewrite render_push. inversion Hs as [|? ? (Hp & Hne & _) _]; subst.
    destruct top as [|t top'] using rev_ind; [congruence|].
    apply Forall_app in Hp. destruct Hp as [_ Hp]. inversion Hp as [|? ? [Hx _] _]; subst.
    exists (render (head, below) ++ "/"%char :: top'), t. split; [|exact Hx].
    rewrite <- app_assoc. reflexivity.
Qed.

Lemma strip_trailing_normal st :
  state_ok st -> strip_trailing (render st) (length (render st)) = render st.
Proof.
  intros Hst. destruct (render_end st Hst) as [->|(X & x & -> & Hx)]; [reflexivity|].
  rewrite length_app. simpl length.
  replace (length X + 1)%nat with (S (length X)) by lia. cbn [strip_trailing].
  rewrite char_at_end. destruct (Ascii.eqb_spec x "/"); [contradiction|reflexivity].
Qed.

Lemma split_slash_app_plain w X :
  plain w ->
  split_slash (w ++ X) = (w ++ fst (split_slash X), snd (split_slash X)).
Proof.
  induction 1 as [|x w [Hx _] _ IH]; simpl.
  - destruct (split_slash X); reflexivity.
  - rewrite IH. destruct (Ascii.eqb_spec x "/"); [contradiction|reflexivity].
Qed.

Lemma split_slash_join_plain comps :
  Forall plain comps -> split_slash (join_slash comps) = ([], comps).
Proof.
  induction 1 as [|c comps Hc _ IH]; [reflexivity|].
  change (join_slash (c :: comps)) with ("/"%char :: c ++ join_slash comps).
  cbn [split_slash]. rewrite (split_slash_app_plain c _ Hc), IH. simpl.
  rewrite app_nil_r. reflexivity.
Qed.

(** The pieces of a normalized buffer are the pieces kept. *)
Lemma split_slash_render st :
  state_ok st -> split_slash (render st) = (fst st, rev (snd st)).
Proof.
  intros [Hh Hs]. unfold render. fold (join_slash (rev (snd st))).
  rewrite (split_slash_app_plain _ _ Hh), split_slash_join_plain.
  - simpl. rewrite app_nil_r. reflexivity.
  - apply Forall_rev. eapply Forall_impl; [|exact Hs]. intros c Hc. apply Hc.
Qed.

(** C8 (as it holds for the code).  For every path name, [fix_path]
    returns, and returns the normalization of the name: cut at every
    ['/'], the empty pieces ([//] and the trailing [/]) and the [.] pieces
    dropped, every [..] popping the piece kept last, or cutting the name
    back to its start when none is left.  In the result no ['/'] is
    followed by an empty piece, by [.] or by [..]; in particular it does
    not end with ['/'], so that a name that comes down to the root is
    returned as the empty string. *)
Theorem fix_path_normalizes (pathname : list ascii) :
  Forall (fun c => c <> NUL) pathname ->
  fix_path pathname = Some (normalize pathname)
  /\ plain (fst (split_slash (normalize pathname)))
  /\ Forall kept (snd (split_slash (normalize pathname))).
Proof.
  intros Hnul. destruct (split_slash_plain pathname Hnul) as [Hfirst Hothers].
  pose proof (split_slash_join pathname) as Hjoin.
  unfold normalize, fix_path.
  destruct (split_slash pathname) as [first others]. cbn [fst snd] in *.
  assert (Hinit : state_ok (first, [])) by (split; [exact Hfirst|constructor]).
  pose proof (fold_component_step_ok others Hothers _ Hinit) as Hfinal.
  set (final := fold_left component_step others (first, [])) in *.
  assert (Hrender0 : render (first, []) = first).
  { unfold render. simpl. apply app_nil_r. }
  assert (Hloop : fix_path_loop (S (length pathname)) pathname O
                  = Some (render final, length (render final))).
  { rewrite Hjoin at 1 2. rewrite length_app.
    replace (S (length first + length (join_slash others)))
      with (length first + S (length (join_slash others)))%nat by lia.
    rewrite (fix_path_loop_advance first Hfirst [] (join_slash others)).
    cbn [app length Nat.add]. rewrite <- Hrender0 at 1 2.
    apply fix_path_loop_components; auto. }
  rewrite Hloop, strip_trailing_normal by exact Hfinal.
  rewrite (split_slash_render final Hfinal). cbn [fst snd].
  destruct Hfinal as [H1 H2]. repeat split; auto. now apply Forall_rev.
Qed.

Lemma fix_path_normalizes_witness :
  Forall (fun c => c <> NUL) (list_ascii_of_string "/a//b/./c/../d/")
  /\ fix_path (list_ascii_of_string "/a//b/./c/../d/")
     = Some (list_ascii_of_string "/a/b/d")
  /\ normalize (list_ascii_of_string "/a//b/./c/../d/") = list_ascii_of_string "/a/b/d".
Proof.
  assert (Hnul : Forall (fun c => c <> NUL) (list_ascii_of_string "/a//b/./c/../d/")).
  { repeat constructor; discriminate. }
  split; [exact Hnul|].
  destruct (fix_path_normalizes _ Hnul) as [H _].
  split; [|reflexivity]. rewrite H. reflexivity.
Defined.

(** C8 as the specification words it fails at the root: the only ['/'] of
    ["/"] is stripped as well. *)
Lemma fix_path_root_is_stripped :
  fix_path_string "/" = Some ""%string /\ fix_path_string "/" <> Some "/"%string.
Proof. split; [reflexivity|discriminate]. Qed.

(** ** The session controller *)

(** What [old_events_enabled] records of an enable flag. *)
Definition was_enabled (e : option bool) : bool :=
  match e with
  | Some true => true
  | _ => false
  end.

(** An enable flag after [tracefs_event_disable]. *)
Definition disabled (e : option bool) : option bool :=
  match e with
  | Some _ => Some false
  | None => None
  end.

(** Two environments that differ in the enable flags at most. *)
Definition same_but_events (env env' : environment) : Prop :=
  buffer_size_kb env' = buffer_size_kb env
  /\ tracing_on env' = tracing_on env
  /\ niceness env' = niceness env
  /\ sigterm env' = sigterm env
  /\ sigint env' = sigint env.

Lemma same_but_events_refl env : same_but_events env env.
Proof. repeat split. Qed.

Lemma same_but_events_trans e1 e2 e3 :
  same_but_events e1 e2 -> same_but_events e2 e3 -> same_but_events e1 e3.
Proof. unfold same_but_events. intuition congruence. Qed.

Lemma tracefs_event_enable_spec o env i :
  let env' := snd (tracefs_event_enable o env i) in
  same_but_events env env'
  /\ (forall j, j <> i -> event_enable env' j = event_enable env j)
  /\ (event_enable env' i = event_enable env i
      \/ (event_enable env i <> None /\ event_enable env' i = Some true)).
Proof.
  unfold tracefs_event_enable. destruct (event_enable_fails o i).
  - simpl. repeat split; auto.
  - destruct (event_enable env i) as [b|] eqn:He; simpl.
    + repeat split.
      * intros j Hj. destruct (Nat.eqb_spec j i); [contradiction|reflexivity].
      * right. rewrite Nat.eqb_refl. split; [congruence|reflexivity].
    + repeat split; auto.
Qed.

Lemma enable_events_spec o indices :
  NoDup indices ->
  forall env old env' old',
    enable_events o indices env old = (env', Some old') ->
    same_but_events env env'
    /\ forall j,
         (In j indices ->
          old' j = was_enabled (event_enable env j)
          /\ (event_enable env' j = event_enable env j
              \/ (event_enable env j <> None /\ event_enable env' j = Some true)))
         /\ (~ In j indices ->
             old' j = old j /\ event_enable env' j = event_enable env j).
Proof.
  induction 1 as [|i rest Hnot Hnd IH]; intros env old env' old' Hrun.
  - simpl in Hrun. inversion Hrun; subst. split; [apply same_but_events_refl|].
    intros j. split; [intros []|auto].
  - cbn [enable_events] in Hrun.
    pose proof (tracefs_event_enable_spec o env i) as (Hsame & Hother & Hthis).
    destruct (tracefs_event_enable o env i) as [ret env1]. cbn [snd] in *.
    destruct ((ret <? 0) && (i <? NR_REQUIRED_EVENTS)%nat); [discriminate|].
    destruct (IH _ _ _ _ Hrun) as [Hsame' Hj].
    split; [eapply same_but_events_trans; eassumption|].
    assert (Hflag : (match tracefs_event_is_enabled env i with
                     | TRACEFS_ALL_ENABLED | TRACEFS_SOME_ENABLED => true
                     | _ => false
                     end) = was_enabled (event_enable env i)).
    { unfold tracefs_event_is_enabled, was_enabled.
      destruct (event_enable env i) as [[|]|]; reflexivity. }
    intros j. destruct (Hj j) as [Hin Hout]. split.
    + intros [<-|Hjr].
      * destruct (Hout Hnot) as [Ho He]. rewrite Ho, He, Nat.eqb_refl. auto.
      * assert (j <> i) by (intros ->; contradiction).
        destruct (Hin Hjr) as [Ho He]. rewrite (Hother j H) in Ho, He. auto.
    + intros Hn. assert (j <> i) by (intros ->; apply Hn; left; reflexivity).
      destruct (Hout (fun Hjr => Hn (or_intror Hjr))) as [Ho He].
      rewrite Ho, He. destruct (Nat.eqb_spec j i); [contradiction|]. auto.
Qed.

Lemma disabled_idempotent e : disabled (disabled e) = disabled e.
Proof. destruct e; reflexivity. Qed.

Lemma tracefs_event_disable_spec env i :
  same_but_events env (tracefs_event_disable env i)
  /\ forall j, event_enable (tracefs_event_disable env i) j
               = if (j =? i)%nat then disabled (event_enable env j) else event_enable env j.
Proof.
  unfold tracefs_event_disable. destruct (event_enable env i) as [b|] eqn:He; simpl.
  - split; [repeat split|]. intros j.
    destruct (Nat.eqb_spec j i) as [->|]; [rewrite He|]; reflexivity.
  - split; [repeat split|]. intros j.
    destruct (Nat.eqb_spec j i) as [->|]; [rewrite He|]; reflexivity.
Qed.

Lemma disable_events_spec old indices :
  forall env,
    same_but_events env (disable_events indices env old)
    /\ forall j, event_enable (disable_events indices env old) j
                 = if existsb (Nat.eqb j) indices && negb (old j)
                   then disabled (event_enable env j)
                   else event_enable env j.
Proof.
  induction indices as [|i rest IH]; intros env; cbn [disable_events existsb].
  - split; [apply same_but_events_refl|reflexivity].
  - destruct (old i) eqn:Hold.
    + destruct (IH env) as [Hs Hj]. split; [exact Hs|]. intros j. rewrite Hj.
      destruct (Nat.eqb_spec j i) as [->|]; [|reflexivity].
      rewrite Hold. cbn [negb orb]. rewrite !andb_false_r. reflexivity.
    + destruct (tracefs_event_disable_spec env i) as [Hs1 Hd].
      destruct (IH (tracefs_event_disable env i)) as [Hs Hj].
      split; [eapply same_but_events_trans; eassumption|]. intros j.
      rewrite Hj, Hd. destruct (Nat.eqb_spec j i) as [->|]; cbn [orb].
      * rewrite Hold. cbn [negb]. rewrite andb_true_r, disabled_idempotent.
        destruct (existsb _ rest); reflexivity.
      * reflexivity.
Qed.

(** Enabling the events and disabling those that were not enabled brings
    every flag back. *)
Lemma enable_then_disable o indices env env1 old :
  NoDup indices ->
  enable_events o indices env (fun _ => false) = (env1, Some old) ->
  forall env2, (forall j, event_enable env2 j = event_enable env1 j) ->
    forall j, event_enable (disable_events indices env2 old) j = event_enable env j.
Proof.
  intros Hnd Hrun env2 Hsame j.
  destruct (enable_events_spec o indices Hnd _ _ _ _ Hrun) as [_ Hspec].
  destruct (disable_events_spec old indices env2) as [_ Hd].
  rewrite Hd, Hsame. destruct (Hspec j) as [Hin Hout].
  destruct (existsb (Nat.eqb j) indices) eqn:Hex.
  - apply existsb_exists in Hex. destruct Hex as (k & Hk & He).
    apply Nat.eqb_eq in He. subst k. destruct (Hin Hk) as [Ho He].
    rewrite Ho. cbn [andb].
    destruct (event_enable env j) as [[|]|] eqn:E0; cbn [was_enabled negb].
    + destruct He as [->|[_ ->]]; reflexivity.
    + destruct He as [->|[_ ->]]; reflexivity.
    + destruct He as [->|[Hc _]]; [reflexivity|congruence].
  - cbn [andb]. apply Hout. intros Hj.
    assert (existsb (Nat.eqb j) indices = true).
    { apply existsb_exists. exists j. split; [exact Hj|apply Nat.eqb_refl]. }
    congruence.
Qed.

(** C9 (as it holds for the code).  When [trace] returns 0, the size of
    the ring buffer, the enable flag of every event, the tracing-on flag
    and the dispositions of [SIGTERM] and [SIGINT] are what they were
    before the call.  The niceness is not: [nice (15)] raised it and
    nothing lowers it again. *)
Theorem trace_restores_environment
        (o : outcomes) (daemonise use_existing_trace_events : bool)
        (env env' : environment) :
  trace o daemonise use_existing_trace_events env = (Trace_returns 0, env') ->
  buffer_size_kb env' = buffer_size_kb env
  /\ (forall i, event_enable env' i = event_enable env i)
  /\ tracing_on env' = tracing_on env
  /\ sigterm env' = sigterm env
  /\ sigint env' = sigint env
  /\ niceness env' = Z.min 19 (niceness env + 15).
Proof.
  unfold trace. intros Hrun.
  assert (Hevents : exists env1 old,
            (if use_existing_trace_events then (env, Some (fun _ : nat => false))
             else enable_events o (seq 0 NR_EVENTS) env (fun _ => false))
            = (env1, Some old)
            /\ same_but_events env env1
            /\ forall env2,
                 (forall j, event_enable env2 j = event_enable env1 j) ->
                 forall j, event_enable
                             (if use_existing_trace_events then env2
                              else disable_events (seq 0 NR_EVENTS) env2 old) j
                           = event_enable env j).
  { destruct use_existing_trace_events.
    - exists env, (fun _ => false). split; [reflexivity|].
      split; [apply same_but_events_refl|]. intros env2 H j. apply H.
    - destruct (enable_events o (seq 0 NR_EVENTS) env (fun _ => false))
        as [env1 [old|]] eqn:Hen; [|discriminate].
      exists env1, old. split; [reflexivity|].
      destruct (enable_events_spec o _ (seq_NoDup _ _) _ _ _ _ Hen) as [Hs _].
      split; [exact Hs|]. intros env2 H.
      exact (enable_then_disable o _ env env1 old (seq_NoDup _ _) Hen env2 H). }
  destruct Hevents as (env1 & old & Heq & Hsame & Hback). rewrite Heq in Hrun.
  destruct (get_buffer_size_fails o); [discriminate|].
  destruct (set_buffer_size_fails o); [discriminate|].
  destruct (trace_is_on_fails o); [discriminate|].
  destruct (trace_on_fails o); [discriminate|].
  destruct (daemonise && (fork_pid o <? 0)); [discriminate|].
  destruct (daemonise && (fork_pid o >? 0)); [discriminate|].
  destruct (negb (tracing_on (set_buffer_size env1 8192)) && trace_off_fails o);
    [discriminate|].
  destruct (read_trace_fails o); [discriminate|].
  destruct (restore_buffer_size_fails o); [discriminate|].
  apply (f_equal snd) in Hrun. cbn [snd] in Hrun. subst env'.
  destruct Hsame as (Hb & Ht & Hn & Hst & Hsi).
  match goal with
  | |- context [nice ?e 15] => set (env7 := e)
  end.
  assert (H7 : tracing_on env7 = tracing_on env1
               /\ niceness env7 = niceness env1
               /\ sigterm env7 = sigterm env1
               /\ sigint env7 = sigint env1
               /\ forall i, event_enable env7 i = event_enable env i).
  { subst env7.
    match goal with
    | |- context [if use_existing_trace_events then ?e else _] => set (env6 := e)
    end.
    assert (H6 : same_but_events env1 (set_buffer_size env6 (buffer_size_kb env1))
                 /\ forall j, event_enable env6 j = event_enable env1 j).
    { subst env6. cbn [tracing_on set_buffer_size].
      destruct (tracing_on env1) eqn:Eon; cbn [negb]; unfold same_but_events; cbn;
        rewrite ?Eon; repeat split; reflexivity. }
    destruct H6 as [(_ & H6t & H6n & H6st & H6si) H6e].
    cbn [tracing_on niceness sigterm sigint set_buffer_size] in H6t, H6n, H6st, H6si.
    assert (H7 : same_but_events env6
                   (if use_existing_trace_events then env6
                    else disable_events (seq 0 NR_EVENTS) env6 old)).
    { destruct use_existing_trace_events; [apply same_but_events_refl|].
      apply disable_events_spec. }
    destruct H7 as (_ & H7t & H7n & H7st & H7si).
    repeat split; try congruence.
    intros i. apply (Hback env6). exact H6e. }
  destruct H7 as (H7t & H7n & H7st & H7si & H7e).
  cbn [buffer_size_kb event_enable tracing_on niceness sigterm sigint
       set_buffer_size nice].
  split; [exact Hb|]. split; [exact H7e|]. split; [congruence|].
  split; [congruence|]. split; [congruence|]. rewrite H7n, Hn. reflexivity.
Qed.

(** A quiet system: the events exist and are off, tracing is off. *)
Definition quiet_environment : environment :=
  mk_environment 1408 (fun i => if (i <? NR_EVENTS)%nat then Some false else None)
                 false 0 SIG_DFL SIG_DFL.

Definition all_succeed : outcomes :=
  mk_outcomes (fun _ => false) false false false false 0 false false false.

Lemma trace_restores_environment_witness :
  let env' := snd (trace all_succeed false false quiet_environment) in
  fst (trace all_succeed false false quiet_environment) = Trace_returns 0
  /\ buffer_size_kb env' = 1408
  /\ (forall i, event_enable env' i = event_enable quiet_environment i)
  /\ tracing_on env' = false
  /\ niceness env' = 15.
Proof.
  cbv zeta.
  destruct (trace_restores_environment all_succeed false false quiet_environment
              (snd (trace all_succeed false false quiet_environment)))
    as (Hb & He & Ht & _ & _ & Hn).
  - vm_compute. reflexivity.
  - repeat split; auto.
Defined.

(** C9 as the specification words it fails for the niceness: after a
    clean run from niceness 0 the process runs at niceness 15. *)
Lemma trace_leaves_niceness_raised :
  fst (trace all_succeed false false quiet_environment) = Trace_returns 0
  /\ niceness quiet_environment = 0
  /\ niceness (snd (trace all_succeed false false quiet_environment)) = 15
  /\ niceness (snd (trace all_succeed false false quiet_environment))
     <> niceness quiet_environment.
Proof. vm_compute. repeat split; discriminate. Qed.

(** * More of the code *)

(** ** The range index: calls that add nothing, and the size of the array *)

(** X1. A call whose pages are all covered already leaves the range array
    as it is: the array is not touched by a repeated event or by an event
    inside or across ranges that were merged before. *)
Theorem inode_add_file_map_absorbs (maps : list file_map) (first last_index : Z) :
  range_array_ok maps -> 0 <= first -> first <= last_index -> last_index < OFF_MAX ->
  (forall p, first <= p <= last_index -> covered maps p) ->
  inode_add_file_map maps first last_index = maps.
Proof.
  intros Hok H0 Hfl Hmax Hcov.
  destruct (inode_add_file_map_ok maps first last_index Hok H0 Hfl Hmax) as [Hok' Hcov'].
  apply (range_array_unique _ _ _ _ Hok' Hok). intros p. rewrite Hcov'.
  split; [|tauto]. intros [H|H]; [exact H|apply Hcov; exact H].
Qed.

Lemma inode_add_file_map_absorbs_witness :
  inode_add_file_map [mk_file_map 0 4; mk_file_map 8 11] 1 2
  = [mk_file_map 0 4; mk_file_map 8 11].
Proof.
  apply inode_add_file_map_absorbs.
  - unfold range_array_ok. simpl. unfold OFF_MAX. lia.
  - lia.
  - lia.
  - unfold OFF_MAX. lia.
  - intros p Hp. exists (mk_file_map 0 4). split; [left; reflexivity|].
    unfold in_range. simpl. lia.
Defined.

(** One call grows the array by one entry at most. *)
Lemma inode_add_file_map_length maps first last_index :
  range_array_ok maps -> 0 <= first -> first <= last_index -> last_index < OFF_MAX ->
  (1 <= length (inode_add_file_map maps first last_index) <= length maps + 1)%nat.
Proof.
  intros Hok H0 Hfl Hmax. unfold range_array_ok in Hok.
  destruct (split_by_key _ _ first (last_index + 1) Hok) as (A & R & B & -> & HA & HR & HB).
  assert (HZ : zones (-1) first (last_index + 1) A R B).
  { constructor; auto; lia. }
  rewrite (inode_add_file_map_split _ _ _ _ _ _ HZ).
  rewrite !length_app. cbn [length]. lia.
Qed.

Lemma record_accesses_from_length calls :
  forall maps, range_array_ok maps -> Forall valid_access calls ->
    (length (fold_left (fun maps c => inode_add_file_map maps (fst c) (snd c))
                       calls maps)
     <= length maps + length calls)%nat
    /\ (calls <> [] ->
        (1 <= length (fold_left (fun maps c => inode_add_file_map maps (fst c) (snd c))
                                calls maps))%nat).
Proof.
  induction calls as [|c calls IH]; intros maps Hok Hvalid.
  - simpl. split; [lia|congruence].
  - inversion Hvalid as [|? ? (H0 & H1 & H2) Hrest]; subst.
    destruct (inode_add_file_map_ok maps (fst c) (snd c) Hok H0 H1 H2) as [Hok' _].
    pose proof (inode_add_file_map_length maps (fst c) (snd c) Hok H0 H1 H2) as Hlen.
    destruct (IH _ Hok' Hrest) as [Hle Hge]. cbn [fold_left length]. split; [lia|].
    intros _. destruct calls as [|c' calls']; [simpl; lia|]. apply Hge. discriminate.
Qed.

(** X2. The array of an inode never has more entries than the inode had
    calls, and has one entry at least. *)
Theorem trace_add_file_map_array_size (calls : list file_map_call) (id ino : Z)
        (maps : list file_map) :
  Forall valid_call calls -> 0 <= ino < SIZE_MAX ->
  lookup_file_maps (trace_add_file_maps empty_device_hash calls) id ino = Some maps ->
  (1 <= length maps <= length (filter (names id ino) calls))%nat.
Proof.
  intros Hvalid Hino. rewrite (trace_add_file_maps_from_empty calls id ino Hvalid Hino).
  pose proof (calls_for_valid id ino calls Hvalid) as Hacc.
  assert (Hlen : length (calls_for id ino calls) = length (filter (names id ino) calls))
    by (unfold calls_for; apply length_map).
  rewrite <- Hlen.
  destruct (calls_for id ino calls) as [|a accesses] eqn:Hfor; [discriminate|].
  intros [= <-].
  destruct (record_accesses_from_length (a :: accesses) [] I Hacc) as [Hle Hge].
  unfold record_accesses. split; [apply Hge; discriminate|exact Hle].
Qed.

Lemma trace_add_file_map_array_size_witness :
  (1 <= length [mk_file_map 0 6; mk_file_map 7 11]
   <= length (filter (names (makedev 8 0) 12345) test_calls))%nat.
Proof.
  apply (trace_add_file_map_array_size test_calls (makedev 8 0) 12345).
  - exact test_calls_valid.
  - unfold SIZE_MAX. lia.
  - vm_compute. reflexivity.
Defined.

(** ** The device hash: one call, and the shape of the table *)

(** X3. One call on a hash whose inode arrays are sorted: a lookup of the
    inode the call names answers with the array the call merged the range
    into (an empty one if the device or the inode was not there), and a
    lookup of any other inode of any device answers as before. *)
Theorem trace_add_file_map_lookup (hash : device_hash) (id ino index last_index : Z) :
  hash_ok hash -> 0 <= ino < SIZE_MAX ->
  let hash' := trace_add_file_map hash id ino index last_index in
  lookup_file_maps hash' id ino
  = Some (inode_add_file_map (maps_so_far (lookup_file_maps hash id ino))
                             index last_index)
  /\ forall id' ino', 0 <= ino' < SIZE_MAX -> (id' <> id \/ ino' <> ino) ->
       lookup_file_maps hash' id' ino' = lookup_file_maps hash id' ino'.
Proof.
  intros Hok Hino hash'.
  destruct (trace_add_file_map_maps hash id ino index last_index Hok Hino)
    as [_ Hlook]. fold hash' in Hlook. split.
  - rewrite (Hlook id ino Hino), !Z.eqb_refl. reflexivity.
  - intros id' ino' Hino' Hne. rewrite (Hlook id' ino' Hino').
    destruct (Z.eqb_spec id' id), (Z.eqb_spec ino' ino); simpl; try reflexivity.
    destruct Hne; contradiction.
Qed.

Lemma find_in_chain_absent chain id :
  find_in_chain chain id = None -> ~ In id (map dev_id chain).
Proof.
  induction chain as [|dev next IH]; simpl; [tauto|].
  destruct (Z.eqb_spec (dev_id dev) id) as [He|Hne]; [discriminate|].
  destruct (find_in_chain next id); [discriminate|].
  intros _ [H|H]; [contradiction|]. now apply IH.
Qed.

(** A chain of bucket [k]: the inode array of every device is sorted, every
    device hashes to [k], and no device number is there twice. *)
Definition chain_ok (k : Z) (chain : list device_data) : Prop :=
  Forall device_ok chain
  /\ Forall (fun dev => Z.land (dev_id dev) HASH_MASK = k) chain
  /\ NoDup (map dev_id chain).

Lemma chain_add_file_map_ok chain id ino index last_index :
  chain_ok (Z.land id HASH_MASK) chain -> 0 <= ino < SIZE_MAX ->
  chain_ok (Z.land id HASH_MASK) (chain_add_file_map chain id ino index last_index).
Proof.
  intros (Hdev & Hkey & Hnd) Hino.
  destruct (chain_add_file_map_maps chain id ino index last_index Hdev Hino) as [Hdev' _].
  split; [exact Hdev'|]. unfold chain_add_file_map in *.
  destruct (find_in_chain chain id) as [dpos|] eqn:Hfind.
  - destruct (find_in_chain_found _ _ _ Hfind) as [Hlen Hid].
    assert (Hok : device_ok (nth dpos chain no_device)).
    { rewrite Forall_forall in Hdev. apply Hdev. now apply nth_In. }
    destruct (device_add_file_map_maps _ ino index last_index Hok Hino)
      as (_ & Hid' & _).
    split.
    + apply Forall_store; [exact Hkey|]. rewrite Hid', Hid. reflexivity.
    + rewrite map_store, Hid', <- (map_nth dev_id chain no_device dpos), store_same.
      exact Hnd.
  - destruct (device_add_file_map_maps (mk_device_data id []) ino index last_index I Hino)
      as (_ & Hid' & _).
    split.
    + constructor; [rewrite Hid'; reflexivity|exact Hkey].
    + cbn [map]. rewrite Hid'. constructor; [|exact Hnd].
      now apply find_in_chain_absent.
Qed.

Lemma trace_add_file_maps_chains calls :
  forall hash, (forall k, chain_ok k (hash k)) -> Forall valid_call calls ->
  forall k, chain_ok k (trace_add_file_maps hash calls k).
Proof.
  induction calls as [|c calls IH]; intros hash Hok Hvalid; [exact Hok|].
  inversion Hvalid as [|? ? [Hc _] Hrest]; subst.
  change (trace_add_file_maps hash (c :: calls))
    with (trace_add_file_maps
            (trace_add_file_map hash (call_dev c) (call_ino c) (call_index c)
                                (call_last_index c)) calls).
  apply IH; [|exact Hrest]. intros k. rewrite trace_add_file_map_bucket.
  destruct (Z.eqb_spec k (Z.land (call_dev c) HASH_MASK)) as [->|_]; [|apply Hok].
  apply chain_add_file_map_ok; [apply Hok|exact Hc].
Qed.

(** X4. After any run of calls from the empty table, every chain holds
    only devices that hash to its bucket, holds no device number twice, and
    holds for each device an inode array with inode numbers strictly
    ascending; and only the buckets [0 .. HASH_SIZE - 1] are in use. *)
Theorem trace_add_file_maps_table (calls : list file_map_call) (k : Z) :
  Forall valid_call calls ->
  let chain := trace_add_file_maps empty_device_hash calls k in
  Forall (fun dev => inodes_from (-1) (dev_inodes dev)) chain
  /\ Forall (fun dev => Z.land (dev_id dev) HASH_MASK = k) chain
  /\ NoDup (map dev_id chain)
  /\ (chain <> [] -> 0 <= k < HASH_SIZE).
Proof.
  intros Hvalid chain.
  assert (Hempty : forall k, chain_ok k (empty_device_hash k)).
  { intros k'. repeat split; constructor. }
  destruct (trace_add_file_maps_chains calls _ Hempty Hvalid k) as (Hdev & Hkey & Hnd).
  fold chain in Hdev, Hkey, Hnd. split; [exact Hdev|]. split; [exact Hkey|].
  split; [exact Hnd|]. intros Hne. destruct chain as [|dev rest]; [congruence|].
  inversion Hkey as [|? ? Hk _]; subst.
  change HASH_MASK with (Z.ones 16). rewrite Z.land_ones by lia.
  change HASH_SIZE with (2 ^ 16). apply Z.mod_pos_bound. lia.
Qed.

Lemma trace_add_file_maps_table_witness :
  NoDup (map dev_id (trace_add_file_maps empty_device_hash test_calls
                                         (Z.land (makedev 8 0) HASH_MASK)))
  /\ map dev_id (trace_add_file_maps empty_device_hash test_calls
                                     (Z.land (makedev 8 0) HASH_MASK))
     = [makedev 8 0].
Proof.
  split; [|vm_compute; reflexivity].
  apply (trace_add_file_maps_table test_calls (Z.land (makedev 8 0) HASH_MASK)
           test_calls_valid).
Defined.

Lemma trace_add_file_maps_hash_ok calls :
  Forall valid_call calls -> hash_ok (trace_add_file_maps empty_device_hash calls).
Proof.
  intros Hvalid k.
  assert (Hempty : forall k, chain_ok k (empty_device_hash k)).
  { intros k'. repeat split; constructor. }
  apply (trace_add_file_maps_chains calls _ Hempty Hvalid k).
Qed.

Lemma trace_add_file_map_lookup_witness :
  let hash := trace_add_file_maps empty_device_hash test_calls in
  let hash' := trace_add_file_map hash (makedev 8 0) 12345 6 6 in
  lookup_file_maps hash' (makedev 8 0) 12345 = Some [mk_file_map 0 11]
  /\ lookup_file_maps hash' (makedev 8 1) 67890
     = lookup_file_maps hash (makedev 8 1) 67890.
Proof.
  cbv zeta.
  destruct (trace_add_file_map_lookup
              (trace_add_file_maps empty_device_hash test_calls)
              (makedev 8 0) 12345 6 6
              (trace_add_file_maps_hash_ok test_calls test_calls_valid)
              ltac:(unfold SIZE_MAX; lia)) as [Hsame Hother].
  split.
  - rewrite Hsame. vm_compute. reflexivity.
  - apply Hother; [unfold SIZE_MAX; lia|]. left. vm_compute. discriminate.
Defined.

(** ** The range intersector: what becomes of a block *)

(** [e] is a piece of [b]: on the same path, inside [b], not empty, and
    at the place on the disk where that part of [b] is. *)
Definition part_of (b e : PackBlock) : Prop :=
  pb_pathidx e = pb_pathidx b
  /\ pb_offset b <= pb_offset e
  /\ pb_offset e + pb_length e <= pb_offset b + pb_length b
  /\ 0 < pb_length e
  /\ pb_physical e = pb_physical b + (pb_offset e - pb_offset b).

(** The physical place of a block: [-1] where it is not known, and with
    the length still an [off_t]. *)
Definition physical_ok (b : PackBlock) : Prop :=
  -1 <= pb_physical b /\ pb_physical b + pb_length b <= OFF_MAX.

Lemma off_t_minus a b : off_t (off_t a - b) = off_t (a - b).
Proof.
  unfold off_t. f_equal.
  replace ((a + 2 ^ 63) mod 2 ^ 64 - 2 ^ 63 - b + 2 ^ 63)
    with ((a + 2 ^ 63) mod 2 ^ 64 - b) by lia.
  replace (a - b + 2 ^ 63) with ((a + 2 ^ 63) - b) by lia.
  rewrite Zminus_mod_idemp_l. reflexivity.
Qed.

Lemma reduced_block_part block range :
  block_ok block -> physical_ok block ->
  0 <= fm_start range -> fm_start range < fm_end range ->
  fm_end range * PAGE_SIZE <= OFF_MAX ->
  pb_length (reduced_block block range) > 0 ->
  part_of block (reduced_block block range).
Proof.
  intros Hb [Hp0 Hp1] Hs Hne He Hpos.
  destruct (reduced_block_spec block range Hb Hs Hne He) as (Hi & Ho & Hl).
  rewrite Hl in Hpos. unfold part_of. rewrite Hi, Hl, Ho.
  split; [reflexivity|]. split; [lia|]. split; [lia|]. split; [lia|].
  assert (Hphys : pb_physical (reduced_block block range)
                  = off_t (pb_physical block + pb_offset (reduced_block block range)
                           - pb_offset block)).
  { unfold reduced_block. cbn [pb_physical pb_offset]. apply off_t_minus. }
  rewrite Hphys, Ho. destruct Hb as (H0 & H1 & H2).
  rewrite off_t_small by (unfold OFF_MAX in *; lia). lia.
Qed.

Lemma intersect_block_parts st block :
  (forall k, (k < nr_maps st)%nat ->
             0 <= fm_start (map_at (maps st) k)
             /\ fm_start (map_at (maps st) k) < fm_end (map_at (maps st) k)
             /\ fm_end (map_at (maps st) k) * PAGE_SIZE <= OFF_MAX) ->
  block_ok block -> physical_ok block ->
  exists new,
    reduced_blocks (intersect_block st block) = reduced_blocks st ++ new
    /\ Forall (part_of block) new.
Proof.
  intros Hfine Hb Hp. unfold intersect_block.
  destruct (add_overlaps_emits (maps st) (nr_maps st) block (block_page_range block)
              (S (nr_maps st))
              (skip_filemaps (S (nr_maps st)) (maps st) (nr_maps st)
                             (block_page_range block) (filemapidx st))
              (reduced_blocks st)) as (new & Hnew & HF).
  destruct (add_overlaps _ _ _ _ _ _ _) as [idx red]. cbn [snd] in Hnew.
  exists new. cbn [reduced_blocks]. split; [exact Hnew|].
  eapply Forall_impl; [|exact HF]. cbv beta. intros e (k & Hk & -> & Hpos).
  destruct (Hfine k ltac:(lia)) as (H1 & H2 & H3).
  now apply reduced_block_part.
Qed.

(** What the loop has emitted so far, and the ranges it walks. *)
Definition parts_inv (st : intersect_state) : Prop :=
  forall k, (k < nr_maps st)%nat ->
            0 <= fm_start (map_at (maps st) k)
            /\ fm_start (map_at (maps st) k) < fm_end (map_at (maps st) k)
            /\ fm_end (map_at (maps st) k) * PAGE_SIZE <= OFF_MAX.

Lemma remove_untouched_step_parts hash file st block :
  parts_inv st -> block_ok block -> physical_ok block ->
  (forall M, maps_of hash file (pb_pathidx block) = Some M -> pages_ok M) ->
  parts_inv (remove_untouched_step hash file st block)
  /\ exists new,
       reduced_blocks (remove_untouched_step hash file st block)
       = reduced_blocks st ++ new
       /\ Forall (fun e => e = marker_block (pb_pathidx block) \/ part_of block e) new.
Proof.
  intros Hinv Hb Hp Hpages. unfold remove_untouched_step.
  destruct (negb (pb_pathidx block =? pathidx st)).
  - unfold maps_of in Hpages.
    destruct (lookup_file_maps hash (pf_dev file) _) as [M|].
    + set (st1 := mk_intersect_state (reduced_blocks st) M (length M) O
                                     (pb_pathidx block)).
      assert (Hinv1 : parts_inv st1).
      { intros k Hk. apply pages_ok_entry; [now apply Hpages|exact Hk]. }
      destruct (intersect_block_emits st1 block) as (_ & _ & _ & _ & Hm & Hn).
      destruct (intersect_block_parts st1 block Hinv1 Hb Hp) as (new & Hnew & HF).
      split.
      * intros k Hk. rewrite Hm. rewrite Hn in Hk. now apply Hinv1.
      * exists new. split; [exact Hnew|].
        eapply Forall_impl; [|exact HF]. cbv beta. auto.
    + split.
      * intros k Hk. cbn [nr_maps] in Hk. lia.
      * exists [marker_block (pb_pathidx block)]. split; [reflexivity|].
        constructor; [left; reflexivity|constructor].
  - destruct (intersect_block_emits st block) as (_ & _ & _ & _ & Hm & Hn).
    destruct (intersect_block_parts st block Hinv Hb Hp) as (new & Hnew & HF).
    split.
    + intros k Hk. rewrite Hm. rewrite Hn in Hk. now apply Hinv.
    + exists new. split; [exact Hnew|].
      eapply Forall_impl; [|exact HF]. cbv beta. auto.
Qed.

Lemma remove_untouched_fold_parts hash file blocks :
  forall st, parts_inv st ->
    Forall block_ok blocks -> Forall physical_ok blocks ->
    (forall b M, In b blocks -> maps_of hash file (pb_pathidx b) = Some M -> pages_ok M) ->
    exists new,
      reduced_blocks (fold_left (remove_untouched_step hash file) blocks st)
      = reduced_blocks st ++ new
      /\ Forall (fun e => exists b, In b blocks
                                    /\ (e = marker_block (pb_pathidx b) \/ part_of b e))
                new.
Proof.
  induction blocks as [|b blocks IH]; intros st Hinv Hok Hphys Hpages.
  - exists []. split; [symmetry; apply app_nil_r|constructor].
  - inversion Hok as [|? ? Hb Hok']; subst. inversion Hphys as [|? ? Hp Hphys']; subst.
    destruct (remove_untouched_step_parts hash file st b Hinv Hb Hp
                (fun M => Hpages b M (or_introl eq_refl)))
      as (Hinv1 & new1 & Hnew1 & HF1).
    destruct (IH _ Hinv1 Hok' Hphys' (fun b' M Hin => Hpages b' M (or_intror Hin)))
      as (new2 & Hnew2 & HF2).
    exists (new1 ++ new2). cbn [fold_left]. split.
    + rewrite Hnew2, Hnew1, app_assoc. reflexivity.
    + apply Forall_app. split.
      * eapply Forall_impl; [|exact HF1]. cbv beta. intros e He. exists b.
        split; [left; reflexivity|exact He].
      * eapply Forall_impl; [|exact HF2]. cbv beta. intros e (b' & Hb' & He).
        exists b'. split; [right; exact Hb'|exact He].
Qed.

(** X5. Whatever the order of the blocks, every block the range
    intersection leaves is the open-only block of the path of an original
    block, or a piece of an original block: on the same path, inside it,
    not empty, and with the physical place moved by as much as the
    offset. *)
Theorem remove_untouched_blocks_pieces (hash : device_hash) (file : PackFile) :
  Forall block_ok (pf_blocks file) ->
  Forall physical_ok (pf_blocks file) ->
  (forall b M, In b (pf_blocks file) ->
               maps_of hash file (pb_pathidx b) = Some M -> pages_ok M) ->
  forall e, In e (pf_blocks (remove_untouched_blocks hash file)) ->
    exists b, In b (pf_blocks file)
              /\ (e = marker_block (pb_pathidx b) \/ part_of b e).
Proof.
  intros Hok Hphys Hpages e He.
  assert (Hinit : parts_inv intersect_init).
  { intros k Hk. cbn [nr_maps intersect_init] in Hk. lia. }
  destruct (remove_untouched_fold_parts hash file (pf_blocks file) intersect_init
              Hinit Hok Hphys Hpages) as (new & Hnew & HF).
  unfold remove_untouched_blocks in He. cbn [pf_blocks] in He.
  rewrite Hnew in He. cbn [reduced_blocks intersect_init app] in He.
  rewrite Forall_forall in HF. exact (HF e He).
Qed.

Lemma remove_untouched_blocks_pieces_witness :
  exists b, In b (pf_blocks unordered_file)
            /\ (mk_PackBlock 0 40960 4096 0 = marker_block (pb_pathidx b)
                \/ part_of b (mk_PackBlock 0 40960 4096 0)).
Proof.
  assert (HM : maps_of unordered_hash unordered_file 0
               = Some [mk_file_map 0 1; mk_file_map 10 11]).
  { vm_compute. reflexivity. }
  apply (remove_untouched_blocks_pieces unordered_hash unordered_file).
  - repeat constructor; vm_compute; discriminate.
  - repeat constructor; vm_compute; discriminate.
  - intros b M Hb Hmaps.
    assert (HM' : maps_of unordered_hash unordered_file (pb_pathidx b)
                  = Some [mk_file_map 0 1; mk_file_map 10 11]).
    { simpl in Hb. destruct Hb as [<-|[<-|[]]]; exact HM. }
    rewrite HM' in Hmaps. injection Hmaps as <-. split.
    + unfold range_array_ok. simpl. unfold OFF_MAX. lia.
    + repeat constructor; vm_compute; discriminate.
  - vm_compute. left. reflexivity.
Defined.

(** ** The sorts: what [qsort] leaves *)

(** The merge sort with a comparison that follows a key: it answers
    "not after" only for a key that is not greater, and "after" only for
    a key that is not smaller. *)
Section SortByKey.
Context {A : Type}.
Variable compar : A -> A -> Z.
Variable key : A -> Z.
Hypothesis compar_le : forall x y, compar x y <= 0 -> key x <= key y.
Hypothesis compar_gt : forall x y, compar x y > 0 -> key y <= key x.

Let key_le (x y : A) : Prop := key x <= key y.

Lemma merge_runs_sorted (b1 : list A) :
  forall b2, StronglySorted key_le b1 -> StronglySorted key_le b2 ->
             StronglySorted key_le (merge_runs compar b1 b2).
Proof.
  induction b1 as [|x1 rest1 IH1]; intros b2 H1 H2.
  - destruct b2; simpl; exact H2.
  - induction b2 as [|x2 rest2 IH2].
    + simpl. exact H1.
    + cbn [merge_runs]. inversion H1 as [|? ? Hs1 Hf1]; subst.
      inversion H2 as [|? ? Hs2 Hf2]; subst.
      destruct (Z.leb_spec (compar x1 x2) 0) as [Hle|Hgt].
      * constructor; [apply IH1; assumption|].
        eapply Permutation_Forall;
          [apply Permutation_sym, (merge_runs_perm compar rest1 (x2 :: rest2))|].
        apply Forall_app. split; [exact Hf1|].
        pose proof (compar_le _ _ Hle) as Hk.
        constructor; [exact Hk|].
        eapply Forall_impl; [|exact Hf2]. unfold key_le. intros y Hy. lia.
      * constructor; [apply IH2; assumption|].
        eapply Permutation_Forall;
          [apply Permutation_sym, (merge_runs_perm compar (x1 :: rest1) rest2)|].
        apply Forall_app. split; [|exact Hf2].
        pose proof (compar_gt x1 x2 ltac:(lia)) as Hk.
        constructor; [exact Hk|].
        eapply Forall_impl; [|exact Hf1]. unfold key_le in *. intros y Hy. lia.
Qed.

Lemma msort_with_tmp_sorted :
  forall fuel b, (length b <= fuel)%nat ->
                 StronglySorted key_le (msort_with_tmp fuel compar b).
Proof.
  induction fuel as [|fuel IH]; intros b Hlen.
  - destruct b; [constructor|simpl in Hlen; lia].
  - cbn [msort_with_tmp]. destruct (Nat.leb_spec (length b) 1) as [Hsmall|Hbig].
    + destruct b as [|x [|y b']]; [constructor| |simpl in Hsmall; lia].
      constructor; constructor.
    + assert (Hhalf : (0 < length b / 2 < length b)%nat).
      { split.
        - apply Nat.div_str_pos. lia.
        - apply Nat.div_lt; lia. }
      apply merge_runs_sorted; apply IH.
      * rewrite length_firstn. lia.
      * rewrite length_skipn. lia.
Qed.

Lemma qsort_sorted (base : list A) : StronglySorted key_le (qsort compar base).
Proof. apply msort_with_tmp_sorted. lia. Qed.
End SortByKey.

(** X6. [trace_sort_blocks] leaves the blocks of the file, each as often
    as before, in ascending order of their physical place; the rest of the
    file is as it was. *)
Theorem trace_sort_blocks_sorts (file : PackFile) :
  let file' := trace_sort_blocks file in
  Permutation (pf_blocks file') (pf_blocks file)
  /\ StronglySorted (fun a b => pb_physical a <= pb_physical b) (pf_blocks file')
  /\ pf_paths file' = pf_paths file
  /\ pf_groups file' = pf_groups file
  /\ pf_dev file' = pf_dev file.
Proof.
  cbv zeta. unfold trace_sort_blocks. cbn [pf_blocks pf_paths pf_groups pf_dev].
  split; [apply qsort_perm|]. split; [|auto].
  apply (qsort_sorted block_compar pb_physical); intros x y; unfold block_compar;
    rewrite Z.gtb_ltb;
    destruct (Z.ltb_spec (pb_physical x) (pb_physical y));
    destruct (Z.ltb_spec (pb_physical y) (pb_physical x)); lia.
Qed.

(** The new array of paths is the old one read in the order [qsort] left
    the pointers in. *)
Lemma trace_sort_paths_paths file :
  pf_paths (trace_sort_paths file)
  = map (fun j => nth j (pf_paths file) no_path) (sorted_pointers file).
Proof.
  unfold trace_sort_paths. cbn [pf_paths]. fold (sorted_pointers file).
  pose proof (sorted_pointers_perm file) as Hperm.
  set (paths := pf_paths file) in *. set (sorted := sorted_pointers file) in *.
  apply (nth_ext _ _ no_path no_path).
  - rewrite (new_paths_length paths sorted), length_map.
    symmetry. apply (sorted_length paths sorted Hperm).
  - intros k Hk. rewrite (new_paths_length paths sorted) in Hk.
    rewrite (nth_indep (map (fun j => nth j paths no_path) sorted) no_path
                       ((fun j => nth j paths no_path) O))
      by (rewrite length_map, (sorted_length paths sorted Hperm); exact Hk).
    rewrite (map_nth (fun j => nth j paths no_path) sorted O k).
    rewrite <- (new_idx_of_sorted paths sorted Hperm k Hk) at 1.
    apply (new_paths_of_new_idx paths sorted Hperm).
    now apply sorted_entries.
Qed.

(** X7. [trace_sort_paths] leaves the paths of the file, each as often as
    before, and every block, in its old place in the block array, names
    the path it named before and keeps its offset, length and physical
    place. *)
Theorem trace_sort_paths_keeps_paths (file : PackFile) :
  pathidx_valid file ->
  Permutation (pf_paths (trace_sort_paths file)) (pf_paths file)
  /\ Forall2 (fun b b' =>
                path_at (trace_sort_paths file) (pb_pathidx b')
                = path_at file (pb_pathidx b)
                /\ pb_offset b' = pb_offset b /\ pb_length b' = pb_length b
                /\ pb_physical b' = pb_physical b)
             (pf_blocks file) (pf_blocks (trace_sort_paths file)).
Proof.
  intros Hvalid. split; [|now apply trace_sort_paths_same_path].
  rewrite trace_sort_paths_paths.
  eapply Permutation_trans; [apply Permutation_map, sorted_pointers_perm|].
  rewrite map_nth_seq. apply Permutation_refl.
Qed.

(** X8. For all the slip in [path_compar], [trace_sort_paths] leaves the
    paths in ascending order of their group: the slip is in the order
    within a group. *)
Theorem trace_sort_paths_by_group (file : PackFile) :
  StronglySorted (fun a b => pp_group a <= pp_group b)
                 (pf_paths (trace_sort_paths file)).
Proof.
  rewrite trace_sort_paths_paths.
  assert (Hsorted : StronglySorted
                      (fun a b => pp_group (nth a (pf_paths file) no_path)
                                  <= pp_group (nth b (pf_paths file) no_path))
                      (sorted_pointers file)).
  { apply (qsort_sorted
             (fun a b => path_compar (nth a (pf_paths file) no_path)
                                     (nth b (pf_paths file) no_path))
             (fun a => pp_group (nth a (pf_paths file) no_path)));
      intros x y; unfold path_compar; rewrite !Z.gtb_ltb;
      destruct (Z.ltb_spec (pp_group (nth x (pf_paths file) no_path))
                           (pp_group (nth y (pf_paths file) no_path)));
      destruct (Z.ltb_spec (pp_group (nth y (pf_paths file) no_path))
                           (pp_group (nth x (pf_paths file) no_path))); lia. }
  induction Hsorted as [|a l _ IH Hf]; [constructor|].
  cbn [map]. constructor; [exact IH|].
  rewrite Forall_map. exact Hf.
Qed.

(** ** The inode groups *)

(** The counting loop of [trace_add_groups]: cell [g] goes up by the
    number of paths of group [g]. *)
Lemma count_groups_nth (paths : list PackPath) :
  forall counts g,
    Forall (fun p => 0 <= pp_group p < Z.of_nat (length counts)) paths ->
    (g < length counts)%nat ->
    nth g (fold_left (fun counts p =>
                        let g := Z.to_nat (pp_group p) in
                        store counts g (nth g counts 0 + 1))
                     paths counts) 0
    = nth g counts 0
      + Z.of_nat (length (filter (fun p => pp_group p =? Z.of_nat g) paths)).
Proof.
  induction paths as [|p paths IH]; intros counts g Hin Hg.
  - simpl. lia.
  - inversion Hin as [|? ? Hp Hrest]; subst. cbn [fold_left filter]. cbv zeta.
    rewrite IH.
    + rewrite nth_store.
      destruct (Z.eqb_spec (pp_group p) (Z.of_nat g)) as [He|Hne].
      * rewrite He, Nat2Z.id, Nat.eqb_refl.
        destruct (Nat.ltb_spec g (length counts)); [|lia].
        cbn [andb length]. lia.
      * destruct (Nat.eqb_spec g (Z.to_nat (pp_group p))) as [He|_]; [lia|].
        reflexivity.
    + rewrite store_length. exact Hrest.
    + rewrite store_length. exact Hg.
Qed.

Lemma seq_strongly_sorted start len :
  StronglySorted Z.lt (map Z.of_nat (seq start len)).
Proof.
  revert start. induction len as [|len IH]; intros start; [constructor|].
  cbn [seq map]. constructor; [apply IH|].
  rewrite Forall_map, Forall_forall. intros x Hx. apply in_seq in Hx. lia.
Qed.

Lemma filter_strongly_sorted (f : nat -> bool) (l : list nat) :
  StronglySorted Z.lt (map Z.of_nat l) ->
  StronglySorted Z.lt (map Z.of_nat (filter f l)).
Proof.
  induction l as [|a l IH]; intros Hs; [constructor|].
  cbn [map] in Hs. inversion Hs as [|? ? Hs' Hf]; subst.
  cbn [filter]. destruct (f a); [|apply IH; exact Hs'].
  cbn [map]. constructor; [apply IH; exact Hs'|].
  rewrite Forall_map in *. rewrite Forall_forall in *.
  intros x Hx. apply filter_In in Hx. now apply Hf.
Qed.

(** X9. On a device with an ext filesystem whose [ext2fs_group_of_ino]
    answers with one of its groups, [trace_add_groups] gives every path
    its group and appends to the group list, in ascending order and each
    once, exactly the groups that hold more than
    [INODE_GROUP_PRELOAD_THRESHOLD] of the paths; the blocks are left
    alone. *)
Theorem trace_add_groups_lists (fs : ext2_filsys) (file : PackFile) :
  Forall (fun p => 0 <= group_of_ino fs (pp_ino p) < Z.of_nat (num_groups fs))
         (pf_paths file) ->
  let file' := trace_add_groups (Some fs) file in
  pf_paths file'
  = map (fun p => mk_PackPath (group_of_ino fs (pp_ino p)) (pp_ino p) (pp_path p))
        (pf_paths file)
  /\ pf_blocks file' = pf_blocks file
  /\ exists hits,
       pf_groups file' = pf_groups file ++ hits
       /\ StronglySorted Z.lt hits
       /\ forall g, In g hits
                    <-> 0 <= g < Z.of_nat (num_groups fs)
                        /\ INODE_GROUP_PRELOAD_THRESHOLD
                           < Z.of_nat (length (filter (fun p => pp_group p =? g)
                                                      (pf_paths file'))).
Proof.
  intros Hin file'. subst file'. unfold trace_add_groups.
  cbn [pf_paths pf_blocks pf_groups].
  set (paths := map (fun p => mk_PackPath (group_of_ino fs (pp_ino p)) (pp_ino p)
                                          (pp_path p)) (pf_paths file)).
  assert (Hpaths : Forall (fun p => 0 <= pp_group p
                                    < Z.of_nat (length (repeat 0 (num_groups fs))))
                          paths).
  { subst paths. rewrite Forall_map, repeat_length. exact Hin. }
  split; [reflexivity|]. split; [reflexivity|].
  eexists. split; [reflexivity|]. split.
  - apply filter_strongly_sorted, seq_strongly_sorted.
  - intros g. rewrite in_map_iff. split.
    + intros (i & <- & Hi). apply filter_In in Hi. destruct Hi as [Hi Hc].
      apply in_seq in Hi. split; [lia|].
      pose proof (count_groups_nth paths _ i Hpaths
                    ltac:(rewrite repeat_length; lia)) as Hn.
      cbv zeta in Hn. rewrite Hn, nth_repeat in Hc. lia.
    + intros [Hg Hc]. exists (Z.to_nat g). split; [lia|].
      apply filter_In. split; [apply in_seq; lia|].
      pose proof (count_groups_nth paths _ (Z.to_nat g) Hpaths
                    ltac:(rewrite repeat_length; lia)) as Hn.
      cbv zeta in Hn. rewrite Hn, nth_repeat, Z2Nat.id by lia. lia.
Qed.

(** A filesystem of two groups of a hundred inodes, and a file with nine
    paths in the second group and one in the first. *)
Definition two_groups : ext2_filsys := mk_ext2_filsys 2 (fun ino => ino / 100).

Definition ten_paths_file : PackFile :=
  mk_PackFile 2049 true []
              (map (fun ino => mk_PackPath (-1) ino "/f") [1; 100; 101; 102; 103; 104;
                                                          105; 106; 107; 108])
              [].

Lemma trace_add_groups_lists_witness :
  pf_groups (trace_add_groups (Some two_groups) ten_paths_file) = [1]
  /\ exists hits,
       pf_groups (trace_add_groups (Some two_groups) ten_paths_file)
       = pf_groups ten_paths_file ++ hits
       /\ StronglySorted Z.lt hits
       /\ forall g, In g hits
                    <-> 0 <= g < Z.of_nat (num_groups two_groups)
                        /\ INODE_GROUP_PRELOAD_THRESHOLD
                           < Z.of_nat
                               (length
                                  (filter (fun p => pp_group p =? g)
                                          (pf_paths (trace_add_groups (Some two_groups)
                                                                      ten_paths_file)))).
Proof.
  split; [vm_compute; reflexivity|].
  apply (trace_add_groups_lists two_groups ten_paths_file).
  repeat constructor; vm_compute; discriminate.
Defined.

Lemma trace_sort_paths_keeps_paths_witness :
  Permutation (pf_paths (trace_sort_paths two_inodes_file)) (pf_paths two_inodes_file)
  /\ Forall2 (fun b b' =>
                path_at (trace_sort_paths two_inodes_file) (pb_pathidx b')
                = path_at two_inodes_file (pb_pathidx b)
                /\ pb_offset b' = pb_offset b /\ pb_length b' = pb_length b
                /\ pb_physical b' = pb_physical b)
             (pf_blocks two_inodes_file) (pf_blocks (trace_sort_paths two_inodes_file)).
Proof.
  apply (trace_sort_paths_keeps_paths two_inodes_file).
  repeat constructor; vm_compute; discriminate.
Defined.

(** ** [fix_path]: a second pass, and the room it needs *)

(** What [fix_path] returns, with the pieces it kept. *)
Lemma fix_path_renders (pathname : list ascii) :
  Forall (fun c => c <> NUL) pathname ->
  exists st, state_ok st
             /\ normalize pathname = render st
             /\ fix_path pathname = Some (render st).
Proof.
  intros Hnul. destruct (split_slash_plain pathname Hnul) as [Hfirst Hothers].
  pose proof (split_slash_join pathname) as Hjoin.
  unfold normalize, fix_path.
  destruct (split_slash pathname) as [first others]. cbn [fst snd] in *.
  assert (Hinit : state_ok (first, [])) by (split; [exact Hfirst|constructor]).
  pose proof (fold_component_step_ok others Hothers _ Hinit) as Hfinal.
  set (final := fold_left component_step others (first, [])) in *.
  assert (Hrender0 : render (first, []) = first).
  { unfold render. simpl. apply app_nil_r. }
  assert (Hloop : fix_path_loop (S (length pathname)) pathname O
                  = Some (render final, length (render final))).
  { rewrite Hjoin at 1 2. rewrite length_app.
    replace (S (length first + length (join_slash others)))
      with (length first + S (length (join_slash others)))%nat by lia.
    rewrite (fix_path_loop_advance first Hfirst [] (join_slash others)).
    cbn [app length Nat.add]. rewrite <- Hrender0 at 1 2.
    apply fix_path_loop_components; auto. }
  exists final. split; [exact Hfinal|]. split; [reflexivity|].
  rewrite Hloop, strip_trailing_normal by exact Hfinal. reflexivity.
Qed.

(** Pieces that are kept are pushed one on the other. *)
Lemma fold_component_step_kept comps :
  Forall kept comps -> forall head stack,
    fold_left component_step comps (head, stack) = (head, rev comps ++ stack).
Proof.
  induction 1 as [|c comps (Hp & Hne & Hdot & Hdd) _ IH]; intros head stack;
    [reflexivity|].
  cbn [fold_left]. unfold component_step at 2.
  destruct c as [|x c']; [congruence|]. rewrite Hdot, Hdd. cbn [fst snd].
  rewrite IH. cbn [rev]. rewrite <- app_assoc. reflexivity.
Qed.

Lemma normalize_render st : state_ok st -> normalize (render st) = render st.
Proof.
  intros Hst. unfold normalize. rewrite (split_slash_render st Hst).
  destruct Hst as [Hh Hs]. rewrite fold_component_step_kept by (now apply Forall_rev).
  rewrite rev_involutive, app_nil_r. destruct st; reflexivity.
Qed.

Lemma render_no_nul st : state_ok st -> Forall (fun c => c <> NUL) (render st).
Proof.
  intros [Hh Hs]. unfold render. apply Forall_app. split.
  - eapply Forall_impl; [|exact Hh]. intros c [_ Hc]. exact Hc.
  - apply Forall_rev in Hs. induction Hs as [|c comps (Hp & _) _ IH]; [constructor|].
    cbn [map concat]. constructor; [discriminate|].
    apply Forall_app. split; [|exact IH].
    eapply Forall_impl; [|exact Hp]. intros x [_ Hx]. exact Hx.
Qed.

(** X10. [fix_path] on its own result changes nothing: a name that went
    through [fix_path] once is in its final form. *)
Theorem fix_path_idempotent (pathname : list ascii) :
  Forall (fun c => c <> NUL) pathname ->
  exists fixed, fix_path pathname = Some fixed /\ fix_path fixed = Some fixed.
Proof.
  intros Hnul. destruct (fix_path_renders pathname Hnul) as (st & Hst & _ & Hfix).
  exists (render st). split; [exact Hfix|].
  destruct (fix_path_renders (render st) (render_no_nul st Hst))
    as (st' & _ & Hnorm & Hfix').
  rewrite Hfix', <- Hnorm, (normalize_render st Hst). reflexivity.
Qed.

Lemma fix_path_idempotent_witness :
  exists fixed,
    fix_path (list_ascii_of_string "/a//b/./c/../d/") = Some fixed
    /\ fix_path fixed = Some fixed.
Proof.
  apply fix_path_idempotent. repeat constructor; discriminate.
Defined.

Lemma render_length_step st c :
  (length (render (component_step st c)) <= length (render st) + S (length c))%nat.
Proof.
  destruct st as [head stack]. unfold component_step.
  destruct c as [|x c']; [lia|].
  destruct (is_dot (x :: c')); [lia|].
  destruct (is_dotdot (x :: c')).
  - cbn [fst snd]. destruct stack as [|top below].
    + unfold render. simpl. lia.
    + rewrite (render_push head below top), length_app. lia.
  - cbn [fst snd]. rewrite render_push, length_app. simpl. lia.
Qed.

Lemma render_length_fold comps :
  forall st,
    (length (render (fold_left component_step comps st))
     <= length (render st) + length (join_slash comps))%nat.
Proof.
  induction comps as [|c comps IH]; intros st; [simpl; lia|].
  cbn [fold_left].
  change (join_slash (c :: comps)) with (("/"%char :: c) ++ join_slash comps).
  rewrite length_app. cbn [length].
  pose proof (IH (component_step st c)). pose proof (render_length_step st c). lia.
Qed.

(** X11. What [fix_path] leaves in the buffer is never longer than what
    it was given: the in-place edit needs no room beyond the string. *)
Theorem fix_path_not_longer (pathname : list ascii) :
  Forall (fun c => c <> NUL) pathname ->
  exists fixed, fix_path pathname = Some fixed
                /\ (length fixed <= length pathname)%nat.
Proof.
  intros Hnul. destruct (fix_path_renders pathname Hnul) as (st & _ & Hnorm & Hfix).
  exists (render st). split; [exact Hfix|]. rewrite <- Hnorm.
  unfold normalize. pose proof (split_slash_join pathname) as Hjoin.
  destruct (split_slash pathname) as [first others]. cbn [fst snd] in Hjoin.
  rewrite Hjoin, length_app.
  pose proof (render_length_fold others (first, [])) as Hlen.
  replace (length (render (first, []))) with (length first) in Hlen
    by (unfold render; simpl; rewrite app_nil_r; reflexivity).
  exact Hlen.
Qed.

Lemma fix_path_not_longer_witness :
  exists fixed,
    fix_path (list_ascii_of_string "/usr/lib/../bin/./sh") = Some fixed
    /\ (length fixed <= length (list_ascii_of_string "/usr/lib/../bin/./sh"))%nat.
Proof.
  apply fix_path_not_longer. repeat constructor; discriminate.
Defined.

(** ** The pack assembler: what the two tables keep out *)

(** Past the three tests on the name, [trace_add_path] puts the name in
    the table of the paths seen, whatever comes after. *)
Lemma trace_add_path_remembers sys force_ssd_mode st pathname :
  negb (starts_with_slash pathname) = false ->
  ignore_path pathname = false ->
  (Z.of_nat (String.length pathname) >? PACK_PATH_MAX) = false ->
  existsb (String.eqb pathname) (path_hash st) = false ->
  path_hash (snd (trace_add_path sys force_ssd_mode st pathname))
  = pathname :: path_hash st.
Proof.
  intros H1 H2 H3 H4. unfold trace_add_path. rewrite H1, H2, H3, H4.
  destruct (sys_lstat sys pathname) as [statbuf0|]; [|reflexivity].
  destruct (st_kind statbuf0); try reflexivity.
  destruct (sys_open sys pathname) as [fd|]; [|reflexivity].
  destruct (sys_fstat sys fd) as [statbuf|]; [|reflexivity].
  destruct (st_kind statbuf); try reflexivity.
  cbn [files path_hash inode_hash].
  destruct (trace_file sys (st_dev statbuf) (files st) force_ssd_mode) as [files1 fi].
  destruct (existsb _ (inode_hash st)); [reflexivity|].
  destruct (st_size statbuf =? 0); reflexivity.
Qed.

(** X12. A name handed to [trace_add_path] a second time is dropped: the
    call returns 0 and changes nothing, also when the first call failed
    to open the file. *)
Theorem trace_add_path_once (sys : system) (force_ssd_mode : bool)
        (st : trace_state) (pathname : string) :
  let st1 := snd (trace_add_path sys force_ssd_mode st pathname) in
  trace_add_path sys force_ssd_mode st1 pathname = (0, st1).
Proof.
  cbv zeta.
  destruct (negb (starts_with_slash pathname)) eqn:H1.
  { unfold trace_add_path. rewrite ?H1. cbn [snd]. rewrite ?H1. reflexivity. }
  destruct (ignore_path pathname) eqn:H2.
  { unfold trace_add_path. rewrite ?H1, ?H2. cbn [snd]. rewrite ?H1, ?H2.
    reflexivity. }
  destruct (Z.of_nat (String.length pathname) >? PACK_PATH_MAX) eqn:H3.
  { unfold trace_add_path. rewrite ?H1, ?H2, ?H3. cbn [snd]. rewrite ?H1, ?H2, ?H3.
    reflexivity. }
  destruct (existsb (String.eqb pathname) (path_hash st)) eqn:H4.
  { unfold trace_add_path. rewrite ?H1, ?H2, ?H3, ?H4. cbn [snd].
    rewrite ?H1, ?H2, ?H3, ?H4. reflexivity. }
  pose proof (trace_add_path_remembers sys force_ssd_mode st pathname H1 H2 H3 H4) as Hr.
  set (st1 := snd (trace_add_path sys force_ssd_mode st pathname)) in *.
  unfold trace_add_path at 1. rewrite H1, H2, H3, Hr. cbn [existsb].
  rewrite String.eqb_refl. reflexivity.
Qed.

(** Every return of [trace_add_path], with what the two tables hold after
    it: nothing is added to the array, or the name passed the tests, was
    not in the table of paths, and the file of its device got it as a new
    path, with blocks only when its inode was not in the table of
    inodes. *)
Lemma trace_add_path_cases sys force_ssd_mode st pathname :
  let st' := snd (trace_add_path sys force_ssd_mode st pathname) in
  (files st' = files st /\ inode_hash st' = inode_hash st)
  \/ (starts_with_slash pathname = true
      /\ ignore_path pathname = false
      /\ Z.of_nat (String.length pathname) <= PACK_PATH_MAX
      /\ existsb (String.eqb pathname) (path_hash st) = false
      /\ exists dev ino file2,
           let '(files1, fi) := trace_file sys dev (files st) force_ssd_mode in
           let file1 := add_path (nth fi files1 no_file) ino pathname in
           files st' = store files1 fi file2
           /\ appends file1 file2
           /\ ((inode_seen st dev ino = true /\ file2 = file1
                /\ inode_hash st' = inode_hash st)
               \/ (inode_seen st dev ino = false
                   /\ inode_hash st' = (dev, ino) :: inode_hash st))).
Proof.
  unfold trace_add_path.
  destruct (starts_with_slash pathname) eqn:H1; cbn [negb]; [|left; auto].
  destruct (ignore_path pathname) eqn:H2; [left; auto|].
  destruct (Z.gtb_spec (Z.of_nat (String.length pathname)) PACK_PATH_MAX) as [H3|H3];
    [left; auto|].
  destruct (existsb _ (path_hash st)) eqn:H4; [left; auto|].
  destruct (sys_lstat sys pathname) as [statbuf0|]; [|left; auto].
  destruct (st_kind statbuf0); try (left; split; reflexivity).
  destruct (sys_open sys pathname) as [fd|]; [|left; auto].
  destruct (sys_fstat sys fd) as [statbuf|]; [|left; auto].
  destruct (st_kind statbuf); try (left; split; reflexivity).
  cbn [files path_hash inode_hash]. right.
  split; [reflexivity|]. split; [reflexivity|]. split; [exact H3|].
  split; [reflexivity|].
  exists (st_dev statbuf), (st_ino statbuf). unfold inode_seen. cbn [fst snd].
  destruct (trace_file sys (st_dev statbuf) (files st) force_ssd_mode) as [files1 fi].
  destruct (existsb _ (inode_hash st)).
  - eexists. split; [reflexivity|]. split; [apply appends_refl|]. left. auto.
  - destruct (st_size statbuf =? 0).
    + eexists. split; [reflexivity|]. split; [apply appends_refl|]. right. auto.
    + eexists. split; [reflexivity|]. split; [apply appends_trace_add_chunks|].
      right. auto.
Qed.

(** The names of all the paths of all the files. *)
Definition pack_names (files : list PackFile) : list string :=
  concat (map (fun f => map pp_path (pf_paths f)) files).

Lemma pack_names_store files q :
  forall i file',
    (i < length files)%nat ->
    pf_paths file' = pf_paths (nth i files no_file) ++ [q] ->
    Permutation (pack_names (store files i file')) (pp_path q :: pack_names files).
Proof.
  induction files as [|f files IH]; intros i file' Hi Hp; [simpl in Hi; lia|].
  destruct i as [|i]; unfold pack_names; cbn [store map concat nth] in *.
  - rewrite Hp, map_app. cbn [map]. rewrite <- app_assoc.
    apply Permutation_sym.
    apply (Permutation_middle (map pp_path (pf_paths f)) _ (pp_path q)).
  - specialize (IH i file' ltac:(simpl in Hi; lia) Hp). unfold pack_names in IH.
    eapply Permutation_trans; [apply Permutation_app_head; exact IH|].
    apply Permutation_sym.
    apply (Permutation_middle (map pp_path (pf_paths f)) _ (pp_path q)).
Qed.

Lemma pack_names_fresh files fresh :
  pf_paths fresh = [] -> pack_names (files ++ [fresh]) = pack_names files.
Proof.
  intros Hp. unfold pack_names. rewrite map_app, concat_app. cbn [map concat].
  rewrite Hp. cbn [map]. rewrite !app_nil_r. reflexivity.
Qed.

(** One call adds no name, or the name it was given. *)
Lemma trace_add_path_names sys force_ssd_mode st pathname :
  let st' := snd (trace_add_path sys force_ssd_mode st pathname) in
  pack_names (files st') = pack_names (files st)
  \/ (starts_with_slash pathname = true
      /\ ignore_path pathname = false
      /\ Z.of_nat (String.length pathname) <= PACK_PATH_MAX
      /\ existsb (String.eqb pathname) (path_hash st) = false
      /\ Permutation (pack_names (files st')) (pathname :: pack_names (files st))).
Proof.
  cbv zeta.
  destruct (trace_add_path_cases sys force_ssd_mode st pathname)
    as [[-> _]|(H1 & H2 & H3 & H4 & dev & ino & file2 & H)]; [left; reflexivity|].
  right. split; [exact H1|]. split; [exact H2|]. split; [exact H3|].
  split; [exact H4|].
  pose proof (trace_file_spec sys dev (files st) force_ssd_mode) as Hspec.
  destruct (trace_file sys dev (files st) force_ssd_mode) as [files1 fi].
  destruct H as (-> & (_ & _ & Hp & _) & _). destruct Hspec as (Hi & _ & Hcase).
  assert (Hnames : pack_names files1 = pack_names (files st)).
  { destruct Hcase as [[_ ->]|(_ & fresh & -> & _ & _ & Hfp & _)]; [reflexivity|].
    now apply pack_names_fresh. }
  rewrite <- Hnames.
  apply (pack_names_store files1 (mk_PackPath (-1) ino pathname) fi file2 Hi).
  rewrite Hp. reflexivity.
Qed.

(** X13. No name is in the pack files twice, in one file or in two, and
    every name in them was handed to [trace_add_path], starts with ['/'],
    is under none of the ignored directories and has [PACK_PATH_MAX]
    characters at most. *)
Theorem pack_names_distinct (sys : system) (force_ssd_mode : bool)
        (pathnames : list string) :
  let names := pack_names (files (trace_add_paths sys force_ssd_mode pathnames)) in
  NoDup names
  /\ forall name, In name names ->
       In name pathnames
       /\ starts_with_slash name = true
       /\ ignore_path name = false
       /\ Z.of_nat (String.length name) <= PACK_PATH_MAX.
Proof.
  cbv zeta. unfold trace_add_paths.
  assert (Hgen : forall todo st,
            NoDup (pack_names (files st)) ->
            (forall name, In name (pack_names (files st)) ->
                          existsb (String.eqb name) (path_hash st) = true) ->
            let st' := fold_left (fun st p => snd (trace_add_path sys force_ssd_mode st p))
                                 todo st in
            NoDup (pack_names (files st'))
            /\ forall name, In name (pack_names (files st')) ->
                 In name (pack_names (files st))
                 \/ (In name todo
                     /\ starts_with_slash name = true
                     /\ ignore_path name = false
                     /\ Z.of_nat (String.length name) <= PACK_PATH_MAX)).
  { induction todo as [|p todo IH]; intros st Hnd Hseen; cbn [fold_left].
    - split; [exact Hnd|]. intros name Hn. left. exact Hn.
    - set (st1 := snd (trace_add_path sys force_ssd_mode st p)).
      assert (Hhash : forall name, existsb (String.eqb name) (path_hash st) = true ->
                                   existsb (String.eqb name) (path_hash st1) = true).
      { intros name Hn. subst st1. unfold trace_add_path.
        destruct (negb (starts_with_slash p)); [exact Hn|].
        destruct (ignore_path p); [exact Hn|].
        destruct (_ >? PACK_PATH_MAX); [exact Hn|].
        destruct (existsb (String.eqb p) (path_hash st)); [exact Hn|].
        assert (Hn' : existsb (String.eqb name) (p :: path_hash st) = true)
          by (cbn [existsb]; rewrite Hn; apply orb_true_r).
        destruct (sys_lstat sys p) as [statbuf0|]; [|exact Hn'].
        destruct (st_kind statbuf0); try exact Hn'.
        destruct (sys_open sys p) as [fd|]; [|exact Hn'].
        destruct (sys_fstat sys fd) as [statbuf|]; [|exact Hn'].
        destruct (st_kind statbuf); try exact Hn'.
        cbn [files path_hash inode_hash].
        destruct (trace_file sys (st_dev statbuf) (files st) force_ssd_mode)
          as [files1 fi].
        destruct (existsb _ (inode_hash st)); [exact Hn'|].
        destruct (st_size statbuf =? 0); exact Hn'. }
      destruct (trace_add_path_names sys force_ssd_mode st p)
        as [Hsame|(H1 & H2 & H3 & H4 & Hperm)]; fold st1 in Hsame || fold st1 in Hperm.
      + destruct (IH st1) as [Hnd' Hin'].
        * rewrite Hsame. exact Hnd.
        * intros name Hn. rewrite Hsame in Hn. apply Hhash, Hseen, Hn.
        * split; [exact Hnd'|]. intros name Hn.
          destruct (Hin' name Hn) as [Ho|(Ht & Hrest)].
          -- left. rewrite <- Hsame. exact Ho.
          -- right. split; [right; exact Ht|exact Hrest].
      + assert (Hnew : ~ In p (pack_names (files st))).
        { intros Hp. rewrite (Hseen p Hp) in H4. discriminate. }
        assert (Hr : path_hash st1 = p :: path_hash st).
        { apply trace_add_path_remembers; auto.
          - rewrite H1. reflexivity.
          - destruct (Z.gtb_spec (Z.of_nat (String.length p)) PACK_PATH_MAX);
              [lia|reflexivity]. }
        destruct (IH st1) as [Hnd' Hin'].
        * eapply Permutation_NoDup; [apply Permutation_sym; exact Hperm|].
          constructor; assumption.
        * intros name Hn. apply (Permutation_in _ Hperm) in Hn. rewrite Hr.
          cbn [existsb]. destruct Hn as [<-|Hn].
          -- rewrite String.eqb_refl. reflexivity.
          -- rewrite (Hseen name Hn). apply orb_true_r.
        * split; [exact Hnd'|]. intros name Hn.
          destruct (Hin' name Hn) as [Ho|(Ht & Hrest)].
          -- apply (Permutation_in _ Hperm) in Ho. destruct Ho as [<-|Ho].
             ++ right. split; [left; reflexivity|auto].
             ++ left. exact Ho.
          -- right. split; [right; exact Ht|exact Hrest]. }
  destruct (Hgen pathnames trace_state_init) as [Hnd Hin].
  - constructor.
  - intros name [].
  - split; [exact Hnd|]. intros name Hn.
    destruct (Hin name Hn) as [[]|H]. exact H.
Qed.

Lemma inode_seen_cons st st' key dev ino :
  inode_hash st' = key :: inode_hash st ->
  inode_seen st dev ino = true -> inode_seen st' dev ino = true.
Proof.
  unfold inode_seen. intros -> H. cbn [existsb]. rewrite H. apply orb_true_r.
Qed.

(** The blocks of a file are for inodes in the table, and one inode has
    blocks under one path. *)
Definition blocks_once (st : trace_state) (file : PackFile) : Prop :=
  (forall b, In b (pf_blocks file) ->
             inode_seen st (pf_dev file) (pp_ino (path_at file (pb_pathidx b))) = true)
  /\ (forall b1 b2, In b1 (pf_blocks file) -> In b2 (pf_blocks file) ->
        pp_ino (path_at file (pb_pathidx b1)) = pp_ino (path_at file (pb_pathidx b2)) ->
        pb_pathidx b1 = pb_pathidx b2).

Lemma trace_add_path_blocks_once sys force_ssd_mode st pathname :
  Forall assembled (files st) ->
  Forall (blocks_once st) (files st) ->
  let st' := snd (trace_add_path sys force_ssd_mode st pathname) in
  Forall (blocks_once st') (files st').
Proof.
  intros Hasm Honce. cbv zeta.
  destruct (trace_add_path_cases sys force_ssd_mode st pathname)
    as [[Hf Hi]|(_ & _ & _ & _ & dev & ino & file2 & H)].
  { rewrite Hf. eapply Forall_impl; [|exact Honce].
    intros file [Hb Hc]. split; [|exact Hc].
    intros b Hin. unfold inode_seen. rewrite Hi. apply (Hb b Hin). }
  pose proof (trace_file_spec sys dev (files st) force_ssd_mode) as Hspec.
  destruct (trace_file sys dev (files st) force_ssd_mode) as [files1 fi].
  destruct H as (Hfiles & Happ & Hsub). destruct Hspec as (Hfi & Hdev & Hcase).
  set (st' := snd (trace_add_path sys force_ssd_mode st pathname)) in *.
  assert (Hmono : forall d i, inode_seen st d i = true -> inode_seen st' d i = true).
  { intros d i Hs. destruct Hsub as [(_ & _ & Hh)|(_ & Hh)].
    - unfold inode_seen. rewrite Hh. exact Hs.
    - eapply inode_seen_cons; eassumption. }
  assert (Hall1 : Forall (fun f => assembled f /\ blocks_once st f) files1).
  { assert (Hboth : Forall (fun f => assembled f /\ blocks_once st f) (files st)).
    { rewrite Forall_forall in *. intros f Hf. split; auto. }
    destruct Hcase as [[_ ->]|(_ & fresh & -> & _ & _ & Hp & Hb)]; [exact Hboth|].
    apply Forall_app. split; [exact Hboth|]. constructor; [|constructor].
    split; [split|split].
    - unfold pathidx_valid. rewrite Hb. constructor.
    - unfold grouped_by_path. rewrite Hb. exact I.
    - rewrite Hb. intros b [].
    - rewrite Hb. intros b1 b2 []. }
  rewrite Hfiles. rewrite Forall_forall. intros file Hin.
  apply In_store in Hin. destruct Hin as [->|Hin].
  2:{ rewrite Forall_forall in Hall1. destruct (Hall1 file Hin) as [_ [Hb Hc]].
      split; [|exact Hc]. intros b Hbin. apply Hmono, Hb, Hbin. }
  set (F := nth fi files1 no_file) in *.
  assert (HF : assembled F /\ blocks_once st F).
  { rewrite Forall_forall in Hall1. apply Hall1. now apply nth_In. }
  destruct HF as [[Hvalid _] [Hb Hc]].
  destruct Happ as (Hd2 & _ & Hp2 & new & Hb2 & Hnew).
  cbn [add_path pf_dev pf_paths pf_blocks] in Hd2, Hp2, Hb2.
  unfold last_pathidx in Hnew. cbn [add_path pf_paths] in Hnew.
  rewrite length_app in Hnew. cbn [length] in Hnew.
  assert (Hold : forall b, In b (pf_blocks F) ->
            path_at file2 (pb_pathidx b) = path_at F (pb_pathidx b)
            /\ pb_pathidx b < Z.of_nat (length (pf_paths F))).
  { intros b Hbin. unfold pathidx_valid in Hvalid. rewrite Forall_forall in Hvalid.
    specialize (Hvalid b Hbin). split; [|lia].
    unfold path_at. rewrite Hp2, app_nth1 by lia. reflexivity. }
  assert (Hfresh : forall b, In b new ->
            pp_ino (path_at file2 (pb_pathidx b)) = ino
            /\ pb_pathidx b = Z.of_nat (length (pf_paths F))).
  { intros b Hbin. rewrite Forall_forall in Hnew. specialize (Hnew b Hbin).
    assert (Hidx : pb_pathidx b = Z.of_nat (length (pf_paths F))) by lia.
    split; [|exact Hidx]. unfold path_at. rewrite Hp2, Hidx, Nat2Z.id, nth_middle.
    reflexivity. }
  assert (Hnone : inode_seen st dev ino = true -> new = []).
  { intros Hs. destruct Hsub as [(_ & -> & _)|(Hs' & _)]; [|congruence].
    cbn [add_path pf_blocks] in Hb2.
    rewrite <- (app_nil_r (pf_blocks F)) in Hb2 at 1.
    apply app_inv_head in Hb2. congruence. }
  fold F in Hdev. split.
  - intros b Hbin. rewrite Hb2 in Hbin. rewrite Hd2. apply in_app_iff in Hbin.
    destruct Hbin as [Hbin|Hbin].
    + rewrite (proj1 (Hold b Hbin)). apply Hmono, Hb, Hbin.
    + destruct (Hfresh b Hbin) as [-> _]. rewrite Hdev.
      destruct Hsub as [(Hs & _)|(_ & Hh)].
      * rewrite (Hnone Hs) in Hbin. destruct Hbin.
      * unfold inode_seen. rewrite Hh. cbn [existsb fst snd].
        rewrite !Z.eqb_refl. reflexivity.
  - intros b1 b2 H1 H2 Heq. rewrite Hb2 in H1, H2.
    apply in_app_iff in H1. apply in_app_iff in H2.
    destruct H1 as [H1|H1], H2 as [H2|H2].
    + rewrite (proj1 (Hold b1 H1)), (proj1 (Hold b2 H2)) in Heq. now apply Hc.
    + exfalso. rewrite (proj1 (Hold b1 H1)), (proj1 (Hfresh b2 H2)) in Heq.
      pose proof (Hb b1 H1) as Hs. rewrite Heq, Hdev in Hs.
      rewrite (Hnone Hs) in H2. destruct H2.
    + exfalso. rewrite (proj1 (Hold b2 H2)), (proj1 (Hfresh b1 H1)) in Heq.
      pose proof (Hb b2 H2) as Hs. rewrite <- Heq, Hdev in Hs.
      rewrite (Hnone Hs) in H1. destruct H1.
    + rewrite (proj2 (Hfresh b1 H1)), (proj2 (Hfresh b2 H2)). reflexivity.
Qed.

(** X14. Names of one inode (hard links, or one file met under two
    names) are all kept as paths, but the blocks of the inode are in the
    file once.  A call of [trace_add_path] with a name it accepts and has
    not seen, for an inode that is in the table of inodes, adds the name
    as a path of the file of its device and adds no block.  After the
    paths of a trace every accepted name is a path of the file of its
    device, with the inode number of [fstat], and two blocks of a file
    whose paths have the same inode number are blocks of the same path. *)
Theorem blocks_once_per_inode (sys : system) (force_ssd_mode : bool) :
  (forall st pathname statbuf,
      accepted sys pathname statbuf ->
      path_seen st pathname = false ->
      inode_seen st (st_dev statbuf) (st_ino statbuf) = true ->
      let st' := snd (trace_add_path sys force_ssd_mode st pathname) in
      let path := mk_PackPath (-1) (st_ino statbuf) pathname in
      exists file',
        In file' (files st') /\ pf_dev file' = st_dev statbuf
        /\ In path (pf_paths file')
        /\ (map pf_blocks (files st') = map pf_blocks (files st)
            \/ map pf_blocks (files st') = map pf_blocks (files st) ++ [[]]))
  /\ (forall pathnames,
        let packs := files (trace_add_paths sys force_ssd_mode pathnames) in
        (forall pathname statbuf,
            In pathname pathnames -> accepted sys pathname statbuf ->
            exists file, In file packs /\ pf_dev file = st_dev statbuf
                         /\ In (mk_PackPath (-1) (st_ino statbuf) pathname)
                               (pf_paths file))
        /\ (forall file b1 b2,
              In file packs -> In b1 (pf_blocks file) -> In b2 (pf_blocks file) ->
              pp_ino (path_at file (pb_pathidx b1))
              = pp_ino (path_at file (pb_pathidx b2)) ->
              pb_pathidx b1 = pb_pathidx b2)).
Proof.
  split.
  - intros st pathname statbuf Hacc Hnew Hseen. cbv zeta.
    destruct (trace_add_path_lands sys force_ssd_mode st pathname statbuf Hacc Hnew)
      as (file' & Hd & [(i & Hi & Hdi & Hgrows & Hkeep & Hfiles)
                       |(Hnone & Hp & _ & Hkeep & Hfiles)]);
      exists file'; rewrite Hfiles.
    + split; [now apply store_In|]. split; [exact Hd|].
      split; [apply (grows_dev_paths _ _ _ Hgrows); right; reflexivity|].
      left. rewrite map_store, (Hkeep Hseen).
      rewrite <- (map_nth pf_blocks (files st) no_file i). apply store_same.
    + split; [apply in_app_iff; right; left; reflexivity|]. split; [exact Hd|].
      split; [rewrite Hp; left; reflexivity|].
      right. rewrite map_app. cbn [map]. rewrite (Hkeep Hseen). reflexivity.
  - intros pathnames. cbv zeta.
    split; [exact (proj1 (trace_add_paths_device sys force_ssd_mode pathnames))|].
    unfold trace_add_paths.
    assert (Hgen : forall todo st,
              Forall assembled (files st) -> NoDup (map pf_dev (files st)) ->
              Forall (blocks_once st) (files st) ->
              let st' := fold_left
                           (fun st p => snd (trace_add_path sys force_ssd_mode st p))
                           todo st in
              Forall (blocks_once st') (files st')).
    { induction todo as [|p todo IH]; intros st Ha Hn Ho; cbn [fold_left]; [exact Ho|].
      apply IH.
      - now apply trace_add_path_assembled.
      - now apply trace_add_path_devices.
      - now apply trace_add_path_blocks_once. }
    intros file b1 b2 Hfile H1 H2 Heq.
    pose proof (Hgen pathnames trace_state_init ltac:(constructor) ltac:(constructor)
                  ltac:(constructor)) as Hall.
    rewrite Forall_forall in Hall. destruct (Hall file Hfile) as [_ Hc].
    now apply Hc.
Qed.

(** Two names of inode 7. *)
Lemma blocks_once_per_inode_witness :
  files (trace_add_paths sample_system false ["/bin/sh"; "/bin/dash"]%string)
  = [mk_PackFile 2049 false []
                 [mk_PackPath (-1) 7 "/bin/sh"; mk_PackPath (-1) 7 "/bin/dash"]
                 [mk_PackBlock 0 0 8192 (-1)]]
  /\ exists file,
       In file (files (trace_add_paths sample_system false
                         ["/bin/sh"; "/bin/dash"]%string))
       /\ pf_dev file = 2049
       /\ In (mk_PackPath (-1) 7 "/bin/dash") (pf_paths file).
Proof.
  split; [vm_compute; reflexivity|].
  destruct (blocks_once_per_inode sample_system false) as [_ Hpaths].
  destruct (Hpaths ["/bin/sh"; "/bin/dash"]%string) as [Hin _].
  apply (Hin "/bin/dash"%string (mk_stat 2049 7 8192 Regular)).
  - right. left. reflexivity.
  - unfold accepted. split; [reflexivity|]. split; [reflexivity|].
    split; [vm_compute; discriminate|].
    split; [exists (mk_stat 2049 7 8192 Regular); split; reflexivity|].
    split; [exists 3; split; reflexivity|reflexivity].
Defined.

(** ** [trace_add_chunks]: the pages in core *)

(** The inner loop stops at the last page of the run of resident pages
    that page [i] is in. *)
Lemma extend_chunk_spec vec num_pages page_size :
  forall fuel i length,
    (num_pages - i <= fuel)%nat ->
    let '(i', length') := extend_chunk fuel vec num_pages page_size i length in
    (i <= i')%nat
    /\ (i < num_pages -> i' < num_pages)%nat
    /\ length' = length + Z.of_nat (i' - i) * page_size
    /\ (forall k, (i < k <= i')%nat -> vec_at vec k = true)
    /\ ((i' + 1 < num_pages)%nat -> vec_at vec (i' + 1) = false).
Proof.
  assert (Hstay : forall i length,
            (i <= i)%nat
            /\ (i < num_pages -> i < num_pages)%nat
            /\ length = length + Z.of_nat (i - i) * page_size
            /\ (forall k, (i < k <= i)%nat -> vec_at vec k = true)).
  { intros i length. rewrite Nat.sub_diag. split; [lia|]. split; [auto|].
    split; [simpl; lia|]. intros k Hk. lia. }
  induction fuel as [|fuel IH]; intros i length Hfuel.
  - cbn [extend_chunk]. destruct (Hstay i length) as (H1 & H2 & H3 & H4).
    split; [exact H1|]. split; [exact H2|]. split; [exact H3|]. split; [exact H4|].
    intros Hn. lia.
  - cbn [extend_chunk].
    destruct (Nat.ltb_spec (i + 1) num_pages) as [Hlt|Hge]; cbn [andb].
    + destruct (vec_at vec (i + 1)) eqn:Hv.
      * specialize (IH (i + 1)%nat (length + page_size) ltac:(lia)).
        destruct (extend_chunk fuel vec num_pages page_size (i + 1) (length + page_size))
          as [i' length'].
        destruct IH as (H1 & H2 & H3 & H4 & H5).
        split; [lia|]. split; [lia|]. split; [|split].
        -- rewrite H3. replace (i' - i)%nat with (S (i' - (i + 1)))%nat by lia.
           rewrite Nat2Z.inj_succ. lia.
        -- intros k Hk. destruct (Nat.eq_dec k (i + 1)) as [->|Hne]; [exact Hv|].
           apply H4. lia.
        -- exact H5.
      * destruct (Hstay i length) as (H1 & H2 & H3 & H4).
        split; [exact H1|]. split; [exact H2|]. split; [exact H3|]. split; [exact H4|].
        intros _. exact Hv.
    + destruct (Hstay i length) as (H1 & H2 & H3 & H4).
      split; [exact H1|]. split; [exact H2|]. split; [exact H3|]. split; [exact H4|].
      intros Hn. lia.
Qed.

(** A block that is a run of resident pages, closed on the right by a
    page that is not resident or by the end of the file. *)
Definition resident_run (vec : list bool) (num_pages : nat) (page_size idx : Z)
           (from : nat) (b : PackBlock) : Prop :=
  exists a m,
    (from <= a)%nat /\ (1 <= m)%nat /\ (a + m <= num_pages)%nat
    /\ b = mk_PackBlock idx (Z.of_nat a * page_size) (Z.of_nat m * page_size) (-1)
    /\ (forall k, (a <= k < a + m)%nat -> vec_at vec k = true)
    /\ ((a + m < num_pages)%nat -> vec_at vec (a + m) = false).

(** [b1] ends before [b2] starts, with room between them. *)
Definition apart (b1 b2 : PackBlock) : Prop :=
  pb_offset b1 + pb_length b1 < pb_offset b2.

Lemma chunk_loop_blocks sys vec num_pages fd :
  0 < sys_page_size sys ->
  forall fuel i file,
    pf_rotational file = false -> (num_pages - i <= fuel)%nat ->
    exists new,
      pf_blocks (chunk_loop fuel sys vec num_pages fd i file) = pf_blocks file ++ new
      /\ Forall (resident_run vec num_pages (sys_page_size sys) (last_pathidx file) i) new
      /\ StronglySorted apart new
      /\ forall k, (i <= k < num_pages)%nat -> vec_at vec k = true ->
           exists b, In b new
                     /\ pb_offset b <= Z.of_nat k * sys_page_size sys
                        < pb_offset b + pb_length b.
Proof.
  intros Hps. induction fuel as [|fuel IH]; intros i file Hrot Hfuel.
  - exists []. cbn [chunk_loop]. rewrite app_nil_r.
    repeat split; try constructor. intros k Hk. lia.
  - cbn [chunk_loop]. destruct (Nat.ltb_spec i num_pages) as [Hlt|Hge].
    2:{ exists []. rewrite app_nil_r. repeat split; try constructor.
        intros k Hk. lia. }
    destruct (vec_at vec i) eqn:Hv; cbn [negb].
    + pose proof (extend_chunk_spec vec num_pages (sys_page_size sys) num_pages i
                    (sys_page_size sys) ltac:(lia)) as Hext.
      destruct (extend_chunk num_pages vec num_pages (sys_page_size sys) i
                             (sys_page_size sys)) as [i' length].
      destruct Hext as (H1 & H2 & H3 & H4 & H5). specialize (H2 Hlt).
      unfold add_chunk. rewrite Hrot.
      set (b := mk_PackBlock (last_pathidx file) (Z.of_nat i * sys_page_size sys)
                             length (-1)).
      destruct (IH (i' + 1)%nat (add_block file b) Hrot ltac:(lia))
        as (new & Hnew & Hruns & Hsorted & Hcov).
      assert (Hb : resident_run vec num_pages (sys_page_size sys) (last_pathidx file) i b).
      { exists i, (i' - i + 1)%nat. split; [lia|]. split; [lia|]. split; [lia|].
        split; [|split].
        - subst b. f_equal. rewrite H3. lia.
        - intros k Hk. destruct (Nat.eq_dec k i) as [->|Hne]; [exact Hv|].
          apply H4. lia.
        - intros Hn. replace (i + (i' - i + 1))%nat with (i' + 1)%nat by lia.
          apply H5. lia. }
      assert (Hlater : Forall (fun b' => apart b b'
                                         /\ resident_run vec num_pages (sys_page_size sys)
                                                         (last_pathidx file) i b') new).
      { eapply Forall_impl; [|exact Hruns]. cbv beta.
        intros b' (a & m & Ha & Hm & Hn & -> & Hres & Hend).
        cbn [add_block last_pathidx pf_paths] in *. split.
        - unfold apart. subst b. cbn [pb_offset pb_length]. rewrite H3.
          assert (Hi1 : a <> (i' + 1)%nat).
          { intros ->. specialize (Hres (i' + 1)%nat ltac:(lia)).
            rewrite H5 in Hres by lia. discriminate. }
          nia.
        - exists a, m. split; [lia|]. auto. }
      exists (b :: new). split; [|split; [|split]].
      * rewrite Hnew. cbn [add_block pf_blocks]. rewrite <- app_assoc. reflexivity.
      * constructor; [exact Hb|]. eapply Forall_impl; [|exact Hlater]. cbv beta. tauto.
      * constructor; [exact Hsorted|]. eapply Forall_impl; [|exact Hlater].
        cbv beta. tauto.
      * intros k Hk Hvk. destruct (Nat.le_gt_cases k i') as [Hle|Hgt].
        -- exists b. split; [left; reflexivity|]. subst b. cbn [pb_offset pb_length].
           rewrite H3. nia.
        -- destruct (Hcov k ltac:(lia) Hvk) as (b' & Hb' & Hin).
           exists b'. split; [right; exact Hb'|exact Hin].
    + destruct (IH (i + 1)%nat file Hrot ltac:(lia)) as (new & Hnew & Hruns & Hs & Hcov).
      exists new. split; [exact Hnew|]. split; [|split; [exact Hs|]].
      * eapply Forall_impl; [|exact Hruns]. cbv beta.
        intros b' (a & m & Ha & Hrest). exists a, m. split; [lia|exact Hrest].
      * intros k Hk Hvk. destruct (Nat.eq_dec k i) as [->|Hne]; [congruence|].
        apply Hcov; [lia|exact Hvk].
Qed.

(** X15. For a file of a device that is not rotational, the blocks
    [trace_add_chunks] appends are the runs of pages [mincore] reports in
    core: each is a run of resident pages of the file, for the last path,
    with no physical place, that ends at the end of the file or in front
    of a page that is not resident; they come in ascending order with room
    between them; and every resident page lies in one of them. *)
Theorem trace_add_chunks_resident (sys : system) (file : PackFile) (fd size : Z)
        (vec : list bool) :
  0 < sys_page_size sys ->
  pf_rotational file = false ->
  sys_mincore sys fd size = Some vec ->
  let num_pages := Z.to_nat ((size - 1) / sys_page_size sys + 1) in
  exists new,
    pf_blocks (trace_add_chunks sys file fd size) = pf_blocks file ++ new
    /\ Forall (resident_run vec num_pages (sys_page_size sys) (last_pathidx file) 0) new
    /\ StronglySorted apart new
    /\ forall k, (k < num_pages)%nat -> vec_at vec k = true ->
         exists b, In b new
                   /\ pb_offset b <= Z.of_nat k * sys_page_size sys
                      < pb_offset b + pb_length b.
Proof.
  intros Hps Hrot Hcore num_pages. unfold trace_add_chunks. rewrite Hcore.
  fold num_pages.
  destruct (chunk_loop_blocks sys vec num_pages fd Hps num_pages O file Hrot ltac:(lia))
    as (new & Hnew & Hruns & Hsorted & Hcov).
  exists new. split; [exact Hnew|]. split; [exact Hruns|]. split; [exact Hsorted|].
  intros k Hk. apply Hcov. lia.
Qed.

(** A file of four pages with the second not in core. *)
Definition holed_system : system :=
  mk_system (fun _ => Some (mk_stat 2049 7 16384 Regular))
            (fun _ => Some 3)
            (fun _ => Some (mk_stat 2049 7 16384 Regular))
            (fun _ _ => Some [true; false; true; true])
            (fun _ _ _ => None)
            (fun _ => Some 0)
            4096.

Definition one_path_file : PackFile :=
  mk_PackFile 2049 false [] [mk_PackPath (-1) 7 "/bin/sh"] [].

Lemma trace_add_chunks_resident_witness :
  pf_blocks (trace_add_chunks holed_system one_path_file 3 16384)
  = [mk_PackBlock 0 0 4096 (-1); mk_PackBlock 0 8192 8192 (-1)]
  /\ exists new,
       pf_blocks (trace_add_chunks holed_system one_path_file 3 16384)
       = pf_blocks one_path_file ++ new
       /\ Forall (resident_run [true; false; true; true]
                               (Z.to_nat ((16384 - 1) / sys_page_size holed_system + 1))
                               (sys_page_size holed_system)
                               (last_pathidx one_path_file) 0) new
       /\ StronglySorted apart new
       /\ forall k, (k < Z.to_nat ((16384 - 1) / sys_page_size holed_system + 1))%nat ->
            vec_at [true; false; true; true] k = true ->
            exists b, In b new
                      /\ pb_offset b <= Z.of_nat k * sys_page_size holed_system
                         < pb_offset b + pb_length b.
Proof.
  split; [vm_compute; reflexivity|].
  apply (trace_add_chunks_resident holed_system one_path_file 3 16384
           [true; false; true; true]).
  - vm_compute. reflexivity.
  - reflexivity.
  - reflexivity.
Defined.

(** ** The session controller: every way out *)

Lemma enable_events_same o indices :
  forall env old,
    same_but_events env (fst (enable_events o indices env old)).
Proof.
  induction indices as [|i rest IH]; intros env old; cbn [enable_events].
  - apply same_but_events_refl.
  - pose proof (tracefs_event_enable_spec o env i) as (Hsame & _).
    destruct (tracefs_event_enable o env i) as [ret env1]. cbn [snd] in Hsame.
    destruct ((ret <? 0) && (i <? NR_REQUIRED_EVENTS)%nat); [exact Hsame|].
    eapply same_but_events_trans; [exact Hsame|apply IH].
Qed.

(** X16. However [trace] ends (it returns 0, it returns -1 at any of its
    checks, or the parent of the [fork] exits), the dispositions of
    [SIGTERM] and [SIGINT] are what they were before the call: the handler
    it installs for the wait never stays. *)
Theorem trace_restores_signals (o : outcomes) (daemonise use_existing_trace_events : bool)
        (env : environment) :
  let env' := snd (trace o daemonise use_existing_trace_events env) in
  sigterm env' = sigterm env /\ sigint env' = sigint env.
Proof.
  cbv zeta. unfold trace.
  assert (Hfirst : same_but_events env
                     (fst (if use_existing_trace_events
                           then (env, Some (fun _ : nat => false))
                           else enable_events o (seq 0 NR_EVENTS) env (fun _ => false)))).
  { destruct use_existing_trace_events; [apply same_but_events_refl|].
    apply enable_events_same. }
  destruct (if use_existing_trace_events then (env, Some (fun _ : nat => false))
            else enable_events o (seq 0 NR_EVENTS) env (fun _ => false))
    as [env1 [old|]]; cbn [fst] in Hfirst;
    destruct Hfirst as (_ & _ & _ & Hst & Hsi); [|cbn [snd]; auto].
  destruct (get_buffer_size_fails o); [cbn [snd]; auto|].
  destruct (set_buffer_size_fails o); [cbn [snd]; auto|].
  destruct (trace_is_on_fails o); [cbn [snd]; auto|].
  destruct (trace_on_fails o); [cbn [snd]; auto|].
  destruct (daemonise && (fork_pid o <? 0)); [cbn [snd]; auto|].
  destruct (daemonise && (fork_pid o >? 0)); [cbn [snd]; auto|].
  destruct (negb (tracing_on (set_buffer_size env1 8192)) && trace_off_fails o);
    [cbn [snd]; auto|].
  match goal with
  | |- context [nice ?e 15] => set (env7 := e)
  end.
  assert (H7 : sigterm env7 = sigterm env1 /\ sigint env7 = sigint env1).
  { subst env7.
    match goal with
    | |- context [if use_existing_trace_events then ?e else _] => set (env6 := e)
    end.
    assert (H6 : sigterm env6 = sigterm env1 /\ sigint env6 = sigint env1).
    { subst env6. destruct (negb (tracing_on (set_buffer_size env1 8192)));
        split; reflexivity. }
    destruct use_existing_trace_events; [exact H6|].
    destruct (disable_events_spec old (seq 0 NR_EVENTS) env6) as [(_ & _ & _ & H1 & H2) _].
    destruct H6. split; congruence. }
  destruct H7 as [H7t H7i].
  destruct (read_trace_fails o); [cbn [snd nice sigterm sigint]; split; congruence|].
  destruct (restore_buffer_size_fails o);
    cbn [snd nice set_buffer_size sigterm sigint]; split; congruence.
Qed.

(** X17. With [use_existing_trace_events], [trace] changes the enable
    flag of no event, however it ends. *)
Theorem trace_keeps_existing_events (o : outcomes) (daemonise : bool)
        (env : environment) (i : nat) :
  event_enable (snd (trace o daemonise true env)) i = event_enable env i.
Proof.
  unfold trace.
  destruct (get_buffer_size_fails o); [reflexivity|].
  destruct (set_buffer_size_fails o); [reflexivity|].
  destruct (trace_is_on_fails o); [reflexivity|].
  destruct (trace_on_fails o); [reflexivity|].
  destruct (daemonise && (fork_pid o <? 0)); [reflexivity|].
  destruct (daemonise && (fork_pid o >? 0)); [reflexivity|].
  destruct (negb (tracing_on (set_buffer_size env 8192)) && trace_off_fails o);
    [reflexivity|].
  destruct (read_trace_fails o);
    [destruct (negb (tracing_on (set_buffer_size env 8192))); reflexivity|].
  destruct (restore_buffer_size_fails o);
    destruct (negb (tracing_on (set_buffer_size env 8192))); reflexivity.
Qed.

(** With every event there and no call failing, the first loop enables
    all the events it is given. *)
Lemma enable_events_all o indices :
  forall env old,
    (forall i, In i indices -> event_enable_fails o i = false) ->
    (forall i, In i indices -> event_enable env i <> None) ->
    exists env' old',
      enable_events o indices env old = (env', Some old')
      /\ (forall i, In i indices -> event_enable env' i = Some true)
      /\ (forall i, ~ In i indices -> event_enable env' i = event_enable env i).
Proof.
  induction indices as [|i rest IH]; intros env old Hok Hex; cbn [enable_events].
  - exists env, old. split; [reflexivity|]. split; [intros i []|auto].
  - unfold tracefs_event_enable. rewrite (Hok i (or_introl eq_refl)).
    destruct (event_enable env i) as [b|] eqn:He;
      [|exfalso; apply (Hex i (or_introl eq_refl)); exact He].
    cbn [Z.ltb Z.compare andb].
    destruct (IH (set_event env i (Some true))
                 (fun j => if (j =? i)%nat
                           then match tracefs_event_is_enabled env i with
                                | TRACEFS_ALL_ENABLED | TRACEFS_SOME_ENABLED => true
                                | _ => false
                                end
                           else old j))
      as (env' & old' & Hrun & Hin & Hout).
    + intros j Hj. apply Hok. right. exact Hj.
    + intros j Hj. cbn [set_event event_enable].
      destruct (j =? i)%nat; [discriminate|]. apply Hex. right. exact Hj.
    + exists env', old'. split; [exact Hrun|]. split.
      * intros j [<-|Hj]; [|now apply Hin].
        destruct (in_dec Nat.eq_dec i rest) as [Hi|Hi]; [now apply Hin|].
        rewrite (Hout i Hi). cbn [set_event event_enable]. rewrite Nat.eqb_refl.
        reflexivity.
      * intros j Hj. rewrite Hout by (intros H; apply Hj; right; exact H).
        cbn [set_event event_enable].
        destruct (Nat.eqb_spec j i) as [->|_]; [|reflexivity].
        exfalso. apply Hj. left. reflexivity.
Qed.

(** X18. When [trace] has enabled the events itself and then fails at
    one of the four checks on the buffer size and on the tracing switch,
    it returns -1 without disabling anything: all the events of [EVENTS]
    are left enabled, also those that were disabled before the call. *)
Theorem trace_failure_leaves_events_on (o : outcomes) (daemonise : bool)
        (env : environment) :
  (forall i, (i < NR_EVENTS)%nat -> event_enable_fails o i = false) ->
  (forall i, (i < NR_EVENTS)%nat -> event_enable env i <> None) ->
  get_buffer_size_fails o = true \/ set_buffer_size_fails o = true
  \/ trace_is_on_fails o = true \/ trace_on_fails o = true ->
  fst (trace o daemonise false env) = Trace_returns (-1)
  /\ forall i, (i < NR_EVENTS)%nat ->
               event_enable (snd (trace o daemonise false env)) i = Some true.
Proof.
  intros Hok Hex Hfail.
  destruct (enable_events_all o (seq 0 NR_EVENTS) env (fun _ => false))
    as (env1 & old & Hrun & Hon & _).
  { intros i Hi. apply Hok. apply in_seq in Hi. lia. }
  { intros i Hi. apply Hex. apply in_seq in Hi. lia. }
  assert (Hon' : forall i, (i < NR_EVENTS)%nat -> event_enable env1 i = Some true).
  { intros i Hi. apply Hon. apply in_seq. lia. }
  unfold trace. rewrite Hrun.
  destruct (get_buffer_size_fails o); [split; [reflexivity|exact Hon']|].
  destruct (set_buffer_size_fails o); [split; [reflexivity|exact Hon']|].
  destruct (trace_is_on_fails o); [split; [reflexivity|exact Hon']|].
  destruct (trace_on_fails o); [split; [reflexivity|exact Hon']|].
  destruct Hfail as [H|[H|[H|H]]]; discriminate.
Qed.

Definition buffer_size_fails : outcomes :=
  mk_outcomes (fun _ => false) false true false false 0 false false false.

Lemma trace_failure_leaves_events_on_witness :
  event_enable quiet_environment 0 = Some false
  /\ fst (trace buffer_size_fails false false quiet_environment) = Trace_returns (-1)
  /\ event_enable (snd (trace buffer_size_fails false false quiet_environment)) 0
     = Some true.
Proof.
  split; [reflexivity|].
  destruct (trace_failure_leaves_events_on buffer_size_fails false quiet_environment)
    as [Hret Hon].
  - intros i Hi. reflexivity.
  - intros i Hi. unfold quiet_environment. cbn [event_enable].
    destruct (Nat.ltb_spec i NR_EVENTS); [discriminate|lia].
  - right. left. reflexivity.
  - split; [exact Hret|]. apply Hon. unfold NR_EVENTS. lia.
Defined.

(** ** The trace event consumer: page-cache records *)

(** X19. [read_filemap_trace] returns exactly when the pointers it reads
    through are there: [fault->event] for every record, [get_pages->event]
    when the record is not a fault, [map_pages->event] when it is neither.
    With [mm_filemap_fault] missing it reads through [NULL] on every
    record, also on those of an event that is there. *)
Theorem read_filemap_trace_returns (event : tep_event) (record : tep_record)
        (fault get_pages map_pages : filemap_tep) (hash : device_hash) :
  (exists r, read_filemap_trace event record fault get_pages map_pages hash = Returns r)
  <-> exists e1,
        ft_event fault = Some e1
        /\ (event_id event = event_id e1
            \/ exists e2,
                 ft_event get_pages = Some e2
                 /\ (event_id event = event_id e2 \/ ft_event map_pages <> None)).
Proof.
  assert (Hbody : forall tep : option filemap_tep,
            exists r,
              match tep with
              | None => Returns (1, hash)
              | Some tep =>
                  match record "i_ino"%string with
                  | None => Returns (1, hash)
                  | Some ino =>
                      match record "s_dev"%string with
                      | None => Returns (1, hash)
                      | Some device =>
                          match record "index"%string with
                          | None => Returns (1, hash)
                          | Some index =>
                              match (if ft_last_index tep then record "last_index"%string
                                     else Some index) with
                              | None => Returns (1, hash)
                              | Some last_index =>
                                  Returns (0, trace_add_file_map hash (filemap_dev device)
                                                                 ino (off_t index)
                                                                 (off_t last_index))
                              end
                          end
                      end
                  end
              end = Returns r).
  { intros [tep|]; [|eexists; reflexivity].
    destruct (record "i_ino"%string); [|eexists; reflexivity].
    destruct (record "s_dev"%string); [|eexists; reflexivity].
    destruct (record "index"%string); [|eexists; reflexivity].
    destruct (if ft_last_index tep then _ else _); eexists; reflexivity. }
  unfold read_filemap_trace, select_filemap_tep.
  destruct (ft_event fault) as [e1|]; cbn [deref run_bind].
  2:{ split; [intros [r Hr]; discriminate|intros (e1 & He & _); discriminate]. }
  destruct (Z.eqb_spec (event_id event) (event_id e1)) as [H1|H1]; cbn [run_bind].
  { split; [intros _; exists e1; auto|intros _; apply (Hbody (Some fault))]. }
  destruct (ft_event get_pages) as [e2|]; cbn [deref run_bind].
  2:{ split; [intros [r Hr]; discriminate|].
      intros (e & [= <-] & [H|(e2 & He2 & _)]); [contradiction|discriminate]. }
  destruct (Z.eqb_spec (event_id event) (event_id e2)) as [H2|H2]; cbn [run_bind].
  { split; [intros _; exists e1; split; [reflexivity|right; exists e2; auto]|].
    intros _. apply (Hbody (Some get_pages)). }
  destruct (ft_event map_pages) as [e3|]; cbn [deref run_bind].
  2:{ split; [intros [r Hr]; discriminate|].
      intros (e & [= <-] & [H|(e' & [= <-] & [H|H])]); contradiction. }
  split.
  - intros _. exists e1. split; [reflexivity|]. right. exists e2.
    split; [reflexivity|]. right. discriminate.
  - intros _. destruct (event_id event =? event_id e3); cbn [run_bind].
    + apply (Hbody (Some map_pages)).
    + apply (Hbody None).
Qed.

Lemma filemap_dev_minor (major minor : Z) :
  0 <= minor < 2 ^ 20 ->
  filemap_dev (Z.shiftl major 20 + minor) = makedev major (minor mod 256).
Proof.
  intros Hminor. unfold filemap_dev. f_equal.
  - rewrite Z.shiftr_div_pow2, Z.shiftl_mul_pow2 by lia.
    rewrite Z.div_add_l by lia. rewrite Z.div_small by exact Hminor. lia.
  - change 0xff with (Z.ones 8). rewrite Z.land_ones by lia.
    rewrite Z.shiftl_mul_pow2 by lia.
    replace (major * 2 ^ 20 + minor) with (minor + (major * 2 ^ 12) * 2 ^ 8) by lia.
    rewrite Z.mod_add by lia. reflexivity.
Qed.

(** X20. The device a record is filed under: of [s_dev = (major << 20)
    + minor] the low eight bits of the minor are kept and the twelve above
    them are dropped: the device is [makedev (major, minor mod 256)], which
    for a minor below 256 is [makedev (major, minor)], the [st_dev] of the
    file. *)
Theorem filemap_dev_keeps_eight_bits (major minor : Z) :
  0 <= minor < 2 ^ 20 ->
  filemap_dev (Z.shiftl major 20 + minor) = makedev major (minor mod 256)
  /\ (minor < 256 -> filemap_dev (Z.shiftl major 20 + minor) = makedev major minor).
Proof.
  intros Hminor. split.
  - now apply filemap_dev_minor.
  - intros Hsmall. rewrite filemap_dev_minor by exact Hminor.
    rewrite Z.mod_small by lia. reflexivity.
Qed.

Lemma filemap_dev_keeps_eight_bits_witness :
  filemap_dev (Z.shiftl 8 20 + 17) = makedev 8 17
  /\ filemap_dev (Z.shiftl 8 20 + 273) = makedev 8 17.
Proof.
  split.
  - apply (filemap_dev_keeps_eight_bits 8 17); lia.
  - destruct (filemap_dev_keeps_eight_bits 8 273 ltac:(lia)) as [H _].
    rewrite H. reflexivity.
Defined.

Lemma lookup_after_calls_ok calls id ino :
  Forall valid_call calls -> 0 <= ino < SIZE_MAX ->
  range_array_ok
    (maps_so_far (lookup_file_maps (trace_add_file_maps empty_device_hash calls) id ino)).
Proof.
  intros Hvalid Hino. rewrite (trace_add_file_maps_from_empty calls id ino Hvalid Hino).
  pose proof (calls_for_valid id ino calls Hvalid) as Hacc.
  destruct (calls_for id ino calls) as [|a accesses]; [exact I|].
  apply (record_accesses_ok (a :: accesses) Hacc).
Qed.

(** X21. A page-cache record that names an event of the three, with its
    fields readable, for pages [index .. last_index] ([last_index] being
    [index] for an event without that field, as [mm_filemap_fault]) of
    inode [ino] on the device [(major << 20) + minor] with a minor below
    256: [read_filemap_trace] returns 0, and the hash then answers for
    [(makedev (major, minor), ino)] with an array that covers those pages
    and the pages it covered before, and no other. *)
Theorem read_filemap_trace_records
        (calls : list file_map_call) (event : tep_event) (record : tep_record)
        (fault get_pages map_pages tep : filemap_tep)
        (ino major minor index last_index : Z) :
  Forall valid_call calls ->
  select_filemap_tep event fault get_pages map_pages = Returns (Some tep) ->
  record "i_ino"%string = Some ino ->
  record "s_dev"%string = Some (Z.shiftl major 20 + minor) ->
  record "index"%string = Some index ->
  (if ft_last_index tep then record "last_index"%string else Some index)
  = Some last_index ->
  0 <= ino < SIZE_MAX -> 0 <= minor < 256 ->
  0 <= index -> index <= last_index -> last_index < OFF_MAX ->
  let hash := trace_add_file_maps empty_device_hash calls in
  exists hash' maps,
    read_filemap_trace event record fault get_pages map_pages hash = Returns (0, hash')
    /\ lookup_file_maps hash' (makedev major minor) ino = Some maps
    /\ forall p, covered maps p
                 <-> index <= p <= last_index
                     \/ covered (maps_so_far
                                   (lookup_file_maps hash (makedev major minor) ino)) p.
Proof.
  intros Hvalid Hsel Hino Hdev Hindex Hlast Hi Hminor H0 Hle Hmax hash.
  unfold read_filemap_trace. rewrite Hsel. cbn [run_bind].
  rewrite Hino, Hdev, Hindex, Hlast.
  rewrite (filemap_dev_minor major minor) by lia.
  rewrite Z.mod_small by lia.
  rewrite !off_t_small by (unfold OFF_MAX in *; lia).
  eexists. eexists. split; [reflexivity|].
  destruct (trace_add_file_map_maps hash (makedev major minor) ino index last_index
              (trace_add_file_maps_hash_ok calls Hvalid) Hi) as [_ Hlook].
  rewrite (Hlook _ _ Hi), !Z.eqb_refl. cbn [andb]. split; [reflexivity|].
  intros p.
  destruct (inode_add_file_map_ok _ index last_index
              (lookup_after_calls_ok calls (makedev major minor) ino Hvalid Hi)
              H0 Hle Hmax) as [_ Hcov].
  fold hash in Hcov. rewrite (Hcov p). tauto.
Qed.

(** A kernel with the three events, and a fault record. *)
Definition three_events : filemap_tep * filemap_tep * filemap_tep :=
  (mk_filemap_tep (Some (mk_tep_event 11 "mm_filemap_fault")) false,
   mk_filemap_tep (Some (mk_tep_event 12 "mm_filemap_get_pages")) true,
   mk_filemap_tep (Some (mk_tep_event 13 "mm_filemap_map_pages")) true).

Definition fault_record : tep_record :=
  fun field =>
    if String.eqb field "i_ino" then Some 12345
    else if String.eqb field "s_dev" then Some (Z.shiftl 8 20 + 0)
    else if String.eqb field "index" then Some 6
    else None.

Lemma read_filemap_trace_records_witness :
  exists hash' maps,
    read_filemap_trace (mk_tep_event 11 "mm_filemap_fault") fault_record
                       (fst (fst three_events)) (snd (fst three_events))
                       (snd three_events)
                       (trace_add_file_maps empty_device_hash test_calls)
    = Returns (0, hash')
    /\ lookup_file_maps hash' (makedev 8 0) 12345 = Some maps
    /\ forall p, covered maps p
                 <-> 6 <= p <= 6
                     \/ covered (maps_so_far
                                   (lookup_file_maps
                                      (trace_add_file_maps empty_device_hash test_calls)
                                      (makedev 8 0) 12345)) p.
Proof.
  apply (read_filemap_trace_records test_calls (mk_tep_event 11 "mm_filemap_fault")
           fault_record (fst (fst three_events)) (snd (fst three_events))
           (snd three_events) (fst (fst three_events)) 12345 8 0 6 6).
  - exact test_calls_valid.
  - reflexivity.
  - reflexivity.
  - reflexivity.
  - reflexivity.
  - reflexivity.
  - unfold SIZE_MAX. lia.
  - lia.
  - lia.
  - lia.
  - unfold OFF_MAX. lia.
Defined.

(** ** Writing the packs *)

Lemma strcmp_zero a b : (strcmp a b =? 0) = true <-> a = b.
Proof.
  unfold strcmp. destruct (String.compare a b) eqn:Hc.
  - split; [intros _; now apply String.compare_eq_iff|reflexivity].
  - split; [discriminate|]. intros ->.
    pose proof (String.compare_antisym b b) as Ha. rewrite Hc in Ha. discriminate.
  - split; [discriminate|]. intros ->.
    pose proof (String.compare_antisym b b) as Ha. rewrite Hc in Ha. discriminate.
Qed.

(** X22. The names the packs are written under.  With a pack file named
    on the command line, every file of the array is written under that one
    name, whatever its device and whatever [filename_to_replace] is: with
    files for two devices the second [write_pack] is for the name the first
    wrote.  Without it, and with [filename_to_replace], no pack is written
    under another name than that one. *)
Theorem write_packs_names (filename_to_replace : option string)
        (pack_file_name_for_device : Z -> option string) (fs : filesystems)
        (files : list PackFile) :
  (forall name,
      write_packs (Some name) filename_to_replace pack_file_name_for_device fs files
      = map (fun file => (name, post_process (fs (pf_dev file)) file)) files)
  /\ (forall wanted w,
        In w (write_packs None (Some wanted) pack_file_name_for_device fs files) ->
        fst w = wanted
        /\ exists file, In file files
                        /\ pack_file_name_for_device (pf_dev file) = Some wanted
                        /\ snd w = post_process (fs (pf_dev file)) file).
Proof.
  split.
  - intros name. induction files as [|file rest IH]; [reflexivity|].
    cbn [write_packs map]. rewrite IH. reflexivity.
  - intros wanted w. induction files as [|file rest IH]; [intros []|].
    cbn [write_packs].
    assert (Hrest : In w (write_packs None (Some wanted) pack_file_name_for_device fs rest)
                    -> fst w = wanted
                       /\ exists file', In file' (file :: rest)
                            /\ pack_file_name_for_device (pf_dev file') = Some wanted
                            /\ snd w = post_process (fs (pf_dev file')) file').
    { intros Hin. destruct (IH Hin) as (Hw & file' & Hf & Hn & Hs).
      split; [exact Hw|]. exists file'. split; [right; exact Hf|auto]. }
    destruct (pack_file_name_for_device (pf_dev file)) as [filename|] eqn:Hname;
      [|exact Hrest].
    destruct (strcmp wanted filename =? 0) eqn:Hcmp; cbn [negb]; [|exact Hrest].
    apply strcmp_zero in Hcmp. subst filename.
    intros [<-|Hin]; [|exact (Hrest Hin)].
    split; [reflexivity|]. exists file. split; [left; reflexivity|auto].
Qed.

(** ** [main] *)

(** X23. Whatever the command line and whatever the pack on the disk,
    [main] ends the process at its first or second [exit]: with status 1
    when the options do not parse, else with status 0 after the two tests
    of [trace.c].  It never reads a pack, never reads ahead and never
    traces. *)
Theorem main_only_runs_tests (i : main_inputs) :
  main i
  = if options_parse i
    then mk_process [Call_test_trace_add_file_map; Call_test_remove_untouched_blocks]
                    (inr 0)
    else mk_process [] (inr 1).
Proof.
  unfold main. destruct (options_parse i); reflexivity.
Qed.

(** ** The trace event consumer: open records *)

Lemma strndup_no_nul tep_path : Forall (fun c => c <> NUL) (strndup tep_path).
Proof.
  induction tep_path as [|c rest IH]; [constructor|]. cbn [strndup].
  destruct (Ascii.eqb_spec c NUL) as [->|Hne]; constructor; assumption.
Qed.

(** What [fix_path] returns is a name it leaves as it is. *)
Lemma fix_path_fixed pathname fixed :
  Forall (fun c => c <> NUL) pathname ->
  fix_path pathname = Some fixed -> fix_path fixed = Some fixed.
Proof.
  intros Hnul Hfix. destruct (fix_path_renders pathname Hnul) as (st & Hst & _ & Hfix').
  rewrite Hfix' in Hfix. injection Hfix as <-.
  destruct (fix_path_renders (render st) (render_no_nul st Hst))
    as (st' & _ & Hnorm & Hfix'').
  rewrite Hfix'', <- Hnorm, (normalize_render st Hst). reflexivity.
Qed.

(** A name [read_path_trace] hands on when there is no prefix to put in
    front: [fix_path] made it from the field of a record and leaves it as
    it is, and it begins with the filter. *)
Definition handed_on (path_prefix_filter : option string)
           (filenames : list (option (list ascii))) (name : string) : Prop :=
  fix_path_string name = Some name
  /\ (forall filter, path_prefix_filter = Some filter -> String.prefix filter name = true)
  /\ exists tep_path,
       In (Some tep_path) filenames
       /\ fix_path (strndup tep_path) = Some (list_ascii_of_string name).

Lemma read_path_trace_names sys filename path_prefix_filter path_prefix
      force_ssd_mode st :
  ppo_st_dev path_prefix = NODEV ->
  let st' := snd (read_path_trace sys filename path_prefix_filter path_prefix
                                  force_ssd_mode st) in
  pack_names (files st') = pack_names (files st)
  \/ exists name,
       Permutation (pack_names (files st')) (name :: pack_names (files st))
       /\ handed_on path_prefix_filter [filename] name.
Proof.
  intros Hnodev. cbv zeta. unfold read_path_trace.
  destruct filename as [tep_path|]; [|left; reflexivity].
  destruct (fix_path (strndup tep_path)) as [fixed|] eqn:Hfix; [|left; reflexivity].
  set (path := string_of_list_ascii fixed).
  destruct (match path_prefix_filter with
            | Some filter => negb (String.prefix filter path)
            | None => false
            end) eqn:Hfilter; [left; reflexivity|].
  rewrite Hnodev, Z.eqb_refl. cbn [negb andb snd].
  destruct (trace_add_path_names sys force_ssd_mode st path)
    as [Hsame|(_ & _ & _ & _ & Hperm)]; [left; exact Hsame|].
  right. exists path. split; [exact Hperm|].
  assert (Hlist : list_ascii_of_string path = fixed)
    by apply list_ascii_of_string_of_list_ascii.
  split; [|split].
  - unfold fix_path_string. rewrite Hlist.
    rewrite (fix_path_fixed _ _ (strndup_no_nul tep_path) Hfix). reflexivity.
  - intros filter ->. destruct (String.prefix filter path); [reflexivity|discriminate].
  - exists tep_path. split; [left; reflexivity|]. rewrite Hlist. exact Hfix.
Qed.

(** X24. With no prefix to put in front of the names, every name in the
    pack files is a name [fix_path] made from the [filename] field of a
    record, read up to its first NUL; it is in its final form ([fix_path]
    would leave it as it is) and it begins with the prefix filter, if one
    was given. *)
Theorem read_path_traces_names (sys : system) (path_prefix_filter : option string)
        (path_prefix : PathPrefixOption) (force_ssd_mode : bool)
        (filenames : list (option (list ascii))) (name : string) :
  ppo_st_dev path_prefix = NODEV ->
  In name (pack_names (files (read_path_traces sys path_prefix_filter path_prefix
                                               force_ssd_mode filenames))) ->
  fix_path_string name = Some name
  /\ (forall filter, path_prefix_filter = Some filter -> String.prefix filter name = true)
  /\ exists tep_path,
       In (Some tep_path) filenames
       /\ fix_path (strndup tep_path) = Some (list_ascii_of_string name).
Proof.
  intros Hnodev. unfold read_path_traces.
  assert (Hgen : forall todo st,
            In name (pack_names
                       (files (fold_left
                                 (fun st filename =>
                                    snd (read_path_trace sys filename path_prefix_filter
                                                         path_prefix force_ssd_mode st))
                                 todo st))) ->
            In name (pack_names (files st)) \/ handed_on path_prefix_filter todo name).
  { induction todo as [|filename todo IH]; intros st Hin; cbn [fold_left] in Hin.
    - left. exact Hin.
    - destruct (IH _ Hin) as [Hold|(H1 & H2 & tep_path & Hraw & Hfix)].
      + destruct (read_path_trace_names sys filename path_prefix_filter path_prefix
                    force_ssd_mode st Hnodev)
          as [Hsame|(name' & Hperm & H1 & H2 & tep_path & Hraw & Hfix)].
        * left. rewrite <- Hsame. exact Hold.
        * apply (Permutation_in _ Hperm) in Hold. destruct Hold as [<-|Hold];
            [|left; exact Hold].
          right. split; [exact H1|]. split; [exact H2|].
          exists tep_path. split; [|exact Hfix].
          destruct Hraw as [->|[]]. left. reflexivity.
      + right. split; [exact H1|]. split; [exact H2|].
        exists tep_path. split; [right; exact Hraw|exact Hfix]. }
  intros Hin. destruct (Hgen filenames trace_state_init Hin) as [[]|H]. exact H.
Qed.

Lemma read_path_traces_names_witness :
  pack_names (files (read_path_traces sample_system (Some "/bin"%string)
                                      (mk_PathPrefixOption NODEV EmptyString) false
                                      [Some (list_ascii_of_string "/usr/../bin//sh");
                                       Some (list_ascii_of_string "/etc/passwd")]))
  = ["/bin/sh"%string]
  /\ fix_path_string "/bin/sh" = Some "/bin/sh"%string.
Proof.
  split; [vm_compute; reflexivity|].
  apply (read_path_traces_names sample_system (Some "/bin"%string)
           (mk_PathPrefixOption NODEV EmptyString) false
           [Some (list_ascii_of_string "/usr/../bin//sh");
            Some (list_ascii_of_string "/etc/passwd")] "/bin/sh"%string).
  - reflexivity.
  - vm_compute. left. reflexivity.
Defined.

(** ** From the assembler to the range intersector *)

(** Past the inode test, the blocks of a new path are those of
    [trace_add_chunks], if any. *)
Lemma trace_add_path_chunks sys force_ssd_mode st pathname :
  let st' := snd (trace_add_path sys force_ssd_mode st pathname) in
  files st' = files st
  \/ exists dev ino,
       let '(files1, fi) := trace_file sys dev (files st) force_ssd_mode in
       let file1 := add_path (nth fi files1 no_file) ino pathname in
       files st' = store files1 fi file1
       \/ exists fd size, files st' = store files1 fi (trace_add_chunks sys file1 fd size).
Proof.
  unfold trace_add_path.
  destruct (negb (starts_with_slash pathname)); [left; reflexivity|].
  destruct (ignore_path pathname); [left; reflexivity|].
  destruct (_ >? PACK_PATH_MAX); [left; reflexivity|].
  destruct (existsb _ (path_hash st)); [left; reflexivity|].
  destruct (sys_lstat sys pathname) as [statbuf0|]; [|left; reflexivity].
  destruct (st_kind statbuf0); try (left; reflexivity).
  destruct (sys_open sys pathname) as [fd|]; [|left; reflexivity].
  destruct (sys_fstat sys fd) as [statbuf|]; [|left; reflexivity].
  destruct (st_kind statbuf); try (left; reflexivity).
  cbn [files path_hash inode_hash]. right.
  exists (st_dev statbuf), (st_ino statbuf).
  destruct (trace_file sys (st_dev statbuf) (files st) force_ssd_mode) as [files1 fi].
  destruct (existsb _ (inode_hash st)); [left; reflexivity|].
  destruct (st_size statbuf =? 0); [left; reflexivity|].
  right. exists fd, (st_size statbuf). reflexivity.
Qed.

Lemma offsets_ascend_app l1 :
  forall prev l2,
    offsets_ascend prev l1 ->
    offsets_ascend (last (map Some l1) prev) l2 ->
    offsets_ascend prev (l1 ++ l2).
Proof.
  induction l1 as [|b l1 IH]; intros prev l2 H1 H2; [exact H2|].
  destruct H1 as [Hf H1]. cbn [app offsets_ascend]. split; [exact Hf|].
  apply IH; [exact H1|].
  replace (last (map Some l1) (Some b)) with (last (map Some (b :: l1)) prev);
    [exact H2|].
  cbn [map]. destruct (map Some l1) eqn:E; [reflexivity|].
  clear. revert o. induction l as [|y l IH]; intros o; [reflexivity|].
  simpl. destruct l; [reflexivity|]. apply (IH y).
Qed.

(** [prev] can stand in front of every block of [new]. *)
Definition follows_run (prev : option PackBlock) (new : list PackBlock) : Prop :=
  forall b, In b new -> follows prev b.

Lemma offsets_ascend_run new :
  forall prev,
    follows_run prev new ->
    Forall (fun b => 0 <= pb_length b) new ->
    StronglySorted apart new ->
    offsets_ascend prev new.
Proof.
  induction new as [|b new IH]; intros prev Hprev Hlen Hs; [exact I|].
  inversion Hlen as [|? ? Hb Hlen']; subst. inversion Hs as [|? ? Hs' Hf]; subst.
  cbn [offsets_ascend]. split; [apply Hprev; left; reflexivity|].
  apply IH; [|exact Hlen'|exact Hs'].
  intros b' Hb'. rewrite Forall_forall in Hf. specialize (Hf b' Hb').
  unfold apart in Hf. cbn [follows]. intros _. lia.
Qed.

(** The blocks of a file of a device that is not rotational come, within
    each path, in ascending order of their offsets. *)
Definition ssd_ordered (file : PackFile) : Prop :=
  pf_rotational file = false -> offsets_ascend None (pf_blocks file).

Lemma trace_add_chunks_ordered sys file fd size :
  0 < sys_page_size sys ->
  ssd_ordered file ->
  Forall (fun b => pb_pathidx b < last_pathidx file) (pf_blocks file) ->
  ssd_ordered (trace_add_chunks sys file fd size).
Proof.
  intros Hps Hord Hbelow Hrot.
  destruct (appends_trace_add_chunks sys file fd size) as (_ & Hr & _).
  rewrite Hr in Hrot. specialize (Hord Hrot).
  unfold trace_add_chunks in *.
  destruct (sys_mincore sys fd size) as [vec|]; [|exact Hord].
  set (num_pages := Z.to_nat ((size - 1) / sys_page_size sys + 1)).
  destruct (chunk_loop_blocks sys vec num_pages fd Hps num_pages O file Hrot ltac:(lia))
    as (new & Hnew & Hruns & Hsorted & _).
  rewrite Hnew. apply offsets_ascend_app; [exact Hord|].
  apply offsets_ascend_run; [| |exact Hsorted].
  - intros b Hb. rewrite Forall_forall in Hruns.
    destruct (Hruns b Hb) as (a & m & _ & _ & _ & -> & _).
    destruct (pf_blocks file) as [|b0 blocks] using rev_ind; [exact I|].
    rewrite map_app. cbn [map]. rewrite last_last. cbn [follows pb_pathidx].
    rewrite Forall_forall in Hbelow.
    specialize (Hbelow b0 ltac:(apply in_or_app; right; left; reflexivity)). lia.
  - eapply Forall_impl; [|exact Hruns]. cbv beta.
    intros b (a & m & _ & _ & _ & -> & _). cbn [pb_length]. nia.
Qed.

Lemma trace_add_path_ordered sys force_ssd_mode st pathname :
  0 < sys_page_size sys ->
  Forall assembled (files st) ->
  Forall ssd_ordered (files st) ->
  Forall ssd_ordered (files (snd (trace_add_path sys force_ssd_mode st pathname))).
Proof.
  intros Hps Hasm Hord.
  destruct (trace_add_path_chunks sys force_ssd_mode st pathname)
    as [->|(dev & ino & H)]; [exact Hord|].
  pose proof (trace_file_spec sys dev (files st) force_ssd_mode) as Hspec.
  destruct (trace_file sys dev (files st) force_ssd_mode) as [files1 fi].
  destruct Hspec as (Hfi & _ & Hcase).
  assert (Hall1 : Forall (fun f => assembled f /\ ssd_ordered f) files1).
  { assert (Hboth : Forall (fun f => assembled f /\ ssd_ordered f) (files st)).
    { rewrite Forall_forall in *. intros f Hf. split; auto. }
    destruct Hcase as [[_ ->]|(_ & fresh & -> & _ & _ & Hp & Hb)]; [exact Hboth|].
    apply Forall_app. split; [exact Hboth|]. constructor; [|constructor].
    split; [split|].
    - unfold pathidx_valid. rewrite Hb. constructor.
    - unfold grouped_by_path. rewrite Hb. exact I.
    - intros _. rewrite Hb. exact I. }
  set (F := nth fi files1 no_file) in *.
  assert (HF : assembled F /\ ssd_ordered F).
  { rewrite Forall_forall in Hall1. apply Hall1. now apply nth_In. }
  destruct HF as [[Hvalid Hgrouped] HordF].
  assert (Hothers : Forall ssd_ordered files1).
  { eapply Forall_impl; [|exact Hall1]. cbv beta. tauto. }
  assert (H1 : ssd_ordered (add_path F ino pathname)) by exact HordF.
  destruct H as [->|(fd & size & ->)]; apply Forall_store; try exact Hothers;
    [exact H1|].
  apply trace_add_chunks_ordered; [exact Hps|exact H1|].
  unfold last_pathidx. cbn [add_path pf_paths pf_blocks].
  rewrite length_app. cbn [length].
  unfold pathidx_valid in Hvalid. eapply Forall_impl; [|exact Hvalid].
  cbv beta. intros b Hb. lia.
Qed.

(** X25. For a pack file of a device that is not rotational, as the
    assembler builds it, the blocks of each path stand in ascending order
    of their offsets: the order the single pass of the range intersection
    goes by. *)
Theorem assembled_ssd_offsets_ascend (sys : system) (force_ssd_mode : bool)
        (pathnames : list string) (file : PackFile) :
  0 < sys_page_size sys ->
  In file (files (trace_add_paths sys force_ssd_mode pathnames)) ->
  pf_rotational file = false ->
  offsets_ascend None (pf_blocks file).
Proof.
  intros Hps. unfold trace_add_paths.
  assert (Hgen : forall todo st,
            Forall assembled (files st) -> Forall ssd_ordered (files st) ->
            let st' := fold_left (fun st p => snd (trace_add_path sys force_ssd_mode st p))
                                 todo st in
            Forall ssd_ordered (files st')).
  { induction todo as [|p todo IH]; intros st Ha Ho; cbn [fold_left]; [exact Ho|].
    apply IH.
    - now apply trace_add_path_assembled.
    - now apply trace_add_path_ordered. }
  intros Hfile Hrot.
  pose proof (Hgen pathnames trace_state_init ltac:(constructor) ltac:(constructor))
    as Hall.
  rewrite Forall_forall in Hall. exact (Hall file Hfile Hrot).
Qed.

Definition holed_file : PackFile :=
  mk_PackFile 2049 false [] [mk_PackPath (-1) 7 "/bin/sh"]
              [mk_PackBlock 0 0 4096 (-1); mk_PackBlock 0 8192 8192 (-1)].

Lemma assembled_ssd_offsets_ascend_witness :
  files (trace_add_paths holed_system false ["/bin/sh"%string]) = [holed_file]
  /\ offsets_ascend None (pf_blocks holed_file).
Proof.
  split; [vm_compute; reflexivity|].
  apply (assembled_ssd_offsets_ascend holed_system false ["/bin/sh"%string] holed_file).
  - vm_compute. reflexivity.
  - left. vm_compute. reflexivity.
  - reflexivity.
Defined.

(** ** [ignore_path] *)

Lemma prefix_append (a p s : string) :
  String.prefix a p = true -> String.prefix a (p ++ s) = true.
Proof.
  revert a. induction p as [|d p IH]; intros a H.
  - destruct a as [|c a]; [destruct s; reflexivity|discriminate].
  - destruct a as [|c a]; [reflexivity|].
    cbn [String.prefix String.append] in *.
    destruct (Ascii.ascii_dec c d); [now apply IH|discriminate].
Qed.

(** X26. A name [ignore_path] turns down is absolute, and every name
    that goes on from it is turned down as well: what lies below an
    ignored directory, at any depth, never reaches the pack. *)
Theorem ignore_path_below (pathname rest : string) :
  ignore_path pathname = true ->
  starts_with_slash pathname = true /\ ignore_path (pathname ++ rest) = true.
Proof.
  unfold ignore_path. intros H. apply existsb_exists in H.
  destruct H as (dir & Hdir & Hprefix). split.
  - cbn [In] in Hdir.
    repeat (destruct Hdir as [<-|Hdir];
            [destruct pathname as [|c p]; [discriminate|];
             cbn [String.prefix] in Hprefix; cbn [starts_with_slash];
             destruct (Ascii.ascii_dec "/" c) as [<-|]; [reflexivity|discriminate]|]).
    destruct Hdir.
  - apply existsb_exists. exists dir. split; [exact Hdir|now apply prefix_append].
Qed.

Lemma ignore_path_below_witness :
  starts_with_slash "/proc/" = true /\ ignore_path ("/proc/" ++ "1/maps") = true.
Proof. apply ignore_path_below. reflexivity. Defined.

(** ** The session controller: the size of the ring buffer *)

(** X27. Once [trace] has set the ring buffer to 8192 KB, only the
    return with 0 puts the old size back: on every other way out (a failed
    check on the tracing switch, the failed [fork], the parent's exit,
    [tracefs_trace_off] failing, [read_trace] failing, the restore itself
    failing) the buffer is left at 8192 KB. *)
Theorem trace_leaves_buffer_grown (o : outcomes)
        (daemonise use_existing_trace_events : bool) (env : environment) :
  (use_existing_trace_events = true
   \/ snd (enable_events o (seq 0 NR_EVENTS) env (fun _ => false)) <> None) ->
  get_buffer_size_fails o = false ->
  set_buffer_size_fails o = false ->
  fst (trace o daemonise use_existing_trace_events env) <> Trace_returns 0 ->
  buffer_size_kb (snd (trace o daemonise use_existing_trace_events env)) = 8192.
Proof.
  intros Hfirst Hget Hset. unfold trace. rewrite Hget, Hset.
  assert (Hsome : exists env1 old,
            (if use_existing_trace_events then (env, Some (fun _ : nat => false))
             else enable_events o (seq 0 NR_EVENTS) env (fun _ => false))
            = (env1, Some old)).
  { destruct use_existing_trace_events; [eauto|].
    destruct Hfirst as [Hf|Hf]; [discriminate|].
    destruct (enable_events o (seq 0 NR_EVENTS) env (fun _ => false)) as [env1 [old|]];
      [eauto|]. exfalso. apply Hf. reflexivity. }
  destruct Hsome as (env1 & old & ->).
  destruct (trace_is_on_fails o); [reflexivity|].
  destruct (trace_on_fails o); [reflexivity|].
  destruct (daemonise && (fork_pid o <? 0)); [reflexivity|].
  destruct (daemonise && (fork_pid o >? 0)); [reflexivity|].
  destruct (negb (tracing_on (set_buffer_size env1 8192)) && trace_off_fails o);
    [reflexivity|].
  match goal with
  | |- context [nice ?e 15] => set (env7 := e)
  end.
  assert (H7 : buffer_size_kb env7 = 8192).
  { subst env7.
    match goal with
    | |- context [if use_existing_trace_events then ?e else _] => set (env6 := e)
    end.
    assert (H6 : buffer_size_kb env6 = 8192).
    { subst env6. destruct (negb (tracing_on (set_buffer_size env1 8192))); reflexivity. }
    destruct use_existing_trace_events; [exact H6|].
    destruct (disable_events_spec old (seq 0 NR_EVENTS) env6) as [(Hb & _) _].
    congruence. }
  destruct (read_trace_fails o); [intros _; exact H7|].
  destruct (restore_buffer_size_fails o); [intros _; exact H7|].
  cbn [fst]. congruence.
Qed.

Definition read_trace_failing : outcomes :=
  mk_outcomes (fun _ => false) false false false false 0 false true false.

Lemma trace_leaves_buffer_grown_witness :
  buffer_size_kb quiet_environment = 1408
  /\ fst (trace read_trace_failing false false quiet_environment) = Trace_returns (-1)
  /\ buffer_size_kb (snd (trace read_trace_failing false false quiet_environment)) = 8192.
Proof.
  split; [reflexivity|]. split; [vm_compute; reflexivity|].
  apply (trace_leaves_buffer_grown read_trace_failing false false quiet_environment).
  - right. vm_compute. discriminate.
  - reflexivity.
  - reflexivity.
  - vm_compute. discriminate.
Defined.

(** ** [trace_add_extents]: the extents of a chunk *)

(** An extent the kernel reports for the chunk [[fm_start, fm_start +
    fm_length)]: neither is empty, the extent has bytes in the chunk, and
    the ends of both and the extent's place on the disk are [off_t]
    values. *)
Definition extent_in_chunk (fm_start fm_length : Z) (extent : fiemap_extent) : Prop :=
  0 <= fm_start /\ 0 < fm_length /\ fm_start + fm_length <= OFF_MAX
  /\ 0 <= fe_logical extent /\ 0 < fe_length extent
  /\ fe_logical extent + fe_length extent <= OFF_MAX
  /\ fe_logical extent < fm_start + fm_length
  /\ fm_start < fe_logical extent + fe_length extent
  /\ 0 <= fe_physical extent /\ fe_physical extent + fe_length extent <= OFF_MAX.

(** [b] is the part of [extent] inside the chunk. *)
Definition extent_block (fm_start fm_length idx : Z) (extent : fiemap_extent)
           (b : PackBlock) : Prop :=
  pb_pathidx b = idx
  /\ 0 < pb_length b
  /\ fm_start <= pb_offset b /\ pb_offset b + pb_length b <= fm_start + fm_length
  /\ fe_logical extent <= pb_offset b
  /\ pb_offset b + pb_length b <= fe_logical extent + fe_length extent
  /\ (pb_offset b = fm_start \/ pb_offset b = fe_logical extent)
  /\ (pb_offset b + pb_length b = fm_start + fm_length
      \/ pb_offset b + pb_length b = fe_logical extent + fe_length extent)
  /\ pb_physical b - fe_physical extent = pb_offset b - fe_logical extent.

Lemma __u64_small (z : Z) : 0 <= z <= SIZE_MAX -> __u64 z = z.
Proof. intros H. unfold __u64. apply Z.mod_small. unfold SIZE_MAX in H. lia. Qed.

Lemma extent_in_chunk_stored fm_start fm_length extent :
  extent_in_chunk fm_start fm_length extent ->
  __u64 fm_start = fm_start /\ __u64 fm_length = fm_length.
Proof.
  intros (H1 & Hfl & H2 & _).
  split; apply __u64_small; unfold OFF_MAX, SIZE_MAX in *; lia.
Qed.

Lemma add_extent_block fm_start fm_length file extent :
  extent_in_chunk fm_start fm_length extent ->
  Z.land (fe_flags extent) FIEMAP_EXTENT_UNKNOWN = 0 ->
  exists b,
    add_extent fm_start fm_length file extent = add_block file b
    /\ extent_block fm_start fm_length (last_pathidx file) extent b.
Proof.
  intros (H1 & Hfl & H2 & H3 & Hlen & H4 & H5 & H6 & H7 & H8) Hknown.
  unfold add_extent. rewrite Hknown. cbn [Z.eqb negb].
  eexists. split; [reflexivity|]. unfold extent_block.
  cbn [pb_pathidx pb_offset pb_length pb_physical].
  rewrite (__u64_small (fm_start + fm_length)) by (unfold OFF_MAX, SIZE_MAX in *; lia).
  rewrite (__u64_small (fe_logical extent + fe_length extent))
    by (unfold OFF_MAX, SIZE_MAX in *; lia).
  rewrite nih_max_spec, nih_min_spec.
  rewrite (off_t_small (Z.max _ _)) by (unfold OFF_MAX in *; lia).
  rewrite (__u64_small (Z.max _ _ - _)) by (unfold OFF_MAX, SIZE_MAX in *; lia).
  rewrite (__u64_small (fe_physical extent + _)) by (unfold OFF_MAX, SIZE_MAX in *; lia).
  rewrite (off_t_small (Z.min _ _)) by (unfold OFF_MAX in *; lia).
  rewrite (off_t_small (Z.min _ _ - Z.max _ _)) by (unfold OFF_MAX in *; lia).
  rewrite (off_t_small (fe_physical extent + _)) by (unfold OFF_MAX in *; lia).
  split; [reflexivity|]. repeat (split; [lia|]). lia.
Qed.

(** X28. For a chunk whose extents the kernel reports with bytes in the
    chunk, [trace_add_extents] appends one block for each extent that is
    not flagged unknown, in the order of the extents: the part of the
    extent inside the chunk, not empty, for the last path, at the place on
    the disk where that part of the extent is.  An extent flagged unknown
    gives no block. *)
Theorem trace_add_extents_blocks (sys : system) (file : PackFile) (fd offset length : Z)
        (extents : list fiemap_extent) :
  sys_fiemap sys fd offset length = Some extents ->
  Forall (extent_in_chunk offset length) extents ->
  exists new,
    pf_blocks (trace_add_extents sys file fd offset length) = pf_blocks file ++ new
    /\ Forall2 (extent_block offset length (last_pathidx file))
               (filter (fun e => Z.land (fe_flags e) FIEMAP_EXTENT_UNKNOWN =? 0) extents)
               new.
Proof.
  intros Hfiemap Hin. unfold trace_add_extents. rewrite Hfiemap. clear Hfiemap.
  assert (Hstored : extents = []
                    \/ (__u64 offset = offset /\ __u64 length = length)).
  { destruct Hin as [|extent extents He _]; [left; reflexivity|right].
    exact (extent_in_chunk_stored _ _ _ He). }
  destruct Hstored as [->|[-> ->]];
    [exists []; split; [symmetry; apply app_nil_r|constructor]|].
  revert file. induction Hin as [|extent extents He _ IH]; intros file.
  - exists []. split; [symmetry; apply app_nil_r|constructor].
  - cbn [fold_left filter].
    destruct (Z.eqb_spec (Z.land (fe_flags extent) FIEMAP_EXTENT_UNKNOWN) 0)
      as [Hknown|Hunknown].
    + destruct (add_extent_block offset length file extent He Hknown) as (b & -> & Hb).
      destruct (IH (add_block file b)) as (new & Hnew & Hall).
      exists (b :: new). split.
      * rewrite Hnew. cbn [add_block pf_blocks]. rewrite <- app_assoc. reflexivity.
      * constructor; [exact Hb|exact Hall].
    + assert (Hskip : add_extent offset length file extent = file).
      { unfold add_extent.
        destruct (Z.eqb_spec (Z.land (fe_flags extent) FIEMAP_EXTENT_UNKNOWN) 0);
          [contradiction|reflexivity]. }
      rewrite Hskip. apply IH.
Qed.

Lemma trace_add_extents_blocks_witness :
  exists new,
    pf_blocks (trace_add_extents rotational_system
                                 (mk_PackFile 2049 true [] [mk_PackPath (-1) 7 "/bin/sh"] [])
                                 3 0 8192)
    = [] ++ new
    /\ Forall2 (extent_block 0 8192 0)
               (filter (fun e => Z.land (fe_flags e) FIEMAP_EXTENT_UNKNOWN =? 0)
                       [mk_fiemap_extent 0 4096 1048576 0;
                        mk_fiemap_extent 4096 4096 524288 0])
               new.
Proof.
  apply (trace_add_extents_blocks rotational_system
           (mk_PackFile 2049 true [] [mk_PackPath (-1) 7 "/bin/sh"] []) 3 0 8192
           [mk_fiemap_extent 0 4096 1048576 0; mk_fiemap_extent 4096 4096 524288 0]).
  - reflexivity.
  - repeat constructor; cbn; unfold OFF_MAX; lia.
Defined.
